(** * go-sq-decoder: SQ quadraphonic matrix encoder / decoder

    A shallow embedding of the numeric core of the repository
    (Hilbert transformer, block framing, SQ matrices, logic steering,
    separation metric) together with the properties stated about it.

    Conventions.
    - Go [float64] is Rocq's primitive binary64 [float]; [math.Sqrt] is the
      IEEE-754 correctly rounded square root [PrimFloat.sqrt].
    - Go [int] is modelled by [Z].  Construction panics unless
      [0 <= overlap <= blockSize] ([makeWindow] allocates [overlap]
      samples and [makeFilter] scales [impulse[0 .. overlap)]), and
      [blockSize] is a slice length; the integers that occur are such
      lengths, loop counters below them, and [numSamples + overlap] at
      most, so the 64-bit wrap-around never comes into play.  Integer
      division and remainder are Go's truncating ones ([Z.quot], [Z.rem]).
    - A slice is a [list]; reading or writing outside its bounds and
      [make] with a negative length panic, as the Go runtime does.  A
      function that can panic returns an [outcome].
    - Functions of other libraries ([math.Cos], [math.Sin], [math.Exp],
      [math.Log10], the FFT plans of algo-fft) are parameters, gathered in
      the classes [Libm] and [AlgoFFT]. *)

From Stdlib Require Import ZArith Floats Lia String.
From stdpp Require Import base list numbers.

Set Warnings "-inexact-float".
Local Open Scope Z_scope.

(** ** Go runtime: panics, slices, loops *)

Inductive panic : Type :=
| IndexOutOfRange
| IntegerDivideByZero
| MakeSliceLenOutOfRange
| PanicString (msg : string)
| PanicError.

Inductive outcome (A : Type) : Type :=
| Returned (a : A)
| Panicked (why : panic).
Arguments Returned {A} a.
Arguments Panicked {A} why.

Definition bind {A B : Type} (m : outcome A) (k : A -> outcome B) : outcome B :=
  match m with
  | Returned a => k a
  | Panicked why => Panicked why
  end.

Declare Scope go_scope.
Delimit Scope go_scope with go.
Notation "x <- m ;; k" := (bind m (fun x => k))
  (at level 100, m at next level, right associativity) : go_scope.
Local Open Scope go_scope.

(** [len(s)] *)
Definition len {A : Type} (s : list A) : Z := Z.of_nat (length s).

Definition in_bounds {A : Type} (s : list A) (i : Z) : bool :=
  (0 <=? i) && (i <? len s).

(** [s[i]] as an expression. *)
Definition index {A : Type} (s : list A) (i : Z) : outcome A :=
  if in_bounds s i then
    match s !! Z.to_nat i with
    | Some x => Returned x
    | None => Panicked IndexOutOfRange
    end
  else Panicked IndexOutOfRange.

(** [s[i] = x] as a statement. *)
Definition store {A : Type} (s : list A) (i : Z) (x : A) : outcome (list A) :=
  if in_bounds s i then Returned (<[Z.to_nat i := x]> s)
  else Panicked IndexOutOfRange.

(** [make([]T, n)] with the zero value [z] of [T]. *)
Definition make {A : Type} (z : A) (n : Z) : outcome (list A) :=
  if n <? 0 then Panicked MakeSliceLenOutOfRange
  else Returned (replicate (Z.to_nat n) z).

(** [s[i] *= x] and friends: read, modify, write back. *)
Definition modify {A : Type} (s : list A) (i : Z) (f : A -> A) : outcome (list A) :=
  x <- index s i ;; store s i (f x).

(** What one iteration of a loop body tells the loop. *)
Inductive ctl (S : Type) : Type :=
| Next (s : S)
| Break (s : S).
Arguments Next {S} s.
Arguments Break {S} s.

(** [for _, i := range idxs { body }] over the loop state [s]. *)
Fixpoint for_each {S : Type} (body : Z -> S -> outcome (ctl S))
    (idxs : list Z) (s : S) : outcome S :=
  match idxs with
  | [] => Returned s
  | i :: rest =>
      match body i s with
      | Panicked why => Panicked why
      | Returned (Break s') => Returned s'
      | Returned (Next s') => for_each body rest s'
      end
  end.

(** [for i := lo; i < hi; i++ { body }] *)
Definition for_range {S : Type} (lo hi : Z)
    (body : Z -> S -> outcome (ctl S)) (s : S) : outcome S :=
  for_each body (seqZ lo (hi - lo)) s.

(** A loop body without [break]. *)
Definition always {S : Type} (body : Z -> S -> outcome S)
    (i : Z) (s : S) : outcome (ctl S) :=
  s' <- body i s ;; Returned (Next s').

(** ** float64 and complex128 *)

(** [float64(i)] for an [int] [i]. *)
Definition float64_of_int (i : Z) : float :=
  if i <? 0 then (- PrimFloat.of_uint63 (Uint63.of_Z (- i)))%float
  else PrimFloat.of_uint63 (Uint63.of_Z i).

(** [math.Pi] as a float64: 0x1.921fb54442d18p+1. *)
Definition Pi : float := 0x1.921fb54442d18p+1%float.

Definition complex128 : Type := float * float.
Definition complex (re im : float) : complex128 := (re, im).
Definition real (c : complex128) : float := fst c.
Definition imag (c : complex128) : float := snd c.
Definition cmul (a b : complex128) : complex128 :=
  ((real a * real b - imag a * imag b)%float,
   (real a * imag b + imag a * real b)%float).
Definition czero : complex128 := (0%float, 0%float).

(** ** Collaborating libraries *)

(** The functions of Go's [math] package the code calls besides [Sqrt]. *)
Class Libm : Type := {
  Cos : float -> float;
  Sin : float -> float;
  Exp : float -> float;
  Log10 : float -> float
}.

(** algo-fft: [NewPlan64] makes a plan for one transform size or fails;
    [Forward(dst, src)] and [Inverse(dst, src)] fill [dst] or return an
    error ([None]). *)
Class AlgoFFT (Plan : Type) : Type := {
  NewPlan64 : Z -> option Plan;
  Forward : Plan -> list complex128 -> option (list complex128);
  Inverse : Plan -> list complex128 -> option (list complex128)
}.

(** A plan transforms every slice of its own size, and to that size. *)
Class AlgoFFT_total {Plan : Type} (fft : AlgoFFT Plan) : Prop := {
  Forward_total : forall n p src, NewPlan64 n = Some p -> len src = n ->
    exists dst, Forward p src = Some dst /\ len dst = n;
  Inverse_total : forall n p src, NewPlan64 n = Some p -> len src = n ->
    exists dst, Inverse p src = Some dst /\ len dst = n
}.

(** [if err := f(...); err != nil { panic(err) }] *)
Definition must {A : Type} (r : option A) : outcome A :=
  match r with
  | Some a => Returned a
  | None => Panicked PanicError
  end.

(** ** Package sqmath: the Hilbert transformer (pkg/sqmath/hilbert.go) *)

Module sqmath.

Inductive WindowType : Type :=
| WindowHann
| WindowHanning
| WindowHamming
| WindowBlackman
| WindowRectangular
| WindowUnknown (name : string).

Section WithLibraries.
Context {libm : Libm} {Plan : Type} {fft : AlgoFFT Plan}.

Record HilbertTransformer : Type := {
  blockSize : Z;
  overlap : Z;
  fftSize : Z;
  fftPlan : Plan;
  windowType : WindowType;
  window : list float;
  transferFn : list complex128;
  inputBuffer : list float;
  initialized : bool
}.

(** [for i := range window { window[i] = 1 }] *)
Definition fillOnes (window : list float) : outcome (list float) :=
  for_range 0 (len window)
    (always (fun i w => store w i 1%float)) window.

Definition hannWindow (size : Z) : outcome (list float) :=
  window <- make 0%float size ;;
  if size <=? 1 then fillOnes window
  else
    for_range 0 size
      (always (fun i w =>
         store w i (0.5 * (1 - Cos (2 * Pi * float64_of_int i
                                    / float64_of_int (size - 1))))%float))
      window.

Definition hammingWindow (size : Z) : outcome (list float) :=
  window <- make 0%float size ;;
  if size <=? 1 then fillOnes window
  else
    for_range 0 size
      (always (fun i w =>
         store w i (0.54 - 0.46 * Cos (2 * Pi * float64_of_int i
                                       / float64_of_int (size - 1)))%float))
      window.

Definition blackmanWindow (size : Z) : outcome (list float) :=
  window <- make 0%float size ;;
  if size <=? 1 then fillOnes window
  else
    for_range 0 size
      (always (fun i w =>
         let x := (2 * Pi * float64_of_int i / float64_of_int (size - 1))%float in
         store w i (0.42 - 0.5 * Cos x + 0.08 * Cos (2 * x))%float))
      window.

Definition rectangularWindow (size : Z) : outcome (list float) :=
  window <- make 0%float size ;;
  fillOnes window.

Definition makeWindow (windowType : WindowType) (size : Z) : outcome (list float) :=
  match windowType with
  | WindowHann | WindowHanning => hannWindow size
  | WindowHamming => hammingWindow size
  | WindowBlackman => blackmanWindow size
  | WindowRectangular => rectangularWindow size
  | WindowUnknown _ => Panicked (PanicString "unknown window type")
  end.

(** The first loop of [makeFilter]: the impulse response before the
    window is applied. *)
Definition impulseBody (center i : Z) (impulse : list float) : outcome (list float) :=
  if Z.rem i 2 =? 1 then
    impulse <- store impulse (center + i) (2 / (Pi * float64_of_int i))%float ;;
    store impulse (center - i) (-2 / (Pi * float64_of_int i))%float
  else Returned impulse.

Definition makeImpulse (blockSize overlap : Z) : outcome (list float) :=
  impulse <- make 0%float blockSize ;;
  let center := overlap `quot` 2 in
  for_range 0 center (always (impulseBody center)) impulse.

(** [for i := 0; i < overlap; i++ { impulse[i] *= window[i] }] *)
Definition applyWindow (overlap : Z) (window impulse : list float) : outcome (list float) :=
  for_range 0 overlap
    (always (fun i imp =>
       w <- index window i ;; modify imp i (fun x => x * w)%float))
    impulse.

(** [for i := 0; i < overlap; i++ { impulse[i] *= 1.8 }] *)
Definition applyGain (overlap : Z) (impulse : list float) : outcome (list float) :=
  for_range 0 overlap
    (always (fun i imp => modify imp i (fun x => x * 1.8)%float))
    impulse.

(** [for i := range src { dst[i] = complex(src[i], 0) }] *)
Definition toComplex (n : Z) (src : list float) (dst : list complex128)
    : outcome (list complex128) :=
  for_range 0 n
    (always (fun i d => x <- index src i ;; store d i (complex x 0%float)))
    dst.

(** [makeFilter], returning the fields it assigns: the window and the
    transfer function. *)
Definition makeFilter (blockSize overlap fftSize : Z) (plan : Plan)
    (windowType : WindowType) : outcome (list float * list complex128) :=
  impulse <- makeImpulse blockSize overlap ;;
  window <- makeWindow windowType overlap ;;
  impulse <- applyWindow overlap window impulse ;;
  impulse <- applyGain overlap impulse ;;
  impulseComplex <- make czero fftSize ;;
  impulseComplex <- toComplex (len impulse) impulse impulseComplex ;;
  _ <- make czero fftSize ;;
  transferFn <- must (Forward plan impulseComplex) ;;
  Returned (window, transferFn).

Definition NewHilbertTransformerWithWindow (blockSize overlap : Z)
    (windowType : WindowType) : outcome HilbertTransformer :=
  plan <- must (NewPlan64 blockSize) ;;
  inputBuffer <- make 0%float blockSize ;;
  filter <- makeFilter blockSize overlap blockSize plan windowType ;;
  let '(window, transferFn) := filter in
  Returned {| blockSize := blockSize;
              overlap := overlap;
              fftSize := blockSize;
              fftPlan := plan;
              windowType := windowType;
              window := window;
              transferFn := transferFn;
              inputBuffer := inputBuffer;
              initialized := true |}.

Definition NewHilbertTransformer (blockSize overlap : Z) : outcome HilbertTransformer :=
  NewHilbertTransformerWithWindow blockSize overlap WindowHann.

(** [ProcessBlock]: forward FFT, bin-wise product with the transfer
    function, inverse FFT, real part scaled by 1/fftSize. *)
Definition ProcessBlock (ht : HilbertTransformer) (input : list float)
    : outcome (list float) :=
  if negb (len input =? blockSize ht) then
    Panicked (PanicString "input size must match block size")
  else
    inputComplex <- make czero (fftSize ht) ;;
    inputComplex <- toComplex (len input) input inputComplex ;;
    _ <- make czero (fftSize ht) ;;
    freqDomain <- must (Forward (fftPlan ht) inputComplex) ;;
    freqDomain <-
      for_range 0 (fftSize ht)
        (always (fun i fd =>
           t <- index (transferFn ht) i ;; modify fd i (fun x => cmul x t)))
        freqDomain ;;
    _ <- make czero (fftSize ht) ;;
    timeDomain <- must (Inverse (fftPlan ht) freqDomain) ;;
    output <- make 0%float (blockSize ht) ;;
    let scale := (1 / float64_of_int (fftSize ht))%float in
    for_range 0 (blockSize ht)
      (always (fun i out =>
         t <- index timeDomain i ;; store out i (real t * scale)%float))
      output.

End WithLibraries.

Arguments HilbertTransformer Plan : clear implicits.

End sqmath.

(** ** Errors returned by [Process] *)

Inductive error : Type :=
| ErrChannelCount (want got : Z)   (* "input must have %d channels, got %d" *)
| ErrChannelLength.                (* "input channels must have same length" *)

(** The pair [(output, err)] a Go function returns; [None] is [nil]. *)
Definition result (A : Type) : Type := (option A * option error)%type.

(** Integer division [a / b], which panics on a zero divisor. *)
Definition int_div (a b : Z) : outcome Z :=
  if b =? 0 then Panicked IntegerDivideByZero else Returned (a `quot` b).

(** [s[c][i]] and [s[c][i] = x] on a slice of slices. *)
Definition index2 {A : Type} (s : list (list A)) (c i : Z) : outcome A :=
  ch <- index s c ;; index ch i.

Definition store2 {A : Type} (s : list (list A)) (c i : Z) (x : A)
    : outcome (list (list A)) :=
  ch <- index s c ;; ch <- store ch i x ;; store s c ch.

(** [output := make([][]float64, n); for i := 0; i < n; i++
    { output[i] = make([]float64, numSamples) }] *)
Definition makeChannels (n numSamples : Z) : outcome (list (list float)) :=
  output <- make [] n ;;
  for_range 0 n
    (always (fun i o => ch <- make 0%float numSamples ;; store o i ch))
    output.

(** ** Package decoder: the SQ decoder (internal/decoder/decoder.go) *)

Module decoder.

Definition DefaultBlockSize : Z := 1024.
Definition DefaultOverlap : Z := 512.

Section WithLibraries.
Context {libm : Libm} {Plan : Type} {fft : AlgoFFT Plan}.

Record SQDecoder : Type := {
  blockSize : Z;
  overlap : Z;
  initialDelay : Z;
  sqrt2 : float;
  hilbertLeft : sqmath.HilbertTransformer Plan;
  hilbertRight : sqmath.HilbertTransformer Plan;
  inputBufferL : list float;
  inputBufferR : list float;
  outputBuffers : list (list float);
  bufferPos : Z
}.

Definition NewSQDecoderWithParams (blockSize overlap : Z) : outcome SQDecoder :=
  let initialDelay := overlap + overlap `quot` 2 in
  hilbertLeft <- sqmath.NewHilbertTransformer blockSize overlap ;;
  hilbertRight <- sqmath.NewHilbertTransformer blockSize overlap ;;
  inputBufferL <- make 0%float blockSize ;;
  inputBufferR <- make 0%float blockSize ;;
  outputBuffers <-
    for_range 0 4
      (always (fun i o => b <- make 0%float blockSize ;; store o i b))
      (replicate 4 []) ;;
  Returned {| blockSize := blockSize;
              overlap := overlap;
              initialDelay := initialDelay;
              sqrt2 := (PrimFloat.sqrt 2 / 2)%float;
              hilbertLeft := hilbertLeft;
              hilbertRight := hilbertRight;
              inputBufferL := inputBufferL;
              inputBufferR := inputBufferR;
              outputBuffers := outputBuffers;
              bufferPos := 0 |}.

Definition NewSQDecoder : outcome SQDecoder :=
  NewSQDecoderWithParams DefaultBlockSize DefaultOverlap.

(** The block-filling loop: copy the input from [startIdx] on, leave the
    rest of the block zero. *)
Definition fillBlocks (d : SQDecoder) (input : list (list float))
    (numSamples startIdx : Z) (blocks : list float * list float)
    : outcome (list float * list float) :=
  for_range 0 (blockSize d)
    (always (fun i (b : list float * list float) =>
       let srcIdx := startIdx + i in
       if srcIdx <? numSamples then
         l <- index2 input 0 srcIdx ;;
         blockL <- store (fst b) i l ;;
         r <- index2 input 1 srcIdx ;;
         blockR <- store (snd b) i r ;;
         Returned (blockL, blockR)
       else Returned b))
    blocks.

(** The SQ decode matrix on one aligned sample. *)
Definition decodeSample (d : SQDecoder) (blockL blockR phaseShiftedL phaseShiftedR : list float)
    (numSamples startIdx inputOffset outputOffset i : Z)
    (output : list (list float)) : outcome (ctl (list (list float))) :=
  let outIdx := startIdx + i in
  if outIdx >=? numSamples then Returned (Break output)
  else
    let inIdx := inputOffset + i in
    if inIdx >=? blockSize d then Returned (Break output)
    else
      let phaseIdx := outputOffset + i in
      if phaseIdx >=? blockSize d then Returned (Break output)
      else
        lt <- index blockL inIdx ;;
        rt <- index blockR inIdx ;;
        hlt <- index phaseShiftedL phaseIdx ;;
        hrt <- index phaseShiftedR phaseIdx ;;
        output <- store2 output 0 outIdx lt ;;
        output <- store2 output 1 outIdx rt ;;
        output <- store2 output 2 outIdx (sqrt2 d * hlt - sqrt2 d * rt)%float ;;
        output <- store2 output 3 outIdx (sqrt2 d * lt - sqrt2 d * hrt)%float ;;
        Returned (Next output).

(** The body of the loop over [blockIdx]. *)
Definition processHop (d : SQDecoder) (input : list (list float))
    (numSamples blockIdx : Z) (output : list (list float))
    : outcome (list (list float)) :=
  let startIdx := blockIdx * overlap d in
  blockL <- make 0%float (blockSize d) ;;
  blockR <- make 0%float (blockSize d) ;;
  blocks <- fillBlocks d input numSamples startIdx (blockL, blockR) ;;
  let blockL := fst blocks in
  let blockR := snd blocks in
  phaseShiftedL <- sqmath.ProcessBlock (hilbertLeft d) blockL ;;
  phaseShiftedR <- sqmath.ProcessBlock (hilbertRight d) blockR ;;
  let outputOffset := overlap d `quot` 2 in
  let inputOffset := overlap d `quot` 4 in
  for_range 0 (overlap d)
    (decodeSample d blockL blockR phaseShiftedL phaseShiftedR
       numSamples startIdx inputOffset outputOffset)
    output.

Definition Process (d : SQDecoder) (input : list (list float))
    : outcome (result (list (list float))) :=
  if negb (len input =? 2) then
    Returned (None, Some (ErrChannelCount 2 (len input)))
  else
    in0 <- index input 0 ;;
    let numSamples := len in0 in
    in1 <- index input 1 ;;
    if negb (len in1 =? numSamples) then
      Returned (None, Some ErrChannelLength)
    else
      numBlocks <- int_div (numSamples + overlap d - 1) (overlap d) ;;
      output <- makeChannels 4 numSamples ;;
      output <- for_range 0 numBlocks (always (processHop d input numSamples)) output ;;
      Returned (Some output, None).

Definition GetLatency (d : SQDecoder) : Z := initialDelay d.

End WithLibraries.

Arguments SQDecoder Plan : clear implicits.

End decoder.

(** ** Package encoder: the SQ encoder (internal/encoder/encoder.go) *)

Module encoder.

Definition DefaultBlockSize : Z := 1024.
Definition DefaultOverlap : Z := 512.

Section WithLibraries.
Context {libm : Libm} {Plan : Type} {fft : AlgoFFT Plan}.

Record SQEncoder : Type := {
  blockSize : Z;
  overlap : Z;
  initialDelay : Z;
  sqrt2 : float;
  hilbertLB : sqmath.HilbertTransformer Plan;
  hilbertRB : sqmath.HilbertTransformer Plan
}.

Definition NewSQEncoderWithParams (blockSize overlap : Z) : outcome SQEncoder :=
  let initialDelay := overlap + overlap `quot` 2 in
  hilbertLB <- sqmath.NewHilbertTransformer blockSize overlap ;;
  hilbertRB <- sqmath.NewHilbertTransformer blockSize overlap ;;
  Returned {| blockSize := blockSize;
              overlap := overlap;
              initialDelay := initialDelay;
              sqrt2 := (PrimFloat.sqrt 2 / 2)%float;
              hilbertLB := hilbertLB;
              hilbertRB := hilbertRB |}.

Definition NewSQEncoder : outcome SQEncoder :=
  NewSQEncoderWithParams DefaultBlockSize DefaultOverlap.

(** The four blocks of one hop, in the order LF, RF, LB, RB. *)
Record blocks : Type := {
  blockLF : list float;
  blockRF : list float;
  blockLB : list float;
  blockRB : list float
}.

Definition fillBlocks (e : SQEncoder) (input : list (list float))
    (numSamples startIdx : Z) (b : blocks) : outcome blocks :=
  for_range 0 (blockSize e)
    (always (fun i (b : blocks) =>
       let srcIdx := startIdx + i in
       if srcIdx <? numSamples then
         x0 <- index2 input 0 srcIdx ;;
         bLF <- store (blockLF b) i x0 ;;
         x1 <- index2 input 1 srcIdx ;;
         bRF <- store (blockRF b) i x1 ;;
         x2 <- index2 input 2 srcIdx ;;
         bLB <- store (blockLB b) i x2 ;;
         x3 <- index2 input 3 srcIdx ;;
         bRB <- store (blockRB b) i x3 ;;
         Returned {| blockLF := bLF; blockRF := bRF; blockLB := bLB; blockRB := bRB |}
       else Returned b))
    b.

(** The SQ encode matrix on one aligned sample. *)
Definition encodeSample (e : SQEncoder) (b : blocks)
    (phaseShiftedLB phaseShiftedRB : list float)
    (numSamples startIdx inputOffset outputOffset i : Z)
    (output : list (list float)) : outcome (ctl (list (list float))) :=
  let outIdx := startIdx + i in
  if outIdx >=? numSamples then Returned (Break output)
  else
    let inIdx := inputOffset + i in
    if inIdx >=? blockSize e then Returned (Break output)
    else
      let phaseIdx := outputOffset + i in
      if phaseIdx >=? blockSize e then Returned (Break output)
      else
        lf <- index (blockLF b) inIdx ;;
        rf <- index (blockRF b) inIdx ;;
        lb <- index (blockLB b) inIdx ;;
        rb <- index (blockRB b) inIdx ;;
        hlb <- index phaseShiftedLB phaseIdx ;;
        hrb <- index phaseShiftedRB phaseIdx ;;
        output <- store2 output 0 outIdx (lf + sqrt2 e * rb - sqrt2 e * hlb)%float ;;
        output <- store2 output 1 outIdx (rf - sqrt2 e * lb + sqrt2 e * hrb)%float ;;
        Returned (Next output).

Definition processHop (e : SQEncoder) (input : list (list float))
    (numSamples blockIdx : Z) (output : list (list float))
    : outcome (list (list float)) :=
  let startIdx := blockIdx * overlap e in
  bLF <- make 0%float (blockSize e) ;;
  bRF <- make 0%float (blockSize e) ;;
  bLB <- make 0%float (blockSize e) ;;
  bRB <- make 0%float (blockSize e) ;;
  b <- fillBlocks e input numSamples startIdx
         {| blockLF := bLF; blockRF := bRF; blockLB := bLB; blockRB := bRB |} ;;
  phaseShiftedLB <- sqmath.ProcessBlock (hilbertLB e) (blockLB b) ;;
  phaseShiftedRB <- sqmath.ProcessBlock (hilbertRB e) (blockRB b) ;;
  let outputOffset := overlap e `quot` 2 in
  let inputOffset := overlap e `quot` 4 in
  for_range 0 (overlap e)
    (encodeSample e b phaseShiftedLB phaseShiftedRB
       numSamples startIdx inputOffset outputOffset)
    output.

(** [for i := 1; i < 4; i++ { if len(input[i]) != numSamples { return
    nil, err } }]: the loop state is whether a mismatch was found. *)
Definition sameLengths (input : list (list float)) (numSamples : Z) : outcome bool :=
  for_range 1 4
    (fun i (ok : bool) =>
       ch <- index input i ;;
       if negb (len ch =? numSamples) then Returned (Break false)
       else Returned (Next ok))
    true.

Definition Process (e : SQEncoder) (input : list (list float))
    : outcome (result (list (list float))) :=
  if negb (len input =? 4) then
    Returned (None, Some (ErrChannelCount 4 (len input)))
  else
    in0 <- index input 0 ;;
    let numSamples := len in0 in
    ok <- sameLengths input numSamples ;;
    if negb ok then Returned (None, Some ErrChannelLength)
    else
      numBlocks <- int_div (numSamples + overlap e - 1) (overlap e) ;;
      output <- makeChannels 2 numSamples ;;
      output <- for_range 0 numBlocks (always (processHop e input numSamples)) output ;;
      Returned (Some output, None).

Definition GetLatency (e : SQEncoder) : Z := initialDelay e.

End WithLibraries.

Arguments SQEncoder Plan : clear implicits.

End encoder.

(** ** Logic steering (internal/decoder/logic.go)

    [applyLogicSteering] only adds, subtracts, multiplies, divides, takes
    square roots and compares.  It is written once over those operations,
    gathered in the class [Arith], and run at binary64, the [float64] of
    the program. *)

Class Arith (F : Type) : Type := {
  zero : F;
  one : F;
  logicEpsilon : F;                 (* const logicEpsilon = 1e-12 *)
  add : F -> F -> F;
  sub : F -> F -> F;
  mul : F -> F -> F;
  div : F -> F -> F;
  sqrt : F -> F;                    (* math.Sqrt *)
  ltb : F -> F -> bool;             (* x < y *)
  leb : F -> F -> bool              (* x <= y *)
}.

Declare Scope arith_scope.
Delimit Scope arith_scope with A.
Infix "+" := add : arith_scope.
Infix "-" := sub : arith_scope.
Infix "*" := mul : arith_scope.
Infix "/" := div : arith_scope.
Notation "x <? y" := (ltb x y) : arith_scope.
Notation "x >? y" := (ltb y x) : arith_scope.
Notation "x <=? y" := (leb x y) : arith_scope.

#[export] Instance float64_arith : Arith float := {
  zero := 0%float;
  one := 1%float;
  logicEpsilon := 1e-12%float;
  add := PrimFloat.add;
  sub := PrimFloat.sub;
  mul := PrimFloat.mul;
  div := PrimFloat.div;
  sqrt := PrimFloat.sqrt;
  ltb := PrimFloat.ltb;
  leb := PrimFloat.leb
}.

Module logic.

(** A [[4]float64]. *)
Record array4 (F : Type) : Type := Array4 { at0 : F; at1 : F; at2 : F; at3 : F }.
Arguments Array4 {F} _ _ _ _.
Arguments at0 {F} _.
Arguments at1 {F} _.
Arguments at2 {F} _.
Arguments at3 {F} _.

(** [a[i]] and [a[i] = x] for the indices 0..3 the code uses. *)
Definition get4 {F : Type} (a : array4 F) (i : Z) : F :=
  if i =? 0 then at0 a else if i =? 1 then at1 a
  else if i =? 2 then at2 a else at3 a.

Definition set4 {F : Type} (a : array4 F) (i : Z) (x : F) : array4 F :=
  if i =? 0 then Array4 x (at1 a) (at2 a) (at3 a)
  else if i =? 1 then Array4 (at0 a) x (at2 a) (at3 a)
  else if i =? 2 then Array4 (at0 a) (at1 a) x (at3 a)
  else Array4 (at0 a) (at1 a) (at2 a) x.

Section Steering.
Context {F : Type} {arith : Arith F}.
Local Open Scope arith_scope.

Record LogicSteeringConfig : Type := {
  Enabled : bool;
  AttackTime : F;
  ReleaseTime : F;
  DominanceThreshold : F;
  MaxBoost : F;
  MinGain : F
}.

(** The fields of [SQDecoder] that [applyLogicSteering] reads and writes.
    (The struct is declared in decoder.go; these are the fields logic.go
    names.) *)
Record SQDecoder : Type := {
  logicEnv : array4 F;
  attackCoeff : F;
  releaseCoeff : F;
  logicConfig : LogicSteeringConfig
}.

Definition setLogicEnv (d : SQDecoder) (env : array4 F) : SQDecoder :=
  {| logicEnv := env;
     attackCoeff := attackCoeff d;
     releaseCoeff := releaseCoeff d;
     logicConfig := logicConfig d |}.

(** [for i := lo; i < hi; i++ { body }] for a body that cannot fail. *)
Definition loop {S : Type} (lo hi : Z) (body : Z -> S -> S) (s : S) : S :=
  fold_left (fun s i => body i s) (seqZ lo (hi - lo)) s.

(** Lines 37-46: the envelope followers. *)
Definition updateEnvelope (energies : array4 F) (i : Z) (d : SQDecoder) : SQDecoder :=
  let env := get4 (logicEnv d) i in
  let energy := get4 energies i in
  if energy >? env then
    setLogicEnv d (set4 (logicEnv d) i
      (attackCoeff d * env + (one - attackCoeff d) * energy))
  else
    setLogicEnv d (set4 (logicEnv d) i
      (releaseCoeff d * env + (one - releaseCoeff d) * energy)).

(** Lines 48-56: the largest envelope and its index. *)
Definition findMax (d : SQDecoder) : F * Z :=
  loop 1 4
    (fun i (m : F * Z) =>
       if get4 (logicEnv d) i >? fst m then (get4 (logicEnv d) i, i) else m)
    (get4 (logicEnv d) 0, 0).

Definition envSum (d : SQDecoder) : F :=
  get4 (logicEnv d) 0 + get4 (logicEnv d) 1 + get4 (logicEnv d) 2
  + get4 (logicEnv d) 3 + logicEpsilon.

Definition clampIntensity (intensity : F) : F :=
  if intensity <? zero then zero
  else if intensity >? one then one
  else intensity.

Definition energySum (a : array4 F) : F :=
  get4 a 0 + get4 a 1 + get4 a 2 + get4 a 3.

Definition squares (a : array4 F) : array4 F :=
  Array4 (get4 a 0 * get4 a 0) (get4 a 1 * get4 a 1)
         (get4 a 2 * get4 a 2) (get4 a 3 * get4 a 3).

Definition scaleAll (out : array4 F) (scale : F) : array4 F :=
  let out := set4 out 0 (get4 out 0 * scale) in
  let out := set4 out 1 (get4 out 1 * scale) in
  let out := set4 out 2 (get4 out 2 * scale) in
  set4 out 3 (get4 out 3 * scale).

(** Lines 63-93: boost the dominant channel, cut the others, restore the
    energy. *)
Definition steer (d : SQDecoder) (energies : array4 F) (dominance : F) (maxIdx : Z)
    (lf rf lb rb : F) : array4 F :=
  let threshold := DominanceThreshold (logicConfig d) in
  let intensity := clampIntensity ((dominance - threshold) / (one - threshold)) in
  let boost := one + (MaxBoost (logicConfig d) - one) * intensity in
  let cut := one - (one - MinGain (logicConfig d)) * intensity in
  let gains := set4 (Array4 cut cut cut cut) maxIdx boost in
  let out := Array4 (lf * get4 gains 0) (rf * get4 gains 1)
                    (lb * get4 gains 2) (rb * get4 gains 3) in
  let preEnergy := energySum energies in
  let postEnergy := energySum (squares out) in
  if (preEnergy >? logicEpsilon) && (postEnergy >? logicEpsilon) then
    scaleAll out (sqrt (preEnergy / postEnergy))
  else out.

(** The method, returning the receiver after the call and the four
    results. *)
Definition applyLogicSteering (d : SQDecoder) (lf rf lb rb : F)
    : SQDecoder * (F * F * F * F) :=
  let energies := Array4 (lf * lf) (rf * rf) (lb * lb) (rb * rb) in
  let d := loop 0 4 (updateEnvelope energies) d in
  let m := findMax d in
  let maxVal := fst m in
  let maxIdx := snd m in
  let sum := envSum d in
  let dominance := maxVal / sum in
  if dominance <=? DominanceThreshold (logicConfig d) then
    (d, (lf, rf, lb, rb))
  else
    let out := steer d energies dominance maxIdx lf rf lb rb in
    (d, (get4 out 0, get4 out 1, get4 out 2, get4 out 3)).

End Steering.

Arguments LogicSteeringConfig F : clear implicits.
Arguments SQDecoder F : clear implicits.

(** [DefaultLogicSteeringConfig] *)
Definition DefaultLogicSteeringConfig : LogicSteeringConfig float :=
  {| Enabled := false;
     AttackTime := 0.01%float;
     ReleaseTime := 0.2%float;
     DominanceThreshold := 0.55%float;
     MaxBoost := 1.6%float;
     MinGain := 0.4%float |}.

(** [timeToCoeff] *)
Definition timeToCoeff {libm : Libm} (seconds : float) (sampleRate : Z) : float :=
  if PrimFloat.leb seconds 0 || (sampleRate <=? 0) then 0%float
  else Exp (-1 / (seconds * float64_of_int sampleRate))%float.

End logic.

(** ** Package metrics: channel separation (internal/metrics) *)

Module metrics.

Definition separationEpsilon : float := 1e-12%float.

Record SeparationResult : Type := {
  TargetRMS : float;
  LeakRMS : float;
  SeparationDB : float
}.

Definition LeakMode : Type := string.
Definition LeakModeMax : LeakMode := "max"%string.
Definition LeakModeAvg : LeakMode := "avg"%string.

Record SeparationOptions : Type := {
  leakMode : LeakMode;
  SampleRate : Z;
  FMin : float;
  FMax : float
}.

Section WithLibraries.
Context {libm : Libm} {Plan : Type} {fft : AlgoFFT Plan}.
Local Open Scope float_scope.

Definition separationDB (targetRMS leakRMS : float) : float :=
  if PrimFloat.ltb separationEpsilon leakRMS && PrimFloat.ltb separationEpsilon targetRMS then
    20 * Log10 (targetRMS / leakRMS)
  else if PrimFloat.ltb separationEpsilon targetRMS && PrimFloat.leb leakRMS separationEpsilon then
    infinity
  else 0.

Definition rms (samples : list float) : float :=
  if (len samples =? 0)%Z then 0
  else
    let sum := fold_left (fun sum v => sum + v * v) samples 0 in
    PrimFloat.sqrt (sum / float64_of_int (len samples)).

(** The loop of [bandRMS] over the bins [0 .. n/2]. *)
Definition bandPower (freq : list complex128) (n sampleRate : Z) (fmin fmax : float)
    (k : Z) (sumPow : float) : outcome float :=
  let freqHz := float64_of_int k * float64_of_int sampleRate / float64_of_int n in
  if PrimFloat.ltb freqHz fmin || PrimFloat.ltb fmax freqHz then Returned sumPow
  else
    fk <- index freq k ;;
    let power := real fk * real fk + imag fk * imag fk in
    if (k =? 0)%Z || (k =? n `quot` 2)%Z then Returned (sumPow + power)
    else Returned (sumPow + 2 * power).

Definition bandRMS (samples : list float) (sampleRate : Z) (fmin fmax : float)
    : outcome float :=
  let n := len samples in
  if (n =? 0)%Z || (sampleRate <=? 0)%Z then Returned 0
  else
    let fmin := if PrimFloat.ltb fmin 0 then 0 else fmin in
    let nyquist := float64_of_int sampleRate / 2 in
    let fmax := if PrimFloat.leb fmax 0 || PrimFloat.ltb nyquist fmax then nyquist else fmax in
    if PrimFloat.ltb fmax fmin then Returned 0
    else
      match NewPlan64 n with
      | None => Returned 0
      | Some plan =>
          input <- make czero n ;;
          input <- sqmath.toComplex n samples input ;;
          _ <- make czero n ;;
          match Forward plan input with
          | None => Returned 0
          | Some freq =>
              sumPow <-
                for_range 0 (n `quot` 2 + 1)
                  (always (bandPower freq n sampleRate fmin fmax)) 0 ;;
              let nFloat := float64_of_int n in
              Returned (PrimFloat.sqrt (sumPow / (nFloat * nFloat)))
          end
      end.

Definition rmsWithOptions (samples : list float) (options : SeparationOptions)
    : outcome float :=
  if PrimFloat.leb (FMin options) 0 && PrimFloat.leb (FMax options) 0 then
    Returned (rms samples)
  else if (SampleRate options <=? 0)%Z then Returned 0
  else bandRMS samples (SampleRate options) (FMin options) (FMax options).

(** One iteration of the loop over the channels; the state is
    [(leakRMS, leakCount)]. *)
Definition leakStep (decoded : list (list float)) (target : Z)
    (options : SeparationOptions) (ch : Z) (st : float * Z) : outcome (float * Z) :=
  if (ch =? target)%Z then Returned st
  else
    samples <- index decoded ch ;;
    r <- rmsWithOptions samples options ;;
    if String.eqb (leakMode options) LeakModeAvg then
      Returned (fst st + r, (snd st + 1)%Z)
    else if PrimFloat.ltb (fst st) r then Returned (r, snd st)
    else Returned st.

Definition ChannelSeparation (decoded : list (list float)) (target : Z)
    (options : SeparationOptions) : outcome SeparationResult :=
  if (target <? 0)%Z || (target >=? len decoded)%Z then
    Returned {| TargetRMS := 0; LeakRMS := 0; SeparationDB := 0 |}
  else
    samples <- index decoded target ;;
    targetRMS <- rmsWithOptions samples options ;;
    st <- for_range 0 (len decoded) (always (leakStep decoded target options)) (0, 0%Z) ;;
    let leakRMS :=
      if String.eqb (leakMode options) LeakModeAvg && (snd st >? 0)%Z
      then fst st / float64_of_int (snd st) else fst st in
    Returned {| TargetRMS := targetRMS;
                LeakRMS := leakRMS;
                SeparationDB := separationDB targetRMS leakRMS |}.

Definition ChannelPairSeparation (decoded : list (list float)) (target leak : Z)
    (options : SeparationOptions) : outcome SeparationResult :=
  if (target <? 0)%Z || (target >=? len decoded)%Z then
    Returned {| TargetRMS := 0; LeakRMS := 0; SeparationDB := 0 |}
  else if (leak <? 0)%Z || (leak >=? len decoded)%Z then
    Returned {| TargetRMS := 0; LeakRMS := 0; SeparationDB := 0 |}
  else
    samples <- index decoded target ;;
    targetRMS <- rmsWithOptions samples options ;;
    samples <- index decoded leak ;;
    leakRMS <- rmsWithOptions samples options ;;
    Returned {| TargetRMS := targetRMS;
                LeakRMS := leakRMS;
                SeparationDB := separationDB targetRMS leakRMS |}.

End WithLibraries.
End metrics.

(** ** Package wav: the sample clamps of the writers (internal/wav/wav.go) *)

Module wav.

(** [writeWAVPCM16], lines 97-103: the value that is scaled by 32767 and
    converted to an integer. *)
Definition clampPCM16 (val : float) : float :=
  let val := if PrimFloat.ltb 1 val then 1%float else val in
  if PrimFloat.ltb val (-1) then (-1)%float else val.

(** [writeWAVFloat32], lines 191-199: the value that is converted to a
    float32 and written. *)
Definition clampFloat32 (val : float) : float :=
  if PrimFloat.ltb 1 val then 1%float
  else if PrimFloat.ltb val (-1) then (-1)%float
  else if PrimFloat.is_nan val || PrimFloat.is_infinity val then 0%float
  else val.

End wav.

(** ** Stand-ins for the collaborating libraries

    Concrete instances of [Libm] and [AlgoFFT], used only to run the
    model on concrete inputs.  [Log10] is patterned after the portable
    [math.Log10] of Go ([log2(x) * (Ln2/Ln10)] over the FreeBSD [log]
    kernel); the trigonometric functions and [Exp] are truncated Taylor
    series; the transform is the textbook O(n^2) discrete Fourier
    transform, the inverse left unnormalized.  They need not agree with
    the libraries of a given platform to the last bit or in scaling: no
    theorem depends on them. *)

Module standin.
Local Open Scope float_scope.

Definition log (x : float) : float :=
  let Ln2Hi := 0x1.62e42fee00000p-1 in
  let Ln2Lo := 0x1.a39ef35793c76p-33 in
  let L1 := 0x1.5555555555593p-1 in
  let L2 := 0x1.999999997fa04p-2 in
  let L3 := 0x1.2492494229359p-2 in
  let L4 := 0x1.c71c51d8e78afp-3 in
  let L5 := 0x1.7466496cb03dep-3 in
  let L6 := 0x1.39a09d078c69fp-3 in
  let L7 := 0x1.2f112df3e5244p-3 in
  if PrimFloat.is_nan x || PrimFloat.is_infinity x && negb (PrimFloat.get_sign x) then x
  else if PrimFloat.ltb x 0 then nan
  else if PrimFloat.is_zero x then neg_infinity
  else
    let fe := FloatOps.Z.frexp x in
    let small := PrimFloat.ltb (fst fe) (PrimFloat.sqrt 2 / 2) in
    let f1 := if small then fst fe * 2 else fst fe in
    let ki := if small then (snd fe - 1)%Z else snd fe in
    let f := f1 - 1 in
    let k := float64_of_int ki in
    let s := f / (2 + f) in
    let s2 := s * s in
    let s4 := s2 * s2 in
    let t1 := s2 * (L1 + s4 * (L3 + s4 * (L5 + s4 * L7))) in
    let t2 := s4 * (L2 + s4 * (L4 + s4 * L6)) in
    let R := t1 + t2 in
    let hfsq := 0.5 * f * f in
    k * Ln2Hi - ((hfsq - (s * (hfsq + R) + k * Ln2Lo)) - f).

Definition log2 (x : float) : float :=
  let fe := FloatOps.Z.frexp x in
  if PrimFloat.eqb (fst fe) 0.5 then float64_of_int (snd fe - 1)
  else log (fst fe) * 0x1.71547652b82fep+0 + float64_of_int (snd fe).

Definition log10 (x : float) : float := log2 x * 0x1.34413509f79ffp-2.

(** [n] terms of an alternating Taylor series in [y = x^2]: each term is
    the previous one times [-y / ((k+1)(k+2))]. *)
Fixpoint alternating (n : nat) (k : Z) (term y : float) : float :=
  match n with
  | O => 0
  | S n' =>
      term + alternating n' (k + 2) (- term * y / float64_of_int ((k + 1) * (k + 2))) y
  end.

(** [x] minus the nearest multiple of [2*pi]. *)
Definition reduce (x : float) : float :=
  let turns := (x / (2 * Pi) + 0x1.8p+52) - 0x1.8p+52 in
  x - turns * (2 * Pi).

Definition cos (x : float) : float :=
  let y := reduce x in alternating 16 0 1 (y * y).

Definition sin (x : float) : float :=
  let y := reduce x in y * alternating 16 1 1 (y * y).

(** [n] terms of the exponential series from the term [x^k / k!] on. *)
Fixpoint series (n : nat) (k : Z) (term x : float) : float :=
  match n with
  | O => 0
  | S n' => term + series n' (k + 1) (term * x / float64_of_int (k + 1)) x
  end.

Definition exp (x : float) : float := series 24 0 1 x.

#[export] Instance libm : Libm := {
  Cos := cos;
  Sin := sin;
  Exp := exp;
  Log10 := log10
}.

Definition cadd (a b : complex128) : complex128 :=
  (real a + real b, imag a + imag b).

(** Bin [k] of the transform of [src]: the sum of [src[j] * e^(sign*2*pi*i*j*k/n)]. *)
Definition dftBin (sign : float) (n : Z) (src : list complex128) (k : Z) : complex128 :=
  fold_left
    (fun acc jx =>
       let turn := float64_of_int ((fst jx * k) `mod` n) / float64_of_int n in
       let phi := sign * (2 * Pi * turn) in
       cadd acc (cmul (snd jx) (complex (cos phi) (sin phi))))
    (zip (seqZ 0 n) src) czero.

Definition dft (sign : float) (n : Z) (src : list complex128) : option (list complex128) :=
  if (len src =? n)%Z then Some (map (dftBin sign n src) (seqZ 0 n)) else None.

#[export] Instance fft : AlgoFFT Z := {
  NewPlan64 := fun n => if (0 <? n)%Z then Some n else None;
  Forward := dft (-1);
  Inverse := dft 1
}.

End standin.

(** * Properties *)

(** ** Slices as functions of the index *)

(** [holds1 s n f]: the slice [s] has length [n] and holds [f i] at [i]. *)
Definition holds1 {A : Type} (s : list A) (n : Z) (f : Z -> A) : Prop :=
  len s = n /\ forall i, 0 <= i < n -> s !! Z.to_nat i = Some (f i).

(** [holds s nch n f]: [s] has [nch] channels of [n] samples, and
    [s[c][p]] is [f c p]. *)
Definition holds {A : Type} (s : list (list A)) (nch n : Z) (f : Z -> Z -> A) : Prop :=
  holds1 s nch (fun c => default [] (s !! Z.to_nat c)) /\
  forall c, 0 <= c < nch ->
    holds1 (default [] (s !! Z.to_nat c)) n (f c).

(** [f] with the value at [i] replaced by [x]. *)
Definition upd {A : Type} (f : Z -> A) (i : Z) (x : A) : Z -> A :=
  fun j => if j =? i then x else f j.

Definition upd2 {A : Type} (f : Z -> Z -> A) (c i : Z) (x : A) : Z -> Z -> A :=
  fun c' j => if (c' =? c) && (j =? i) then x else f c' j.

Lemma len_nonneg {A : Type} (s : list A) : 0 <= len s.
Proof. unfold len. lia. Qed.

Lemma len_replicate {A : Type} (n : Z) (z : A) :
  0 <= n -> len (replicate (Z.to_nat n) z) = n.
Proof. intros Hn. unfold len. rewrite length_replicate. lia. Qed.

Lemma len_insert {A : Type} (s : list A) (i : nat) (x : A) :
  len (<[i := x]> s) = len s.
Proof. unfold len. now rewrite length_insert. Qed.

Lemma in_bounds_true {A : Type} (s : list A) (i : Z) :
  in_bounds s i = true <-> 0 <= i < len s.
Proof. unfold in_bounds. rewrite andb_true_iff, Z.leb_le, Z.ltb_lt. tauto. Qed.

Lemma in_bounds_false {A : Type} (s : list A) (i : Z) :
  in_bounds s i = false <-> ~ (0 <= i < len s).
Proof. rewrite <- in_bounds_true. destruct (in_bounds s i); intuition congruence. Qed.

Lemma index_in {A : Type} (s : list A) (i : Z) (x : A) :
  0 <= i < len s -> s !! Z.to_nat i = Some x -> index s i = Returned x.
Proof.
  intros Hi Hx. unfold index.
  apply in_bounds_true in Hi. now rewrite Hi, Hx.
Qed.

Lemma index_out {A : Type} (s : list A) (i : Z) :
  ~ (0 <= i < len s) -> index s i = Panicked IndexOutOfRange.
Proof. intros Hi. unfold index. apply in_bounds_false in Hi. now rewrite Hi. Qed.

Lemma index_inv {A : Type} (s : list A) (i : Z) (x : A) :
  index s i = Returned x -> 0 <= i < len s /\ s !! Z.to_nat i = Some x.
Proof.
  unfold index. destruct (in_bounds s i) eqn:Hb; [|discriminate].
  apply in_bounds_true in Hb.
  destruct (s !! Z.to_nat i) eqn:Hl; [|discriminate].
  intros [= ->]. auto.
Qed.

Lemma store_in {A : Type} (s : list A) (i : Z) (x : A) :
  0 <= i < len s -> store s i x = Returned (<[Z.to_nat i := x]> s).
Proof. intros Hi. unfold store. apply in_bounds_true in Hi. now rewrite Hi. Qed.

Lemma store_inv {A : Type} (s s' : list A) (i : Z) (x : A) :
  store s i x = Returned s' -> 0 <= i < len s /\ s' = <[Z.to_nat i := x]> s.
Proof.
  unfold store. destruct (in_bounds s i) eqn:Hb; [|discriminate].
  apply in_bounds_true in Hb. intros [= <-]. auto.
Qed.

Lemma make_ok {A : Type} (z : A) (n : Z) :
  0 <= n -> make z n = Returned (replicate (Z.to_nat n) z).
Proof. intros Hn. unfold make. destruct (Z.ltb_spec n 0); [lia|reflexivity]. Qed.

Lemma make_inv {A : Type} (z : A) (n : Z) (s : list A) :
  make z n = Returned s -> 0 <= n /\ s = replicate (Z.to_nat n) z.
Proof.
  unfold make. destruct (Z.ltb_spec n 0); [discriminate|].
  intros [= <-]. auto.
Qed.

Lemma holds1_len {A : Type} (s : list A) n f : holds1 s n f -> len s = n.
Proof. now intros [H _]. Qed.

Lemma holds1_ext {A : Type} (s : list A) n (f g : Z -> A) :
  (forall i, 0 <= i < n -> f i = g i) -> holds1 s n f -> holds1 s n g.
Proof.
  intros Hfg [Hl Hf]. split; [assumption|].
  intros i Hi. rewrite <- Hfg by assumption. now apply Hf.
Qed.

Lemma holds1_replicate {A : Type} (z : A) (n : Z) :
  0 <= n -> holds1 (replicate (Z.to_nat n) z) n (fun _ => z).
Proof.
  intros Hn. split; [now apply len_replicate|].
  intros i Hi. apply lookup_replicate_2. lia.
Qed.

Lemma holds1_index {A : Type} (s : list A) n f i :
  holds1 s n f -> 0 <= i < n -> index s i = Returned (f i).
Proof.
  intros [Hl Hf] Hi. apply index_in; [lia|]. now apply Hf.
Qed.

Lemma holds1_store {A : Type} (s : list A) n f i x :
  holds1 s n f -> 0 <= i < n ->
  exists s', store s i x = Returned s' /\ holds1 s' n (upd f i x).
Proof.
  intros [Hl Hf] Hi. exists (<[Z.to_nat i := x]> s). split.
  - apply store_in. lia.
  - split; [now rewrite len_insert|].
    intros j Hj. unfold upd. destruct (Z.eqb_spec j i) as [->|Hne].
    + apply list_lookup_insert_eq. unfold len in Hl. lia.
    + rewrite list_lookup_insert_ne by lia. now apply Hf.
Qed.

Lemma holds1_self {A : Type} (d : A) (s : list A) :
  holds1 s (len s) (fun i => default d (s !! Z.to_nat i)).
Proof.
  split; [reflexivity|]. intros i Hi.
  destruct (s !! Z.to_nat i) eqn:Hl; [reflexivity|].
  apply lookup_ge_None in Hl. unfold len in Hi. lia.
Qed.

Lemma holds1_lookup {A : Type} (s : list A) n f i :
  holds1 s n f -> 0 <= i < n -> s !! Z.to_nat i = Some (f i).
Proof. intros [_ Hf] Hi. now apply Hf. Qed.

(** ** Loops *)

Lemma for_range_nil {S : Type} lo hi (body : Z -> S -> outcome (ctl S)) s :
  hi <= lo -> for_range lo hi body s = Returned s.
Proof.
  intros H. unfold for_range.
  replace (seqZ lo (hi - lo)) with (@nil Z); [reflexivity|].
  symmetry. apply seqZ_nil. lia.
Qed.

Lemma for_range_step {S : Type} lo hi (body : Z -> S -> outcome (ctl S)) s :
  lo < hi ->
  for_range lo hi body s =
  match body lo s with
  | Panicked why => Panicked why
  | Returned (Break s') => Returned s'
  | Returned (Next s') => for_range (lo + 1) hi body s'
  end.
Proof.
  intros H. unfold for_range.
  rewrite (seqZ_cons lo (hi - lo)) by lia. simpl.
  replace (Z.succ lo) with (lo + 1) by lia.
  replace (Z.pred (hi - lo)) with (hi - (lo + 1)) by lia.
  reflexivity.
Qed.

(** The invariant rule: [I i] holds before iteration [i]; an iteration
    either goes on and re-establishes it, or breaks and establishes [Q]. *)
Lemma for_range_inv {S : Type} (I : Z -> S -> Prop) (Q : S -> Prop)
    lo hi (body : Z -> S -> outcome (ctl S)) s :
  lo <= hi -> I lo s ->
  (forall i s, lo <= i < hi -> I i s ->
     exists c, body i s = Returned c /\
       match c with Next s' => I (i + 1) s' | Break s' => Q s' end) ->
  exists s', for_range lo hi body s = Returned s' /\ (I hi s' \/ Q s').
Proof.
  intros Hle H0 Hstep.
  remember (Z.to_nat (hi - lo)) as k eqn:Hk.
  revert lo s Hle H0 Hstep Hk.
  induction k as [|k IH]; intros lo s Hle H0 Hstep Hk.
  - assert (hi = lo) as -> by lia.
    exists s. split; [apply for_range_nil; lia|now left].
  - assert (lo < hi) as Hlt by lia.
    rewrite for_range_step by assumption.
    destruct (Hstep lo s) as (c & Hc & Hpost); [lia|assumption|].
    rewrite Hc. destruct c as [s'|s'].
    + apply IH; [lia|assumption| |lia].
      intros i s0 Hi. apply Hstep. lia.
    + exists s'. split; [reflexivity|now right].
Qed.

(** The same for a body that never breaks. *)
Lemma for_range_always {S : Type} (I : Z -> S -> Prop)
    lo hi (body : Z -> S -> outcome S) s :
  lo <= hi -> I lo s ->
  (forall i s, lo <= i < hi -> I i s ->
     exists s', body i s = Returned s' /\ I (i + 1) s') ->
  exists s', for_range lo hi (always body) s = Returned s' /\ I hi s'.
Proof.
  intros Hle H0 Hstep.
  destruct (for_range_inv I (fun _ => False) lo hi (always body) s)
    as (s' & Hs' & [HI|[]]); try assumption.
  - intros i s0 Hi HI. destruct (Hstep i s0 Hi HI) as (s1 & Hb & H1).
    exists (Next s1). unfold always. rewrite Hb. simpl. auto.
  - eauto.
Qed.

(** Whatever a loop returned, an invariant its iterations keep holds. *)
Lemma for_range_returned {S : Type} (I : Z -> S -> Prop)
    lo hi (body : Z -> S -> outcome S) s s' :
  lo <= hi -> I lo s ->
  (forall i s s', lo <= i < hi -> I i s -> body i s = Returned s' -> I (i + 1) s') ->
  for_range lo hi (always body) s = Returned s' -> I hi s'.
Proof.
  intros Hle H0 Hstep.
  remember (Z.to_nat (hi - lo)) as k eqn:Hk.
  revert lo s Hle H0 Hstep Hk.
  induction k as [|k IH]; intros lo s Hle H0 Hstep Hk Hrun.
  - assert (hi = lo) as -> by lia.
    rewrite for_range_nil in Hrun by lia. now injection Hrun as <-.
  - rewrite for_range_step in Hrun by lia.
    unfold always at 1 in Hrun.
    destruct (body lo s) as [s1|] eqn:Hb; simpl in Hrun; [|discriminate].
    apply (IH (lo + 1) s1); try lia; try assumption.
    + apply (Hstep lo s); [lia|assumption|assumption].
    + intros i s0 s2 Hi. apply Hstep. lia.
Qed.

Lemma bind_inv {A B : Type} (m : outcome A) (k : A -> outcome B) (b : B) :
  bind m k = Returned b -> exists a, m = Returned a /\ k a = Returned b.
Proof. destruct m as [a|]; simpl; [eauto|discriminate]. Qed.

Lemma must_inv {A : Type} (r : option A) (a : A) :
  must r = Returned a -> r = Some a.
Proof. destruct r; simpl; congruence. Qed.

(** Take a successful run apart, one statement at a time. *)
Tactic Notation "unbind" hyp(H) "as" ident(a) ident(Ha) :=
  apply bind_inv in H; destruct H as (a & Ha & H).

Lemma modify_in {A : Type} (s : list A) (i : Z) (f : A -> A) :
  0 <= i < len s ->
  exists s', modify s i f = Returned s' /\ len s' = len s.
Proof.
  intros Hi. unfold modify.
  destruct (s !! Z.to_nat i) as [x|] eqn:Hx.
  - rewrite (index_in s i x Hi Hx). simpl.
    rewrite store_in by assumption. eexists. split; [reflexivity|apply len_insert].
  - apply lookup_ge_None in Hx. unfold len in Hi. lia.
Qed.

Lemma modify_len {A : Type} (s s' : list A) (i : Z) (f : A -> A) :
  modify s i f = Returned s' -> len s' = len s.
Proof.
  unfold modify. intros H. unbind H as x Hx.
  apply store_inv in H as [_ ->]. apply len_insert.
Qed.

Lemma store_len {A : Type} (s s' : list A) (i : Z) (x : A) :
  store s i x = Returned s' -> len s' = len s.
Proof. intros H. apply store_inv in H as [_ ->]. apply len_insert. Qed.

(** ** The Hilbert transformer *)

Section Hilbert.
Context {libm : Libm} {Plan : Type} {fft : AlgoFFT Plan}.

(** The impulse response after the iterations [0 .. i-1] of the first
    loop of [makeFilter], as a function of the index [k]. *)
Definition impulseAt (center i k : Z) : float :=
  let o := k - center in
  if (0 <? o) && (o <? i) && (Z.rem o 2 =? 1) then
    (2 / (Pi * float64_of_int o))%float
  else if (0 <? - o) && (- o <? i) && (Z.rem (- o) 2 =? 1) then
    (-2 / (Pi * float64_of_int (- o)))%float
  else 0%float.

Lemma rem2_odd (i : Z) : 0 <= i -> (Z.rem i 2 =? 1) = Z.odd i.
Proof.
  intros Hi. rewrite Z.rem_mod_nonneg by lia.
  rewrite Zmod_odd. now destruct (Z.odd i).
Qed.

Lemma impulseBody_step (B center i : Z) (imp : list float) :
  0 <= i ->
  ((Z.rem i 2 =? 1) = true -> 0 <= center - i /\ center + i < B) ->
  holds1 imp B (impulseAt center i) ->
  exists imp', sqmath.impulseBody center i imp = Returned imp' /\
               holds1 imp' B (impulseAt center (i + 1)).
Proof.
  intros Hi HB Himp. unfold sqmath.impulseBody.
  destruct (Z.rem i 2 =? 1) eqn:Hodd.
  - assert (i <> 0) as Hi0 by (intros ->; discriminate).
    destruct (HB eq_refl) as [HBlo HBhi].
    destruct (holds1_store imp B _ (center + i)
                (2 / (Pi * float64_of_int i))%float Himp) as (imp1 & -> & H1); [lia|].
    simpl.
    destruct (holds1_store imp1 B _ (center - i)
                (-2 / (Pi * float64_of_int i))%float H1) as (imp2 & -> & H2); [lia|].
    exists imp2. split; [reflexivity|].
    eapply holds1_ext; [|exact H2].
    intros k Hk. unfold upd, impulseAt. cbv zeta.
    destruct (Z.eqb_spec k (center - i)) as [->|Hk1].
    + replace (center - i - center) with (- i) by lia.
      replace (- - i) with i by lia. rewrite Hodd.
      destruct (Z.ltb_spec 0 (- i)); [lia|]. simpl.
      destruct (Z.ltb_spec 0 i); [|lia].
      destruct (Z.ltb_spec i (i + 1)); [|lia]. reflexivity.
    + destruct (Z.eqb_spec k (center + i)) as [->|Hk2].
      * replace (center + i - center) with i by lia. rewrite Hodd.
        destruct (Z.ltb_spec 0 i); [|lia].
        destruct (Z.ltb_spec i (i + 1)); [|lia]. reflexivity.
      * destruct (Z.ltb_spec 0 (k - center));
          destruct (Z.ltb_spec (k - center) i);
          destruct (Z.ltb_spec (k - center) (i + 1));
          destruct (Z.ltb_spec 0 (- (k - center)));
          destruct (Z.ltb_spec (- (k - center)) i);
          destruct (Z.ltb_spec (- (k - center)) (i + 1));
          try lia; reflexivity.
  - exists imp. split; [reflexivity|].
    eapply holds1_ext; [|exact Himp].
    intros k Hk. unfold impulseAt. cbv zeta.
    destruct (Z.eq_dec (k - center) i) as [->|Hk1].
    + rewrite Hodd, !andb_false_r.
      destruct (Z.ltb_spec 0 (- i)); [lia|]. reflexivity.
    + destruct (Z.eq_dec (- (k - center)) i) as [Hk2|Hk2].
      * rewrite Hk2, Hodd, !andb_false_r.
        destruct (Z.ltb_spec 0 (k - center)); [lia|]. reflexivity.
      * destruct (Z.ltb_spec 0 (k - center));
          destruct (Z.ltb_spec (k - center) i);
          destruct (Z.ltb_spec (k - center) (i + 1));
          destruct (Z.ltb_spec 0 (- (k - center)));
          destruct (Z.ltb_spec (- (k - center)) i);
          destruct (Z.ltb_spec (- (k - center)) (i + 1));
          try lia; reflexivity.
Qed.

Lemma makeImpulse_spec (B V : Z) :
  0 <= V <= B ->
  exists h, sqmath.makeImpulse B V = Returned h /\
            holds1 h B (impulseAt (V `quot` 2) (V `quot` 2)).
Proof.
  intros HV. unfold sqmath.makeImpulse.
  rewrite make_ok by lia. simpl.
  assert (0 <= V `quot` 2 /\ 2 * (V `quot` 2) <= V) as [Hc0 Hc2].
  { rewrite Z.quot_div_nonneg by lia. split; [apply Z.div_pos; lia|].
    apply Z.mul_div_le. lia. }
  apply (for_range_always (fun i imp => holds1 imp B (impulseAt (V `quot` 2) i))).
  - assumption.
  - eapply holds1_ext; [|apply holds1_replicate; lia].
    intros k Hk. unfold impulseAt. cbv zeta.
    destruct (Z.ltb_spec 0 (k - V `quot` 2));
      destruct (Z.ltb_spec (k - V `quot` 2) 0);
      destruct (Z.ltb_spec 0 (- (k - V `quot` 2)));
      destruct (Z.ltb_spec (- (k - V `quot` 2)) 0);
      try lia; reflexivity.
  - intros i imp Hi Himp. apply (impulseBody_step B); [lia|lia|assumption].
Qed.

(** The stores of a run that returned were in range. *)
Lemma impulseBody_returned (B center i : Z) (imp imp' : list float) :
  0 <= i -> holds1 imp B (impulseAt center i) ->
  sqmath.impulseBody center i imp = Returned imp' ->
  holds1 imp' B (impulseAt center (i + 1)) /\
  ((Z.rem i 2 =? 1) = true -> 0 <= center - i /\ center + i < B).
Proof.
  intros Hi Himp Hrun.
  assert ((Z.rem i 2 =? 1) = true -> 0 <= center - i /\ center + i < B) as Hrange.
  { intros Hodd. unfold sqmath.impulseBody in Hrun. rewrite Hodd in Hrun.
    unbind Hrun as imp1 Himp1.
    apply store_inv in Himp1 as [H1 ->]. apply store_inv in Hrun as [H2 _].
    rewrite len_insert in H2. rewrite (holds1_len _ _ _ Himp) in H1, H2. lia. }
  split; [|exact Hrange].
  destruct (impulseBody_step B center i imp Hi Hrange Himp) as (imp2 & Hrun2 & H2).
  congruence.
Qed.

Lemma makeImpulse_returned (B V : Z) (h : list float) :
  sqmath.makeImpulse B V = Returned h ->
  holds1 h B (impulseAt (V `quot` 2) (Z.max 0 (V `quot` 2))) /\
  forall j, 0 <= j < V `quot` 2 -> (Z.rem j 2 =? 1) = true ->
            0 <= V `quot` 2 - j /\ V `quot` 2 + j < B.
Proof.
  unfold sqmath.makeImpulse. intros H. unbind H as imp0 Himp0.
  apply make_inv in Himp0 as [HB ->].
  set (center := V `quot` 2) in *.
  assert (holds1 (replicate (Z.to_nat B) 0%float) B (impulseAt center 0)) as H0.
  { eapply holds1_ext; [|apply holds1_replicate; lia].
    intros k Hk. unfold impulseAt. cbv zeta.
    destruct (Z.ltb_spec 0 (k - center));
      destruct (Z.ltb_spec (k - center) 0);
      destruct (Z.ltb_spec 0 (- (k - center)));
      destruct (Z.ltb_spec (- (k - center)) 0);
      try lia; reflexivity. }
  destruct (Z.le_gt_cases 0 center) as [Hc|Hc].
  - rewrite Z.max_r by assumption.
    apply (for_range_returned
             (fun i imp => holds1 imp B (impulseAt center i) /\
                forall j, 0 <= j < i -> (Z.rem j 2 =? 1) = true ->
                          0 <= center - j /\ center + j < B)) in H;
      [exact H|assumption|split; [exact H0|intros; lia]|].
    intros i s s' Hi [Hs Hj] Hb.
    destruct (impulseBody_returned B center i s s' ltac:(lia) Hs Hb) as [Hs' Hi'].
    split; [exact Hs'|].
    intros j Hj' Hodd. destruct (Z.eq_dec j i) as [->|Hne]; [now apply Hi'|].
    apply Hj; [lia|assumption].
  - rewrite for_range_nil in H by lia. injection H as <-.
    rewrite Z.max_l by lia. split; [exact H0|intros; lia].
Qed.

End Hilbert.

Section HilbertBlocks.
Context {libm : Libm} {Plan : Type} {fft : AlgoFFT Plan}.

Lemma toComplex_ok (n : Z) (src : list float) (dst : list complex128) :
  0 <= n <= len src -> n <= len dst ->
  exists dst', sqmath.toComplex n src dst = Returned dst' /\ len dst' = len dst.
Proof.
  intros Hsrc Hdst. unfold sqmath.toComplex.
  apply (for_range_always (fun _ d => len d = len dst)); [lia|reflexivity|].
  intros i d Hi Hd.
  destruct (src !! Z.to_nat i) as [x|] eqn:Hx.
  - rewrite (index_in src i x) by (assumption || lia). simpl.
    rewrite store_in by lia. eexists. split; [reflexivity|].
    now rewrite len_insert.
  - apply lookup_ge_None in Hx. unfold len in Hsrc. lia.
Qed.

Lemma toComplex_len (n : Z) (src : list float) (dst dst' : list complex128) :
  sqmath.toComplex n src dst = Returned dst' -> len dst' = len dst.
Proof.
  unfold sqmath.toComplex. intros H.
  destruct (Z.le_gt_cases 0 n) as [Hn|Hn].
  - apply (for_range_returned (fun _ d => len d = len dst)) in H;
      [assumption|lia|reflexivity|].
    intros i s s' Hi Hs Hb. unbind Hb as x Hx. apply store_len in Hb. congruence.
  - rewrite for_range_nil in H by lia. now injection H as <-.
Qed.

Lemma makeImpulse_len (B V : Z) (h : list float) :
  sqmath.makeImpulse B V = Returned h -> len h = B.
Proof.
  unfold sqmath.makeImpulse. intros H. unbind H as imp Himp.
  apply make_inv in Himp as [HB ->].
  destruct (Z.le_gt_cases 0 (V `quot` 2)) as [Hn|Hn].
  - apply (for_range_returned (fun _ d => len d = B)) in H;
      [assumption|lia|now apply len_replicate|].
    intros i s s' Hi Hs Hb. unfold sqmath.impulseBody in Hb.
    destruct (Z.rem i 2 =? 1).
    + unbind Hb as s1 Hs1. apply store_len in Hb, Hs1. congruence.
    + now injection Hb as <-.
  - rewrite for_range_nil in H by lia. injection H as <-. now apply len_replicate.
Qed.

Lemma modify_loop_len {A : Type} (n : Z) (g : Z -> list A -> outcome (list A))
    (s s' : list A) :
  (forall i t t', g i t = Returned t' -> len t' = len t) ->
  for_range 0 n (always g) s = Returned s' -> len s' = len s.
Proof.
  intros Hg H.
  destruct (Z.le_gt_cases 0 n) as [Hn|Hn].
  - apply (for_range_returned (fun _ d => len d = len s)) in H;
      [assumption|lia|reflexivity|].
    intros i t t' _ Ht Hb. apply Hg in Hb. congruence.
  - rewrite for_range_nil in H by lia. now injection H as <-.
Qed.

(** What construction establishes. *)
Definition constructed (ht : sqmath.HilbertTransformer Plan) : Prop :=
  0 <= sqmath.blockSize ht /\
  sqmath.fftSize ht = sqmath.blockSize ht /\
  NewPlan64 (sqmath.blockSize ht) = Some (sqmath.fftPlan ht) /\
  len (sqmath.transferFn ht) = sqmath.blockSize ht.

Lemma makeFilter_transferFn {total : AlgoFFT_total fft}
    (B V : Z) (plan : Plan) (w : sqmath.WindowType) window tf :
  NewPlan64 B = Some plan ->
  sqmath.makeFilter B V B plan w = Returned (window, tf) -> len tf = B.
Proof.
  intros Hplan H. unfold sqmath.makeFilter in H.
  unbind H as imp0 Himp0. apply makeImpulse_len in Himp0.
  unbind H as win Hwin. unbind H as imp1 Himp1.
  assert (len imp1 = B) as Hlen1.
  { unfold sqmath.applyWindow in Himp1.
    apply modify_loop_len in Himp1; [congruence|].
    intros i t t' Hb. unbind Hb as x Hx. now apply modify_len in Hb. }
  unbind H as imp2 Himp2.
  assert (len imp2 = B) as Hlen2.
  { unfold sqmath.applyGain in Himp2.
    apply modify_loop_len in Himp2; [congruence|].
    intros i t t' Hb. now apply modify_len in Hb. }
  unbind H as ic0 Hic0. apply make_inv in Hic0 as [HB ->].
  unbind H as ic Hic. apply toComplex_len in Hic.
  rewrite len_replicate in Hic by assumption.
  unbind H as scratch Hscratch. unbind H as tf' Htf. injection H as _ <-.
  apply must_inv in Htf.
  destruct (Forward_total B plan ic Hplan Hic) as (dst & Hdst & Hlen).
  congruence.
Qed.

Lemma NewHilbertTransformerWithWindow_constructed {total : AlgoFFT_total fft}
    (B V : Z) (w : sqmath.WindowType) (ht : sqmath.HilbertTransformer Plan) :
  sqmath.NewHilbertTransformerWithWindow B V w = Returned ht ->
  constructed ht /\ sqmath.blockSize ht = B /\ sqmath.overlap ht = V.
Proof.
  unfold sqmath.NewHilbertTransformerWithWindow. intros H.
  unbind H as plan Hplan. apply must_inv in Hplan.
  unbind H as buf Hbuf. apply make_inv in Hbuf as [HB _].
  unbind H as filter Hfilter. destruct filter as [window tf].
  apply makeFilter_transferFn in Hfilter; [|assumption].
  injection H as <-. unfold constructed. simpl. auto.
Qed.

Lemma ProcessBlock_constructed {total : AlgoFFT_total fft}
    (ht : sqmath.HilbertTransformer Plan) (x : list float) :
  constructed ht -> len x = sqmath.blockSize ht ->
  exists out, sqmath.ProcessBlock ht x = Returned out /\ len out = sqmath.blockSize ht.
Proof.
  intros (HB & Hfft & Hplan & Htf) Hx. unfold sqmath.ProcessBlock.
  rewrite Hx, Z.eqb_refl, Hfft. simpl.
  set (B := sqmath.blockSize ht) in *.
  rewrite make_ok by assumption. simpl.
  destruct (toComplex_ok B x (replicate (Z.to_nat B) czero)) as (ic & -> & Hic).
  { lia. } { rewrite len_replicate; lia. }
  rewrite len_replicate in Hic by assumption. simpl.
  destruct (Forward_total B _ ic Hplan Hic) as (fd & -> & Hfd). simpl.
  destruct (for_range_always (fun _ (d : list complex128) => len d = B) 0 B
              (fun i fd0 => t <- index (sqmath.transferFn ht) i ;;
                            modify fd0 i (fun x0 => cmul x0 t)) fd)
    as (fd' & -> & Hfd'); [assumption|assumption| |].
  { intros i d Hi Hd.
    destruct (sqmath.transferFn ht !! Z.to_nat i) as [t|] eqn:Ht.
    - rewrite (index_in _ i t) by (assumption || lia). simpl.
      destruct (modify_in d i (fun x0 => cmul x0 t)) as (d' & -> & Hd'); [lia|].
      exists d'. split; [reflexivity|congruence].
    - apply lookup_ge_None in Ht. unfold len in Htf. lia. }
  simpl.
  destruct (Inverse_total B _ fd' Hplan Hfd') as (td & -> & Htd). simpl.
  rewrite make_ok by assumption. simpl.
  apply (for_range_always (fun _ (d : list float) => len d = B));
    [assumption|now apply len_replicate|].
  intros i d Hi Hd.
  destruct (td !! Z.to_nat i) as [t|] eqn:Ht.
  - rewrite (index_in _ i t) by (assumption || lia). simpl.
    rewrite store_in by lia. eexists. split; [reflexivity|].
    now rewrite len_insert.
  - apply lookup_ge_None in Ht. unfold len in Htd. lia.
Qed.

End HilbertBlocks.

(** The stand-in transform is total on slices of the plan's size. *)
#[export] Instance standin_total : AlgoFFT_total standin.fft.
Proof.
  assert (forall sign n p src,
            (if 0 <? n then Some n else None) = Some p -> len src = n ->
            exists dst, standin.dft sign p src = Some dst /\ len dst = n) as Hdft.
  { intros sign n p src Hp Hsrc.
    destruct (Z.ltb_spec 0 n); [|discriminate]. injection Hp as <-.
    unfold standin.dft. rewrite Hsrc, Z.eqb_refl.
    eexists. split; [reflexivity|].
    unfold len. rewrite length_map, length_seqZ. lia. }
  split; intros n p src; simpl; apply Hdft.
Qed.

(** C4. The impulse response [makeFilter] builds before it applies the
    window, for block size [B] and overlap [V], with [center = V/2].
    Construction got past it whenever it returned a transformer, and it
    is built whenever [0 < V <= B].  It has [B] samples; for every odd
    [i] with [0 < i < center], [h[center+i] = 2/(pi*i)] and
    [h[center-i] = -2/(pi*i)]; it is zero at every even offset from the
    center and at every index from [V] on. *)
Theorem makeImpulse_kernel {libm : Libm} {Plan : Type} {fft : AlgoFFT Plan} (B V : Z) :
  (forall w ht,
     sqmath.NewHilbertTransformerWithWindow B V w = Returned ht ->
     exists h, sqmath.makeImpulse B V = Returned h) /\
  (0 < V <= B -> exists h, sqmath.makeImpulse B V = Returned h) /\
  forall h, sqmath.makeImpulse B V = Returned h ->
    len h = B /\
    (forall i, 0 < i < V `quot` 2 -> Z.odd i = true ->
       index h (V `quot` 2 + i) = Returned (2 / (Pi * float64_of_int i))%float /\
       index h (V `quot` 2 - i) = Returned (-2 / (Pi * float64_of_int i))%float) /\
    (forall k, 0 <= k < B -> Z.even (k - V `quot` 2) = true ->
       index h k = Returned 0%float) /\
    (forall k, 0 <= k < B -> V <= k -> index h k = Returned 0%float).
Proof.
  split; [|split].
  - intros w ht H. unfold sqmath.NewHilbertTransformerWithWindow in H.
    unbind H as plan Hplan. unbind H as buf Hbuf. unbind H as filter Hfilter.
    unfold sqmath.makeFilter in Hfilter. unbind Hfilter as h Hh. eauto.
  - intros HV. destruct (makeImpulse_spec B V) as (h & Hh & _); [lia|eauto].
  - intros h Hh. apply makeImpulse_returned in Hh as [Hspec Hrange].
    set (center := V `quot` 2) in *.
    assert (0 <= V -> 0 <= center /\ 2 * center <= V) as Hcenter.
    { intros HV. unfold center. rewrite Z.quot_div_nonneg by lia.
      split; [apply Z.div_pos; lia|]. apply Z.mul_div_le. lia. }
    assert (V < 0 -> center <= 0) as Hneg.
    { intros HV. unfold center. apply Z.quot_le_upper_bound; lia. }
    split; [now apply holds1_len in Hspec|].
    split; [|split].
    + intros i Hi Hodd.
      assert ((Z.rem i 2 =? 1) = true) as Hrem by (rewrite rem2_odd; [assumption|lia]).
      destruct (Hrange i ltac:(lia) Hrem) as [Hlo Hhi].
      rewrite Z.max_r in Hspec by lia. split.
      * rewrite (holds1_index h B _ (center + i) Hspec) by lia.
        unfold impulseAt. cbv zeta.
        replace (center + i - center) with i by lia. rewrite Hrem.
        destruct (Z.ltb_spec 0 i); [|lia].
        destruct (Z.ltb_spec i center); [|lia]. reflexivity.
      * rewrite (holds1_index h B _ (center - i) Hspec) by lia.
        unfold impulseAt. cbv zeta.
        replace (center - i - center) with (- i) by lia.
        replace (- - i) with i by lia. rewrite Hrem.
        destruct (Z.ltb_spec 0 (- i)); [lia|].
        destruct (Z.ltb_spec 0 i); [|lia].
        destruct (Z.ltb_spec i center); [|lia]. reflexivity.
    + intros k Hk Heven.
      rewrite (holds1_index h B _ k Hspec) by lia.
      unfold impulseAt. cbv zeta.
      destruct (Z.ltb_spec 0 (k - center)) as [Hpos|Hnonpos].
      * rewrite rem2_odd by lia. rewrite <- Z.negb_even, Heven. simpl.
        rewrite andb_false_r.
        destruct (Z.ltb_spec 0 (- (k - center))); [lia|]. reflexivity.
      * simpl. destruct (Z.ltb_spec 0 (- (k - center))); [|reflexivity].
        rewrite rem2_odd by lia.
        rewrite <- Z.negb_even, Z.even_opp, Heven. simpl.
        rewrite andb_false_r. reflexivity.
    + intros k Hk HkV.
      rewrite (holds1_index h B _ k Hspec) by lia.
      unfold impulseAt. cbv zeta.
      destruct (Z.le_gt_cases 0 V) as [HV|HV].
      * destruct (Hcenter HV) as [Hc0 Hc2]. rewrite Z.max_r by assumption.
        destruct (Z.ltb_spec (k - center) center); [lia|].
        destruct (Z.ltb_spec 0 (- (k - center))); [lia|].
        rewrite andb_false_r. reflexivity.
      * specialize (Hneg HV). rewrite Z.max_l by assumption.
        destruct (Z.ltb_spec (k - center) 0);
          destruct (Z.ltb_spec (- (k - center)) 0);
          destruct (Z.ltb_spec 0 (k - center));
          destruct (Z.ltb_spec 0 (- (k - center)));
          try lia; reflexivity.
Qed.

Lemma makeImpulse_kernel_witness :
  exists h, sqmath.makeImpulse 16 8 = Returned h /\ len h = 16 /\
    (forall i, 0 < i < 8 `quot` 2 -> Z.odd i = true ->
       index h (8 `quot` 2 + i) = Returned (2 / (Pi * float64_of_int i))%float /\
       index h (8 `quot` 2 - i) = Returned (-2 / (Pi * float64_of_int i))%float) /\
    (forall k, 0 <= k < 16 -> Z.even (k - 8 `quot` 2) = true ->
       index h k = Returned 0%float) /\
    (forall k, 0 <= k < 16 -> 8 <= k -> index h k = Returned 0%float).
Proof.
  destruct (makeImpulse_kernel (libm := standin.libm) (fft := standin.fft) 16 8)
    as (_ & Hbuilt & Hkernel).
  destruct Hbuilt as (h & Hh); [lia|].
  exists h. split; [exact Hh|]. now apply Hkernel.
Defined.

(** The kernel for block size 16 and overlap 8, computed. *)
Example makeImpulse_16_8 :
  sqmath.makeImpulse 16 8 =
  Returned [0; (-2 / (Pi * 3)); 0; (-2 / Pi); 0; (2 / Pi); 0; (2 / (Pi * 3));
            0; 0; 0; 0; 0; 0; 0; 0]%float.
Proof. vm_compute. reflexivity. Qed.

(** C7. For a Hilbert transformer that construction returned,
    [ProcessBlock x] panics with "input size must match block size"
    whenever [len x] differs from the block size, and returns a block of
    that size (no panic, and no error value: the function has none) when
    [len x] equals it. *)
Theorem ProcessBlock_length_precondition {libm : Libm} {Plan : Type}
    {fft : AlgoFFT Plan} {total : AlgoFFT_total fft}
    (B V : Z) (w : sqmath.WindowType) (ht : sqmath.HilbertTransformer Plan) :
  sqmath.NewHilbertTransformerWithWindow B V w = Returned ht ->
  forall x : list float,
    (len x <> sqmath.blockSize ht ->
       sqmath.ProcessBlock ht x =
       Panicked (PanicString "input size must match block size")) /\
    (len x = sqmath.blockSize ht ->
       exists out, sqmath.ProcessBlock ht x = Returned out /\
                   len out = sqmath.blockSize ht).
Proof.
  intros Hnew x.
  apply NewHilbertTransformerWithWindow_constructed in Hnew as (Hok & _ & _).
  split.
  - intros Hne. unfold sqmath.ProcessBlock.
    destruct (Z.eqb_spec (len x) (sqmath.blockSize ht)); [contradiction|].
    reflexivity.
  - intros Heq. now apply ProcessBlock_constructed.
Qed.

(** The transformer for block size 8 and overlap 4 over the stand-in
    libraries, computed. *)
Definition standin_ht8 : outcome (sqmath.HilbertTransformer Z) :=
  Eval vm_compute in
    sqmath.NewHilbertTransformerWithWindow (libm := standin.libm) (fft := standin.fft)
      8 4 sqmath.WindowHann.

Lemma standin_ht8_eq :
  sqmath.NewHilbertTransformerWithWindow (libm := standin.libm) (fft := standin.fft)
    8 4 sqmath.WindowHann = standin_ht8.
Proof. vm_compute. reflexivity. Qed.

Lemma ProcessBlock_length_precondition_witness :
  exists ht,
    sqmath.NewHilbertTransformerWithWindow (libm := standin.libm) (fft := standin.fft)
      8 4 sqmath.WindowHann = Returned ht /\
    sqmath.ProcessBlock (fft := standin.fft) ht [1; 2; 3; 4; 5; 6; 7]%float =
      Panicked (PanicString "input size must match block size") /\
    exists out,
      sqmath.ProcessBlock (fft := standin.fft) ht [1; 2; 3; 4; 5; 6; 7; 8]%float
        = Returned out /\
      len out = 8.
Proof.
  pose proof standin_ht8_eq as Hnew. unfold standin_ht8 in Hnew.
  eexists. split; [exact Hnew|].
  pose proof (ProcessBlock_length_precondition 8 4 _ _ Hnew) as H.
  split.
  - apply H. discriminate.
  - apply (H [1; 2; 3; 4; 5; 6; 7; 8]%float). reflexivity.
Defined.

(** ** Multi-channel buffers *)

Lemma holds_len {A : Type} (s : list (list A)) nch n f :
  holds s nch n f -> len s = nch.
Proof. intros [[H _] _]. exact H. Qed.

Lemma holds_ext {A : Type} (s : list (list A)) nch n (f g : Z -> Z -> A) :
  (forall c p, 0 <= c < nch -> 0 <= p < n -> f c p = g c p) ->
  holds s nch n f -> holds s nch n g.
Proof.
  intros Hfg [Hs Hf]. split; [assumption|].
  intros c Hc. eapply holds1_ext; [|now apply Hf].
  intros p Hp. now apply Hfg.
Qed.

Lemma holds_channel {A : Type} (s : list (list A)) nch n f c :
  holds s nch n f -> 0 <= c < nch ->
  exists ch, index s c = Returned ch /\ holds1 ch n (f c).
Proof.
  intros [Hs Hf] Hc. exists (default [] (s !! Z.to_nat c)). split.
  - now apply (holds1_index s nch _ c Hs).
  - now apply Hf.
Qed.

Lemma holds_index2 {A : Type} (s : list (list A)) nch n f c p :
  holds s nch n f -> 0 <= c < nch -> 0 <= p < n ->
  index2 s c p = Returned (f c p).
Proof.
  intros Hs Hc Hp. unfold index2.
  destruct (holds_channel s nch n f c Hs Hc) as (ch & -> & Hch). simpl.
  now apply (holds1_index ch n).
Qed.

Lemma holds_store2 {A : Type} (s : list (list A)) nch n f c p x :
  holds s nch n f -> 0 <= c < nch -> 0 <= p < n ->
  exists s', store2 s c p x = Returned s' /\ holds s' nch n (upd2 f c p x).
Proof.
  intros Hs Hc Hp. unfold store2.
  destruct (holds_channel s nch n f c Hs Hc) as (ch & -> & Hch). simpl.
  destruct (holds1_store ch n _ p x Hch Hp) as (ch' & -> & Hch'). simpl.
  destruct Hs as [Hs Hf].
  destruct (holds1_store s nch _ c ch' Hs Hc) as (s' & -> & Hs').
  exists s'. split; [reflexivity|].
  assert (forall c', 0 <= c' < nch ->
            default [] (s' !! Z.to_nat c') =
            if c' =? c then ch' else default [] (s !! Z.to_nat c')) as Hlook.
  { intros c' Hc'. rewrite (holds1_lookup s' nch _ c' Hs' Hc'). reflexivity. }
  split.
  - split; [now apply holds1_len in Hs'|].
    intros c' Hc'. destruct (s' !! Z.to_nat c') eqn:E; [reflexivity|].
    apply lookup_ge_None in E. apply holds1_len in Hs'. unfold len in Hs'. lia.
  - intros c' Hc'. rewrite Hlook by assumption. unfold upd2.
    destruct (Z.eqb_spec c' c) as [->|Hne]; simpl.
    + eapply holds1_ext; [|exact Hch']. intros j Hj. reflexivity.
    + now apply Hf.
Qed.

(** Run the next [s[c][p] = x] of the goal on a buffer known by [holds]. *)
Ltac store2_step :=
  match goal with
  | H : holds ?s _ _ _ |- context [store2 ?s ?c ?p ?x] =>
      let o := fresh "o" in
      let Hr := fresh "Hrun" in
      let Ho := fresh "Hholds" in
      destruct (holds_store2 s _ _ _ c p x H) as (o & Hr & Ho);
      [lia|lia|]; rewrite Hr; clear Hr; simpl
  end.

Lemma makeChannels_ok (nch n : Z) :
  0 <= nch -> 0 <= n ->
  exists out, makeChannels nch n = Returned out /\
              holds out nch n (fun _ _ => 0%float).
Proof.
  intros Hnch Hn. unfold makeChannels. rewrite make_ok by assumption. simpl.
  destruct (for_range_always
              (fun i (o : list (list float)) =>
                 holds1 o nch (fun c => if c <? i then replicate (Z.to_nat n) 0%float else []))
              0 nch
              (fun i o => ch <- make 0%float n ;; store o i ch)
              (replicate (Z.to_nat nch) [])) as (out & Hout & Hinv).
  - assumption.
  - eapply holds1_ext; [|now apply holds1_replicate].
    intros c Hc. destruct (Z.ltb_spec c 0); [lia|reflexivity].
  - intros i o Hi Ho. rewrite make_ok by assumption. simpl.
    destruct (holds1_store o nch _ i (replicate (Z.to_nat n) 0%float) Ho Hi)
      as (o' & -> & Ho').
    exists o'. split; [reflexivity|].
    eapply holds1_ext; [|exact Ho']. intros c Hc. unfold upd.
    destruct (Z.eqb_spec c i) as [->|Hne].
    + destruct (Z.ltb_spec i (i + 1)); [reflexivity|lia].
    + destruct (Z.ltb_spec c i); destruct (Z.ltb_spec c (i + 1)); try lia; reflexivity.
  - exists out. split; [assumption|].
    assert (forall c, 0 <= c < nch ->
              default [] (out !! Z.to_nat c) = replicate (Z.to_nat n) 0%float) as Hlook.
    { intros c Hc. rewrite (holds1_lookup out nch _ c Hinv Hc). simpl.
      destruct (Z.ltb_spec c nch); [reflexivity|lia]. }
    split.
    + split; [now apply holds1_len in Hinv|].
      intros c Hc. destruct (out !! Z.to_nat c) eqn:E; [reflexivity|].
      apply lookup_ge_None in E. apply holds1_len in Hinv. unfold len in Hinv. lia.
    + intros c Hc. rewrite Hlook by assumption. now apply holds1_replicate.
Qed.

(** A list of two (four) channels of [n] samples each, as a buffer. *)
Lemma holds_of_channels {A : Type} (d : A) (s : list (list A)) (nch n : Z) :
  len s = nch -> (forall ch, ch ∈ s -> len ch = n) ->
  holds s nch n (fun c p => default d (default [] (s !! Z.to_nat c) !! Z.to_nat p)).
Proof.
  intros Hs Hall. split.
  - rewrite <- Hs. apply holds1_self.
  - intros c Hc.
    destruct (s !! Z.to_nat c) as [ch|] eqn:E.
    + simpl. rewrite <- (Hall ch) by (eapply list_elem_of_lookup_2; eassumption).
      apply holds1_self.
    + apply lookup_ge_None in E. unfold len in Hs. lia.
Qed.

Lemma holds1_eq {A : Type} (s : list A) n f :
  holds1 s n f -> s = map f (seqZ 0 n).
Proof.
  intros [Hl Hf]. apply list_eq. intros k.
  rewrite list_lookup_fmap.
  destruct (decide (Z.of_nat k < n)) as [Hk|Hk].
  - rewrite lookup_seqZ_lt by lia. simpl.
    specialize (Hf (Z.of_nat k)). rewrite Nat2Z.id in Hf.
    rewrite Hf by lia. first [reflexivity | do 2 f_equal; lia].
  - rewrite lookup_seqZ_ge by lia. simpl.
    apply lookup_ge_None. unfold len in Hl. lia.
Qed.

Lemma holds1_map {A : Type} (f : Z -> A) n :
  0 <= n -> holds1 (map f (seqZ 0 n)) n f.
Proof.
  intros Hn. split.
  - unfold len. rewrite length_map, length_seqZ. lia.
  - intros i Hi. rewrite list_lookup_fmap, lookup_seqZ_lt by lia.
    simpl. first [reflexivity | do 2 f_equal; lia].
Qed.

(** ** Block framing, shared by the decoder and the encoder *)

(** The zero-padded block of [B] samples that starts at [start]. *)
Definition paddedBlock (ch : list float) (B start : Z) : list float :=
  map (fun i => default 0%float (ch !! Z.to_nat (start + i))) (seqZ 0 B).

(** Iteration [i] of a hop that starts at [start] gets past the three
    [break]s of the matrix loop. *)
Definition live (B V N start i : Z) : bool :=
  (start + i <? N) && (V `quot` 4 + i <? B) && (V `quot` 2 + i <? B).

(** The buffer [f] after a hop stored [val i c] at [start + i] for the
    iterations [i] that [alive] lets through. *)
Definition afterHop (alive : Z -> bool) (val : Z -> Z -> float) (start V : Z)
    (f : Z -> Z -> float) : Z -> Z -> float :=
  fun c p =>
    if (start <=? p) && (p <? start + V) && alive (p - start)
    then val (p - start) c else f c p.

(** The buffer after the hops [0 .. nb-1]: sample [p] belongs to hop
    [p / V], at offset [p mod V]. *)
Definition afterHops (alive : Z -> Z -> bool) (val : Z -> Z -> Z -> float) (V nb : Z)
    (f : Z -> Z -> float) : Z -> Z -> float :=
  fun c p =>
    if (p / V <? nb) && alive (p / V) (p mod V)
    then val (p / V) (p mod V) c else f c p.

Lemma live_mono (B V N start i j : Z) :
  0 <= j <= i -> live B V N start i = true -> live B V N start j = true.
Proof.
  unfold live. rewrite !andb_true_iff, !Z.ltb_lt. lia.
Qed.

Lemma hop_of_sample (V b p : Z) :
  0 < V -> (b * V <= p < b * V + V <-> p / V = b).
Proof.
  intros HV. split.
  - intros Hp. symmetry. apply (Z.div_unique p V b (p - b * V)); lia.
  - intros <-. pose proof (Z.mul_div_le p V HV).
    pose proof (Z.mul_succ_div_gt p V HV). lia.
Qed.

Lemma offset_of_sample (V p : Z) : 0 < V -> p - p / V * V = p mod V.
Proof. intros HV. rewrite Z.mod_eq by lia. lia. Qed.

(** The matrix loop of one hop. *)
Lemma hop_loop (alive : Z -> bool) (val : Z -> Z -> float)
    (nch N start V : Z)
    (body : Z -> list (list float) -> outcome (ctl (list (list float))))
    (out : list (list float)) (f : Z -> Z -> float) :
  0 <= V ->
  (forall i j, 0 <= j <= i -> alive i = true -> alive j = true) ->
  (forall i o g, 0 <= i < V -> holds o nch N g ->
     if alive i then
       exists o', body i o = Returned (Next o') /\
                  holds o' nch N (fun c p => if p =? start + i then val i c else g c p)
     else body i o = Returned (Break o)) ->
  holds out nch N f ->
  exists out', for_range 0 V body out = Returned out' /\
               holds out' nch N (afterHop alive val start V f).
Proof.
  intros HV Hmono Hbody Hout.
  destruct (for_range_inv
              (fun i o => holds o nch N (afterHop alive val start i f) /\
                          forall j, 0 <= j < i -> alive j = true)
              (fun o => holds o nch N (afterHop alive val start V f))
              0 V body out) as (out' & Hrun & Hpost).
  - assumption.
  - split; [|intros j Hj; lia].
    eapply holds_ext; [|exact Hout]. intros c p _ _. unfold afterHop.
    destruct (Z.leb_spec start p); destruct (Z.ltb_spec p (start + 0));
      try lia; reflexivity.
  - intros i o Hi [Ho Hlive]. specialize (Hbody i o _ Hi Ho).
    destruct (alive i) eqn:Hai.
    + destruct Hbody as (o' & Hb & Ho'). exists (Next o'). split; [assumption|].
      split.
      * eapply holds_ext; [|exact Ho']. intros c p _ _. unfold afterHop.
        destruct (Z.eqb_spec p (start + i)) as [->|Hne].
        -- replace (start + i - start) with i by lia. rewrite Hai.
           destruct (Z.leb_spec start (start + i));
             destruct (Z.ltb_spec (start + i) (start + (i + 1))); try lia; reflexivity.
        -- destruct (Z.leb_spec start p); destruct (Z.ltb_spec p (start + i));
             destruct (Z.ltb_spec p (start + (i + 1))); try lia; reflexivity.
      * intros j Hj. destruct (Z.eq_dec j i) as [->|Hne]; [assumption|].
        apply Hlive. lia.
    + exists (Break o). split; [assumption|].
      eapply holds_ext; [|exact Ho]. intros c p _ _. unfold afterHop.
      destruct (Z.leb_spec start p); simpl; [|reflexivity].
      destruct (Z.ltb_spec p (start + i)); destruct (Z.ltb_spec p (start + V));
        simpl; try lia; try reflexivity.
      destruct (alive (p - start)) eqn:Hap; [|reflexivity].
      rewrite (Hmono (p - start) i) in Hai; [discriminate|lia|assumption].
  - exists out'. split; [assumption|]. destruct Hpost as [[H _]|H]; assumption.
Qed.

(** The loop over the hops. *)
Lemma hops_loop (alive : Z -> Z -> bool) (val : Z -> Z -> Z -> float)
    (nch N V nb : Z)
    (hop : Z -> list (list float) -> outcome (list (list float)))
    (out : list (list float)) (f : Z -> Z -> float) :
  0 < V -> 0 <= nb ->
  (forall b o g, 0 <= b < nb -> holds o nch N g ->
     exists o', hop b o = Returned o' /\
                holds o' nch N (afterHop (alive b) (val b) (b * V) V g)) ->
  holds out nch N f ->
  exists out', for_range 0 nb (always hop) out = Returned out' /\
               holds out' nch N (afterHops alive val V nb f).
Proof.
  intros HV Hnb Hhop Hout.
  apply (for_range_always (fun k o => holds o nch N (afterHops alive val V k f))).
  - assumption.
  - eapply holds_ext; [|exact Hout]. intros c p _ Hp. unfold afterHops.
    assert (0 <= p / V) by (apply Z.div_pos; lia).
    destruct (Z.ltb_spec (p / V) 0); [lia|reflexivity].
  - intros b o Hb Ho. destruct (Hhop b o _ Hb Ho) as (o' & Hrun & Ho').
    exists o'. split; [assumption|].
    eapply holds_ext; [|exact Ho']. intros c p _ Hp.
    unfold afterHop, afterHops.
    pose proof (hop_of_sample V b p HV) as Hbp.
    destruct (Z.eq_dec (p / V) b) as [Heq|Hne].
    + assert (b * V <= p < b * V + V) as Hin by (apply Hbp; assumption).
      assert (p - b * V = p mod V) as ->
          by (rewrite <- Heq; now apply offset_of_sample).
      rewrite Heq.
      destruct (Z.leb_spec (b * V) p); destruct (Z.ltb_spec p (b * V + V));
        destruct (Z.ltb_spec b (b + 1)); try lia. simpl.
      destruct (alive b (p mod V)); [reflexivity|].
      destruct (Z.ltb_spec b b); [lia|reflexivity].
    + assert (~ (b * V <= p < b * V + V)) as Hout' by tauto.
      replace ((b * V <=? p) && (p <? b * V + V)) with false
        by (destruct (Z.leb_spec (b * V) p); destruct (Z.ltb_spec p (b * V + V));
            simpl; try reflexivity; lia).
      simpl.
      destruct (Z.ltb_spec (p / V) b); destruct (Z.ltb_spec (p / V) (b + 1));
        try lia; reflexivity.
Qed.

Lemma ceil_blocks (N V p : Z) :
  0 < V -> 0 <= p < N -> 0 <= p / V < (N + V - 1) `quot` V.
Proof.
  intros HV Hp. rewrite Z.quot_div_nonneg by lia. split.
  - apply Z.div_pos; lia.
  - apply Z.div_lt_upper_bound; [lia|].
    pose proof (Z.mul_succ_div_gt (N + V - 1) V HV) as Hgt.
    rewrite Z.mul_succ_r in Hgt. lia.
Qed.

(** What [ProcessBlock] returned, or the empty slice if it panicked. *)
Definition quadrature {Plan : Type} {fft : AlgoFFT Plan}
    (ht : sqmath.HilbertTransformer Plan) (x : list float) : list float :=
  match sqmath.ProcessBlock ht x with
  | Returned y => y
  | Panicked _ => []
  end.

Lemma len_paddedBlock (ch : list float) (B start : Z) :
  0 <= B -> len (paddedBlock ch B start) = B.
Proof.
  intros HB. unfold paddedBlock, len. rewrite length_map, length_seqZ. lia.
Qed.

Lemma lookup_len {A : Type} (d : A) (s : list A) (i : Z) :
  0 <= i < len s -> s !! Z.to_nat i = Some (default d (s !! Z.to_nat i)).
Proof.
  intros Hi. destruct (s !! Z.to_nat i) eqn:E; [reflexivity|].
  apply lookup_ge_None in E. unfold len in Hi. lia.
Qed.

Lemma index_len {A : Type} (d : A) (s : list A) (i : Z) :
  0 <= i < len s -> index s i = Returned (default d (s !! Z.to_nat i)).
Proof. intros Hi. apply index_in; [assumption|now apply lookup_len]. Qed.

Lemma lookup_past {A : Type} (d : A) (s : list A) (i : Z) :
  len s <= i -> default d (s !! Z.to_nat i) = d.
Proof.
  intros Hi. replace (s !! Z.to_nat i) with (@None A); [reflexivity|].
  symmetry. apply lookup_ge_None. unfold len in Hi. lia.
Qed.

(** ** The decoder *)

Section Decoder.
Context {libm : Libm} {Plan : Type} {fft : AlgoFFT Plan} {total : AlgoFFT_total fft}.

(** The value the decode matrix stores in channel [ch] for the direct
    sample at [inIdx] and the quadrature sample at [phaseIdx]. *)
Definition decodeValue (c : float) (blockL blockR phaseShiftedL phaseShiftedR : list float)
    (inIdx phaseIdx ch : Z) : float :=
  let lt := default 0%float (blockL !! Z.to_nat inIdx) in
  let rt := default 0%float (blockR !! Z.to_nat inIdx) in
  let hlt := default 0%float (phaseShiftedL !! Z.to_nat phaseIdx) in
  let hrt := default 0%float (phaseShiftedR !! Z.to_nat phaseIdx) in
  if ch =? 0 then lt
  else if ch =? 1 then rt
  else if ch =? 2 then (c * hlt - c * rt)%float
  else (c * lt - c * hrt)%float.

(** What hop [b] stores in channel [ch] at its offset [i]. *)
Definition decoded (d : decoder.SQDecoder Plan) (in0 in1 : list float) (b i ch : Z) : float :=
  let start := b * decoder.overlap d in
  let blockL := paddedBlock in0 (decoder.blockSize d) start in
  let blockR := paddedBlock in1 (decoder.blockSize d) start in
  decodeValue (decoder.sqrt2 d) blockL blockR
    (quadrature (decoder.hilbertLeft d) blockL)
    (quadrature (decoder.hilbertRight d) blockR)
    (decoder.overlap d `quot` 4 + i) (decoder.overlap d `quot` 2 + i) ch.

(** What [NewSQDecoderWithParams] establishes. *)
Definition decoder_ok (d : decoder.SQDecoder Plan) : Prop :=
  0 <= decoder.blockSize d /\
  decoder.sqrt2 d = (PrimFloat.sqrt 2 / 2)%float /\
  constructed (decoder.hilbertLeft d) /\
  sqmath.blockSize (decoder.hilbertLeft d) = decoder.blockSize d /\
  constructed (decoder.hilbertRight d) /\
  sqmath.blockSize (decoder.hilbertRight d) = decoder.blockSize d.

Lemma NewSQDecoderWithParams_ok (B V : Z) (d : decoder.SQDecoder Plan) :
  decoder.NewSQDecoderWithParams B V = Returned d ->
  decoder_ok d /\ decoder.blockSize d = B /\ decoder.overlap d = V.
Proof.
  unfold decoder.NewSQDecoderWithParams, sqmath.NewHilbertTransformer. intros H.
  unbind H as hl Hhl. unbind H as hr Hhr.
  apply NewHilbertTransformerWithWindow_constructed in Hhl as (Hl & HlB & _).
  apply NewHilbertTransformerWithWindow_constructed in Hhr as (Hr & HrB & _).
  unbind H as bl Hbl. apply make_inv in Hbl as [HB _].
  unbind H as br Hbr. unbind H as ob Hob.
  injection H as <-. unfold decoder_ok. simpl. auto 10.
Qed.

Lemma fillBlocks_decoder (d : decoder.SQDecoder Plan) (in0 in1 : list float)
    (N start : Z) :
  0 <= decoder.blockSize d -> 0 <= start -> len in0 = N -> len in1 = N ->
  decoder.fillBlocks d [in0; in1] N start
    (replicate (Z.to_nat (decoder.blockSize d)) 0%float,
     replicate (Z.to_nat (decoder.blockSize d)) 0%float)
  = Returned (paddedBlock in0 (decoder.blockSize d) start,
              paddedBlock in1 (decoder.blockSize d) start).
Proof.
  intros HB Hstart H0 H1. unfold decoder.fillBlocks.
  set (B := decoder.blockSize d) in *.
  set (pad := fun (ch : list float) (i k : Z) =>
                if k <? i then default 0%float (ch !! Z.to_nat (start + k)) else 0%float).
  destruct (for_range_always
              (fun i (b : list float * list float) =>
                 holds1 (fst b) B (pad in0 i) /\ holds1 (snd b) B (pad in1 i))
              0 B
              (fun i (b : list float * list float) =>
                 let srcIdx := start + i in
                 if srcIdx <? N then
                   l <- index2 [in0; in1] 0 srcIdx ;;
                   blockL <- store (fst b) i l ;;
                   r <- index2 [in0; in1] 1 srcIdx ;;
                   blockR <- store (snd b) i r ;;
                   Returned (blockL, blockR)
                 else Returned b)
              (replicate (Z.to_nat B) 0%float, replicate (Z.to_nat B) 0%float))
    as (b & Hrun & HbL & HbR).
  - assumption.
  - simpl. split; (eapply holds1_ext; [|now apply holds1_replicate]);
      intros k Hk; unfold pad; destruct (Z.ltb_spec k 0); try lia; reflexivity.
  - intros i [bL bR] Hi [HL HR]. simpl in HL, HR. cbv zeta.
    destruct (Z.ltb_spec (start + i) N) as [Hin|Hpast].
    + unfold index2. simpl.
      rewrite (index_len 0%float in0) by lia. simpl.
      destruct (holds1_store bL B _ i (default 0%float (in0 !! Z.to_nat (start + i))) HL Hi)
        as (bL' & -> & HL'). simpl.
      rewrite (index_len 0%float in1) by lia. simpl.
      destruct (holds1_store bR B _ i (default 0%float (in1 !! Z.to_nat (start + i))) HR Hi)
        as (bR' & -> & HR'). simpl.
      exists (bL', bR'). split; [reflexivity|]. simpl.
      split; (eapply holds1_ext; [|eassumption]); intros k Hk; unfold upd, pad;
        destruct (Z.eqb_spec k i);
        destruct (Z.ltb_spec k i); destruct (Z.ltb_spec k (i + 1));
        try lia; subst; reflexivity.
    + exists (bL, bR). split; [reflexivity|]. simpl.
      split; (eapply holds1_ext; [|eassumption]); intros k Hk; unfold pad;
        destruct (Z.ltb_spec k i); destruct (Z.ltb_spec k (i + 1));
        try lia; try reflexivity;
        assert (k = i) as -> by lia; symmetry; apply lookup_past; lia.
  - transitivity (Returned b); [exact Hrun|].
    f_equal. destruct b as [bL bR]. simpl in HbL, HbR.
    f_equal; unfold paddedBlock.
    + rewrite (holds1_eq bL B _ HbL). apply map_ext_in. intros k Hk.
      apply list_elem_of_In, elem_of_seqZ in Hk. unfold pad.
      destruct (Z.ltb_spec k B); [reflexivity|lia].
    + rewrite (holds1_eq bR B _ HbR). apply map_ext_in. intros k Hk.
      apply list_elem_of_In, elem_of_seqZ in Hk. unfold pad.
      destruct (Z.ltb_spec k B); [reflexivity|lia].
Qed.

Lemma geb_ltb (a b : Z) : (a >=? b) = negb (a <? b).
Proof.
  rewrite Z.geb_leb. destruct (Z.leb_spec b a); destruct (Z.ltb_spec a b);
    try lia; reflexivity.
Qed.

Lemma quot_nonneg (V k : Z) : 0 <= V -> 0 < k -> 0 <= V `quot` k.
Proof. intros HV Hk. apply Z.quot_pos; lia. Qed.

Lemma decodeSample_spec (d : decoder.SQDecoder Plan)
    (bL bR phL phR : list float) (N start i : Z)
    (o : list (list float)) (g : Z -> Z -> float) :
  0 <= start -> 0 <= i -> 0 <= decoder.overlap d ->
  len bL = decoder.blockSize d -> len bR = decoder.blockSize d ->
  len phL = decoder.blockSize d -> len phR = decoder.blockSize d ->
  holds o 4 N g ->
  if live (decoder.blockSize d) (decoder.overlap d) N start i then
    exists o',
      decoder.decodeSample d bL bR phL phR N start
        (decoder.overlap d `quot` 4) (decoder.overlap d `quot` 2) i o
      = Returned (Next o') /\
      holds o' 4 N
        (fun c p =>
           if p =? start + i
           then decodeValue (decoder.sqrt2 d) bL bR phL phR
                  (decoder.overlap d `quot` 4 + i) (decoder.overlap d `quot` 2 + i) c
           else g c p)
  else
    decoder.decodeSample d bL bR phL phR N start
      (decoder.overlap d `quot` 4) (decoder.overlap d `quot` 2) i o
    = Returned (Break o).
Proof.
  intros Hstart Hi HV HbL HbR HphL HphR Ho.
  pose proof (quot_nonneg (decoder.overlap d) 4 HV ltac:(lia)) as H4.
  pose proof (quot_nonneg (decoder.overlap d) 2 HV ltac:(lia)) as H2.
  unfold live, decoder.decodeSample. cbv zeta. rewrite !geb_ltb.
  destruct (Z.ltb_spec (start + i) N) as [Hout|Hout]; simpl; [|reflexivity].
  destruct (Z.ltb_spec (decoder.overlap d `quot` 4 + i) (decoder.blockSize d))
    as [Hin|Hin]; simpl; [|reflexivity].
  destruct (Z.ltb_spec (decoder.overlap d `quot` 2 + i) (decoder.blockSize d))
    as [Hph|Hph]; simpl; [|reflexivity].
  rewrite (index_len 0%float bL), (index_len 0%float bR) by lia. simpl.
  rewrite (index_len 0%float phL), (index_len 0%float phR) by lia. simpl.
  do 4 store2_step.
  eexists. split; [reflexivity|].
  eapply holds_ext; [|eassumption].
  intros c p Hc Hp. unfold upd2, decodeValue. cbv zeta.
  destruct (Z.eqb_spec p (start + i)) as [->|Hne].
  - assert (c = 0 \/ c = 1 \/ c = 2 \/ c = 3) as [ -> | [ -> | [ -> | -> ] ] ] by lia;
      reflexivity.
  - rewrite !andb_false_r. reflexivity.
Qed.

Lemma processHop_decoder (d : decoder.SQDecoder Plan) (in0 in1 : list float)
    (N b : Z) (o : list (list float)) (g : Z -> Z -> float) :
  decoder_ok d -> 0 <= decoder.overlap d -> 0 <= b ->
  len in0 = N -> len in1 = N -> holds o 4 N g ->
  exists o',
    decoder.processHop d [in0; in1] N b o = Returned o' /\
    holds o' 4 N
      (afterHop (live (decoder.blockSize d) (decoder.overlap d) N (b * decoder.overlap d))
                (decoded d in0 in1 b) (b * decoder.overlap d) (decoder.overlap d) g).
Proof.
  intros (HB & _ & HcL & HBL & HcR & HBR) HV Hb H0 H1 Ho.
  unfold decoder.processHop. cbv zeta.
  rewrite make_ok by assumption. simpl.
  assert (0 <= b * decoder.overlap d) as Hstart by (apply Z.mul_nonneg_nonneg; lia).
  rewrite (fillBlocks_decoder d in0 in1 N _ HB Hstart H0 H1). simpl.
  set (bL := paddedBlock in0 (decoder.blockSize d) (b * decoder.overlap d)).
  set (bR := paddedBlock in1 (decoder.blockSize d) (b * decoder.overlap d)).
  assert (len bL = decoder.blockSize d) as HbL by now apply len_paddedBlock.
  assert (len bR = decoder.blockSize d) as HbR by now apply len_paddedBlock.
  destruct (ProcessBlock_constructed (decoder.hilbertLeft d) bL HcL)
    as (phL & HphL & HlenL); [congruence|].
  destruct (ProcessBlock_constructed (decoder.hilbertRight d) bR HcR)
    as (phR & HphR & HlenR); [congruence|].
  rewrite HphL. simpl. rewrite HphR. simpl.
  assert (forall i c, decoded d in0 in1 b i c =
            decodeValue (decoder.sqrt2 d) bL bR phL phR
              (decoder.overlap d `quot` 4 + i) (decoder.overlap d `quot` 2 + i) c) as Hval.
  { intros i c. unfold decoded, quadrature. cbv zeta. fold bL bR.
    rewrite HphL, HphR. reflexivity. }
  apply hop_loop; [assumption| |  |assumption].
  - intros i j Hj. apply live_mono. assumption.
  - intros i o1 g1 Hi Ho1.
    pose proof (decodeSample_spec d bL bR phL phR N (b * decoder.overlap d) i o1 g1)
      as Hs.
    destruct (live (decoder.blockSize d) (decoder.overlap d) N (b * decoder.overlap d) i).
    + destruct Hs as (o' & Hrun & Ho'); try assumption; try lia; try congruence.
      exists o'. split; [assumption|].
      eapply holds_ext; [|exact Ho']. intros c p _ _.
      rewrite Hval. reflexivity.
    + apply Hs; try assumption; try lia; congruence.
Qed.

(** The decoder on a well-formed input: no error, no panic, and sample
    [p] of channel [c] is what hop [p / overlap] stored at offset
    [p mod overlap], or zero if that iteration was cut off. *)
Lemma Process_decoder (d : decoder.SQDecoder Plan) (in0 in1 : list float) (N : Z) :
  decoder_ok d -> 0 < decoder.overlap d ->
  len in0 = N -> len in1 = N ->
  exists out,
    decoder.Process d [in0; in1] = Returned (Some out, None) /\
    holds out 4 N
      (fun c p =>
         if live (decoder.blockSize d) (decoder.overlap d) N
                 (p / decoder.overlap d * decoder.overlap d) (p mod decoder.overlap d)
         then decoded d in0 in1 (p / decoder.overlap d) (p mod decoder.overlap d) c
         else 0%float).
Proof.
  intros Hok HV H0 H1. unfold decoder.Process. simpl.
  rewrite H0, H1, Z.eqb_refl. simpl.
  unfold int_div. destruct (Z.eqb_spec (decoder.overlap d) 0) as [|_]; [lia|]. simpl.
  pose proof (len_nonneg in0) as HN. rewrite H0 in HN.
  destruct (makeChannels_ok 4 N) as (out0 & -> & Hout0); [lia|assumption|]. simpl.
  set (V := decoder.overlap d) in *.
  destruct (hops_loop
              (fun b => live (decoder.blockSize d) V N (b * V))
              (decoded d in0 in1) 4 N V ((N + V - 1) `quot` V)
              (decoder.processHop d [in0; in1] N) out0 (fun _ _ => 0%float))
    as (out & -> & Hout); try assumption.
  - apply Z.quot_pos; lia.
  - intros b o g Hb Ho. apply processHop_decoder; try assumption; lia.
  - simpl. exists out. split; [reflexivity|].
    eapply holds_ext; [|exact Hout]. intros c p Hc Hp. unfold afterHops.
    destruct (ceil_blocks N V p HV Hp) as [_ Hlt].
    destruct (Z.ltb_spec (p / V) ((N + V - 1) `quot` V)); [|lia]. reflexivity.
Qed.

End Decoder.

(** ** The encoder *)

Section Encoder.
Context {libm : Libm} {Plan : Type} {fft : AlgoFFT Plan} {total : AlgoFFT_total fft}.

(** The value the encode matrix stores in channel [ch]. *)
Definition encodeValue (c : float) (b : encoder.blocks)
    (phaseShiftedLB phaseShiftedRB : list float) (inIdx phaseIdx ch : Z) : float :=
  let lf := default 0%float (encoder.blockLF b !! Z.to_nat inIdx) in
  let rf := default 0%float (encoder.blockRF b !! Z.to_nat inIdx) in
  let lb := default 0%float (encoder.blockLB b !! Z.to_nat inIdx) in
  let rb := default 0%float (encoder.blockRB b !! Z.to_nat inIdx) in
  let hlb := default 0%float (phaseShiftedLB !! Z.to_nat phaseIdx) in
  let hrb := default 0%float (phaseShiftedRB !! Z.to_nat phaseIdx) in
  if ch =? 0 then (lf + c * rb - c * hlb)%float
  else (rf - c * lb + c * hrb)%float.

(** The four zero-padded blocks of the hop that starts at [start]. *)
Definition paddedBlocks (in0 in1 in2 in3 : list float) (B start : Z) : encoder.blocks :=
  {| encoder.blockLF := paddedBlock in0 B start;
     encoder.blockRF := paddedBlock in1 B start;
     encoder.blockLB := paddedBlock in2 B start;
     encoder.blockRB := paddedBlock in3 B start |}.

(** What hop [b] stores in channel [ch] at its offset [i]. *)
Definition encoded (e : encoder.SQEncoder Plan) (in0 in1 in2 in3 : list float)
    (b i ch : Z) : float :=
  let blk := paddedBlocks in0 in1 in2 in3 (encoder.blockSize e) (b * encoder.overlap e) in
  encodeValue (encoder.sqrt2 e) blk
    (quadrature (encoder.hilbertLB e) (encoder.blockLB blk))
    (quadrature (encoder.hilbertRB e) (encoder.blockRB blk))
    (encoder.overlap e `quot` 4 + i) (encoder.overlap e `quot` 2 + i) ch.

(** What [NewSQEncoderWithParams] establishes. *)
Definition encoder_ok (e : encoder.SQEncoder Plan) : Prop :=
  0 <= encoder.blockSize e /\
  encoder.sqrt2 e = (PrimFloat.sqrt 2 / 2)%float /\
  constructed (encoder.hilbertLB e) /\
  sqmath.blockSize (encoder.hilbertLB e) = encoder.blockSize e /\
  constructed (encoder.hilbertRB e) /\
  sqmath.blockSize (encoder.hilbertRB e) = encoder.blockSize e.

Lemma NewSQEncoderWithParams_ok (B V : Z) (e : encoder.SQEncoder Plan) :
  encoder.NewSQEncoderWithParams B V = Returned e ->
  encoder_ok e /\ encoder.blockSize e = B /\ encoder.overlap e = V.
Proof.
  unfold encoder.NewSQEncoderWithParams, sqmath.NewHilbertTransformer. intros H.
  unbind H as hl Hhl. unbind H as hr Hhr.
  apply NewHilbertTransformerWithWindow_constructed in Hhl as (Hl & HlB & _).
  apply NewHilbertTransformerWithWindow_constructed in Hhr as (Hr & HrB & _).
  destruct Hl as (HB & Hl'). pose proof (conj HB Hl') as Hl.
  injection H as <-. unfold encoder_ok. simpl. rewrite <- HlB at 1. auto 10.
Qed.

Lemma fillBlocks_encoder (e : encoder.SQEncoder Plan) (in0 in1 in2 in3 : list float)
    (N start : Z) :
  0 <= encoder.blockSize e -> 0 <= start ->
  len in0 = N -> len in1 = N -> len in2 = N -> len in3 = N ->
  let zeros := replicate (Z.to_nat (encoder.blockSize e)) 0%float in
  encoder.fillBlocks e [in0; in1; in2; in3] N start
    {| encoder.blockLF := zeros; encoder.blockRF := zeros;
       encoder.blockLB := zeros; encoder.blockRB := zeros |}
  = Returned (paddedBlocks in0 in1 in2 in3 (encoder.blockSize e) start).
Proof.
  intros HB Hstart H0 H1 H2 H3 zeros. unfold encoder.fillBlocks.
  set (B := encoder.blockSize e) in *.
  set (pad := fun (ch : list float) (i k : Z) =>
                if k <? i then default 0%float (ch !! Z.to_nat (start + k)) else 0%float).
  destruct (for_range_always
              (fun i (b : encoder.blocks) =>
                 holds1 (encoder.blockLF b) B (pad in0 i) /\
                 holds1 (encoder.blockRF b) B (pad in1 i) /\
                 holds1 (encoder.blockLB b) B (pad in2 i) /\
                 holds1 (encoder.blockRB b) B (pad in3 i))
              0 B
              (fun i (b : encoder.blocks) =>
                 let srcIdx := start + i in
                 if srcIdx <? N then
                   x0 <- index2 [in0; in1; in2; in3] 0 srcIdx ;;
                   bLF <- store (encoder.blockLF b) i x0 ;;
                   x1 <- index2 [in0; in1; in2; in3] 1 srcIdx ;;
                   bRF <- store (encoder.blockRF b) i x1 ;;
                   x2 <- index2 [in0; in1; in2; in3] 2 srcIdx ;;
                   bLB <- store (encoder.blockLB b) i x2 ;;
                   x3 <- index2 [in0; in1; in2; in3] 3 srcIdx ;;
                   bRB <- store (encoder.blockRB b) i x3 ;;
                   Returned {| encoder.blockLF := bLF; encoder.blockRF := bRF;
                               encoder.blockLB := bLB; encoder.blockRB := bRB |}
                 else Returned b)
              {| encoder.blockLF := zeros; encoder.blockRF := zeros;
                 encoder.blockLB := zeros; encoder.blockRB := zeros |})
    as (b & Hrun & HLF & HRF & HLB & HRB).
  - assumption.
  - simpl. (split; [|split; [|split]]); (eapply holds1_ext; [|now apply holds1_replicate]);
      intros k Hk; unfold pad; destruct (Z.ltb_spec k 0); try lia; reflexivity.
  - intros i [bLF bRF bLB bRB] Hi (HLF & HRF & HLB & HRB).
    simpl in HLF, HRF, HLB, HRB. cbv zeta.
    destruct (Z.ltb_spec (start + i) N) as [Hin|Hpast].
    + unfold index2. simpl.
      rewrite (index_len 0%float in0) by lia. simpl.
      destruct (holds1_store bLF B _ i (default 0%float (in0 !! Z.to_nat (start + i))) HLF Hi)
        as (bLF' & -> & HLF'). simpl.
      rewrite (index_len 0%float in1) by lia. simpl.
      destruct (holds1_store bRF B _ i (default 0%float (in1 !! Z.to_nat (start + i))) HRF Hi)
        as (bRF' & -> & HRF'). simpl.
      rewrite (index_len 0%float in2) by lia. simpl.
      destruct (holds1_store bLB B _ i (default 0%float (in2 !! Z.to_nat (start + i))) HLB Hi)
        as (bLB' & -> & HLB'). simpl.
      rewrite (index_len 0%float in3) by lia. simpl.
      destruct (holds1_store bRB B _ i (default 0%float (in3 !! Z.to_nat (start + i))) HRB Hi)
        as (bRB' & -> & HRB'). simpl.
      eexists. split; [reflexivity|]. simpl.
      (split; [|split; [|split]]); (eapply holds1_ext; [|eassumption]); intros k Hk; unfold upd, pad;
        destruct (Z.eqb_spec k i);
        destruct (Z.ltb_spec k i); destruct (Z.ltb_spec k (i + 1));
        try lia; subst; reflexivity.
    + eexists. split; [reflexivity|]. simpl.
      (split; [|split; [|split]]); (eapply holds1_ext; [|eassumption]); intros k Hk; unfold pad;
        destruct (Z.ltb_spec k i); destruct (Z.ltb_spec k (i + 1));
        try lia; try reflexivity;
        assert (k = i) as -> by lia; symmetry; apply lookup_past; lia.
  - transitivity (Returned b); [exact Hrun|].
    f_equal. destruct b as [bLF bRF bLB bRB]. simpl in HLF, HRF, HLB, HRB.
    unfold paddedBlocks, paddedBlock.
    f_equal;
      match goal with
      | H : holds1 ?s B _ |- ?s = _ =>
          rewrite (holds1_eq s B _ H); apply map_ext_in; intros k Hk;
          apply list_elem_of_In, elem_of_seqZ in Hk; unfold pad;
          destruct (Z.ltb_spec k B); [reflexivity|lia]
      end.
Qed.

Lemma encodeSample_spec (e : encoder.SQEncoder Plan) (blk : encoder.blocks)
    (phLB phRB : list float) (N start i : Z)
    (o : list (list float)) (g : Z -> Z -> float) :
  0 <= start -> 0 <= i -> 0 <= encoder.overlap e ->
  len (encoder.blockLF blk) = encoder.blockSize e ->
  len (encoder.blockRF blk) = encoder.blockSize e ->
  len (encoder.blockLB blk) = encoder.blockSize e ->
  len (encoder.blockRB blk) = encoder.blockSize e ->
  len phLB = encoder.blockSize e -> len phRB = encoder.blockSize e ->
  holds o 2 N g ->
  if live (encoder.blockSize e) (encoder.overlap e) N start i then
    exists o',
      encoder.encodeSample e blk phLB phRB N start
        (encoder.overlap e `quot` 4) (encoder.overlap e `quot` 2) i o
      = Returned (Next o') /\
      holds o' 2 N
        (fun c p =>
           if p =? start + i
           then encodeValue (encoder.sqrt2 e) blk phLB phRB
                  (encoder.overlap e `quot` 4 + i) (encoder.overlap e `quot` 2 + i) c
           else g c p)
  else
    encoder.encodeSample e blk phLB phRB N start
      (encoder.overlap e `quot` 4) (encoder.overlap e `quot` 2) i o
    = Returned (Break o).
Proof.
  intros Hstart Hi HV HLF HRF HLB HRB HphL HphR Ho.
  pose proof (quot_nonneg (encoder.overlap e) 4 HV ltac:(lia)) as H4.
  pose proof (quot_nonneg (encoder.overlap e) 2 HV ltac:(lia)) as H2.
  unfold live, encoder.encodeSample. cbv zeta. rewrite !geb_ltb.
  destruct (Z.ltb_spec (start + i) N) as [Hout|Hout]; simpl; [|reflexivity].
  destruct (Z.ltb_spec (encoder.overlap e `quot` 4 + i) (encoder.blockSize e))
    as [Hin|Hin]; simpl; [|reflexivity].
  destruct (Z.ltb_spec (encoder.overlap e `quot` 2 + i) (encoder.blockSize e))
    as [Hph|Hph]; simpl; [|reflexivity].
  rewrite (index_len 0%float (encoder.blockLF blk)),
          (index_len 0%float (encoder.blockRF blk)) by lia. simpl.
  rewrite (index_len 0%float (encoder.blockLB blk)),
          (index_len 0%float (encoder.blockRB blk)) by lia. simpl.
  rewrite (index_len 0%float phLB), (index_len 0%float phRB) by lia. simpl.
  do 2 store2_step.
  eexists. split; [reflexivity|].
  eapply holds_ext; [|eassumption].
  intros c p Hc Hp. unfold upd2, encodeValue. cbv zeta.
  destruct (Z.eqb_spec p (start + i)) as [->|Hne].
  - assert (c = 0 \/ c = 1) as [ -> | -> ] by lia; reflexivity.
  - rewrite !andb_false_r. reflexivity.
Qed.

Lemma processHop_encoder (e : encoder.SQEncoder Plan) (in0 in1 in2 in3 : list float)
    (N b : Z) (o : list (list float)) (g : Z -> Z -> float) :
  encoder_ok e -> 0 <= encoder.overlap e -> 0 <= b ->
  len in0 = N -> len in1 = N -> len in2 = N -> len in3 = N -> holds o 2 N g ->
  exists o',
    encoder.processHop e [in0; in1; in2; in3] N b o = Returned o' /\
    holds o' 2 N
      (afterHop (live (encoder.blockSize e) (encoder.overlap e) N (b * encoder.overlap e))
                (encoded e in0 in1 in2 in3 b) (b * encoder.overlap e) (encoder.overlap e) g).
Proof.
  intros (HB & _ & HcL & HBL & HcR & HBR) HV Hb H0 H1 H2 H3 Ho.
  unfold encoder.processHop. cbv zeta.
  rewrite make_ok by assumption. simpl.
  assert (0 <= b * encoder.overlap e) as Hstart by (apply Z.mul_nonneg_nonneg; lia).
  rewrite (fillBlocks_encoder e in0 in1 in2 in3 N _ HB Hstart H0 H1 H2 H3). simpl.
  set (blk := paddedBlocks in0 in1 in2 in3 (encoder.blockSize e) (b * encoder.overlap e)).
  assert (len (encoder.blockLF blk) = encoder.blockSize e) as HLF
      by now apply len_paddedBlock.
  assert (len (encoder.blockRF blk) = encoder.blockSize e) as HRF
      by now apply len_paddedBlock.
  assert (len (encoder.blockLB blk) = encoder.blockSize e) as HLB
      by now apply len_paddedBlock.
  assert (len (encoder.blockRB blk) = encoder.blockSize e) as HRB
      by now apply len_paddedBlock.
  destruct (ProcessBlock_constructed (encoder.hilbertLB e) (encoder.blockLB blk) HcL)
    as (phL & HphL & HlenL); [congruence|].
  destruct (ProcessBlock_constructed (encoder.hilbertRB e) (encoder.blockRB blk) HcR)
    as (phR & HphR & HlenR); [congruence|].
  change (paddedBlock in2 (encoder.blockSize e) (b * encoder.overlap e))
    with (encoder.blockLB blk).
  change (paddedBlock in3 (encoder.blockSize e) (b * encoder.overlap e))
    with (encoder.blockRB blk).
  rewrite HphL, HphR. simpl.
  assert (forall i c, encoded e in0 in1 in2 in3 b i c =
            encodeValue (encoder.sqrt2 e) blk phL phR
              (encoder.overlap e `quot` 4 + i) (encoder.overlap e `quot` 2 + i) c) as Hval.
  { intros i c. unfold encoded, quadrature. cbv zeta. fold blk.
    rewrite HphL, HphR. reflexivity. }
  apply hop_loop; [assumption| |  |assumption].
  - intros i j Hj. apply live_mono. assumption.
  - intros i o1 g1 Hi Ho1.
    pose proof (encodeSample_spec e blk phL phR N (b * encoder.overlap e) i o1 g1)
      as Hs.
    destruct (live (encoder.blockSize e) (encoder.overlap e) N (b * encoder.overlap e) i).
    + destruct Hs as (o' & Hrun & Ho'); try assumption; try lia; try congruence.
      exists o'. split; [assumption|].
      eapply holds_ext; [|exact Ho']. intros c p _ _.
      rewrite Hval. reflexivity.
    + apply Hs; try assumption; try lia; congruence.
Qed.

Lemma sameLengths_four (in0 in1 in2 in3 : list float) :
  encoder.sameLengths [in0; in1; in2; in3] (len in0) =
  Returned ((len in1 =? len in0) && (len in2 =? len in0) && (len in3 =? len in0)).
Proof.
  unfold encoder.sameLengths.
  rewrite for_range_step by lia. simpl.
  destruct (len in1 =? len in0); simpl; [|reflexivity].
  rewrite for_range_step by lia. simpl.
  destruct (len in2 =? len in0); simpl; [|reflexivity].
  rewrite for_range_step by lia. simpl.
  destruct (len in3 =? len in0); simpl; [|reflexivity].
  apply for_range_nil. lia.
Qed.

(** The encoder on a well-formed input, as [Process_decoder]. *)
Lemma Process_encoder (e : encoder.SQEncoder Plan) (in0 in1 in2 in3 : list float) (N : Z) :
  encoder_ok e -> 0 < encoder.overlap e ->
  len in0 = N -> len in1 = N -> len in2 = N -> len in3 = N ->
  exists out,
    encoder.Process e [in0; in1; in2; in3] = Returned (Some out, None) /\
    holds out 2 N
      (fun c p =>
         if live (encoder.blockSize e) (encoder.overlap e) N
                 (p / encoder.overlap e * encoder.overlap e) (p mod encoder.overlap e)
         then encoded e in0 in1 in2 in3 (p / encoder.overlap e) (p mod encoder.overlap e) c
         else 0%float).
Proof.
  intros Hok HV H0 H1 H2 H3. unfold encoder.Process. simpl.
  rewrite sameLengths_four, H0, H1, H2, H3, Z.eqb_refl. simpl.
  unfold int_div. destruct (Z.eqb_spec (encoder.overlap e) 0) as [|_]; [lia|]. simpl.
  pose proof (len_nonneg in0) as HN. rewrite H0 in HN.
  destruct (makeChannels_ok 2 N) as (out0 & -> & Hout0); [lia|assumption|]. simpl.
  set (V := encoder.overlap e) in *.
  destruct (hops_loop
              (fun b => live (encoder.blockSize e) V N (b * V))
              (encoded e in0 in1 in2 in3) 2 N V ((N + V - 1) `quot` V)
              (encoder.processHop e [in0; in1; in2; in3] N) out0 (fun _ _ => 0%float))
    as (out & -> & Hout); try assumption.
  - apply Z.quot_pos; lia.
  - intros b o g Hb Ho. apply processHop_encoder; try assumption; lia.
  - simpl. exists out. split; [reflexivity|].
    eapply holds_ext; [|exact Hout]. intros c p Hc Hp. unfold afterHops.
    destruct (ceil_blocks N V p HV Hp) as [_ Hlt].
    destruct (Z.ltb_spec (p / V) ((N + V - 1) `quot` V)); [|lia]. reflexivity.
Qed.

End Encoder.

(** ** Construction succeeds *)

Section Construction.
Context {libm : Libm} {Plan : Type} {fft : AlgoFFT Plan} {total : AlgoFFT_total fft}.

Lemma for_range_len_ok {A : Type} (n m : Z) (g : Z -> list A -> outcome (list A))
    (s : list A) :
  0 <= n -> len s = m ->
  (forall i t, 0 <= i < n -> len t = m ->
     exists t', g i t = Returned t' /\ len t' = m) ->
  exists s', for_range 0 n (always g) s = Returned s' /\ len s' = m.
Proof.
  intros Hn Hs Hg.
  apply (for_range_always (fun _ t => len t = m)); [assumption|assumption|].
  intros i t Hi Ht. now apply Hg.
Qed.

Lemma store_loop_ok {A : Type} (n : Z) (v : Z -> A) (s : list A) :
  0 <= n <= len s ->
  exists s', for_range 0 n (always (fun i w => store w i (v i))) s = Returned s' /\
             len s' = len s.
Proof.
  intros Hn. apply for_range_len_ok; [lia|reflexivity|].
  intros i t Hi Ht. rewrite store_in by lia.
  eexists. split; [reflexivity|]. now rewrite len_insert.
Qed.

Lemma makeWindow_ok (w : sqmath.WindowType) (V : Z) :
  0 <= V -> (forall name, w <> sqmath.WindowUnknown name) ->
  exists window, sqmath.makeWindow w V = Returned window /\ len window = V.
Proof.
  intros HV Hknown.
  assert (forall v : Z -> float,
            exists s', for_range 0 V (always (fun i w => store w i (v i)))
                         (replicate (Z.to_nat V) 0%float) = Returned s' /\ len s' = V)
    as Hloop.
  { intros v. destruct (store_loop_ok V v (replicate (Z.to_nat V) 0%float))
      as (s' & Hs' & Hlen); [rewrite len_replicate; lia|].
    exists s'. split; [assumption|]. now rewrite Hlen, len_replicate. }
  assert (exists s', sqmath.fillOnes (replicate (Z.to_nat V) 0%float) = Returned s' /\
                     len s' = V) as Hones.
  { unfold sqmath.fillOnes. rewrite len_replicate by assumption. apply Hloop. }
  destruct w; simpl;
    unfold sqmath.hannWindow, sqmath.hammingWindow, sqmath.blackmanWindow,
           sqmath.rectangularWindow;
    rewrite ?make_ok by assumption; simpl;
    try (destruct (V <=? 1); [exact Hones|apply Hloop]);
    try exact Hones.
  exfalso. now apply (Hknown name).
Qed.

Lemma makeFilter_ok (B V : Z) (plan : Plan) (w : sqmath.WindowType) :
  0 <= V <= B -> (forall name, w <> sqmath.WindowUnknown name) ->
  NewPlan64 B = Some plan ->
  exists filter, sqmath.makeFilter B V B plan w = Returned filter.
Proof.
  intros HV Hknown Hplan. unfold sqmath.makeFilter.
  destruct (makeImpulse_spec B V HV) as (h & -> & Hh). simpl.
  apply holds1_len in Hh.
  destruct (makeWindow_ok w V) as (window & -> & Hwin); [lia|assumption|]. simpl.
  destruct (for_range_len_ok V B
              (fun i imp => x <- index window i ;;
                            modify imp i (fun y => (y * x)%float)) h)
    as (h1 & Hh1run & Hh1); [lia|assumption| |].
  { intros i t Hi Ht. rewrite (index_len 0%float window) by lia. simpl.
    destruct (modify_in t i (fun y => (y * default 0%float (window !! Z.to_nat i))%float))
      as (t' & -> & Ht'); [lia|].
    exists t'. split; [reflexivity|congruence]. }
  unfold sqmath.applyWindow. rewrite Hh1run. simpl.
  destruct (for_range_len_ok V B
              (fun i imp => modify imp i (fun y => (y * 1.8)%float)) h1)
    as (h2 & Hh2run & Hh2); [lia|assumption| |].
  { intros i t Hi Ht.
    destruct (modify_in t i (fun y => (y * 1.8)%float)) as (t' & -> & Ht'); [lia|].
    exists t'. split; [reflexivity|congruence]. }
  unfold sqmath.applyGain. rewrite Hh2run. simpl.
  rewrite make_ok by lia. simpl.
  destruct (toComplex_ok (len h2) h2 (replicate (Z.to_nat B) czero))
    as (ic & -> & Hic).
  { pose proof (len_nonneg h2). lia. }
  { rewrite len_replicate; lia. }
  rewrite len_replicate in Hic by lia. simpl.
  destruct (Forward_total B plan ic Hplan Hic) as (tf & -> & Htf). simpl.
  eauto.
Qed.

Lemma NewHilbertTransformerWithWindow_returns (B V : Z) (w : sqmath.WindowType) :
  0 <= V <= B -> (forall name, w <> sqmath.WindowUnknown name) ->
  NewPlan64 B <> None ->
  exists ht, sqmath.NewHilbertTransformerWithWindow B V w = Returned ht.
Proof.
  intros HV Hknown Hplan. unfold sqmath.NewHilbertTransformerWithWindow.
  destruct (NewPlan64 B) as [plan|] eqn:Hp; [|contradiction]. simpl.
  rewrite make_ok by lia. simpl.
  destruct (makeFilter_ok B V plan w HV Hknown Hp) as ([window tf] & ->). simpl.
  eauto.
Qed.

Lemma NewSQDecoderWithParams_returns (B V : Z) :
  0 <= V <= B -> NewPlan64 B <> None ->
  exists d, decoder.NewSQDecoderWithParams B V = Returned d.
Proof.
  intros HV Hplan.
  destruct (NewHilbertTransformerWithWindow_returns B V sqmath.WindowHann)
    as (ht & Hht); [assumption|discriminate|assumption|].
  destruct (for_range_len_ok 4 4
              (fun i (o : list (list float)) => b <- make 0%float B ;; store o i b)
              (replicate 4 [])) as (ob & Hob & _); [lia|reflexivity| |].
  { intros i t Hi Ht. rewrite make_ok by lia. simpl. rewrite store_in by lia.
    eexists. split; [reflexivity|]. now rewrite len_insert. }
  unfold decoder.NewSQDecoderWithParams, sqmath.NewHilbertTransformer.
  rewrite Hht, Hob. cbn [bind]. rewrite !make_ok by lia. cbn [bind]. eauto.
Qed.

Lemma NewSQEncoderWithParams_returns (B V : Z) :
  0 <= V <= B -> NewPlan64 B <> None ->
  exists e, encoder.NewSQEncoderWithParams B V = Returned e.
Proof.
  intros HV Hplan. unfold encoder.NewSQEncoderWithParams, sqmath.NewHilbertTransformer.
  destruct (NewHilbertTransformerWithWindow_returns B V sqmath.WindowHann)
    as (ht & ->); [assumption|discriminate|assumption|]. simpl.
  eauto.
Qed.

End Construction.

(** ** Reading the result of [Process] *)

Lemma paddedBlock_lookup (ch : list float) (B start k : Z) :
  0 <= k < B ->
  default 0%float (paddedBlock ch B start !! Z.to_nat k)
  = default 0%float (ch !! Z.to_nat (start + k)).
Proof.
  intros Hk. unfold paddedBlock.
  rewrite (holds1_lookup _ B _ k (holds1_map _ B ltac:(lia)) Hk). reflexivity.
Qed.

Lemma sample_split (V p : Z) : 0 < V -> p / V * V + p mod V = p.
Proof. intros HV. pose proof (Z.div_mod p V). lia. Qed.

Lemma quot4_le_quot2 (V : Z) : 0 <= V -> 0 <= V `quot` 4 <= V `quot` 2.
Proof.
  intros HV. rewrite !Z.quot_div_nonneg by lia. split.
  - apply Z.div_pos; lia.
  - apply Z.div_le_compat_l; lia.
Qed.

Lemma live_inside (B V N start i : Z) :
  0 <= V -> V + V `quot` 2 <= B -> 0 <= i < V -> start + i < N ->
  live B V N start i = true.
Proof.
  intros HV HB Hi Hp. pose proof (quot4_le_quot2 V HV).
  unfold live. rewrite !andb_true_iff, !Z.ltb_lt. lia.
Qed.

Lemma len2_inv {A : Type} (s : list A) : len s = 2 -> exists a b, s = [a; b].
Proof.
  destruct s as [|a [|b [|c s]]]; unfold len; simpl; try lia. eauto.
Qed.

Lemma len4_inv {A : Type} (s : list A) :
  len s = 4 -> exists a b c d, s = [a; b; c; d].
Proof.
  destruct s as [|a [|b [|c [|d [|x s]]]]]; unfold len; simpl; try lia. eauto 6.
Qed.

(** All channels have the same number of samples. *)
Definition same_length (input : list (list float)) : Prop :=
  forall a b, a ∈ input -> b ∈ input -> len a = len b.

Lemma same_length_two (a b : list float) :
  same_length [a; b] <-> len b = len a.
Proof.
  split.
  - intros H. apply H; apply list_elem_of_In; simpl; auto.
  - intros H x y Hx Hy. apply list_elem_of_In in Hx, Hy. simpl in Hx, Hy.
    assert (len x = len a) by (destruct Hx as [<-|[<-|[]]]; congruence).
    assert (len y = len a) by (destruct Hy as [<-|[<-|[]]]; congruence).
    congruence.
Qed.

Lemma same_length_four (a b c d : list float) :
  same_length [a; b; c; d] <->
  (len b =? len a) && (len c =? len a) && (len d =? len a) = true.
Proof.
  rewrite !andb_true_iff, !Z.eqb_eq. split.
  - intros H. repeat split; apply H; apply list_elem_of_In; simpl; auto.
  - intros [[Hb Hc] Hd] x y Hx Hy. apply list_elem_of_In in Hx, Hy.
    simpl in Hx, Hy.
    assert (len x = len a)
      by (destruct Hx as [<-|[<-|[<-|[<-|[]]]]]; congruence).
    assert (len y = len a)
      by (destruct Hy as [<-|[<-|[<-|[<-|[]]]]]; congruence).
    congruence.
Qed.

Section Validation.
Context {libm : Libm} {Plan : Type} {fft : AlgoFFT Plan}.

Lemma Process_decoder_invalid (d : decoder.SQDecoder Plan) (input : list (list float)) :
  len input <> 2 \/ ~ same_length input ->
  exists err, decoder.Process d input = Returned (None, Some err).
Proof.
  intros Hbad. unfold decoder.Process.
  destruct (Z.eqb_spec (len input) 2) as [H2|H2]; simpl; [|eauto].
  destruct (len2_inv input H2) as (a & b & ->). simpl.
  destruct Hbad as [Hbad|Hbad]; [contradiction|].
  rewrite same_length_two in Hbad.
  destruct (Z.eqb_spec (len b) (len a)); [contradiction|]. simpl. eauto.
Qed.

Lemma Process_decoder_valid (d : decoder.SQDecoder Plan) (input : list (list float))
    (r : result (list (list float))) :
  len input = 2 -> same_length input ->
  decoder.Process d input = Returned r -> exists out, r = (Some out, None).
Proof.
  intros H2 Hsame. destruct (len2_inv input H2) as (a & b & ->).
  rewrite same_length_two in Hsame.
  unfold decoder.Process. simpl. rewrite Hsame, Z.eqb_refl. simpl.
  intros H. unbind H as nb Hnb. unbind H as o0 Ho0. unbind H as o Ho.
  injection H as <-. eauto.
Qed.

Lemma Process_encoder_invalid (e : encoder.SQEncoder Plan) (input : list (list float)) :
  len input <> 4 \/ ~ same_length input ->
  exists err, encoder.Process e input = Returned (None, Some err).
Proof.
  intros Hbad. unfold encoder.Process.
  destruct (Z.eqb_spec (len input) 4) as [H4|H4]; simpl; [|eauto].
  destruct (len4_inv input H4) as (a & b & c & d & ->). simpl.
  destruct Hbad as [Hbad|Hbad]; [contradiction|].
  rewrite same_length_four in Hbad. rewrite sameLengths_four. simpl.
  destruct ((len b =? len a) && (len c =? len a) && (len d =? len a));
    [contradiction|]. simpl. eauto.
Qed.

Lemma Process_encoder_valid (e : encoder.SQEncoder Plan) (input : list (list float))
    (r : result (list (list float))) :
  len input = 4 -> same_length input ->
  encoder.Process e input = Returned r -> exists out, r = (Some out, None).
Proof.
  intros H4 Hsame. destruct (len4_inv input H4) as (a & b & c & d & ->).
  rewrite same_length_four in Hsame.
  unfold encoder.Process. simpl. rewrite sameLengths_four, Hsame. simpl.
  intros H. unbind H as nb Hnb. unbind H as o0 Ho0. unbind H as o Ho.
  injection H as <-. eauto.
Qed.

End Validation.

(** C6. [Process] returns an error exactly when the input has the wrong
    number of channels (not 2 for the decoder, not 4 for the encoder) or
    channels of unequal length; whenever it returns an error the output
    is [nil]; and a decoder or encoder that construction returned, with
    a positive overlap, returns an output and no error for every valid
    input. *)
Theorem Process_validates_input {libm : Libm} {Plan : Type} {fft : AlgoFFT Plan}
    (d : decoder.SQDecoder Plan) (e : encoder.SQEncoder Plan)
    (input : list (list float)) :
  ((exists err, decoder.Process d input = Returned (None, Some err)) <->
   (len input <> 2 \/ ~ same_length input)) /\
  (forall out err, decoder.Process d input = Returned (out, Some err) -> out = None) /\
  ((exists err, encoder.Process e input = Returned (None, Some err)) <->
   (len input <> 4 \/ ~ same_length input)) /\
  (forall out err, encoder.Process e input = Returned (out, Some err) -> out = None) /\
  (forall B V, AlgoFFT_total fft -> 0 < V ->
     decoder.NewSQDecoderWithParams B V = Returned d ->
     len input = 2 -> same_length input ->
     exists out, decoder.Process d input = Returned (Some out, None)) /\
  (forall B V, AlgoFFT_total fft -> 0 < V ->
     encoder.NewSQEncoderWithParams B V = Returned e ->
     len input = 4 -> same_length input ->
     exists out, encoder.Process e input = Returned (Some out, None)).
Proof.
  assert (forall n : Z, len input = n \/ len input <> n) as Hdec by (intros; lia).
  assert (forall P : Prop, P \/ ~ P -> ~ ~ P -> P) as Hnn by tauto.
  repeat split.
  - intros [err Herr].
    destruct (Hdec 2) as [H2|H2]; [|now left]. right. intros Hsame.
    destruct (Process_decoder_valid d input _ H2 Hsame Herr) as (out & Hout).
    discriminate.
  - apply Process_decoder_invalid.
  - intros out err H.
    destruct (Hdec 2) as [H2|H2].
    + destruct (len2_inv input H2) as (a & b & ->).
      destruct (Z.eq_dec (len b) (len a)) as [Hab|Hab].
      * apply same_length_two in Hab.
        destruct (Process_decoder_valid d _ _ H2 Hab H) as (o & Ho). discriminate.
      * rewrite <- same_length_two in Hab.
        destruct (Process_decoder_invalid d [a; b] (or_intror Hab)) as (err' & He).
        congruence.
    + destruct (Process_decoder_invalid d input (or_introl H2)) as (err' & He).
      congruence.
  - intros [err Herr].
    destruct (Hdec 4) as [H4|H4]; [|now left]. right. intros Hsame.
    destruct (Process_encoder_valid e input _ H4 Hsame Herr) as (out & Hout).
    discriminate.
  - apply Process_encoder_invalid.
  - intros out err H.
    destruct (Hdec 4) as [H4|H4].
    + destruct (len4_inv input H4) as (a & b & c & x & ->).
      destruct ((len b =? len a) && (len c =? len a) && (len x =? len a)) eqn:Hab.
      * apply same_length_four in Hab.
        destruct (Process_encoder_valid e _ _ H4 Hab H) as (o & Ho). discriminate.
      * assert (~ same_length [a; b; c; x]) as Hns
            by (rewrite same_length_four, Hab; discriminate).
        destruct (Process_encoder_invalid e _ (or_intror Hns)) as (err' & He).
        congruence.
    + destruct (Process_encoder_invalid e input (or_introl H4)) as (err' & He).
      congruence.
  - intros B V total HV Hnew H2 Hsame.
    destruct (len2_inv input H2) as (a & b & ->).
    apply same_length_two in Hsame.
    apply NewSQDecoderWithParams_ok in Hnew as (Hok & _ & HVd).
    destruct (Process_decoder d a b (len a) Hok) as (out & Hout & _);
      [lia|reflexivity|assumption|]. eauto.
  - intros B V total HV Hnew H4 Hsame.
    destruct (len4_inv input H4) as (a & b & c & x & ->).
    apply same_length_four in Hsame.
    rewrite !andb_true_iff, !Z.eqb_eq in Hsame. destruct Hsame as [[Hb Hc] Hx].
    apply NewSQEncoderWithParams_ok in Hnew as (Hok & _ & HVe).
    destruct (Process_encoder e a b c x (len a) Hok) as (out & Hout & _);
      [lia|reflexivity|assumption|assumption|assumption|]. eauto.
Qed.

(** C1. With [c = sqrt(2)/2]: for a decoder that construction returned
    and every sample [p] of a valid input whose direct and quadrature
    offsets fall inside the block, the output holds [LF = lt],
    [RF = rt], [LB = c*H(lt) - c*rt], [RB = c*lt - c*H(rt)], where
    [lt], [rt] are read from the zero-padded input blocks at
    [overlap/4 + i] and [H(lt)], [H(rt)] from the Hilbert-filtered blocks
    at [overlap/2 + i], [i] being the offset of [p] in its hop; likewise
    the encoder's output holds [LT = lf + c*rb - c*H(lb)] and
    [RT = rf - c*lb + c*H(rb)]. *)
Theorem matrix_transform {libm : Libm} {Plan : Type} {fft : AlgoFFT Plan}
    {total : AlgoFFT_total fft} (B V : Z) :
  0 < V ->
  let c := (PrimFloat.sqrt 2 / 2)%float in
  (forall (d : decoder.SQDecoder Plan) (in0 in1 : list float) (p : Z),
     decoder.NewSQDecoderWithParams B V = Returned d ->
     len in1 = len in0 -> 0 <= p < len in0 ->
     let start := p / V * V in
     let i := p mod V in
     V `quot` 4 + i < B -> V `quot` 2 + i < B ->
     let blockL := paddedBlock in0 B start in
     let blockR := paddedBlock in1 B start in
     exists out phL phR lt rt hlt hrt,
       decoder.Process d [in0; in1] = Returned (Some out, None) /\
       index blockL (V `quot` 4 + i) = Returned lt /\
       index blockR (V `quot` 4 + i) = Returned rt /\
       sqmath.ProcessBlock (decoder.hilbertLeft d) blockL = Returned phL /\
       sqmath.ProcessBlock (decoder.hilbertRight d) blockR = Returned phR /\
       index phL (V `quot` 2 + i) = Returned hlt /\
       index phR (V `quot` 2 + i) = Returned hrt /\
       index2 out 0 p = Returned lt /\
       index2 out 1 p = Returned rt /\
       index2 out 2 p = Returned (c * hlt - c * rt)%float /\
       index2 out 3 p = Returned (c * lt - c * hrt)%float) /\
  (forall (e : encoder.SQEncoder Plan) (in0 in1 in2 in3 : list float) (p : Z),
     encoder.NewSQEncoderWithParams B V = Returned e ->
     len in1 = len in0 -> len in2 = len in0 -> len in3 = len in0 ->
     0 <= p < len in0 ->
     let start := p / V * V in
     let i := p mod V in
     V `quot` 4 + i < B -> V `quot` 2 + i < B ->
     let blockLB := paddedBlock in2 B start in
     let blockRB := paddedBlock in3 B start in
     exists out phLB phRB lf rf lb rb hlb hrb,
       encoder.Process e [in0; in1; in2; in3] = Returned (Some out, None) /\
       index (paddedBlock in0 B start) (V `quot` 4 + i) = Returned lf /\
       index (paddedBlock in1 B start) (V `quot` 4 + i) = Returned rf /\
       index blockLB (V `quot` 4 + i) = Returned lb /\
       index blockRB (V `quot` 4 + i) = Returned rb /\
       sqmath.ProcessBlock (encoder.hilbertLB e) blockLB = Returned phLB /\
       sqmath.ProcessBlock (encoder.hilbertRB e) blockRB = Returned phRB /\
       index phLB (V `quot` 2 + i) = Returned hlb /\
       index phRB (V `quot` 2 + i) = Returned hrb /\
       index2 out 0 p = Returned (lf + c * rb - c * hlb)%float /\
       index2 out 1 p = Returned (rf - c * lb + c * hrb)%float).
Proof.
  intros HV c.
  pose proof (quot4_le_quot2 V ltac:(lia)) as Hq.
  split.
  - intros d in0 in1 p Hnew H1 Hp start i Hin Hph blockL blockR.
    apply NewSQDecoderWithParams_ok in Hnew as (Hok & HBd & HVd).
    destruct (Process_decoder d in0 in1 (len in0) Hok) as (out & Hrun & Hout);
      [lia|reflexivity|assumption|].
    pose proof Hok as (HB & Hc & HcL & HBL & HcR & HBR).
    rewrite HBd, HVd in *.
    assert (0 <= i < V) as Hi by (apply Z.mod_pos_bound; lia).
    assert (start + i = p) as Hsplit by (apply sample_split; lia).
    assert (live B V (len in0) start i = true) as Hlive.
    { unfold live. rewrite !andb_true_iff, !Z.ltb_lt. lia. }
    assert (len blockL = B) as HlenL by (apply len_paddedBlock; lia).
    assert (len blockR = B) as HlenR by (apply len_paddedBlock; lia).
    destruct (ProcessBlock_constructed (decoder.hilbertLeft d) blockL HcL)
      as (phL & HphL & HlenphL); [congruence|].
    destruct (ProcessBlock_constructed (decoder.hilbertRight d) blockR HcR)
      as (phR & HphR & HlenphR); [congruence|].
    exists out, phL, phR.
    exists (default 0%float (blockL !! Z.to_nat (V `quot` 4 + i))),
           (default 0%float (blockR !! Z.to_nat (V `quot` 4 + i))),
           (default 0%float (phL !! Z.to_nat (V `quot` 2 + i))),
           (default 0%float (phR !! Z.to_nat (V `quot` 2 + i))).
    assert (forall ch, 0 <= ch < 4 ->
              index2 out ch p =
              Returned (decodeValue c blockL blockR phL phR
                          (V `quot` 4 + i) (V `quot` 2 + i) ch)) as Hread.
    { intros ch Hch. rewrite (holds_index2 out 4 (len in0) _ ch p Hout Hch Hp).
      fold start i. rewrite Hlive. unfold decoded, quadrature. cbv zeta.
      rewrite HBd, HVd. fold start blockL blockR. rewrite HphL, HphR, Hc.
      reflexivity. }
    repeat split; try assumption;
      try (apply index_len; lia);
      try (rewrite Hread by lia; reflexivity).
  - intros e in0 in1 in2 in3 p Hnew H1 H2 H3 Hp start i Hin Hph blockLB blockRB.
    apply NewSQEncoderWithParams_ok in Hnew as (Hok & HBe & HVe).
    destruct (Process_encoder e in0 in1 in2 in3 (len in0) Hok) as (out & Hrun & Hout);
      [lia|reflexivity|assumption|assumption|assumption|].
    pose proof Hok as (HB & Hc & HcL & HBL & HcR & HBR).
    rewrite HBe, HVe in *.
    assert (0 <= i < V) as Hi by (apply Z.mod_pos_bound; lia).
    assert (start + i = p) as Hsplit by (apply sample_split; lia).
    assert (live B V (len in0) start i = true) as Hlive.
    { unfold live. rewrite !andb_true_iff, !Z.ltb_lt. lia. }
    assert (len blockLB = B) as HlenL by (apply len_paddedBlock; lia).
    assert (len blockRB = B) as HlenR by (apply len_paddedBlock; lia).
    destruct (ProcessBlock_constructed (encoder.hilbertLB e) blockLB HcL)
      as (phL & HphL & HlenphL); [congruence|].
    destruct (ProcessBlock_constructed (encoder.hilbertRB e) blockRB HcR)
      as (phR & HphR & HlenphR); [congruence|].
    exists out, phL, phR.
    exists (default 0%float (paddedBlock in0 B start !! Z.to_nat (V `quot` 4 + i))),
           (default 0%float (paddedBlock in1 B start !! Z.to_nat (V `quot` 4 + i))),
           (default 0%float (blockLB !! Z.to_nat (V `quot` 4 + i))),
           (default 0%float (blockRB !! Z.to_nat (V `quot` 4 + i))),
           (default 0%float (phL !! Z.to_nat (V `quot` 2 + i))),
           (default 0%float (phR !! Z.to_nat (V `quot` 2 + i))).
    assert (forall ch, 0 <= ch < 2 ->
              index2 out ch p =
              Returned (encodeValue c (paddedBlocks in0 in1 in2 in3 B start) phL phR
                          (V `quot` 4 + i) (V `quot` 2 + i) ch)) as Hread.
    { intros ch Hch. rewrite (holds_index2 out 2 (len in0) _ ch p Hout Hch Hp).
      fold start i. rewrite Hlive. unfold encoded, quadrature. cbv zeta.
      rewrite HBe, HVe. fold start. simpl encoder.blockLB. simpl encoder.blockRB.
      fold blockLB blockRB. rewrite HphL, HphR, Hc. reflexivity. }
    repeat split; try assumption;
      try (apply index_len; rewrite len_paddedBlock; lia);
      try (apply index_len; lia);
      try (rewrite Hread by lia; reflexivity).
Qed.

Lemma matrix_transform_witness :
  let c := (PrimFloat.sqrt 2 / 2)%float in
  exists (d : decoder.SQDecoder Z) (e : encoder.SQEncoder Z),
    decoder.NewSQDecoderWithParams (libm := standin.libm) (fft := standin.fft) 8 4
      = Returned d /\
    encoder.NewSQEncoderWithParams (libm := standin.libm) (fft := standin.fft) 8 4
      = Returned e /\
    (exists out lt rt hlt hrt,
       decoder.Process (fft := standin.fft) d [[1; 2; 3; 4; 5]; [5; 6; 7; 8; 9]]%float
         = Returned (Some out, None) /\
       index2 out 0 1 = Returned lt /\
       index2 out 1 1 = Returned rt /\
       index2 out 2 1 = Returned (c * hlt - c * rt)%float /\
       index2 out 3 1 = Returned (c * lt - c * hrt)%float) /\
    (exists out lf rf lb rb hlb hrb,
       encoder.Process (fft := standin.fft) e
         [[1; 2; 3; 4; 5]; [5; 6; 7; 8; 9]; [2; 2; 2; 2; 2]; [3; 1; 3; 1; 3]]%float
         = Returned (Some out, None) /\
       index2 out 0 1 = Returned (lf + c * rb - c * hlb)%float /\
       index2 out 1 1 = Returned (rf - c * lb + c * hrb)%float).
Proof.
  intros c.
  destruct (NewSQDecoderWithParams_returns (libm := standin.libm) (fft := standin.fft) 8 4)
    as (d & Hd); [lia|discriminate|].
  destruct (NewSQEncoderWithParams_returns (libm := standin.libm) (fft := standin.fft) 8 4)
    as (e & He); [lia|discriminate|].
  exists d, e. split; [exact Hd|]. split; [exact He|].
  destruct (matrix_transform (libm := standin.libm) (fft := standin.fft) 8 4 ltac:(lia))
    as [Hdec Henc].
  split.
  - destruct (Hdec d [1; 2; 3; 4; 5]%float [5; 6; 7; 8; 9]%float 1 Hd)
      as (out & phL & phR & lt & rt & hlt & hrt & Hrun & _ & _ & _ & _ & _ & _ & H);
      [reflexivity|unfold len; simpl; lia|reflexivity|reflexivity|].
    exists out, lt, rt, hlt, hrt. split; [exact Hrun|exact H].
  - destruct (Henc e [1; 2; 3; 4; 5]%float [5; 6; 7; 8; 9]%float
                [2; 2; 2; 2; 2]%float [3; 1; 3; 1; 3]%float 1 He)
      as (out & phL & phR & lf & rf & lb & rb & hlb & hrb & Hrun
          & _ & _ & _ & _ & _ & _ & _ & _ & H);
      [reflexivity|reflexivity|reflexivity|unfold len; simpl; lia
      |reflexivity|reflexivity|].
    exists out, lf, rf, lb, rb, hlb, hrb. split; [exact Hrun|exact H].
Defined.

(** ** The front channels *)

(** The test signals of [TestSQDecoder_Process_FrontChannelsShifted]:
    [A*sin(2*pi*n/97)] and [B*cos(2*pi*n/131)]. *)
Definition toneL {libm : Libm} (A : float) (n : Z) : float :=
  (A * Sin (2 * Pi * float64_of_int n / 97))%float.

Definition toneR {libm : Libm} (B : float) (n : Z) : float :=
  (B * Cos (2 * Pi * float64_of_int n / 131))%float.

Section Front.
Context {libm : Libm} {Plan : Type} {fft : AlgoFFT Plan} {total : AlgoFFT_total fft}.

(** Whenever the framing lets sample [p] through, the front channels are
    the input, [overlap/4] samples later (zero past its end). *)
Lemma decoder_front (d : decoder.SQDecoder Plan) (in0 in1 : list float)
    (out : list (list float)) (p : Z) :
  decoder_ok d -> 0 < decoder.overlap d ->
  len in1 = len in0 -> 0 <= p < len in0 ->
  decoder.overlap d + decoder.overlap d `quot` 2 <= decoder.blockSize d ->
  decoder.Process d [in0; in1] = Returned (Some out, None) ->
  index2 out 0 p =
    Returned (default 0%float (in0 !! Z.to_nat (p + decoder.overlap d `quot` 4))) /\
  index2 out 1 p =
    Returned (default 0%float (in1 !! Z.to_nat (p + decoder.overlap d `quot` 4))).
Proof.
  intros Hok HV H1 Hp HB Hrun.
  destruct (Process_decoder d in0 in1 (len in0) Hok HV eq_refl H1)
    as (out' & Hrun' & Hout).
  assert (out' = out) as -> by congruence.
  set (V := decoder.overlap d) in *. set (B := decoder.blockSize d) in *.
  assert (0 <= p mod V < V) as Hi by (apply Z.mod_pos_bound; lia).
  pose proof (sample_split V p HV) as Hsplit.
  pose proof (quot4_le_quot2 V ltac:(lia)) as Hq.
  assert (live B V (len in0) (p / V * V) (p mod V) = true) as Hlive
      by (apply live_inside; lia).
  split.
  - rewrite (holds_index2 out 4 (len in0) _ 0 p Hout) by lia.
    rewrite Hlive. unfold decoded, decodeValue. cbv zeta. simpl.
    fold V B. rewrite paddedBlock_lookup by lia.
    do 3 f_equal. lia.
  - rewrite (holds_index2 out 4 (len in0) _ 1 p Hout) by lia.
    rewrite Hlive. unfold decoded, decodeValue. cbv zeta. simpl.
    fold V B. rewrite paddedBlock_lookup by lia.
    do 3 f_equal. lia.
Qed.

End Front.

(** C3. For block size 1024 and overlap 512, with
    [LT[n] = A*sin(2*pi*n/97)] and [RT[n] = B*cos(2*pi*n/131)] for
    [n] in [[0, N)], [N = 10*overlap], the decoder returns an output with
    [LF[n] = LT[n + overlap/4]] and [RF[n] = RT[n + overlap/4]], as equal
    binary64 values, for every [n < N - overlap/4]. *)
Theorem front_channels_shifted {libm : Libm} {Plan : Type} {fft : AlgoFFT Plan}
    {total : AlgoFFT_total fft} (d : decoder.SQDecoder Plan) (A B : float) :
  decoder.NewSQDecoderWithParams 1024 512 = Returned d ->
  let overlap := 512 in
  let N := 10 * overlap in
  let lt := map (toneL A) (seqZ 0 N) in
  let rt := map (toneR B) (seqZ 0 N) in
  exists out,
    decoder.Process d [lt; rt] = Returned (Some out, None) /\
    forall n, 0 <= n < N - overlap `quot` 4 ->
      index2 out 0 n = Returned (toneL A (n + overlap `quot` 4)) /\
      index2 out 1 n = Returned (toneR B (n + overlap `quot` 4)).
Proof.
  intros Hnew overlap N lt rt.
  apply NewSQDecoderWithParams_ok in Hnew as (Hok & HB & HV).
  assert (holds1 lt N (toneL A)) as Hlt by (apply holds1_map; unfold N, overlap; lia).
  assert (holds1 rt N (toneR B)) as Hrt by (apply holds1_map; unfold N, overlap; lia).
  pose proof (holds1_len _ _ _ Hlt) as Hlen0.
  pose proof (holds1_len _ _ _ Hrt) as Hlen1.
  destruct (Process_decoder d lt rt N Hok) as (out & Hrun & _);
    [lia|assumption|assumption|].
  exists out. split; [exact Hrun|].
  intros n Hn.
  assert (overlap `quot` 4 = 128) as Hq by reflexivity.
  rewrite Hq in *.
  destruct (decoder_front d lt rt out n Hok) as [HL HR].
  { rewrite HV. lia. }
  { congruence. }
  { rewrite Hlen0. unfold N, overlap in *. lia. }
  { rewrite HV, HB. vm_compute. discriminate. }
  { exact Hrun. }
  rewrite HV in HL, HR. fold overlap in HL, HR. rewrite Hq in HL, HR.
  rewrite HL, HR.
  rewrite (holds1_lookup lt N _ (n + 128) Hlt) by (unfold N, overlap in *; lia).
  rewrite (holds1_lookup rt N _ (n + 128) Hrt) by (unfold N, overlap in *; lia).
  split; reflexivity.
Qed.

Lemma front_channels_shifted_witness :
  exists d : decoder.SQDecoder Z,
    decoder.NewSQDecoderWithParams (libm := standin.libm) (fft := standin.fft) 1024 512
      = Returned d /\
    exists out,
      decoder.Process (fft := standin.fft) d
        [map (toneL (libm := standin.libm) 0.7) (seqZ 0 (10 * 512));
         map (toneR (libm := standin.libm) 0.3) (seqZ 0 (10 * 512))]
        = Returned (Some out, None) /\
      forall n, 0 <= n < 10 * 512 - 512 `quot` 4 ->
        index2 out 0 n = Returned (toneL (libm := standin.libm) 0.7 (n + 512 `quot` 4)) /\
        index2 out 1 n = Returned (toneR (libm := standin.libm) 0.3 (n + 512 `quot` 4)).
Proof.
  destruct (NewSQDecoderWithParams_returns (libm := standin.libm) (fft := standin.fft)
              1024 512) as (d & Hd); [lia|discriminate|].
  exists d. split; [exact Hd|].
  exact (front_channels_shifted (libm := standin.libm) (fft := standin.fft)
           d 0.7%float 0.3%float Hd).
Defined.

(** ** Hop tiling *)

(** Block size 4 and overlap 4 satisfy [0 < overlap <= blockSize], yet
    the only hop of a 4-sample input stops after two samples: the third
    quadrature index, [overlap/2 + 2], is the block size.  Run on a buffer
    of nines, the hop leaves positions 2 and 3 of every channel as they
    were, and [Process] returns zeros there. *)
Lemma hop_cut_short_when_overlap_is_block_size :
  (d <- decoder.NewSQDecoderWithParams (libm := standin.libm) (fft := standin.fft) 4 4 ;;
   o <- decoder.processHop (fft := standin.fft) d [[1; 2; 3; 4]; [5; 6; 7; 8]]%float 4 0
          (replicate 4 (replicate 4 9%float)) ;;
   lf <- index o 0 ;;
   rf <- index o 1 ;;
   lb2 <- index2 o 2 2 ;;
   rb3 <- index2 o 3 3 ;;
   Returned (decoder.overlap d, decoder.blockSize d, lf, rf, lb2, rb3))
  = Returned (4, 4, [2; 3; 9; 9]%float, [6; 7; 9; 9]%float, 9%float, 9%float)
  /\
  (d <- decoder.NewSQDecoderWithParams (libm := standin.libm) (fft := standin.fft) 4 4 ;;
   r <- decoder.Process (fft := standin.fft) d [[1; 2; 3; 4]; [5; 6; 7; 8]]%float ;;
   match fst r with
   | Some out => lf <- index out 0 ;; rf <- index out 1 ;; Returned (lf, rf)
   | None => Returned ([], [])
   end)
  = Returned ([2; 3; 0; 0]%float, [6; 7; 0; 0]%float).
Proof. split; vm_compute; reflexivity. Qed.

(** C2 (amended). For a decoder that construction returned with
    [0 < overlap] and [overlap + overlap/2 <= blockSize], and a valid
    input of [N] samples: the number of hops is the ceiling of
    [N / overlap]; [Process] runs the hops [0 .. ceil(N/overlap) - 1] in
    order on a zeroed buffer; hop [b], run on any buffer, overwrites
    exactly the positions [[b*overlap, b*overlap + overlap)] below [N]
    with the decode of the zero-padded block that starts at
    [b*overlap], whatever they held, and leaves every other position as
    it was; each position below [N] lies in the range of exactly one
    hop; and the output holds at [p] what hop [p / overlap] stored at
    offset [p mod overlap]. *)
Theorem hop_tiling {libm : Libm} {Plan : Type} {fft : AlgoFFT Plan}
    {total : AlgoFFT_total fft}
    (B V : Z) (d : decoder.SQDecoder Plan) (in0 in1 : list float) :
  decoder.NewSQDecoderWithParams B V = Returned d ->
  0 < V -> V + V `quot` 2 <= B -> len in1 = len in0 ->
  let N := len in0 in
  let nb := (N + V - 1) `quot` V in
  (nb - 1) * V < N <= nb * V /\
  decoder.Process d [in0; in1] =
    (out0 <- makeChannels 4 N ;;
     out <- for_range 0 nb (always (decoder.processHop d [in0; in1] N)) out0 ;;
     Returned (Some out, None)) /\
  (forall b o g, 0 <= b < nb -> holds o 4 N g ->
     exists o',
       decoder.processHop d [in0; in1] N b o = Returned o' /\
       holds o' 4 N
         (fun c p =>
            if (b * V <=? p) && (p <? b * V + V)
            then decodeValue (PrimFloat.sqrt 2 / 2)%float
                   (paddedBlock in0 B (b * V)) (paddedBlock in1 B (b * V))
                   (quadrature (decoder.hilbertLeft d) (paddedBlock in0 B (b * V)))
                   (quadrature (decoder.hilbertRight d) (paddedBlock in1 B (b * V)))
                   (V `quot` 4 + (p - b * V)) (V `quot` 2 + (p - b * V)) c
            else g c p)) /\
  (forall p, 0 <= p < N ->
     0 <= p / V < nb /\
     forall b, b * V <= p < b * V + V <-> b = p / V) /\
  exists out,
    decoder.Process d [in0; in1] = Returned (Some out, None) /\
    holds out 4 N (fun c p => decoded d in0 in1 (p / V) (p mod V) c).
Proof.
  intros Hnew HV HB H1 N nb.
  apply NewSQDecoderWithParams_ok in Hnew as (Hok & HBd & HVd).
  pose proof (len_nonneg in0) as HN. fold N in HN.
  assert (nb = (N + V - 1) / V) as Hnb by (apply Z.quot_div_nonneg; lia).
  split; [|split; [|split; [|split]]].
  - rewrite Hnb. pose proof (Z.mul_div_le (N + V - 1) V HV) as Hle.
    pose proof (Z.mul_succ_div_gt (N + V - 1) V HV) as Hgt.
    rewrite Z.mul_succ_r in Hgt. lia.
  - unfold decoder.Process. simpl. rewrite H1, Z.eqb_refl. simpl.
    unfold int_div. rewrite HVd.
    destruct (Z.eqb_spec V 0); [lia|]. reflexivity.
  - intros b o g Hb Ho.
    destruct (processHop_decoder d in0 in1 N b o g Hok) as (o' & Hrun & Ho');
      [lia|lia|reflexivity|assumption|assumption|].
    exists o'. split; [exact Hrun|].
    eapply holds_ext; [|exact Ho']. intros c p Hc Hp. unfold afterHop.
    rewrite HBd, HVd.
    destruct (Z.leb_spec (b * V) p); destruct (Z.ltb_spec p (b * V + V));
      simpl; try reflexivity.
    rewrite live_inside by lia.
    unfold decoded. cbv zeta. rewrite HBd, HVd.
    destruct Hok as (_ & -> & _). reflexivity.
  - intros p Hp. split; [now apply ceil_blocks|].
    intros b. rewrite hop_of_sample by assumption. split; congruence.
  - destruct (Process_decoder d in0 in1 N Hok) as (out & Hrun & Hout);
      [lia|reflexivity|assumption|].
    exists out. split; [exact Hrun|].
    eapply holds_ext; [|exact Hout]. intros c p Hc Hp. cbv beta.
    rewrite HBd, HVd.
    rewrite live_inside; [reflexivity|lia|assumption| |].
    + apply Z.mod_pos_bound. lia.
    + rewrite sample_split by assumption. lia.
Qed.

Lemma hop_tiling_witness :
  exists d : decoder.SQDecoder Z,
    decoder.NewSQDecoderWithParams (libm := standin.libm) (fft := standin.fft) 8 4
      = Returned d /\
    exists out,
      decoder.Process (fft := standin.fft) d [[1; 2; 3; 4; 5]; [5; 6; 7; 8; 9]]%float
        = Returned (Some out, None) /\
      holds out 4 5
        (fun c p =>
           decoded (fft := standin.fft) d [1; 2; 3; 4; 5]%float [5; 6; 7; 8; 9]%float
             (p / 4) (p mod 4) c).
Proof.
  destruct (NewSQDecoderWithParams_returns (libm := standin.libm) (fft := standin.fft) 8 4)
    as (d & Hd); [lia|discriminate|].
  exists d. split; [exact Hd|].
  apply (hop_tiling (libm := standin.libm) (fft := standin.fft) 8 4 d
           [1; 2; 3; 4; 5]%float [5; 6; 7; 8; 9]%float Hd);
    [lia|vm_compute; discriminate|reflexivity].
Defined.

(** ** Binary64 numbers: magnitude and order

    What the code computes in [float64] is fixed by [SpecFloat], which
    the primitive floats follow ([FloatAxioms]).  Two measures of a
    number are followed through the operations.  Its magnitude, the
    number of binary digits of the mantissa plus the exponent: a number
    of magnitude at most [k] is below [2^k] in absolute value, and a
    result whose magnitude stays below 1024 is finite.  And its key, an
    integer that orders the numbers as the comparisons of the code do. *)

Module Binary64.
Import SpecFloat.

(** *** Binary digits *)

Lemma digits2_pos_size (p : positive) : digits2_pos p = Pos.size p.
Proof. induction p; simpl; congruence. Qed.

Lemma Zdigits2_log2 (m : Z) : 0 < m -> Zdigits2 m = Z.log2 m + 1.
Proof.
  destruct m as [|p|p]; try lia. intros _.
  destruct p; simpl; rewrite ?digits2_pos_size; lia.
Qed.

Lemma Zdigits2_nonneg (m : Z) : 0 <= Zdigits2 m.
Proof. destruct m; simpl; lia. Qed.

Lemma Zdigits2_pos (m : Z) : 0 < m -> 0 < Zdigits2 m.
Proof. destruct m; simpl; lia. Qed.

Lemma Zdigits2_bounds (m : Z) :
  0 < m -> 2 ^ (Zdigits2 m - 1) <= m < 2 ^ Zdigits2 m.
Proof.
  intros H. rewrite Zdigits2_log2 by exact H.
  replace (Z.log2 m + 1 - 1) with (Z.log2 m) by lia.
  pose proof (Z.log2_spec m H). replace (Z.log2 m + 1) with (Z.succ (Z.log2 m)) by lia.
  exact H0.
Qed.

Lemma Zdigits2_le (m k : Z) : 0 <= m -> 0 <= k -> m < 2 ^ k -> Zdigits2 m <= k.
Proof.
  intros Hm Hk H. destruct (Z.eq_dec m 0) as [->|Hn]; [simpl; lia|].
  rewrite Zdigits2_log2 by lia.
  assert (Z.log2 m < k) by (apply Z.log2_lt_pow2; lia). lia.
Qed.

Lemma Zdigits2_ge (m k : Z) : 0 < m -> 2 ^ k <= m -> k < Zdigits2 m.
Proof.
  intros Hm H. rewrite Zdigits2_log2 by lia.
  destruct (Z.le_gt_cases 0 k) as [Hk|Hk].
  - assert (k <= Z.log2 m) by (apply Z.log2_le_pow2; lia). lia.
  - pose proof (Z.log2_nonneg m). lia.
Qed.

Lemma Zdigits2_mono (a b : Z) : 0 <= a <= b -> Zdigits2 a <= Zdigits2 b.
Proof.
  intros [Ha Hab]. destruct (Z.eq_dec a 0) as [->|Hn]; [apply Zdigits2_nonneg|].
  rewrite !Zdigits2_log2 by lia.
  pose proof (Z.log2_le_mono a b Hab). lia.
Qed.

Lemma Zdigits2_shiftr (m n : Z) :
  0 <= m -> 0 <= n -> Zdigits2 (m / 2 ^ n) = Z.max 0 (Zdigits2 m - n).
Proof.
  intros Hm Hn. destruct (Z.eq_dec m 0) as [->|Hz].
  - rewrite Z.div_0_l by (apply Z.pow_nonzero; lia). simpl. lia.
  - pose proof (Zdigits2_bounds m ltac:(lia)) as [Hlo Hhi].
    pose proof (Zdigits2_pos m ltac:(lia)) as Hd.
    destruct (Z.le_gt_cases (Zdigits2 m) n) as [Hle|Hgt].
    + assert (m / 2 ^ n = 0) as ->.
      { apply Z.div_small. split; [lia|].
        apply Z.lt_le_trans with (2 ^ Zdigits2 m); [exact Hhi|].
        apply Z.pow_le_mono_r; lia. }
      simpl. lia.
    + rewrite <- Z.shiftr_div_pow2 by lia.
      assert (0 < Z.shiftr m n) as Hpos.
      { rewrite Z.shiftr_div_pow2 by lia.
        apply Z.div_str_pos. split; [apply Z.pow_pos_nonneg; lia|].
        apply Z.le_trans with (2 ^ (Zdigits2 m - 1)); [|exact Hlo].
        apply Z.pow_le_mono_r; lia. }
      rewrite Zdigits2_log2 by exact Hpos.
      rewrite Z.log2_shiftr by lia.
      rewrite Zdigits2_log2 in * by lia. lia.
Qed.

Lemma Zdigits2_succ (m : Z) :
  0 <= m -> Zdigits2 m <= Zdigits2 (m + 1) <= Zdigits2 m + 1.
Proof.
  intros Hm. split; [apply Zdigits2_mono; lia|].
  destruct (Z.eq_dec m 0) as [->|Hz]; [simpl; lia|].
  pose proof (Zdigits2_bounds m ltac:(lia)) as [Hlo Hhi].
  apply Zdigits2_le; [lia|pose proof (Zdigits2_nonneg m); lia|].
  rewrite Z.pow_add_r by (pose proof (Zdigits2_nonneg m); lia).
  change (2 ^ 1) with 2. lia.
Qed.

Lemma Zdigits2_mul (a b : Z) :
  0 < a -> 0 < b ->
  Zdigits2 a + Zdigits2 b - 1 <= Zdigits2 (a * b) <= Zdigits2 a + Zdigits2 b.
Proof.
  intros Ha Hb. rewrite !Zdigits2_log2 by nia.
  pose proof (Z.log2_mul_below a b Ha Hb).
  pose proof (Z.log2_mul_above a b ltac:(lia) ltac:(lia)). lia.
Qed.

Lemma Zdigits2_lt (m : Z) : 0 <= m -> m < 2 ^ Zdigits2 m.
Proof.
  intros Hm. destruct (Z.eq_dec m 0) as [->|Hz]; [simpl; lia|].
  apply Zdigits2_bounds. lia.
Qed.

Lemma Zdigits2_add (a b : Z) :
  0 <= a -> 0 <= b -> Zdigits2 (a + b) <= Z.max (Zdigits2 a) (Zdigits2 b) + 1.
Proof.
  intros Ha Hb.
  pose proof (Zdigits2_lt a Ha). pose proof (Zdigits2_lt b Hb).
  pose proof (Zdigits2_nonneg a). pose proof (Zdigits2_nonneg b).
  set (k := Z.max (Zdigits2 a) (Zdigits2 b)).
  assert (2 ^ Zdigits2 a <= 2 ^ k) by (apply Z.pow_le_mono_r; lia).
  assert (2 ^ Zdigits2 b <= 2 ^ k) by (apply Z.pow_le_mono_r; lia).
  apply Zdigits2_le; [lia|lia|].
  rewrite Z.pow_add_r by lia. change (2 ^ 1) with 2. lia.
Qed.

Lemma Zdigits2_shl (a n : Z) : 0 < a -> 0 <= n -> Zdigits2 (a * 2 ^ n) = Zdigits2 a + n.
Proof.
  intros Ha Hn.
  assert (0 < 2 ^ n) by (apply Z.pow_pos_nonneg; lia).
  rewrite !Zdigits2_log2 by nia.
  rewrite Z.log2_mul_pow2 by lia. lia.
Qed.

Lemma Zdigits2_div (a b : Z) :
  0 <= a -> 0 < b -> Zdigits2 (a / b) <= Z.max 0 (Zdigits2 a - Zdigits2 b + 1).
Proof.
  intros Ha Hb.
  destruct (Z.eq_dec a 0) as [->|Hza]; [rewrite Z.div_0_l by lia; simpl; lia|].
  pose proof (Zdigits2_bounds a ltac:(lia)) as [_ Hahi].
  pose proof (Zdigits2_bounds b Hb) as [Hblo _].
  pose proof (Zdigits2_pos a ltac:(lia)). pose proof (Zdigits2_pos b Hb).
  assert (0 <= a / b) as Hq by (apply Z.div_pos; lia).
  assert (b * (a / b) <= a) as Hqb by (apply Z.mul_div_le; lia).
  set (k := Z.max 0 (Zdigits2 a - Zdigits2 b + 1)).
  apply Zdigits2_le; [exact Hq|lia|].
  (* q * 2^(db-1) <= q*b <= a < 2^da <= 2^(k + db - 1) *)
  assert (2 ^ Zdigits2 a <= 2 ^ (k + (Zdigits2 b - 1))) as Hpow
      by (apply Z.pow_le_mono_r; lia).
  rewrite Z.pow_add_r in Hpow by lia.
  assert (0 < 2 ^ (Zdigits2 b - 1)) by (apply Z.pow_pos_nonneg; lia).
  assert (0 < 2 ^ k) by (apply Z.pow_pos_nonneg; lia).
  nia.
Qed.

Lemma Zdigits2_sqrt (a : Z) : 0 <= a -> Zdigits2 (Z.sqrt a) <= (Zdigits2 a + 1) / 2.
Proof.
  intros Ha.
  destruct (Z.eq_dec a 0) as [->|Hza]; [vm_compute; discriminate|].
  pose proof (Zdigits2_bounds a ltac:(lia)) as [_ Hahi].
  pose proof (Zdigits2_pos a ltac:(lia)) as Hd.
  pose proof (Z.sqrt_spec a Ha) as [Hs _].
  pose proof (Z.sqrt_nonneg a) as Hsn.
  set (k := (Zdigits2 a + 1) / 2).
  assert (Zdigits2 a <= 2 * k) as Hk by (unfold k; pose proof (Z.div_mod (Zdigits2 a + 1) 2 ltac:(lia)); pose proof (Z.mod_pos_bound (Zdigits2 a + 1) 2 ltac:(lia)); lia).
  assert (0 <= k) by (unfold k; apply Z.div_pos; lia).
  apply Zdigits2_le; [exact Hsn|lia|].
  assert (2 ^ Zdigits2 a <= 2 ^ (k + k)) as Hpow by (apply Z.pow_le_mono_r; lia).
  rewrite Z.pow_add_r in Hpow by lia.
  assert (0 < 2 ^ k) by (apply Z.pow_pos_nonneg; lia).
  nia.
Qed.

(** *** Rounding *)

Lemma Zdigits2_zero_iff (m : Z) : 0 <= m -> (Zdigits2 m = 0 <-> m = 0).
Proof.
  intros Hm. split; [|intros ->; reflexivity].
  intros H. destruct m as [|p|p]; [reflexivity|simpl in H; lia|lia].
Qed.

Lemma shr_1_m (mrs : shr_record) :
  0 <= shr_m mrs -> shr_m (shr_1 mrs) = shr_m mrs / 2.
Proof.
  intros H. rewrite <- Z.div2_div.
  destruct mrs as [m r s]. simpl in H |- *.
  destruct m as [|[p|p|]|p]; try reflexivity; lia.
Qed.

Lemma iter_shr_1_m (p : positive) (mrs : shr_record) :
  0 <= shr_m mrs ->
  shr_m (iter_pos shr_1 p mrs) = shr_m mrs / 2 ^ Zpos p.
Proof.
  revert mrs. induction p as [p IH|p IH|]; intros mrs H; simpl iter_pos.
  - assert (0 <= shr_m (shr_1 mrs)) as H1
        by (rewrite shr_1_m by exact H; apply Z.div_pos; lia).
    assert (0 < 2 ^ Zpos p) as Hp by (apply Z.pow_pos_nonneg; lia).
    assert (0 <= shr_m (iter_pos shr_1 p (shr_1 mrs))) as H2
        by (rewrite IH by exact H1; apply Z.div_pos; lia).
    rewrite IH by exact H2. rewrite IH by exact H1. rewrite shr_1_m by exact H.
    rewrite !Z.div_div by lia.
    f_equal.
    replace (Zpos p~1) with (1 + Zpos p + Zpos p) by lia.
    rewrite !Z.pow_add_r by lia. change (2 ^ 1) with 2. ring.
  - assert (0 < 2 ^ Zpos p) as Hp by (apply Z.pow_pos_nonneg; lia).
    assert (0 <= shr_m (iter_pos shr_1 p mrs)) as H2
        by (rewrite IH by exact H; apply Z.div_pos; lia).
    rewrite IH by exact H2. rewrite IH by exact H.
    rewrite !Z.div_div by lia.
    f_equal.
    replace (Zpos p~0) with (Zpos p + Zpos p) by lia.
    rewrite Z.pow_add_r by lia. reflexivity.
  - rewrite shr_1_m by exact H. reflexivity.
Qed.

Lemma shr_record_of_loc_m (m : Z) (l : location) : shr_m (shr_record_of_loc m l) = m.
Proof. destruct l as [|[| |]]; reflexivity. Qed.

(** One shift to the canonical exponent: the new exponent and the number
    of digits left. *)
Lemma shr_fexp_spec (m e : Z) (l : location) (mrs : shr_record) (e' : Z) :
  0 <= m ->
  shr_fexp prec emax m e l = (mrs, e') ->
  0 <= shr_m mrs /\
  e' = Z.max e (fexp prec emax (Zdigits2 m + e)) /\
  Zdigits2 (shr_m mrs) = Z.max 0 (Zdigits2 m + e - e').
Proof.
  intros Hm. unfold shr_fexp, shr.
  pose proof (Zdigits2_nonneg m) as Hd.
  destruct (fexp prec emax (Zdigits2 m + e) - e) as [|p|p] eqn:Hn;
    intros H; injection H as <- <-.
  - rewrite shr_record_of_loc_m. split; [exact Hm|]. lia.
  - rewrite iter_shr_1_m by (rewrite shr_record_of_loc_m; exact Hm).
    rewrite shr_record_of_loc_m.
    split; [apply Z.div_pos; [exact Hm|apply Z.pow_pos_nonneg; lia]|].
    split; [lia|].
    rewrite Zdigits2_shiftr by lia. lia.
  - rewrite shr_record_of_loc_m. split; [exact Hm|]. lia.
Qed.

Lemma round_nearest_even_cases (m : Z) (l : location) :
  round_nearest_even m l = m \/ round_nearest_even m l = m + 1.
Proof.
  destruct l as [|[| |]]; simpl; try (now left); try (now right).
  destruct (Z.even m); [now left|now right].
Qed.

(** What [binary_round_aux] returns for a mantissa [mx >= 0] at exponent
    [ex]: the sign is kept, the magnitude [digits + exponent] grows by
    at most one, zero comes from underflow only and infinity from
    overflow only. *)
Lemma binary_round_aux_spec (s : bool) (mx ex : Z) (lx : location) :
  0 <= mx ->
  let M := Zdigits2 mx + ex in
  match binary_round_aux prec emax s mx ex lx with
  | S754_zero s' => s' = s /\ (mx = 0 \/ M <= -1074)
  | S754_infinity s' => s' = s /\ (971 < ex \/ 1024 <= M)
  | S754_nan => False
  | S754_finite s' m e =>
      s' = s /\ M <= Zpos (digits2_pos m) + e <= Z.max M (-1074) + 1
  end.
Proof.
  intros Hmx M. unfold binary_round_aux.
  destruct (shr_fexp prec emax mx ex lx) as [mrs1 e1] eqn:H1.
  apply shr_fexp_spec in H1; [|exact Hmx].
  destruct H1 as (Hm1 & He1 & Hd1).
  set (m1 := round_nearest_even (shr_m mrs1) (loc_of_shr_record mrs1)).
  assert (0 <= m1 /\ Zdigits2 (shr_m mrs1) <= Zdigits2 m1 <= Zdigits2 (shr_m mrs1) + 1)
    as (Hm1' & Hd1').
  { destruct (round_nearest_even_cases (shr_m mrs1) (loc_of_shr_record mrs1)) as [E|E];
      fold m1 in E; rewrite E.
    - split; [exact Hm1|lia].
    - split; [lia|apply Zdigits2_succ; exact Hm1]. }
  destruct (shr_fexp prec emax m1 e1 loc_Exact) as [mrs2 e2] eqn:H2.
  apply shr_fexp_spec in H2; [|exact Hm1'].
  destruct H2 as (Hm2 & He2 & Hd2).
  pose proof (Zdigits2_nonneg mx) as Hdx.
  pose proof (Zdigits2_zero_iff mx Hmx) as Hzx.
  unfold fexp, SpecFloat.emin in He1, He2. unfold prec, emax in *.
  destruct (shr_m mrs2) as [|p|p] eqn:Hp.
  - simpl in Hd2. split; [reflexivity|].
    destruct (Z.eq_dec (Zdigits2 mx) 0) as [Hz|Hz]; [left; apply Hzx; exact Hz|right].
    unfold M. lia.
  - change (Zdigits2 (Z.pos p)) with (Z.pos (digits2_pos p)) in Hd2.
    destruct (e2 <=? 1024 - 53) eqn:Hle.
    + split; [reflexivity|]. unfold M. lia.
    + apply Z.leb_gt in Hle. split; [reflexivity|]. unfold M. lia.
  - lia.
Qed.

(** *** Magnitudes

    [below k x]: [x] is finite and [|x| < 2^k].  [above k x]: [x] is
    finite, not zero, and [|x| >= 2^(k-1)]. *)

Definition below (k : Z) (x : spec_float) : Prop :=
  match x with
  | S754_zero _ => True
  | S754_finite _ m e => Zpos (digits2_pos m) + e <= k
  | _ => False
  end.

Definition above (k : Z) (x : spec_float) : Prop :=
  match x with
  | S754_finite _ m e => k <= Zpos (digits2_pos m) + e
  | _ => False
  end.

Definition nonneg (x : spec_float) : Prop :=
  match x with
  | S754_zero _ | S754_finite false _ _ => True
  | _ => False
  end.

Definition posit (x : spec_float) : Prop :=
  match x with
  | S754_finite false _ _ => True
  | _ => False
  end.

Lemma below_mono (k k' : Z) (x : spec_float) : below k x -> k <= k' -> below k' x.
Proof. destruct x; simpl; try tauto. lia. Qed.

Lemma above_mono (k k' : Z) (x : spec_float) : above k x -> k' <= k -> above k' x.
Proof. destruct x; simpl; try tauto. lia. Qed.

Lemma posit_nonneg (x : spec_float) : posit x -> nonneg x.
Proof. destruct x as [| | |[] ? ?]; simpl; tauto. Qed.

Lemma valid_finite (s : bool) (m : positive) (e : Z) :
  SpecFloat.valid_binary prec emax (S754_finite s m e) = true ->
  e = Z.max (Zpos (digits2_pos m) + e - 53) (-1074) /\ e <= 971.
Proof.
  unfold SpecFloat.valid_binary, bounded, canonical_mantissa, fexp, SpecFloat.emin, prec, emax.
  intros H. apply andb_prop in H. destruct H as [H1 H2].
  apply Z.eqb_eq in H1. apply Z.leb_le in H2. lia.
Qed.

Lemma iter_xO (m d : positive) : Zpos (Pos.iter xO m d) = Zpos m * 2 ^ Zpos d.
Proof.
  induction d as [|d IH] using Pos.peano_ind.
  - simpl. lia.
  - rewrite Pos.iter_succ. rewrite Pos2Z.inj_xO, IH.
    rewrite Pos2Z.inj_succ. rewrite Z.pow_succ_r by lia. ring.
Qed.

Lemma shl_align_spec (mx : positive) (ex t : Z) :
  snd (shl_align mx ex t) = Z.min ex t /\
  Zpos (fst (shl_align mx ex t)) = Zpos mx * 2 ^ (ex - Z.min ex t).
Proof.
  unfold shl_align. destruct (t - ex) as [|p|p] eqn:Hd; simpl.
  - replace (Z.min ex t) with ex by lia. rewrite Z.sub_diag. simpl. lia.
  - replace (Z.min ex t) with ex by lia. rewrite Z.sub_diag. simpl. lia.
  - replace (Z.min ex t) with t by lia. split; [reflexivity|].
    rewrite iter_xO. replace (ex - t) with (Zpos p) by lia. reflexivity.
Qed.

Lemma binary_round_spec (s : bool) (m : positive) (e : Z) :
  let M := Zpos (digits2_pos m) + e in
  match binary_round prec emax s m e with
  | S754_zero s' => s' = s /\ M <= -1074
  | S754_infinity s' => s' = s /\ 1024 <= M
  | S754_nan => False
  | S754_finite s' m' e' =>
      s' = s /\ M <= Zpos (digits2_pos m') + e' <= Z.max M (-1074) + 1
  end.
Proof.
  intros M. unfold binary_round.
  pose proof (shl_align_spec m e (fexp prec emax (Zpos (digits2_pos m) + e))) as [He Hm].
  destruct (shl_align m e (fexp prec emax (Zpos (digits2_pos m) + e))) as [mz ez].
  cbn [fst snd] in He, Hm.
  assert (Zdigits2 (Zpos mz) + ez = M) as HM.
  { rewrite Hm. rewrite Zdigits2_shl by lia. simpl Zdigits2. unfold M. lia. }
  pose proof (binary_round_aux_spec s (Zpos mz) ez loc_Exact ltac:(lia)) as H.
  cbv zeta in H. rewrite HM in H.
  unfold fexp, SpecFloat.emin, prec, emax in He. fold M in He.
  destruct (binary_round_aux prec emax s (Zpos mz) ez loc_Exact); try exact H.
  - destruct H as [Hs [H|H]]; [lia|]. split; assumption.
  - destruct H as [Hs H]. split; [exact Hs|]. lia.
Qed.

Lemma binary_normalize_spec (z e : Z) :
  let M := Zdigits2 (Z.abs z) + e in
  match binary_normalize prec emax z e false with
  | S754_zero _ => z = 0 \/ M <= -1074
  | S754_infinity _ => 1024 <= M
  | S754_nan => False
  | S754_finite s' m' e' =>
      s' = (z <? 0) /\ M <= Zpos (digits2_pos m') + e' <= Z.max M (-1074) + 1
  end.
Proof.
  intros M. unfold binary_normalize. destruct z as [|p|p].
  - now left.
  - pose proof (binary_round_spec false p e) as H. cbv zeta in H.
    destruct (binary_round prec emax false p e); try exact H.
    + right. apply H.
    + apply H.
  - pose proof (binary_round_spec true p e) as H. cbv zeta in H.
    destruct (binary_round prec emax true p e); try exact H.
    + right. apply H.
    + apply H.
Qed.

(** *** Multiplication *)

Lemma SFmul_spec (x y : spec_float) (a b : Z) :
  SpecFloat.valid_binary prec emax x = true ->
  SpecFloat.valid_binary prec emax y = true ->
  below a x -> below b y -> a + b <= 1023 ->
  below (Z.max (a + b) (-1074) + 1) (SFmul prec emax x y) /\
  (nonneg x -> nonneg y -> nonneg (SFmul prec emax x y)).
Proof.
  intros Vx Vy Hx Hy Hab.
  destruct x as [sx|sx| |sx mx ex], y as [sy|sy| |sy my ey];
    cbn [below] in Hx, Hy; try tauto;
    try (split; [exact I|intros _ _; exact I]).
  apply valid_finite in Vx, Vy. cbn [SFmul].
  pose proof (binary_round_aux_spec (xorb sx sy) (Zpos (mx * my)) (ex + ey) loc_Exact
                ltac:(lia)) as H.
  cbv zeta in H.
  pose proof (Zdigits2_mul (Zpos mx) (Zpos my) ltac:(lia) ltac:(lia)) as Hd.
  rewrite <- Pos2Z.inj_mul in Hd. cbn [Zdigits2] in Hd, H.
  destruct (binary_round_aux prec emax (xorb sx sy) (Zpos (mx * my)) (ex + ey) loc_Exact)
    as [s|s| |s m e]; cbn [below nonneg].
  - split; [exact I|intros _ _; exact I].
  - exfalso. lia.
  - destruct H.
  - destruct H as [-> H]. split; [lia|].
    destruct sx, sy; simpl; tauto.
Qed.

(** *** Addition and subtraction *)

Lemma aligned_spec (mx : positive) (ex ez : Z) :
  ez <= ex ->
  let X := Zpos (fst (shl_align mx ex ez)) in
  X = Zpos mx * 2 ^ (ex - ez) /\
  Zdigits2 X + ez = Zpos (digits2_pos mx) + ex.
Proof.
  intros Hle X. pose proof (shl_align_spec mx ex ez) as [_ H].
  replace (Z.min ex ez) with ez in H by lia. fold X in H.
  split; [exact H|]. rewrite H, Zdigits2_shl by lia. cbn [Zdigits2]. lia.
Qed.

(** The sum or difference [z] of two aligned mantissas, normalized. *)
Lemma normalized_sum (z ez a b : Z) (X Y : Z) :
  0 < X -> 0 < Y -> Z.abs z <= X + Y ->
  Zdigits2 X + ez <= a -> Zdigits2 Y + ez <= b ->
  -1074 <= ez -> Z.max a b + 1 <= 1023 ->
  below (Z.max (Z.max a b + 1) (-1074) + 1) (binary_normalize prec emax z ez false) /\
  (0 <= z -> nonneg (binary_normalize prec emax z ez false)) /\
  (0 < z -> posit (binary_normalize prec emax z ez false)).
Proof.
  intros HX HY Hz Ha Hb Hez Hab.
  pose proof (binary_normalize_spec z ez) as H. cbv zeta in H.
  assert (Zdigits2 (Z.abs z) <= Z.max (Zdigits2 X) (Zdigits2 Y) + 1) as Hd.
  { apply Z.le_trans with (Zdigits2 (X + Y)); [apply Zdigits2_mono; lia|].
    apply Zdigits2_add; lia. }
  assert (z <> 0 -> 0 < Zdigits2 (Z.abs z)) as Hnz
      by (intros; apply Zdigits2_pos; lia).
  destruct (binary_normalize prec emax z ez false) as [s|s| |s m e]; cbn [below nonneg posit].
  - split; [exact I|]. split; [intros _; exact I|]. intros Hpos. lia.
  - exfalso. lia.
  - destruct H.
  - destruct H as [-> H]. split; [lia|].
    split; intros Hs.
    + assert ((z <? 0) = false) as -> by (apply Z.ltb_ge; lia). exact I.
    + assert ((z <? 0) = false) as -> by (apply Z.ltb_ge; lia). exact I.
Qed.

Lemma cond_Zopp_abs (s : bool) (X : Z) : 0 < X -> Z.abs (cond_Zopp s X) = X.
Proof. destruct s; simpl; lia. Qed.

Lemma SFadd_spec (x y : spec_float) (a b : Z) :
  SpecFloat.valid_binary prec emax x = true ->
  SpecFloat.valid_binary prec emax y = true ->
  below a x -> below b y -> Z.max a b + 1 <= 1023 ->
  let r := SFadd prec emax x y in
  below (Z.max (Z.max a b + 1) (-1074) + 1) r /\
  (nonneg x -> nonneg y -> nonneg r) /\
  (nonneg x -> posit y -> posit r) /\
  (posit x -> nonneg y -> posit r).
Proof.
  intros Vx Vy Hx Hy Hab r. subst r.
  destruct x as [sx|sx| |sx mx ex], y as [sy|sy| |sy my ey];
    cbn [below] in Hx, Hy; try tauto.
  - cbn [SFadd]. destruct sx, sy; cbn [below nonneg posit]; tauto.
  - cbn [SFadd below nonneg posit]. split; [lia|]. tauto.
  - cbn [SFadd below nonneg posit]. split; [lia|]. tauto.
  - apply valid_finite in Vx, Vy. cbn [SFadd].
    set (ez := Z.min ex ey).
    assert (ez <= ex /\ ez <= ey /\ (ez = ex \/ ez = ey)) as Hez by (unfold ez; lia).
    pose proof (aligned_spec mx ex ez ltac:(lia)) as [HX HdX].
    pose proof (aligned_spec my ey ez ltac:(lia)) as [HY HdY].
    set (X := Zpos (fst (shl_align mx ex ez))) in *.
    set (Y := Zpos (fst (shl_align my ey ez))) in *.
    assert (0 < X) by (unfold X; lia). assert (0 < Y) by (unfold Y; lia).
    pose proof (normalized_sum (cond_Zopp sx X + cond_Zopp sy Y) ez a b X Y
                  ltac:(lia) ltac:(lia)
                  ltac:(destruct sx, sy; unfold cond_Zopp; lia)
                  ltac:(lia) ltac:(lia) ltac:(lia) Hab) as (Hbelow & Hnn & Hpos).
    split; [exact Hbelow|].
    cbn [nonneg posit].
    repeat split; destruct sx, sy; try tauto; intros _ _;
      (apply Hnn || apply Hpos); unfold cond_Zopp; lia.
Qed.

Lemma SFsub_spec (x y : spec_float) (a b : Z) :
  SpecFloat.valid_binary prec emax x = true ->
  SpecFloat.valid_binary prec emax y = true ->
  below a x -> below b y -> Z.max a b + 1 <= 1023 ->
  below (Z.max (Z.max a b + 1) (-1074) + 1) (SFsub prec emax x y).
Proof.
  intros Vx Vy Hx Hy Hab.
  destruct x as [sx|sx| |sx mx ex], y as [sy|sy| |sy my ey];
    cbn [below] in Hx, Hy; try tauto.
  - cbn [SFsub]. destruct sx, sy; cbn [below]; tauto.
  - cbn [SFsub below]. lia.
  - cbn [SFsub below]. lia.
  - apply valid_finite in Vx, Vy. cbn [SFsub].
    set (ez := Z.min ex ey).
    assert (ez <= ex /\ ez <= ey /\ (ez = ex \/ ez = ey)) as Hez by (unfold ez; lia).
    pose proof (aligned_spec mx ex ez ltac:(lia)) as [HX HdX].
    pose proof (aligned_spec my ey ez ltac:(lia)) as [HY HdY].
    set (X := Zpos (fst (shl_align mx ex ez))) in *.
    set (Y := Zpos (fst (shl_align my ey ez))) in *.
    assert (0 < X) by (unfold X; lia). assert (0 < Y) by (unfold Y; lia).
    apply (normalized_sum (cond_Zopp sx X - cond_Zopp sy Y) ez a b X Y
                  ltac:(lia) ltac:(lia)
                  ltac:(destruct sx, sy; unfold cond_Zopp; lia)
                  ltac:(lia) ltac:(lia) ltac:(lia) Hab).
Qed.

(** Aligned mantissas of canonical numbers compare as the numbers do. *)
Lemma aligned_compare (mx my : positive) (ex ey : Z) :
  SpecFloat.valid_binary prec emax (S754_finite false mx ex) = true ->
  SpecFloat.valid_binary prec emax (S754_finite false my ey) = true ->
  let ez := Z.min ex ey in
  let X := Zpos (fst (shl_align mx ex ez)) in
  let Y := Zpos (fst (shl_align my ey ez)) in
  (ex < ey -> X < Y) /\ (ex = ey -> X = Zpos mx /\ Y = Zpos my).
Proof.
  intros Vx Vy ez X Y. apply valid_finite in Vx, Vy.
  assert (ez <= ex /\ ez <= ey /\ (ez = ex \/ ez = ey)) as Hez by (unfold ez; lia).
  pose proof (aligned_spec mx ex ez ltac:(lia)) as [HX _].
  pose proof (aligned_spec my ey ez ltac:(lia)) as [HY _].
  fold X in HX. fold Y in HY. split.
  - intros Hlt. replace (ex - ez) with 0 in HX by lia.
    replace (ey - ez) with (ey - ex) in HY by lia.
    pose proof (Zdigits2_bounds (Zpos mx) ltac:(lia)) as [_ Hx].
    pose proof (Zdigits2_bounds (Zpos my) ltac:(lia)) as [Hy _].
    cbn [Zdigits2] in Hx, Hy.
    assert (Zpos (digits2_pos my) = 53) as Hdy by lia.
    rewrite Hdy in Hy. change (2 ^ (53 - 1)) with 4503599627370496 in Hy.
    assert (2 ^ Zpos (digits2_pos mx) <= 2 ^ 53) as Hp
        by (apply Z.pow_le_mono_r; lia).
    change (2 ^ 53) with 9007199254740992 in Hp.
    assert (2 ^ 1 <= 2 ^ (ey - ex)) as Hq by (apply Z.pow_le_mono_r; lia).
    change (2 ^ 1) with 2 in Hq. change (2 ^ 0) with 1 in HX. nia.
  - intros ->. replace (ey - ez) with 0 in HX, HY by lia.
    change (2 ^ 0) with 1 in HX, HY. lia.
Qed.

(** [y - x] for [x <= y], [y] positive. *)
Lemma SFsub_order (x y : spec_float) (a b : Z) :
  SpecFloat.valid_binary prec emax x = true ->
  SpecFloat.valid_binary prec emax y = true ->
  below a x -> below b y -> posit y -> Z.max a b + 1 <= 1023 ->
  (SFleb x y = true -> nonneg (SFsub prec emax y x)) /\
  (SFltb x y = true -> posit (SFsub prec emax y x)).
Proof.
  intros Vx Vy Hx Hy Py Hab.
  destruct y as [sy|sy| |[|] my ey]; cbn [posit] in Py; try tauto.
  destruct x as [sx|sx| |sx mx ex]; cbn [below] in Hx, Hy; try tauto;
    try (cbn [SFsub nonneg posit]; tauto).
  - pose proof Vx as Vx'. pose proof Vy as Vy'.
    apply valid_finite in Vx', Vy'. cbn [SFsub].
    set (ez := Z.min ey ex).
    assert (ez <= ex /\ ez <= ey /\ (ez = ex \/ ez = ey)) as Hez by (unfold ez; lia).
    pose proof (aligned_spec mx ex ez ltac:(lia)) as [HX HdX].
    pose proof (aligned_spec my ey ez ltac:(lia)) as [HY HdY].
    set (X := Zpos (fst (shl_align mx ex ez))) in *.
    set (Y := Zpos (fst (shl_align my ey ez))) in *.
    assert (0 < X) by (unfold X; lia). assert (0 < Y) by (unfold Y; lia).
    pose proof (normalized_sum (cond_Zopp false Y - cond_Zopp sx X) ez b a Y X
                  ltac:(lia) ltac:(lia)
                  ltac:(destruct sx; unfold cond_Zopp; lia)
                  ltac:(lia) ltac:(lia) ltac:(lia) ltac:(lia)) as (_ & Hnn & Hpos).
    destruct sx.
    + split; intros _; [apply Hnn|apply Hpos]; unfold cond_Zopp; lia.
    + assert (SpecFloat.valid_binary prec emax (S754_finite false mx ex) = true) as Vx0
          by exact Vx.
      pose proof (aligned_compare mx my ex ey Vx0 Vy) as [Hlt Heq].
      cbv zeta in Hlt, Heq. rewrite (Z.min_comm ex ey) in Hlt, Heq.
      fold ez in Hlt, Heq. fold X in Hlt, Heq. fold Y in Hlt, Heq.
      unfold SFleb, SFltb. cbn [SFcompare].
      change (Pos.compare_cont Eq mx my) with (Pos.compare mx my).
      destruct (Z.compare_spec ex ey) as [He|He|He].
      * destruct (Heq He) as [EX EY].
        destruct (Pos.compare_spec mx my) as [Hm|Hm|Hm].
        -- split; [intros _; apply Hnn; unfold cond_Zopp; lia|discriminate].
        -- split; intros _; [apply Hnn|apply Hpos]; unfold cond_Zopp; lia.
        -- split; discriminate.
      * specialize (Hlt He). split; intros _; [apply Hnn|apply Hpos]; unfold cond_Zopp; lia.
      * split; discriminate.
Qed.

(** *** Division and square root *)

Definition number (x : spec_float) : Prop :=
  match x with
  | S754_nan => False
  | _ => True
  end.

Lemma below_number (k : Z) (x : spec_float) : below k x -> number x.
Proof. destruct x; simpl; tauto. Qed.

Lemma SFdiv_core_spec (m1 e1 m2 e2 : Z) :
  0 < m1 -> 0 < m2 ->
  let est := Zdigits2 m1 + e1 - (Zdigits2 m2 + e2) in
  let '(q, e', _) := SFdiv_core_binary prec emax m1 e1 m2 e2 in
  0 <= q /\ e' <= Z.max (est - 53) (-1074) /\ Zdigits2 q + e' <= Z.max e' (est + 1).
Proof.
  intros H1 H2 est. unfold SFdiv_core_binary.
  set (e' := Z.min (fexp prec emax (Zdigits2 m1 + e1 - (Zdigits2 m2 + e2))) (e1 - e2)).
  set (s := e1 - e2 - e').
  assert (0 <= s) as Hs by (unfold s, e'; lia).
  set (m' := match s with Z.pos _ => Z.shiftl m1 s | 0 => m1 | Z.neg _ => 0 end).
  assert (m' = m1 * 2 ^ s) as Hm'.
  { unfold m'. destruct s as [|p|p] eqn:E.
    - simpl. lia.
    - apply Z.shiftl_mul_pow2. lia.
    - lia. }
  destruct (Z.div_eucl m' m2) as [q r] eqn:Hq.
  assert (q = m' / m2) as -> by (unfold Z.div; rewrite Hq; reflexivity).
  assert (0 < 2 ^ s) by (apply Z.pow_pos_nonneg; lia).
  pose proof (Zdigits2_div m' m2 ltac:(nia) H2) as Hd.
  rewrite Hm' in Hd at 2. rewrite Zdigits2_shl in Hd by lia.
  split; [apply Z.div_pos; nia|].
  assert (e' <= Z.max (est - 53) (-1074)) as He'
      by (unfold e', fexp, SpecFloat.emin, prec, emax, est; lia).
  split; [exact He'|].
  assert (s + e' = e1 - e2) by (unfold s; lia).
  unfold est. lia.
Qed.

Lemma SFdiv_spec (x y : spec_float) (a b : Z) :
  SpecFloat.valid_binary prec emax x = true ->
  SpecFloat.valid_binary prec emax y = true ->
  below a x -> above b y -> a - b + 1 <= 1023 ->
  below (Z.max (a - b + 1) (-1074) + 1) (SFdiv prec emax x y) /\
  (nonneg x -> posit y -> nonneg (SFdiv prec emax x y)).
Proof.
  intros Vx Vy Hx Hy Hab.
  destruct y as [sy|sy| |sy my ey]; cbn [above] in Hy; try tauto.
  destruct x as [sx|sx| |sx mx ex]; cbn [below] in Hx; try tauto;
    try (cbn [SFdiv below nonneg]; tauto).
  - cbn [SFdiv].
    pose proof (SFdiv_core_spec (Zpos mx) ex (Zpos my) ey ltac:(lia) ltac:(lia)) as Hc.
    cbv zeta in Hc. cbn [Zdigits2] in Hc.
    destruct (SFdiv_core_binary prec emax (Zpos mx) ex (Zpos my) ey) as [[q e'] l].
    destruct Hc as (Hq & He' & Hd).
    pose proof (binary_round_aux_spec (xorb sx sy) q e' l Hq) as H. cbv zeta in H.
    destruct (binary_round_aux prec emax (xorb sx sy) q e' l) as [s|s| |s m e];
      cbn [below nonneg posit].
    + split; [exact I|intros _ _; exact I].
    + exfalso. lia.
    + destruct H.
    + destruct H as [-> H]. split; [lia|].
      destruct sx, sy; simpl; tauto.
Qed.

Lemma binary_round_aux_number (s : bool) (mx ex : Z) (lx : location) :
  0 <= mx -> number (binary_round_aux prec emax s mx ex lx).
Proof.
  intros H. pose proof (binary_round_aux_spec s mx ex lx H) as Hs. cbv zeta in Hs.
  destruct (binary_round_aux prec emax s mx ex lx); simpl; tauto.
Qed.

(** A number divided by a finite number other than zero is a number. *)
Lemma SFdiv_number (x y : spec_float) (b : Z) :
  number x -> above b y -> number (SFdiv prec emax x y).
Proof.
  intros Hx Hy.
  destruct y as [sy|sy| |sy my ey]; cbn [above] in Hy; try tauto.
  destruct x as [sx|sx| |sx mx ex]; cbn [number] in Hx; try tauto;
    try exact I.
  cbn [SFdiv].
  pose proof (SFdiv_core_spec (Zpos mx) ex (Zpos my) ey ltac:(lia) ltac:(lia)) as Hc.
  cbv zeta in Hc.
  destruct (SFdiv_core_binary prec emax (Zpos mx) ex (Zpos my) ey) as [[q e'] l].
  apply binary_round_aux_number. apply Hc.
Qed.

(** A number minus a finite number is a number. *)
Lemma SFsub_number (x y : spec_float) (b : Z) :
  number x -> below b y -> number (SFsub prec emax x y).
Proof.
  intros Hx Hy.
  destruct y as [sy|sy| |sy my ey]; cbn [below] in Hy; try tauto;
    destruct x as [sx|sx| |sx mx ex]; cbn [number] in Hx; try tauto;
    try exact I.
  - cbn [SFsub]. destruct sx, sy; exact I.
  - cbn [SFsub].
    match goal with
    | |- number (binary_normalize _ _ ?z ?e _) =>
        pose proof (binary_normalize_spec z e) as H; cbv zeta in H;
        destruct (binary_normalize prec emax z e false); simpl; tauto
    end.
Qed.

Lemma SFsqrt_core_spec (m e : Z) :
  0 < m ->
  let M := Zdigits2 m + e in
  let '(q, e', _) := SFsqrt_core_binary prec emax m e in
  0 <= q /\ e' <= Z.max ((M + 1) / 2 - 53) (-1074) /\ Zdigits2 q + e' <= (M + 1) / 2.
Proof.
  intros Hm M. unfold SFsqrt_core_binary. cbv zeta. rewrite !Z.div2_div.
  set (e' := Z.min (fexp prec emax ((Zdigits2 m + e + 1) / 2)) (e / 2)).
  set (s := e - 2 * e').
  assert (0 <= s) as Hs.
  { unfold s, e'. pose proof (Z.div_mod e 2 ltac:(lia)).
    pose proof (Z.mod_pos_bound e 2 ltac:(lia)). lia. }
  set (m' := match s with Z.pos _ => Z.shiftl m s | 0 => m | Z.neg _ => 0 end).
  assert (m' = m * 2 ^ s) as Hm'.
  { unfold m'. destruct s as [|p|p] eqn:E.
    - simpl. lia.
    - apply Z.shiftl_mul_pow2. lia.
    - lia. }
  assert (0 < 2 ^ s) by (apply Z.pow_pos_nonneg; lia).
  pose proof (Z.sqrtrem_sqrt m') as Hq.
  destruct (Z.sqrtrem m') as [q r]. cbn [fst] in Hq. subst q.
  pose proof (Zdigits2_sqrt m' ltac:(nia)) as Hd.
  rewrite Hm' in Hd at 2. rewrite Zdigits2_shl in Hd by lia.
  split; [apply Z.sqrt_nonneg|].
  assert (e' <= Z.max ((M + 1) / 2 - 53) (-1074)) as He'
      by (unfold e', fexp, SpecFloat.emin, prec, emax, M; lia).
  split; [exact He'|].
  assert (Zdigits2 m + s + 1 = (M + 1) - 2 * e') as E by (unfold s, M; lia).
  rewrite E in Hd.
  replace (M + 1 - 2 * e') with ((M + 1) + (- e') * 2) in Hd by lia.
  rewrite Z.div_add in Hd by lia. lia.
Qed.

Lemma SFsqrt_spec (x : spec_float) (a : Z) :
  SpecFloat.valid_binary prec emax x = true ->
  below a x -> nonneg x -> a <= 1023 ->
  below (Z.max ((a + 1) / 2) (-1074) + 1) (SFsqrt prec emax x) /\
  nonneg (SFsqrt prec emax x).
Proof.
  intros Vx Hx Nx Ha.
  destruct x as [sx|sx| |[|] mx ex]; cbn [below nonneg] in Hx, Nx; try tauto;
    try (cbn [SFsqrt below nonneg]; tauto).
  - cbn [SFsqrt].
    pose proof (SFsqrt_core_spec (Zpos mx) ex ltac:(lia)) as Hc.
    cbv zeta in Hc. cbn [Zdigits2] in Hc.
    destruct (SFsqrt_core_binary prec emax (Zpos mx) ex) as [[q e'] l].
    destruct Hc as (Hq & He' & Hd).
    pose proof (binary_round_aux_spec false q e' l Hq) as H. cbv zeta in H.
    assert ((Zpos (digits2_pos mx) + ex + 1) / 2 <= (a + 1) / 2) as Hmono
        by (apply Z.div_le_mono; lia).
    assert ((a + 1) / 2 <= 512) as Hhalf
        by (apply Z.div_le_upper_bound; lia).
    destruct (binary_round_aux prec emax false q e' l) as [s|s| |s m e];
      cbn [below nonneg posit].
    + split; exact I.
    + exfalso. lia.
    + destruct H.
    + destruct H as [-> H]. split; [lia|exact I].
Qed.

(** *** Comparisons *)

(** An integer that orders the binary64 numbers as [SFcompare] does. *)
Definition key (x : spec_float) : Z :=
  match x with
  | S754_zero _ | S754_nan => 0
  | S754_infinity s => if s then - (2047 * 2 ^ 53) else 2047 * 2 ^ 53
  | S754_finite s m e =>
      if s then - ((e + 1075) * 2 ^ 53 + Zpos m) else (e + 1075) * 2 ^ 53 + Zpos m
  end.

Lemma valid_mantissa (s : bool) (m : positive) (e : Z) :
  SpecFloat.valid_binary prec emax (S754_finite s m e) = true ->
  0 < Zpos m < 2 ^ 53 /\ -1074 <= e <= 971.
Proof.
  intros V. apply valid_finite in V.
  pose proof (Zdigits2_bounds (Zpos m) ltac:(lia)) as [_ H]. cbn [Zdigits2] in H.
  assert (2 ^ Zpos (digits2_pos m) <= 2 ^ 53) by (apply Z.pow_le_mono_r; lia).
  lia.
Qed.

Lemma SFcompare_key (x y : spec_float) :
  SpecFloat.valid_binary prec emax x = true ->
  SpecFloat.valid_binary prec emax y = true ->
  number x -> number y ->
  SFcompare x y = Some (key x ?= key y).
Proof.
  intros Vx Vy Nx Ny.
  destruct x as [sx|sx| |sx mx ex], y as [sy|sy| |sy my ey];
    cbn [number] in Nx, Ny; try tauto;
    try apply valid_mantissa in Vx; try apply valid_mantissa in Vy;
    cbn [SFcompare key]; f_equal; symmetry;
    change (2 ^ 53) with 9007199254740992 in *.
  all: try (destruct sx, sy; reflexivity).
  all: try (destruct sx; [apply Z.compare_gt_iff|apply Z.compare_lt_iff]; lia).
  all: try (destruct sy; [apply Z.compare_gt_iff|apply Z.compare_lt_iff]; lia).
  all: try (destruct sx, sy; first [apply Z.compare_gt_iff; lia|apply Z.compare_lt_iff; lia]).
  change (Pos.compare_cont Eq mx my) with (Pos.compare mx my).
  destruct sx, sy;
    try (apply Z.compare_lt_iff; lia); try (apply Z.compare_gt_iff; lia);
    destruct (Z.compare_spec ex ey); destruct (Pos.compare_spec mx my); cbn [CompOpp];
    first [apply Z.compare_eq_iff; subst; lia
          |apply Z.compare_lt_iff; lia|apply Z.compare_gt_iff; lia].
Qed.

Lemma is_nan_number (x : float) : PrimFloat.is_nan x = false <-> number (Prim2SF x).
Proof.
  unfold PrimFloat.is_nan. rewrite FloatAxioms.eqb_spec. unfold SFeqb.
  destruct (Prim2SF x) as [s|s| |s m e]; cbn [SFcompare number].
  - tauto.
  - destruct s; tauto.
  - split; [discriminate|tauto].
  - rewrite Z.compare_refl.
    change (Pos.compare_cont Eq m m) with (Pos.compare m m).
    rewrite Pos.compare_refl. destruct s; tauto.
Qed.

Lemma SFcompare_number (x y : spec_float) (c : comparison) :
  SFcompare x y = Some c -> number x /\ number y.
Proof.
  destruct x as [sx|sx| |sx mx ex], y as [sy|sy| |sy my ey]; cbn [SFcompare number];
    try discriminate; tauto.
Qed.

Definition fkey (x : float) : Z := key (Prim2SF x).

(** The comparisons of the code, read on the keys. *)
Lemma ltb_key (x y : float) :
  PrimFloat.ltb x y = true <->
  number (Prim2SF x) /\ number (Prim2SF y) /\ fkey x < fkey y.
Proof.
  rewrite ltb_spec. unfold SFltb, fkey. split.
  - destruct (SFcompare (Prim2SF x) (Prim2SF y)) as [c|] eqn:Hc; [|discriminate].
    destruct (SFcompare_number _ _ _ Hc) as [Nx Ny].
    rewrite (SFcompare_key _ _ (Prim2SF_valid x) (Prim2SF_valid y) Nx Ny) in Hc.
    injection Hc as <-. intros H. split; [exact Nx|]. split; [exact Ny|].
    unfold Z.lt. revert H.
    destruct (key (Prim2SF x) ?= key (Prim2SF y)); congruence.
  - intros (Nx & Ny & H).
    rewrite (SFcompare_key _ _ (Prim2SF_valid x) (Prim2SF_valid y) Nx Ny).
    unfold Z.lt in H. rewrite H. reflexivity.
Qed.

Lemma leb_key (x y : float) :
  PrimFloat.leb x y = true <->
  number (Prim2SF x) /\ number (Prim2SF y) /\ fkey x <= fkey y.
Proof.
  rewrite leb_spec. unfold SFleb, fkey. split.
  - destruct (SFcompare (Prim2SF x) (Prim2SF y)) as [c|] eqn:Hc; [|discriminate].
    destruct (SFcompare_number _ _ _ Hc) as [Nx Ny].
    rewrite (SFcompare_key _ _ (Prim2SF_valid x) (Prim2SF_valid y) Nx Ny) in Hc.
    injection Hc as <-. intros H. split; [exact Nx|]. split; [exact Ny|].
    unfold Z.le. revert H.
    destruct (key (Prim2SF x) ?= key (Prim2SF y)); congruence.
  - intros (Nx & Ny & H).
    rewrite (SFcompare_key _ _ (Prim2SF_valid x) (Prim2SF_valid y) Nx Ny).
    unfold Z.le in H. revert H.
    destruct (key (Prim2SF x) ?= key (Prim2SF y)); congruence.
Qed.

Lemma ltb_false_key (x y : float) :
  PrimFloat.ltb x y = false -> number (Prim2SF x) -> number (Prim2SF y) ->
  fkey y <= fkey x.
Proof.
  intros H Nx Ny. destruct (Z.le_gt_cases (fkey y) (fkey x)) as [Hle|Hgt]; [exact Hle|].
  assert (PrimFloat.ltb x y = true) by (apply ltb_key; tauto). congruence.
Qed.

Lemma leb_false_key (x y : float) :
  PrimFloat.leb x y = false -> number (Prim2SF x) -> number (Prim2SF y) ->
  fkey y < fkey x.
Proof.
  intros H Nx Ny. destruct (Z.lt_ge_cases (fkey y) (fkey x)) as [Hlt|Hge]; [exact Hlt|].
  assert (PrimFloat.leb x y = true) by (apply leb_key; tauto). congruence.
Qed.

Lemma key_below (x : spec_float) (mc : positive) (ec : Z) :
  SpecFloat.valid_binary prec emax x = true ->
  SpecFloat.valid_binary prec emax (S754_finite false mc ec) = true ->
  number x -> Z.abs (key x) <= key (S754_finite false mc ec) ->
  below (Zpos (digits2_pos mc) + ec) x.
Proof.
  intros Vx Vc Nx H.
  pose proof (valid_mantissa _ _ _ Vc) as Mc. pose proof (valid_finite _ _ _ Vc) as Fc.
  destruct x as [sx|sx| |sx mx ex]; cbn [number below key] in *; try tauto;
    change (2 ^ 53) with 9007199254740992 in *.
  - destruct sx; lia.
  - pose proof (valid_mantissa _ _ _ Vx) as Mx. pose proof (valid_finite _ _ _ Vx) as Fx.
    change (2 ^ 53) with 9007199254740992 in *.
    assert ((ex + 1075) * 9007199254740992 + Zpos mx
            <= (ec + 1075) * 9007199254740992 + Zpos mc) as Hk by (destruct sx; lia).
    assert (ex < ec \/ (ex = ec /\ Zpos mx <= Zpos mc)) as [Hlt|[-> Hm]] by lia.
    + lia.
    + pose proof (Zdigits2_mono (Zpos mx) (Zpos mc) ltac:(lia)) as Hd.
      cbn [Zdigits2] in Hd. lia.
Qed.

Lemma key_nonneg (x : spec_float) (k : Z) :
  SpecFloat.valid_binary prec emax x = true ->
  below k x -> 0 <= key x -> nonneg x.
Proof.
  intros Vx Bx H.
  destruct x as [sx|sx| |[|] mx ex]; cbn [below nonneg key] in *; try tauto.
  pose proof (valid_mantissa _ _ _ Vx) as Mx.
  change (2 ^ 53) with 9007199254740992 in *. lia.
Qed.

Lemma key_above (x : spec_float) (mc : positive) (ec k : Z) :
  SpecFloat.valid_binary prec emax x = true ->
  SpecFloat.valid_binary prec emax (S754_finite false mc ec) = true ->
  below k x -> key (S754_finite false mc ec) < key x ->
  posit x /\ above (Zpos (digits2_pos mc) + ec) x.
Proof.
  intros Vx Vc Bx H.
  pose proof (valid_mantissa _ _ _ Vc) as Mc. pose proof (valid_finite _ _ _ Vc) as Fc.
  destruct x as [sx|sx| |sx mx ex]; cbn [below posit above key] in *; try tauto;
    change (2 ^ 53) with 9007199254740992 in *.
  - lia.
  - pose proof (valid_mantissa _ _ _ Vx) as Mx. pose proof (valid_finite _ _ _ Vx) as Fx.
    change (2 ^ 53) with 9007199254740992 in *.
    destruct sx; [lia|]. split; [exact I|].
    assert (ec < ex \/ (ex = ec /\ Zpos mc <= Zpos mx)) as [Hlt|[-> Hm]] by lia.
    + lia.
    + pose proof (Zdigits2_mono (Zpos mc) (Zpos mx) ltac:(lia)) as Hd.
      cbn [Zdigits2] in Hd. lia.
Qed.

Lemma nonneg_key (x : spec_float) :
  SpecFloat.valid_binary prec emax x = true -> nonneg x -> 0 <= key x.
Proof.
  intros Vx H. destruct x as [sx|sx| |[|] mx ex]; cbn [nonneg key] in *; try tauto; try lia.
  pose proof (valid_mantissa _ _ _ Vx). change (2 ^ 53) with 9007199254740992 in *. lia.
Qed.

Lemma posit_key (x : spec_float) :
  SpecFloat.valid_binary prec emax x = true -> posit x -> 0 < key x.
Proof.
  intros Vx H. destruct x as [sx|sx| |[|] mx ex]; cbn [posit key] in *; try tauto.
  pose proof (valid_mantissa _ _ _ Vx). change (2 ^ 53) with 9007199254740992 in *. lia.
Qed.

Lemma key_abs (x : spec_float) :
  SpecFloat.valid_binary prec emax x = true -> key (SFabs x) = Z.abs (key x).
Proof.
  intros Vx. destruct x as [sx|sx| |sx mx ex]; cbn [SFabs key]; try reflexivity.
  - change (2 ^ 53) with 9007199254740992. destruct sx; lia.
  - pose proof (valid_mantissa _ _ _ Vx). change (2 ^ 53) with 9007199254740992 in *.
    destruct sx; lia.
Qed.

(** *** The operations of the code on bounded numbers

    [finite_below k x]: [x] is finite and [|x| < 2^k]; [nonneg_below] and
    [pos_below] add the sign. *)

Definition finite_below (k : Z) (x : float) : Prop := below k (Prim2SF x).
Definition nonneg_below (k : Z) (x : float) : Prop :=
  nonneg (Prim2SF x) /\ below k (Prim2SF x).
Definition pos_below (k : Z) (x : float) : Prop :=
  posit (Prim2SF x) /\ below k (Prim2SF x).
Definition is_number (x : float) : Prop := number (Prim2SF x).

Lemma nonneg_finite (k : Z) (x : float) : nonneg_below k x -> finite_below k x.
Proof. intros [_ H]. exact H. Qed.

Lemma pos_nonneg (k : Z) (x : float) : pos_below k x -> nonneg_below k x.
Proof. intros [H1 H2]. split; [apply posit_nonneg; exact H1|exact H2]. Qed.

Lemma finite_number (k : Z) (x : float) : finite_below k x -> is_number x.
Proof. apply below_number. Qed.

Lemma finite_below_mono (k k' : Z) (x : float) :
  finite_below k x -> k <= k' -> finite_below k' x.
Proof. apply below_mono. Qed.

Lemma nonneg_below_mono (k k' : Z) (x : float) :
  nonneg_below k x -> k <= k' -> nonneg_below k' x.
Proof. intros [H1 H2] Hk. split; [exact H1|eapply below_mono; eassumption]. Qed.

Lemma mul_finite (a b c : Z) (x y : float) :
  finite_below a x -> finite_below b y ->
  a + b <= 1023 -> a + b < c -> -1074 < c ->
  finite_below c (x * y).
Proof.
  unfold finite_below. intros Hx Hy H1 H2 H3. rewrite mul_spec.
  eapply below_mono;
    [apply (SFmul_spec _ _ a b (Prim2SF_valid x) (Prim2SF_valid y) Hx Hy H1)|lia].
Qed.

Lemma mul_nonneg (a b c : Z) (x y : float) :
  nonneg_below a x -> nonneg_below b y ->
  a + b <= 1023 -> a + b < c -> -1074 < c ->
  nonneg_below c (x * y).
Proof.
  unfold nonneg_below. intros [Nx Hx] [Ny Hy] H1 H2 H3. rewrite mul_spec.
  destruct (SFmul_spec _ _ a b (Prim2SF_valid x) (Prim2SF_valid y) Hx Hy H1) as [Hb Hn].
  split; [apply Hn; assumption|eapply below_mono; [exact Hb|lia]].
Qed.

Lemma square_nonneg (a c : Z) (x : float) :
  finite_below a x -> a + a <= 1023 -> a + a < c -> -1074 < c ->
  nonneg_below c (x * x).
Proof.
  unfold nonneg_below, finite_below. intros Hx H1 H2 H3.
  pose proof (SFmul_spec _ _ a a (Prim2SF_valid x) (Prim2SF_valid x) Hx Hx H1) as [Hb _].
  rewrite mul_spec. split; [|eapply below_mono; [exact Hb|lia]].
  unfold SF64mul.
  destruct (Prim2SF x) as [s|s| |s m e]; cbn [below] in Hx; try tauto;
    cbn [SFmul] in Hb |- *; try exact I.
  pose proof (binary_round_aux_spec (xorb s s) (Zpos (m * m)) (e + e) loc_Exact
                ltac:(lia)) as H.
  cbv zeta in H.
  destruct (binary_round_aux prec emax (xorb s s) (Zpos (m * m)) (e + e) loc_Exact)
    as [s'|s'| |s' m' e']; cbn [below nonneg] in *; try tauto.
  destruct H as [-> _]. destruct s; exact I.
Qed.

Lemma add_finite (a b c : Z) (x y : float) :
  finite_below a x -> finite_below b y ->
  Z.max a b + 1 <= 1023 -> Z.max a b + 1 < c -> -1074 < c ->
  finite_below c (x + y).
Proof.
  unfold finite_below. intros Hx Hy H1 H2 H3. rewrite add_spec.
  eapply below_mono;
    [apply (SFadd_spec _ _ a b (Prim2SF_valid x) (Prim2SF_valid y) Hx Hy H1)|lia].
Qed.

Lemma add_nonneg (a b c : Z) (x y : float) :
  nonneg_below a x -> nonneg_below b y ->
  Z.max a b + 1 <= 1023 -> Z.max a b + 1 < c -> -1074 < c ->
  nonneg_below c (x + y).
Proof.
  unfold nonneg_below. intros [Nx Hx] [Ny Hy] H1 H2 H3. rewrite add_spec.
  destruct (SFadd_spec _ _ a b (Prim2SF_valid x) (Prim2SF_valid y) Hx Hy H1)
    as (Hb & Hn & _).
  split; [apply Hn; assumption|eapply below_mono; [exact Hb|lia]].
Qed.

Lemma add_pos (a b c : Z) (x y : float) :
  nonneg_below a x -> pos_below b y ->
  Z.max a b + 1 <= 1023 -> Z.max a b + 1 < c -> -1074 < c ->
  pos_below c (x + y).
Proof.
  unfold nonneg_below, pos_below. intros [Nx Hx] [Ny Hy] H1 H2 H3. rewrite add_spec.
  destruct (SFadd_spec _ _ a b (Prim2SF_valid x) (Prim2SF_valid y) Hx Hy H1)
    as (Hb & _ & Hp & _).
  split; [apply Hp; assumption|eapply below_mono; [exact Hb|lia]].
Qed.

Lemma sub_finite (a b c : Z) (x y : float) :
  finite_below a x -> finite_below b y ->
  Z.max a b + 1 <= 1023 -> Z.max a b + 1 < c -> -1074 < c ->
  finite_below c (x - y).
Proof.
  unfold finite_below. intros Hx Hy H1 H2 H3. rewrite sub_spec.
  eapply below_mono;
    [apply (SFsub_spec _ _ a b (Prim2SF_valid x) (Prim2SF_valid y) Hx Hy H1)|lia].
Qed.

(** [y - x] for [x <= y] and for [x < y], [y] positive. *)
Lemma sub_nonneg (a b c : Z) (x y : float) :
  finite_below a x -> pos_below b y -> PrimFloat.leb x y = true ->
  Z.max a b + 1 <= 1023 -> Z.max a b + 1 < c -> -1074 < c ->
  nonneg_below c (y - x).
Proof.
  unfold finite_below, pos_below, nonneg_below. intros Hx [Py Hy] Hle H1 H2 H3.
  rewrite leb_spec in Hle. rewrite sub_spec.
  destruct (SFsub_order _ _ a b (Prim2SF_valid x) (Prim2SF_valid y) Hx Hy Py H1)
    as [Hn _].
  split; [apply Hn; exact Hle|].
  eapply below_mono;
    [apply (SFsub_spec _ _ b a (Prim2SF_valid y) (Prim2SF_valid x) Hy Hx); lia|lia].
Qed.

Lemma sub_pos (a b c : Z) (x y : float) :
  finite_below a x -> pos_below b y -> PrimFloat.ltb x y = true ->
  Z.max a b + 1 <= 1023 -> Z.max a b + 1 < c -> -1074 < c ->
  pos_below c (y - x).
Proof.
  unfold finite_below, pos_below. intros Hx [Py Hy] Hlt H1 H2 H3.
  rewrite ltb_spec in Hlt. rewrite sub_spec.
  destruct (SFsub_order _ _ a b (Prim2SF_valid x) (Prim2SF_valid y) Hx Hy Py H1)
    as [_ Hp].
  split; [apply Hp; exact Hlt|].
  eapply below_mono;
    [apply (SFsub_spec _ _ b a (Prim2SF_valid y) (Prim2SF_valid x) Hy Hx); lia|lia].
Qed.

Lemma sub_number (b : Z) (x y : float) :
  is_number x -> finite_below b y -> is_number (x - y).
Proof.
  unfold is_number, finite_below. intros Hx Hy. rewrite sub_spec.
  eapply SFsub_number; eassumption.
Qed.

Lemma div_number (b : Z) (x y : float) :
  is_number x -> pos_below b y -> is_number (x / y).
Proof.
  unfold is_number, pos_below. intros Hx [Py Hy]. rewrite div_spec.
  apply (SFdiv_number _ _ (-2000)); [exact Hx|].
  destruct (Prim2SF y) as [s|s| |[|] m e] eqn:E; cbn [posit above] in *; try tauto.
  pose proof (Prim2SF_valid y) as V. rewrite E in V. apply valid_finite in V. lia.
Qed.

(** [x / y] for [x >= 0] and [y >= 2^(b-1)]. *)
Lemma div_nonneg (a b c : Z) (x y : float) :
  nonneg_below a x -> posit (Prim2SF y) -> above b (Prim2SF y) ->
  a - b + 1 <= 1023 -> a - b + 1 < c -> -1074 < c ->
  nonneg_below c (x / y).
Proof.
  unfold nonneg_below. intros [Nx Hx] Py Hy H1 H2 H3. rewrite div_spec.
  destruct (SFdiv_spec _ _ a b (Prim2SF_valid x) (Prim2SF_valid y) Hx Hy H1) as [Hb Hn].
  split; [apply Hn; assumption|eapply below_mono; [exact Hb|lia]].
Qed.

Lemma sqrt_nonneg (a c : Z) (x : float) :
  nonneg_below a x -> a <= 1023 -> (a + 1) / 2 < c -> -1074 < c ->
  nonneg_below c (PrimFloat.sqrt x).
Proof.
  unfold nonneg_below. intros [Nx Hx] H1 H2 H3. rewrite sqrt_spec.
  destruct (SFsqrt_spec _ a (Prim2SF_valid x) Hx Nx H1) as [Hb Hn].
  split; [exact Hn|eapply below_mono; [exact Hb|lia]].
Qed.

(** Bounds read off the comparisons with a positive constant [c]. *)
Lemma abs_leb_finite (x c : float) (mc : positive) (ec : Z) :
  Prim2SF c = S754_finite false mc ec ->
  PrimFloat.leb (abs x) c = true ->
  finite_below (Zpos (digits2_pos mc) + ec) x.
Proof.
  intros Hc H. apply leb_key in H. destruct H as (Nx & _ & H).
  unfold fkey in H. rewrite abs_spec, key_abs, Hc in H by apply Prim2SF_valid.
  rewrite abs_spec in Nx.
  apply key_below; [apply Prim2SF_valid|rewrite <- Hc; apply Prim2SF_valid| |exact H].
  destruct (Prim2SF x); cbn [SFabs number] in *; tauto.
Qed.

Lemma range_nonneg (x c : float) (mc : positive) (ec : Z) :
  Prim2SF c = S754_finite false mc ec ->
  PrimFloat.leb 0 x = true -> PrimFloat.leb x c = true ->
  nonneg_below (Zpos (digits2_pos mc) + ec) x.
Proof.
  intros Hc H0 H. apply leb_key in H0, H.
  destruct H0 as (_ & Nx & H0). destruct H as (_ & _ & H).
  unfold fkey in *. rewrite Hc in H. change (key (Prim2SF 0)) with 0 in H0.
  assert (below (Zpos (digits2_pos mc) + ec) (Prim2SF x)) as Hb.
  { apply key_below; [apply Prim2SF_valid|rewrite <- Hc; apply Prim2SF_valid|exact Nx|].
    rewrite Z.abs_eq by exact H0. exact H. }
  split; [|exact Hb].
  eapply key_nonneg; [apply Prim2SF_valid|exact Hb|exact H0].
Qed.

Lemma ltb_above (x c : float) (mc : positive) (ec k : Z) :
  Prim2SF c = S754_finite false mc ec ->
  finite_below k x -> PrimFloat.ltb c x = true ->
  posit (Prim2SF x) /\ above (Zpos (digits2_pos mc) + ec) (Prim2SF x).
Proof.
  intros Hc Hx H. apply ltb_key in H. destruct H as (_ & _ & H).
  unfold fkey in H. rewrite Hc in H.
  eapply key_above; [apply Prim2SF_valid|rewrite <- Hc; apply Prim2SF_valid|exact Hx|exact H].
Qed.

Lemma nonneg_leb (k : Z) (x : float) : nonneg_below k x -> PrimFloat.leb 0 x = true.
Proof.
  intros [Nx Hx]. apply leb_key.
  split; [exact I|]. split; [eapply below_number; exact Hx|].
  change (fkey 0) with 0. apply nonneg_key; [apply Prim2SF_valid|exact Nx].
Qed.

Lemma pos_ltb (k : Z) (x : float) : pos_below k x -> PrimFloat.ltb 0 x = true.
Proof.
  intros [Px Hx]. apply ltb_key.
  split; [exact I|]. split; [eapply below_number; exact Hx|].
  change (fkey 0) with 0. apply posit_key; [apply Prim2SF_valid|exact Px].
Qed.

Lemma finite_not_nan (k : Z) (x : float) : finite_below k x -> PrimFloat.is_nan x = false.
Proof. intros H. apply is_nan_number. eapply below_number. exact H. Qed.

Lemma finite_not_infinity (k : Z) (x : float) :
  finite_below k x -> PrimFloat.is_infinity x = false.
Proof.
  unfold finite_below, PrimFloat.is_infinity. intros H.
  rewrite FloatAxioms.eqb_spec, abs_spec.
  change (Prim2SF infinity) with (S754_infinity false).
  destruct (Prim2SF x) as [s|s| |s m e]; cbn [below] in H; try tauto; reflexivity.
Qed.

(** *** Rounding, more closely

    The result of [binary_round_aux] is at least the input truncated at
    the canonical exponent, and at most the power of two that bounds the
    input. *)

Lemma shr_fexp_m (m e : Z) (l : location) (mrs : shr_record) (e' : Z) :
  0 <= m ->
  shr_fexp prec emax m e l = (mrs, e') ->
  shr_m mrs = m / 2 ^ (e' - e).
Proof.
  intros Hm. unfold shr_fexp, shr.
  destruct (fexp prec emax (Zdigits2 m + e) - e) as [|p|p] eqn:Hn;
    intros H; injection H as <- <-.
  - rewrite shr_record_of_loc_m, Z.sub_diag. simpl. rewrite Z.div_1_r. reflexivity.
  - rewrite iter_shr_1_m by (rewrite shr_record_of_loc_m; exact Hm).
    rewrite shr_record_of_loc_m. f_equal. f_equal. lia.
  - rewrite shr_record_of_loc_m, Z.sub_diag. simpl. rewrite Z.div_1_r. reflexivity.
Qed.

Lemma pow2_digits (m : Z) : 0 <= m -> Zdigits2 (m + 1) = Zdigits2 m + 1 -> m + 1 = 2 ^ Zdigits2 m.
Proof.
  intros Hm H.
  pose proof (Zdigits2_lt m Hm) as Hlt.
  pose proof (Zdigits2_bounds (m + 1) ltac:(lia)) as [Hlo _].
  rewrite H in Hlo. replace (Zdigits2 m + 1 - 1) with (Zdigits2 m) in Hlo by lia. lia.
Qed.

Lemma binary_round_aux_enclosure (s : bool) (mx ex : Z) (lx : location) :
  0 <= mx ->
  let M := Zdigits2 mx + ex in
  let e1 := Z.max ex (Z.max (M - 53) (-1074)) in
  match binary_round_aux prec emax s mx ex lx with
  | S754_finite _ m e =>
      (Zpos (digits2_pos m) + e <= Z.max M (-1074) \/
       (Zpos m = 2 ^ (Zpos (digits2_pos m) - 1) /\
        Zpos (digits2_pos m) + e = Z.max M (-1074) + 1)) /\
      (e1 + 1075) * 2 ^ 53 + mx / 2 ^ (e1 - ex) <= (e + 1075) * 2 ^ 53 + Zpos m
  | _ => True
  end.
Proof.
  intros Hmx M e1. unfold binary_round_aux.
  destruct (shr_fexp prec emax mx ex lx) as [mrs1 e1'] eqn:H1.
  pose proof (shr_fexp_m _ _ _ _ _ Hmx H1) as Hm1v.
  apply shr_fexp_spec in H1; [|exact Hmx].
  destruct H1 as (Hm1 & He1 & Hd1).
  set (m1 := round_nearest_even (shr_m mrs1) (loc_of_shr_record mrs1)).
  assert (0 <= m1 /\ shr_m mrs1 <= m1 /\
          (Zdigits2 m1 = Zdigits2 (shr_m mrs1) \/
           (Zdigits2 m1 = Zdigits2 (shr_m mrs1) + 1 /\ m1 = 2 ^ Zdigits2 (shr_m mrs1))))
    as (Hm1' & Hge & Hd1').
  { destruct (round_nearest_even_cases (shr_m mrs1) (loc_of_shr_record mrs1)) as [E|E];
      fold m1 in E; rewrite E.
    - split; [exact Hm1|]. split; [lia|]. now left.
    - split; [lia|]. split; [lia|].
      pose proof (Zdigits2_succ (shr_m mrs1) Hm1) as Hs.
      destruct (Z.eq_dec (Zdigits2 (shr_m mrs1 + 1)) (Zdigits2 (shr_m mrs1))) as [Heq|Hne];
        [now left|right].
      assert (Zdigits2 (shr_m mrs1 + 1) = Zdigits2 (shr_m mrs1) + 1) as Hs1 by lia.
      split; [exact Hs1|]. apply pow2_digits; assumption. }
  destruct (shr_fexp prec emax m1 e1' loc_Exact) as [mrs2 e2] eqn:H2.
  pose proof (shr_fexp_m _ _ _ _ _ Hm1' H2) as Hm2v.
  apply shr_fexp_spec in H2; [|exact Hm1'].
  destruct H2 as (Hm2 & He2 & Hd2).
  pose proof (Zdigits2_nonneg mx) as Hdx.
  unfold fexp, SpecFloat.emin in He1, He2. unfold prec, emax in *.
  assert (e1' = e1) as -> by (unfold e1, M; lia).
  destruct (shr_m mrs2) as [|p|p] eqn:Hp; [exact I| |exact I].
  change (Zdigits2 (Z.pos p)) with (Z.pos (digits2_pos p)) in Hd2.
  destruct (e2 <=? 1024 - 53) eqn:Hle; [|exact I].
  pose proof (Zdigits2_nonneg (shr_m mrs1)) as Hdm1.
  pose proof (Zdigits2_lt (shr_m mrs1) Hm1) as Hlt1.
  assert (2 ^ Zdigits2 (shr_m mrs1) <= 2 ^ 53) as Hp53
      by (apply Z.pow_le_mono_r; unfold M in *; lia).
  change (2 ^ 53) with 9007199254740992 in *.
  split.
  - destruct Hd1' as [Hsame|[Hup Hpow]].
    + left. unfold M. lia.
    + destruct (Z.le_gt_cases (Zpos (digits2_pos p) + e2) (Z.max M (-1074))) as [Hsm|Hbig];
        [left; exact Hsm|right].
      split; [|unfold M in *; lia].
      rewrite Hpow in Hm2v. rewrite <- Z.pow_sub_r in Hm2v by lia.
      rewrite Hm2v. f_equal. lia.
  - rewrite <- Hm1v.
    assert (e2 = e1 \/ e1 < e2) as [->|Hgt] by lia.
    + rewrite Z.sub_diag in Hm2v. change (2 ^ 0) with 1 in Hm2v.
      rewrite Z.div_1_r in Hm2v. lia.
    + lia.
Qed.

Definition key_one : Z := 1023 * 2 ^ 53 + 2 ^ 52.

(** A rounded value below 1 is at most 1. *)
Lemma binary_round_aux_le_one (s : bool) (mx ex : Z) (lx : location) :
  0 <= mx -> Zdigits2 mx + ex <= 0 ->
  let r := binary_round_aux prec emax s mx ex lx in
  SpecFloat.valid_binary prec emax r = true ->
  Z.abs (key r) <= key_one /\ (r = S754_zero s \/ exists m e, r = S754_finite s m e).
Proof.
  intros Hmx HM r V.
  pose proof (binary_round_aux_spec s mx ex lx Hmx) as Hs.
  pose proof (binary_round_aux_enclosure s mx ex lx Hmx) as He.
  cbv zeta in Hs, He. fold r in Hs, He.
  pose proof (Zdigits2_nonneg mx) as Hd.
  unfold key_one. change (2 ^ 53) with 9007199254740992. change (2 ^ 52) with 4503599627370496.
  destruct r as [s'|s'| |s' m e]; cbn [key].
  - destruct Hs as [-> _]. split; [lia|now left].
  - exfalso. lia.
  - destruct Hs.
  - destruct Hs as [-> Hs]. split; [|right; eauto].
    destruct He as [Hup _].
    pose proof (valid_finite _ _ _ V) as Vf. pose proof (valid_mantissa _ _ _ V) as Vm.
    change (2 ^ 53) with 9007199254740992 in *.
    assert ((e + 1075) * 9007199254740992 + Zpos m
            <= 1023 * 9007199254740992 + 4503599627370496) as Hk.
    { destruct Hup as [Hup|[Hpow Hup]].
      - lia.
      - assert (Zpos (digits2_pos m) + e <= 0 \/ Zpos (digits2_pos m) + e = 1)
          as [Hsm|Hone] by lia; [lia|].
        assert (e = -52) as -> by lia.
        assert (Zpos (digits2_pos m) = 53) as Hd53 by lia.
        rewrite Hd53 in Hpow. change (2 ^ (53 - 1)) with 4503599627370496 in Hpow. lia. }
    destruct s; lia.
Qed.

(** Rounding does not go below a canonical number that the exact value
    reaches. *)
Lemma binary_round_ge (s : bool) (m : positive) (e : Z) (mc : positive) (ec : Z) :
  SpecFloat.valid_binary prec emax (S754_finite false mc ec) = true ->
  Zpos mc * 2 ^ (ec - Z.min e ec) <= Zpos m * 2 ^ (e - Z.min e ec) ->
  match binary_round prec emax s m e with
  | S754_finite _ m' e' =>
      (ec + 1075) * 2 ^ 53 + Zpos mc <= (e' + 1075) * 2 ^ 53 + Zpos m'
  | _ => True
  end.
Proof.
  intros Vc Hle.
  pose proof (valid_finite _ _ _ Vc) as Vf. pose proof (valid_mantissa _ _ _ Vc) as Vm.
  unfold binary_round.
  pose proof (shl_align_spec m e (fexp prec emax (Zpos (digits2_pos m) + e))) as [He Hm].
  destruct (shl_align m e (fexp prec emax (Zpos (digits2_pos m) + e))) as [mz ez].
  cbn [fst snd] in He, Hm.
  assert (Zdigits2 (Zpos mz) + ez = Zpos (digits2_pos m) + e) as HM.
  { rewrite Hm. rewrite Zdigits2_shl by lia. cbn [Zdigits2]. lia. }
  pose proof (binary_round_aux_enclosure s (Zpos mz) ez loc_Exact ltac:(lia)) as H.
  cbv zeta in H. rewrite HM in H.
  unfold fexp, SpecFloat.emin, prec, emax in He, Hm.
  set (M := Zpos (digits2_pos m) + e) in *.
  destruct (binary_round_aux prec emax s (Zpos mz) ez loc_Exact) as [| | |s' m' e'];
    try exact I.
  destruct H as [_ H].
  set (f := Z.max (M - 53) (-1074)) in *.
  replace (Z.max ez f) with f in H by lia.
  eapply Z.le_trans; [|exact H].
  (* the canonical number against the truncation *)
  set (t := Z.min e ec) in *.
  assert (0 < 2 ^ (ec - t)) by (apply Z.pow_pos_nonneg; lia).
  assert (0 < 2 ^ (e - t)) by (apply Z.pow_pos_nonneg; lia).
  assert (Zpos (digits2_pos mc) + ec <= M) as HMc.
  { assert (Zdigits2 (Zpos mc * 2 ^ (ec - t)) <= Zdigits2 (Zpos m * 2 ^ (e - t))) as Hd
        by (apply Zdigits2_mono; lia).
    rewrite !Zdigits2_shl in Hd by lia. cbn [Zdigits2] in Hd. unfold M. lia. }
  change (2 ^ 53) with 9007199254740992 in *.
  assert (ec < f \/ ec = f) as [Hlt|Heq] by lia.
  - assert (0 <= Zpos mz / 2 ^ (f - ez)) by (apply Z.div_pos; [lia|apply Z.pow_pos_nonneg; lia]).
    lia.
  - assert (Zpos mc <= Zpos mz / 2 ^ (f - ez)); [|lia].
    apply Z.div_le_lower_bound; [apply Z.pow_pos_nonneg; lia|].
    assert (ez = t) as -> by lia.
    rewrite Hm, <- He, <- Heq. lia.
Qed.

Definition SF_one : spec_float := S754_finite false 4503599627370496 (-52).

Lemma key_unit_cases (x : spec_float) :
  SpecFloat.valid_binary prec emax x = true ->
  nonneg x -> key x <= key_one -> below 0 x \/ x = SF_one.
Proof.
  intros V N H. unfold key_one in H.
  destruct x as [s|s| |[|] m e]; cbn [nonneg below key] in *; try tauto.
  pose proof (valid_finite _ _ _ V) as Vf. pose proof (valid_mantissa _ _ _ V) as Vm.
  pose proof (Zdigits2_bounds (Zpos m) ltac:(lia)) as [Hlo _]. cbn [Zdigits2] in Hlo.
  change (2 ^ 53) with 9007199254740992 in *. change (2 ^ 52) with 4503599627370496 in *.
  assert (e < -52 \/ e = -52) as [Hlt| ->] by lia; [left; lia|right].
  assert (Zpos (digits2_pos m) = 53) as Hd by lia.
  rewrite Hd in Hlo. change (2 ^ (53 - 1)) with 4503599627370496 in Hlo.
  unfold SF_one. f_equal. lia.
Qed.

(** *** Sums do not fall below their terms *)

Lemma SFadd_ge (x y : spec_float) (a b : Z) :
  SpecFloat.valid_binary prec emax x = true ->
  SpecFloat.valid_binary prec emax y = true ->
  nonneg x -> nonneg y -> below a x -> below b y -> Z.max a b + 1 <= 1023 ->
  key x <= key (SFadd prec emax x y) /\ key y <= key (SFadd prec emax x y).
Proof.
  intros Vx Vy Nx Ny Hx Hy Hab.
  pose proof (SFadd_spec x y a b Vx Vy Hx Hy Hab) as (Hb & Hn & Hpos & _).
  cbv zeta in Hb, Hn, Hpos. specialize (Hn Nx Ny).
  pose proof (nonneg_key x Vx Nx) as Kx. pose proof (nonneg_key y Vy Ny) as Ky.
  destruct x as [sx|sx| |[|] mx ex], y as [sy|sy| |[|] my ey];
    cbn [nonneg below] in Nx, Ny, Hx, Hy; try tauto.
  - cbn [SFadd]. destruct sx, sy; cbn [key]; lia.
  - cbn [SFadd key] in *. lia.
  - cbn [SFadd key] in *. lia.
  - cbn [SFadd] in *.
    set (ez := Z.min ex ey) in *.
    assert (ez <= ex /\ ez <= ey /\ (ez = ex \/ ez = ey)) as Hez by (unfold ez; lia).
    pose proof (aligned_spec mx ex ez ltac:(lia)) as [HX _].
    pose proof (aligned_spec my ey ez ltac:(lia)) as [HY _].
    set (X := Zpos (fst (shl_align mx ex ez))) in *.
    set (Y := Zpos (fst (shl_align my ey ez))) in *.
    assert (0 < X) by (unfold X; lia). assert (0 < Y) by (unfold Y; lia).
    unfold cond_Zopp in *.
    destruct (X + Y) as [|p|p] eqn:Hp; try lia.
    cbn [binary_normalize] in *.
    pose proof (binary_round_ge false p ez mx ex Vx) as Gx.
    pose proof (binary_round_ge false p ez my ey Vy) as Gy.
    replace (Z.min ez ex) with ez in Gx by lia.
    replace (Z.min ez ey) with ez in Gy by lia.
    rewrite Z.sub_diag in Gx, Gy. change (2 ^ 0) with 1 in Gx, Gy.
    rewrite <- HX in Gx. rewrite <- HY in Gy.
    specialize (Gx ltac:(lia)). specialize (Gy ltac:(lia)).
    specialize (Hpos I I).
    destruct (binary_round prec emax false p ez) as [s|s| |[|] m e];
      cbn [below nonneg posit key] in *; try tauto.
Qed.

(** *** Quotients, products and complements in the unit interval *)

Lemma key_order_aligned (mx my : positive) (ex ey : Z) :
  SpecFloat.valid_binary prec emax (S754_finite false mx ex) = true ->
  SpecFloat.valid_binary prec emax (S754_finite false my ey) = true ->
  key (S754_finite false mx ex) < key (S754_finite false my ey) ->
  Zpos mx * 2 ^ (ex - Z.min ex ey) < Zpos my * 2 ^ (ey - Z.min ex ey).
Proof.
  intros Vx Vy H.
  pose proof (aligned_compare mx my ex ey Vx Vy) as [Hlt Heq]. cbv zeta in Hlt, Heq.
  pose proof (aligned_spec mx ex (Z.min ex ey) ltac:(lia)) as [HX _].
  pose proof (aligned_spec my ey (Z.min ex ey) ltac:(lia)) as [HY _].
  rewrite <- HX, <- HY.
  pose proof (valid_mantissa _ _ _ Vx). pose proof (valid_mantissa _ _ _ Vy).
  cbn [key] in H. change (2 ^ 53) with 9007199254740992 in *.
  assert (ex < ey \/ (ex = ey /\ Zpos mx < Zpos my)) as [Hl|[He Hm]] by lia.
  - apply Hlt. exact Hl.
  - destruct (Heq He) as [-> ->]. exact Hm.
Qed.

Lemma SFdiv_le_one (x y : spec_float) :
  SpecFloat.valid_binary prec emax x = true ->
  SpecFloat.valid_binary prec emax y = true ->
  nonneg x -> posit y -> key x < key y ->
  SpecFloat.valid_binary prec emax (SFdiv prec emax x y) = true ->
  nonneg (SFdiv prec emax x y) /\ key (SFdiv prec emax x y) <= key_one.
Proof.
  intros Vx Vy Nx Py H Vr.
  destruct y as [sy|sy| |[|] my ey]; cbn [posit] in Py; try tauto.
  destruct x as [sx|sx| |[|] mx ex]; cbn [nonneg] in Nx; try tauto.
  - cbn [SFdiv nonneg key]. unfold key_one. split; [exact I|]. vm_compute. discriminate.
  - pose proof (key_order_aligned mx my ex ey Vx Vy H) as Hlt.
    set (ez := Z.min ex ey) in *.
    assert (ez <= ex /\ ez <= ey) as Hez by (unfold ez; lia).
    cbn [SFdiv] in *.
    unfold SFdiv_core_binary in *. cbv zeta in *.
    cbn [Zdigits2] in *.
    set (est := Zpos (digits2_pos mx) + ex - (Zpos (digits2_pos my) + ey)) in *.
    set (e' := Z.min (fexp prec emax est) (ex - ey)) in *.
    set (s := ex - ey - e') in *.
    assert (0 < 2 ^ (ex - ez)) by (apply Z.pow_pos_nonneg; lia).
    assert (0 < 2 ^ (ey - ez)) by (apply Z.pow_pos_nonneg; lia).
    assert (est <= 0) as Hest.
    { assert (Zdigits2 (Zpos mx * 2 ^ (ex - ez)) <= Zdigits2 (Zpos my * 2 ^ (ey - ez))) as Hd
          by (apply Zdigits2_mono; lia).
      rewrite !Zdigits2_shl in Hd by lia. cbn [Zdigits2] in Hd. unfold est. lia. }
    assert (e' <= -53) as He' by (unfold e', fexp, SpecFloat.emin, prec, emax; lia).
    assert (0 <= s) as Hs by (unfold s, e'; lia).
    set (m' := match s with Z.pos _ => Z.shiftl (Zpos mx) s | 0 => Zpos mx | Z.neg _ => 0 end)
      in *.
    assert (m' = Zpos mx * 2 ^ s) as Hm'.
    { unfold m'. destruct s as [|p|p] eqn:E.
      - simpl. lia.
      - apply Z.shiftl_mul_pow2. lia.
      - lia. }
    destruct (Z.div_eucl m' (Zpos my)) as [q r] eqn:Hq.
    assert (q = m' / Zpos my) as Eq by (unfold Z.div; rewrite Hq; reflexivity).
    assert (0 < 2 ^ s) by (apply Z.pow_pos_nonneg; lia).
    assert (0 <= q) as Hq0 by (rewrite Eq; apply Z.div_pos; nia).
    assert (Zdigits2 q + e' <= 0) as HM.
    { assert (q < 2 ^ (- e')); [|pose proof (Zdigits2_le q (- e') Hq0 ltac:(lia) ltac:(assumption)); lia].
      assert (Zpos my * q <= m') as Hqm by (rewrite Eq; apply Z.mul_div_le; lia).
      assert (0 < 2 ^ (- e')) by (apply Z.pow_pos_nonneg; lia).
      assert (Zpos mx * 2 ^ s * 2 ^ (ey - ez) = Zpos mx * 2 ^ (ex - ez) * 2 ^ (- e')) as E.
      { rewrite <- !Z.mul_assoc, <- !Z.pow_add_r by lia. f_equal. f_equal. unfold s. lia. }
      nia. }
    pose proof (binary_round_aux_le_one (xorb false false) q e' (new_location (Zpos my) r)
                  Hq0 HM Vr) as [Hk Hform].
    split.
    + destruct Hform as [->|(m & e & ->)]; exact I.
    + lia.
Qed.

Lemma SFdiv_self (s : bool) (m : positive) (e : Z) :
  SFdiv prec emax (S754_finite s m e) (S754_finite s m e) = SF_one.
Proof.
  cbn [SFdiv]. unfold SFdiv_core_binary. cbv zeta.
  replace (Zdigits2 (Zpos m) + e - (Zdigits2 (Zpos m) + e)) with 0 by lia.
  replace (e - e) with 0 by lia.
  change (Z.min (fexp prec emax 0) 0) with (-53).
  change (0 - -53) with 53.
  change (match 53 with Z.pos _ => Z.shiftl (Zpos m) 53 | 0 => Zpos m | Z.neg _ => 0 end)
    with (Z.shiftl (Zpos m) 53).
  rewrite Z.shiftl_mul_pow2 by lia.
  destruct (Z.div_eucl (Zpos m * 2 ^ 53) (Zpos m)) as [q r] eqn:Hq.
  assert (q = 2 ^ 53) as ->.
  { transitivity (Zpos m * 2 ^ 53 / Zpos m); [unfold Z.div; rewrite Hq; reflexivity|].
    rewrite Z.mul_comm. apply Z.div_mul. lia. }
  assert (r = 0) as ->.
  { transitivity (Zpos m * 2 ^ 53 mod Zpos m); [unfold Z.modulo; rewrite Hq; reflexivity|].
    rewrite Z.mul_comm. apply Z.mod_mul. lia. }
  assert (new_location (Zpos m) 0 = loc_Exact) as ->.
  { unfold new_location, new_location_even, new_location_odd.
    destruct (Z.even (Zpos m)); reflexivity. }
  destruct s; vm_compute; reflexivity.
Qed.

Lemma SFmul_le_one (x y : spec_float) :
  SpecFloat.valid_binary prec emax x = true ->
  SpecFloat.valid_binary prec emax y = true ->
  nonneg x -> nonneg y -> key x <= key_one -> key y <= key_one ->
  SpecFloat.valid_binary prec emax (SFmul prec emax x y) = true ->
  nonneg (SFmul prec emax x y) /\ key (SFmul prec emax x y) <= key_one.
Proof.
  intros Vx Vy Nx Ny Kx Ky Vr.
  assert (forall s, key (S754_zero s) <= key_one) as Hz by (intros; vm_compute; discriminate).
  destruct (key_unit_cases x Vx Nx Kx) as [Bx| ->];
    destruct (key_unit_cases y Vy Ny Ky) as [By| ->].
  - destruct x as [sx|sx| |[|] mx ex], y as [sy|sy| |[|] my ey];
      cbn [nonneg below] in Nx, Ny, Bx, By; try tauto;
      try (cbn [SFmul nonneg]; split; [exact I|apply Hz]).
    cbn [SFmul] in *.
    pose proof (Zdigits2_mul (Zpos mx) (Zpos my) ltac:(lia) ltac:(lia)) as Hd.
    rewrite <- Pos2Z.inj_mul in Hd. cbn [Zdigits2] in Hd.
    pose proof (binary_round_aux_le_one (xorb false false) (Zpos (mx * my)) (ex + ey)
                  loc_Exact ltac:(lia) ltac:(cbn [Zdigits2]; lia) Vr) as [Hk Hform].
    split; [destruct Hform as [->|(m & e & ->)]; exact I|lia].
  - destruct x as [sx|sx| |[|] mx ex]; cbn [nonneg below] in Nx, Bx; try tauto;
      try (cbn [SFmul nonneg SF_one]; split; [exact I|apply Hz]).
    unfold SF_one in *. cbn [SFmul] in *.
    assert (Zdigits2 (Zpos (mx * 4503599627370496)) = Zpos (digits2_pos mx) + 52) as Hd.
    { rewrite Pos2Z.inj_mul. change (Zpos 4503599627370496) with (2 ^ 52).
      rewrite Zdigits2_shl by lia. reflexivity. }
    pose proof (binary_round_aux_le_one (xorb false false) (Zpos (mx * 4503599627370496))
                  (ex + -52) loc_Exact ltac:(lia) ltac:(lia) Vr) as [Hk Hform].
    split; [destruct Hform as [->|(m & e & ->)]; exact I|lia].
  - destruct y as [sy|sy| |[|] my ey]; cbn [nonneg below] in Ny, By; try tauto;
      try (cbn [SFmul nonneg SF_one]; split; [exact I|apply Hz]).
    unfold SF_one in *. cbn [SFmul] in *.
    assert (Zdigits2 (Zpos (4503599627370496 * my)) = Zpos (digits2_pos my) + 52) as Hd.
    { rewrite Pos2Z.inj_mul, Z.mul_comm. change (Zpos 4503599627370496) with (2 ^ 52).
      rewrite Zdigits2_shl by lia. reflexivity. }
    pose proof (binary_round_aux_le_one (xorb false false) (Zpos (4503599627370496 * my))
                  (-52 + ey) loc_Exact ltac:(lia) ltac:(lia) Vr) as [Hk Hform].
    split; [destruct Hform as [->|(m & e & ->)]; exact I|lia].
  - split; [vm_compute; exact I|vm_compute; discriminate].
Qed.

(** [1 - p] for [0 <= p <= 1]. *)
Lemma SFsub_one_le (p : spec_float) (a : Z) :
  SpecFloat.valid_binary prec emax p = true ->
  nonneg p -> key p <= key_one -> below a p -> a <= 1022 ->
  SpecFloat.valid_binary prec emax (SFsub prec emax SF_one p) = true ->
  nonneg (SFsub prec emax SF_one p) /\ key (SFsub prec emax SF_one p) <= key_one.
Proof.
  intros Vp Np Kp Bp Ha Vr.
  assert (SpecFloat.valid_binary prec emax SF_one = true) as V1 by reflexivity.
  assert (SFleb p SF_one = true) as Hle.
  { unfold SFleb. rewrite (SFcompare_key p SF_one Vp V1 (below_number _ _ Bp) I).
    change (key SF_one) with key_one.
    destruct (Z.compare_spec (key p) key_one); try reflexivity. lia. }
  destruct (SFsub_order p SF_one a 1 Vp V1 Bp ltac:(vm_compute; discriminate) I
              ltac:(lia)) as [Hnn _].
  specialize (Hnn Hle). split; [exact Hnn|].
  destruct p as [sp|sp| |[|] mp ep]; cbn [nonneg below] in Np, Bp; try tauto.
  - cbn [SFsub]. vm_compute. discriminate.
  - unfold SF_one in *. cbn [SFsub] in *.
    set (ez := Z.min (-52) ep) in *.
    assert (ez <= -52 /\ ez <= ep) as Hez by (unfold ez; lia).
    pose proof (aligned_spec 4503599627370496 (-52) ez ltac:(lia)) as [HX _].
    pose proof (aligned_spec mp ep ez ltac:(lia)) as [HY _].
    set (X := Zpos (fst (shl_align 4503599627370496 (-52) ez))) in *.
    set (Y := Zpos (fst (shl_align mp ep ez))) in *.
    assert (0 < Y) by (unfold Y; lia).
    assert (X = 2 ^ (- ez)) as HX'.
    { rewrite HX. change (Zpos 4503599627370496) with (2 ^ 52).
      rewrite <- Z.pow_add_r by lia. f_equal. lia. }
    unfold cond_Zopp in *.
    destruct (X - Y) as [|z|z] eqn:Hz; cbn [binary_normalize] in *.
    + vm_compute. discriminate.
    + pose proof (binary_round_spec false z ez) as Hs. cbv zeta in Hs.
      unfold binary_round in *.
      pose proof (shl_align_spec z ez (fexp prec emax (Zpos (digits2_pos z) + ez)))
        as [He Hm].
      destruct (shl_align z ez (fexp prec emax (Zpos (digits2_pos z) + ez))) as [mz ez'].
      cbn [fst snd] in He, Hm.
      assert (Zdigits2 (Zpos mz) + ez' = Zpos (digits2_pos z) + ez) as HM.
      { rewrite Hm. rewrite Zdigits2_shl by lia. cbn [Zdigits2]. lia. }
      assert (Zpos (digits2_pos z) <= - ez) as Hdz.
      { apply (Zdigits2_le (Zpos z) (- ez)); lia. }
      pose proof (binary_round_aux_le_one false (Zpos mz) ez' loc_Exact ltac:(lia)
                    ltac:(lia) Vr) as [Hk _].
      lia.
    + pose proof (binary_round_spec true z ez) as Hs. cbv zeta in Hs.
      destruct (binary_round prec emax true z ez) as [s|s| |s m e];
        cbn [nonneg] in Hnn; try tauto.
      * vm_compute. discriminate.
      * destruct Hs as [-> _]. destruct Hnn.
Qed.

(** *** The unit interval, on the floats of the code *)

Lemma leb_trans (x y z : float) :
  PrimFloat.leb x y = true -> PrimFloat.leb y z = true -> PrimFloat.leb x z = true.
Proof.
  intros H1 H2. apply leb_key in H1, H2. apply leb_key.
  destruct H1 as (Nx & _ & H1). destruct H2 as (_ & Nz & H2).
  split; [exact Nx|]. split; [exact Nz|]. lia.
Qed.

Lemma unit_spec (x : float) :
  PrimFloat.leb 0 x = true -> PrimFloat.leb x 1 = true ->
  nonneg_below 1 x /\ key (Prim2SF x) <= key_one.
Proof.
  intros H0 H1. split.
  - exact (range_nonneg x 1 4503599627370496 (-52) eq_refl H0 H1).
  - apply leb_key in H1. destruct H1 as (_ & _ & H1). exact H1.
Qed.

Lemma unit_intro (x : float) :
  nonneg (Prim2SF x) -> key (Prim2SF x) <= key_one ->
  PrimFloat.leb 0 x = true /\ PrimFloat.leb x 1 = true.
Proof.
  intros N K.
  assert (number (Prim2SF x)) as Nx by (destruct (Prim2SF x) as [| | |[|] ? ?]; simpl in *; tauto).
  split; apply leb_key; (split; [|split]); try exact Nx; try exact I.
  - change (fkey 0) with 0. apply nonneg_key; [apply Prim2SF_valid|exact N].
  - exact K.
Qed.

(** A sum of two non-negative numbers is at least each of them. *)
Lemma add_ge (a b : Z) (x y : float) :
  nonneg_below a x -> nonneg_below b y -> Z.max a b + 1 <= 1023 ->
  PrimFloat.leb x (x + y) = true /\ PrimFloat.leb y (x + y) = true.
Proof.
  intros [Nx Hx] [Ny Hy] Hab.
  pose proof (SFadd_ge _ _ a b (Prim2SF_valid x) (Prim2SF_valid y) Nx Ny Hx Hy Hab)
    as [K1 K2].
  pose proof (SFadd_spec _ _ a b (Prim2SF_valid x) (Prim2SF_valid y) Hx Hy Hab)
    as (Hb & _).
  cbv zeta in Hb. apply below_number in Hb.
  split; apply leb_key; unfold fkey; rewrite add_spec;
    (split; [eapply below_number; eassumption|split; [exact Hb|assumption]]).
Qed.

(** [x / y] for [0 <= x <= y], [y] positive. *)
Lemma div_unit (a b : Z) (x y : float) :
  nonneg_below a x -> pos_below b y -> PrimFloat.leb x y = true ->
  PrimFloat.leb 0 (x / y) = true /\ PrimFloat.leb (x / y) 1 = true.
Proof.
  intros [Nx Hx] [Py Hy] Hle. apply leb_key in Hle. destruct Hle as (_ & _ & Hle).
  unfold fkey in Hle.
  pose proof (Prim2SF_valid x) as Vx. pose proof (Prim2SF_valid y) as Vy.
  pose proof (Prim2SF_valid (x / y)) as Vr. rewrite div_spec in Vr.
  assert (key (Prim2SF x) < key (Prim2SF y) \/ key (Prim2SF x) = key (Prim2SF y))
    as [Hlt|Heq] by lia.
  - destruct (SFdiv_le_one _ _ Vx Vy Nx Py Hlt Vr) as [Nr Kr].
    apply unit_intro; rewrite div_spec; assumption.
  - assert (Prim2SF (x / y) = SF_one) as Hone.
    { rewrite div_spec. unfold SF64div.
      destruct (Prim2SF y) as [sy|sy| |[|] my ey]; cbn [posit] in Py; try tauto.
      pose proof (valid_mantissa _ _ _ Vy) as My.
      destruct (Prim2SF x) as [sx|sx| |[|] mx ex]; cbn [nonneg key] in *; try tauto.
      - change (2 ^ 53) with 9007199254740992 in *. lia.
      - pose proof (valid_mantissa _ _ _ Vx) as Mx.
        change (2 ^ 53) with 9007199254740992 in *.
        assert (ex = ey) as -> by lia. assert (mx = my) as -> by lia.
        apply SFdiv_self. }
    assert ((x / y)%float = 1%float) as -> by (apply Prim2SF_inj; rewrite Hone; reflexivity).
    split; reflexivity.
Qed.

Lemma mul_unit (x y : float) :
  PrimFloat.leb 0 x = true -> PrimFloat.leb x 1 = true ->
  PrimFloat.leb 0 y = true -> PrimFloat.leb y 1 = true ->
  PrimFloat.leb 0 (x * y) = true /\ PrimFloat.leb (x * y) 1 = true.
Proof.
  intros X0 X1 Y0 Y1.
  destruct (unit_spec x X0 X1) as [[Nx _] Kx]. destruct (unit_spec y Y0 Y1) as [[Ny _] Ky].
  pose proof (Prim2SF_valid (x * y)) as Vr. rewrite mul_spec in Vr.
  destruct (SFmul_le_one _ _ (Prim2SF_valid x) (Prim2SF_valid y) Nx Ny Kx Ky Vr) as [Nr Kr].
  apply unit_intro; rewrite mul_spec; assumption.
Qed.

Lemma sub_unit (p : float) :
  PrimFloat.leb 0 p = true -> PrimFloat.leb p 1 = true ->
  PrimFloat.leb 0 (1 - p) = true /\ PrimFloat.leb (1 - p) 1 = true.
Proof.
  intros P0 P1. destruct (unit_spec p P0 P1) as [[Np Bp] Kp].
  pose proof (Prim2SF_valid (1 - p)) as Vr. rewrite sub_spec in Vr.
  change (Prim2SF 1) with SF_one in Vr.
  destruct (SFsub_one_le _ 1 (Prim2SF_valid p) Np Kp Bp ltac:(lia) Vr) as [Nr Kr].
  apply unit_intro; rewrite sub_spec; assumption.
Qed.

(** A finite number at or above 1 is positive. *)
Lemma ge_one_pos (k : Z) (x : float) :
  finite_below k x -> PrimFloat.leb 1 x = true -> pos_below k x.
Proof.
  intros Hx H1. apply leb_key in H1. destruct H1 as (_ & _ & H1).
  split; [|exact Hx].
  unfold finite_below, fkey in *. change (key (Prim2SF 1)) with key_one in H1.
  pose proof (Prim2SF_valid x) as V.
  destruct (Prim2SF x) as [s|s| |[|] m e]; cbn [below key posit] in *; try tauto.
  - vm_compute in H1. apply H1. reflexivity.
  - pose proof (valid_mantissa _ _ _ V). unfold key_one in H1.
    change (2 ^ 53) with 9007199254740992 in *. change (2 ^ 52) with 4503599627370496 in *.
    lia.
Qed.

End Binary64.

(** ** Logic steering *)

Section SteeringFacts.
Context {F : Type} {arith : Arith F}.
Local Open Scope arith_scope.

Lemma loop_0_4 {S : Type} (body : Z -> S -> S) (s : S) :
  logic.loop 0 4 body s = body 3 (body 2 (body 1 (body 0 s))).
Proof. reflexivity. Qed.

Lemma loop_1_4 {S : Type} (body : Z -> S -> S) (s : S) :
  logic.loop 1 4 body s = body 3 (body 2 (body 1 s)).
Proof. reflexivity. Qed.

(** One step of an envelope follower: attack when the energy exceeds the
    envelope, release otherwise. *)
Definition follow (d : logic.SQDecoder F) (env energy : F) : F :=
  if energy >? env then
    logic.attackCoeff d * env + (one - logic.attackCoeff d) * energy
  else
    logic.releaseCoeff d * env + (one - logic.releaseCoeff d) * energy.

(** The receiver after the first loop of [applyLogicSteering]. *)
Definition followed (d : logic.SQDecoder F) (lf rf lb rb : F) : logic.SQDecoder F :=
  logic.setLogicEnv d
    (logic.Array4 (follow d (logic.at0 (logic.logicEnv d)) (lf * lf))
                  (follow d (logic.at1 (logic.logicEnv d)) (rf * rf))
                  (follow d (logic.at2 (logic.logicEnv d)) (lb * lb))
                  (follow d (logic.at3 (logic.logicEnv d)) (rb * rb))).

Lemma updateEnvelope_follow (energies : logic.array4 F) (i : Z) (d : logic.SQDecoder F) :
  logic.updateEnvelope energies i d =
  logic.setLogicEnv d
    (logic.set4 (logic.logicEnv d) i
       (follow d (logic.get4 (logic.logicEnv d) i) (logic.get4 energies i))).
Proof.
  unfold logic.updateEnvelope, follow.
  destruct (ltb (logic.get4 (logic.logicEnv d) i) (logic.get4 energies i)); reflexivity.
Qed.

Lemma updateEnvelope_all (d : logic.SQDecoder F) (lf rf lb rb : F) :
  logic.loop 0 4
    (logic.updateEnvelope (logic.Array4 (lf * lf) (rf * rf) (lb * lb) (rb * rb))) d
  = followed d lf rf lb rb.
Proof.
  rewrite loop_0_4, !updateEnvelope_follow.
  destruct d as [[e0 e1 e2 e3] a r cfg]. reflexivity.
Qed.

(** The largest of four envelopes, as the second loop finds it. *)
Definition maxEnv (env : logic.array4 F) : F :=
  let m := logic.at0 env in
  let m := if logic.at1 env >? m then logic.at1 env else m in
  let m := if logic.at2 env >? m then logic.at2 env else m in
  if logic.at3 env >? m then logic.at3 env else m.

Lemma findMax_maxEnv (d : logic.SQDecoder F) :
  fst (logic.findMax d) = maxEnv (logic.logicEnv d).
Proof.
  unfold logic.findMax, maxEnv. rewrite loop_1_4.
  destruct (logic.logicEnv d) as [e0 e1 e2 e3]. unfold logic.get4. simpl.
  repeat match goal with
         | |- context [ltb ?x ?y] => is_var x; is_var y; destruct (ltb x y); simpl
         end; reflexivity.
Qed.

(** The dominance ratio over the updated envelopes. *)
Definition dominanceRatio (env : logic.array4 F) : F :=
  maxEnv env
  / (logic.at0 env + logic.at1 env + logic.at2 env + logic.at3 env + logicEpsilon).

Lemma applyLogicSteering_cases (d : logic.SQDecoder F) (lf rf lb rb : F) :
  let d' := followed d lf rf lb rb in
  let dominance := dominanceRatio (logic.logicEnv d') in
  logic.applyLogicSteering d lf rf lb rb =
  if dominance <=? logic.DominanceThreshold (logic.logicConfig d) then
    (d', (lf, rf, lb, rb))
  else
    let out := logic.steer d' (logic.Array4 (lf * lf) (rf * rf) (lb * lb) (rb * rb))
                 dominance (snd (logic.findMax d')) lf rf lb rb in
    (d', (logic.at0 out, logic.at1 out, logic.at2 out, logic.at3 out)).
Proof.
  intros d' dominance. unfold logic.applyLogicSteering. cbv zeta.
  rewrite updateEnvelope_all. fold d'.
  rewrite findMax_maxEnv.
  assert (maxEnv (logic.logicEnv d') / logic.envSum d' = dominance) as ->
      by reflexivity.
  assert (logic.logicConfig d' = logic.logicConfig d) as Hcfg by reflexivity.
  rewrite Hcfg. reflexivity.
Qed.

End SteeringFacts.

(** C8. Whenever the dominance ratio [maxEnv / (sum(env) + epsilon)] over
    the four updated envelopes is at most the configured threshold,
    [applyLogicSteering] returns the four input samples unmodified.
    (Stated for any arithmetic, binary64 among them.) *)
Theorem bypass_at_or_below_threshold {F : Type} {arith : Arith F}
    (d : logic.SQDecoder F) (lf rf lb rb : F) :
  let env := logic.logicEnv (fst (logic.applyLogicSteering d lf rf lb rb)) in
  let m := logic.at0 env in
  let m := if ltb m (logic.at1 env) then logic.at1 env else m in
  let m := if ltb m (logic.at2 env) then logic.at2 env else m in
  let maxEnv := if ltb m (logic.at3 env) then logic.at3 env else m in
  let sum := add (add (add (add (logic.at0 env) (logic.at1 env)) (logic.at2 env))
                      (logic.at3 env)) logicEpsilon in
  leb (div maxEnv sum) (logic.DominanceThreshold (logic.logicConfig d)) = true ->
  snd (logic.applyLogicSteering d lf rf lb rb) = (lf, rf, lb, rb).
Proof.
  cbv zeta. rewrite applyLogicSteering_cases. cbv zeta.
  set (d' := followed d lf rf lb rb).
  destruct (leb (dominanceRatio (logic.logicEnv d'))
                (logic.DominanceThreshold (logic.logicConfig d))) eqn:Hle.
  - intros _. reflexivity.
  - cbn [fst]. intros Hdom.
    unfold dominanceRatio, maxEnv in Hle. cbv zeta in Hle. congruence.
Qed.

Lemma bypass_at_or_below_threshold_witness :
  let d := {| logic.logicEnv := logic.Array4 0 0 0 0;
              logic.attackCoeff := 0.5;
              logic.releaseCoeff := 0.75;
              logic.logicConfig :=
                {| logic.Enabled := true;
                   logic.AttackTime := 0.01;
                   logic.ReleaseTime := 0.2;
                   logic.DominanceThreshold := 0.55;
                   logic.MaxBoost := 1.6;
                   logic.MinGain := 0.4 |} |}%float in
  snd (logic.applyLogicSteering d 0.5 0.4 0.3 0.2)%float = (0.5, 0.4, 0.3, 0.2)%float.
Proof.
  intros d.
  apply (bypass_at_or_below_threshold d 0.5 0.4 0.3 0.2)%float.
  vm_compute. reflexivity.
Defined.

(** C10. Every call of [applyLogicSteering] leaves each of the four
    envelopes at its one-pole update (attack coefficient when the squared
    sample exceeds the envelope, release coefficient otherwise) and the
    rest of the receiver as it was, whether or not the sample is
    bypassed: the state after the call does not depend on the dominance
    test, and a bypassed sample updates the envelopes all the same. *)
Theorem envelopes_updated_on_every_sample {F : Type} {arith : Arith F}
    (d : logic.SQDecoder F) (lf rf lb rb : F) :
  let one_pole := fun env energy =>
    if ltb env energy
    then add (mul (logic.attackCoeff d) env)
             (mul (sub one (logic.attackCoeff d)) energy)
    else add (mul (logic.releaseCoeff d) env)
             (mul (sub one (logic.releaseCoeff d)) energy) in
  let d' := fst (logic.applyLogicSteering d lf rf lb rb) in
  logic.logicEnv d' =
    logic.Array4 (one_pole (logic.at0 (logic.logicEnv d)) (mul lf lf))
                 (one_pole (logic.at1 (logic.logicEnv d)) (mul rf rf))
                 (one_pole (logic.at2 (logic.logicEnv d)) (mul lb lb))
                 (one_pole (logic.at3 (logic.logicEnv d)) (mul rb rb)) /\
  logic.attackCoeff d' = logic.attackCoeff d /\
  logic.releaseCoeff d' = logic.releaseCoeff d /\
  logic.logicConfig d' = logic.logicConfig d /\
  (leb (dominanceRatio (logic.logicEnv d'))
       (logic.DominanceThreshold (logic.logicConfig d)) = true ->
   logic.applyLogicSteering d lf rf lb rb = (d', (lf, rf, lb, rb))).
Proof.
  cbv zeta. rewrite applyLogicSteering_cases. cbv zeta.
  set (d' := followed d lf rf lb rb).
  destruct (leb (dominanceRatio (logic.logicEnv d'))
                (logic.DominanceThreshold (logic.logicConfig d))) eqn:Hle;
    cbn [fst]; (split; [|split; [|split; [|split]]]); try reflexivity.
  intros Hdom. congruence.
Qed.

(** *** Finite results *)

(** Neither NaN nor an infinity. *)
Definition is_finite (x : float) : bool :=
  negb (PrimFloat.is_nan x || PrimFloat.is_infinity x).

(** The default configuration with steering enabled, the coefficients
    [timeToCoeff] gives at 44.1 kHz (with the stand-in [Exp]), and the
    given envelopes. *)
Definition steering_state (env : logic.array4 float) : logic.SQDecoder float :=
  let config :=
    {| logic.Enabled := true;
       logic.AttackTime := logic.AttackTime logic.DefaultLogicSteeringConfig;
       logic.ReleaseTime := logic.ReleaseTime logic.DefaultLogicSteeringConfig;
       logic.DominanceThreshold :=
         logic.DominanceThreshold logic.DefaultLogicSteeringConfig;
       logic.MaxBoost := logic.MaxBoost logic.DefaultLogicSteeringConfig;
       logic.MinGain := logic.MinGain logic.DefaultLogicSteeringConfig |} in
  {| logic.logicEnv := env;
     logic.attackCoeff :=
       logic.timeToCoeff (libm := standin.libm) (logic.AttackTime config) 44100;
     logic.releaseCoeff :=
       logic.timeToCoeff (libm := standin.libm) (logic.ReleaseTime config) 44100;
     logic.logicConfig := config |}.

(** Two finite inputs with a NaN result.  The square of 1e200 overflows:
    the envelope, the sum and the maximum are all infinite and their
    ratio is NaN.  And an envelope of -2e-12 followed by silence gives a
    sum of exactly zero with the coefficients 0.5: 0/0 is NaN, and the
    silent samples come back as NaN. *)
Lemma steering_not_finite :
  (let d := steering_state (logic.Array4 0 0 0 0)%float in
   let r := snd (logic.applyLogicSteering d 1e200 0 0 0)%float in
   is_finite 1e200 = true /\
   PrimFloat.ltb (logic.DominanceThreshold (logic.logicConfig d)) 1 = true /\
   r = (nan, nan, nan, nan) /\
   PrimFloat.is_nan (fst (fst (fst r))) = true) /\
  (let d := {| logic.logicEnv := logic.Array4 (-2e-12) 0 0 0;
               logic.attackCoeff := 0.5;
               logic.releaseCoeff := 0.5;
               logic.logicConfig := logic.logicConfig (steering_state (logic.Array4 0 0 0 0))
            |}%float in
   let d' := fst (logic.applyLogicSteering d 0 0 0 0)%float in
   let env := logic.logicEnv d' in
   is_finite (-2e-12) = true /\
   (logic.at0 env + logic.at1 env + logic.at2 env + logic.at3 env + 1e-12 = 0)%float /\
   snd (logic.applyLogicSteering d 0 0 0 0)%float = (nan, nan, nan, nan)).
Proof. vm_compute. repeat split; reflexivity. Qed.

Section SteerCases.
Context {F : Type} {arith : Arith F}.
Local Open Scope arith_scope.

(** The gains [steer] applies: [boost] on the dominant channel, [cut]
    on the others. *)
Definition gainsOf (d : logic.SQDecoder F) (dominance : F) (maxIdx : Z) : logic.array4 F :=
  let threshold := logic.DominanceThreshold (logic.logicConfig d) in
  let intensity := logic.clampIntensity ((dominance - threshold) / (one - threshold)) in
  let boost := one + (logic.MaxBoost (logic.logicConfig d) - one) * intensity in
  let cut := one - (one - logic.MinGain (logic.logicConfig d)) * intensity in
  logic.set4 (logic.Array4 cut cut cut cut) maxIdx boost.

Lemma steer_cases (d : logic.SQDecoder F) (dominance : F) (maxIdx : Z) (lf rf lb rb : F) :
  let g := gainsOf d dominance maxIdx in
  let o0 := lf * logic.at0 g in
  let o1 := rf * logic.at1 g in
  let o2 := lb * logic.at2 g in
  let o3 := rb * logic.at3 g in
  let pre := lf * lf + rf * rf + lb * lb + rb * rb in
  let post := o0 * o0 + o1 * o1 + o2 * o2 + o3 * o3 in
  logic.steer d (logic.Array4 (lf * lf) (rf * rf) (lb * lb) (rb * rb))
    dominance maxIdx lf rf lb rb =
  if (pre >? logicEpsilon) && (post >? logicEpsilon) then
    let scale := sqrt (pre / post) in
    logic.Array4 (o0 * scale) (o1 * scale) (o2 * scale) (o3 * scale)
  else logic.Array4 o0 o1 o2 o3.
Proof. reflexivity. Qed.

End SteerCases.


(** The ranges on which the results are shown finite: samples up to
    [1e120] in magnitude, envelopes in [[0, 1e300]], coefficients in
    [[0, 1]], a threshold in [[-1e27, 1)], [MaxBoost] and [MinGain] up to
    [1e27] in magnitude.  They are far wider than what an audio stream
    and a sensible configuration use, and leave room for the squares and
    sums the code forms: the square of a sample above [1.3e154] is
    already infinite. *)
Definition bounded_sample (x : float) : bool :=
  PrimFloat.leb (abs x) 1e120.

Definition in_range (lo hi x : float) : bool :=
  PrimFloat.leb lo x && PrimFloat.leb x hi.

Definition bounded_state (d : logic.SQDecoder float) : bool :=
  in_range 0 1e300 (logic.at0 (logic.logicEnv d))
  && in_range 0 1e300 (logic.at1 (logic.logicEnv d))
  && in_range 0 1e300 (logic.at2 (logic.logicEnv d))
  && in_range 0 1e300 (logic.at3 (logic.logicEnv d))
  && in_range 0 1 (logic.attackCoeff d)
  && in_range 0 1 (logic.releaseCoeff d).

Definition bounded_config (c : logic.LogicSteeringConfig float) : bool :=
  PrimFloat.leb (-1e27) (logic.DominanceThreshold c)
  && PrimFloat.ltb (logic.DominanceThreshold c) 1
  && PrimFloat.leb (abs (logic.MaxBoost c)) 1e27
  && PrimFloat.leb (abs (logic.MinGain c)) 1e27.

Section SteeringBounds.
Import Binary64.

Lemma one_pos : pos_below 1 1%float.
Proof. split; [vm_compute; exact I|vm_compute; discriminate]. Qed.

Lemma zero_nonneg : nonneg_below 1 0%float.
Proof. split; vm_compute; exact I. Qed.

Lemma epsilon_pos : pos_below (-39) 1e-12%float.
Proof. split; [vm_compute; exact I|vm_compute; discriminate]. Qed.

Lemma sample_finite (x : float) : bounded_sample x = true -> finite_below 399 x.
Proof.
  intros H.
  exact (abs_leb_finite x 1e120 6976241401869354 346 eq_refl H).
Qed.

Lemma setting_finite (x : float) :
  PrimFloat.leb (abs x) 1e27 = true -> finite_below 90 x.
Proof.
  intros H.
  exact (abs_leb_finite x 1e27 7275957614183426 37 eq_refl H).
Qed.

Lemma in_range_nonneg (hi x : float) (mc : positive) (ec : Z) :
  Prim2SF hi = SpecFloat.S754_finite false mc ec ->
  in_range 0 hi x = true ->
  nonneg_below (Zpos (SpecFloat.digits2_pos mc) + ec) x.
Proof.
  intros Hc H. apply andb_prop in H. destruct H as [H0 H1].
  eapply range_nonneg; eassumption.
Qed.

Lemma envelope_nonneg (x : float) : in_range 0 1e300 x = true -> nonneg_below 997 x.
Proof. exact (in_range_nonneg 1e300 x 6724873095247260 944 eq_refl). Qed.

Lemma coefficient_nonneg (x : float) : in_range 0 1 x = true -> nonneg_below 1 x.
Proof. exact (in_range_nonneg 1 x 4503599627370496 (-52) eq_refl). Qed.

Lemma threshold_finite (t : float) :
  PrimFloat.leb (-1e27) t = true -> PrimFloat.ltb t 1 = true -> finite_below 90 t.
Proof.
  intros Hlo Hhi. apply leb_key in Hlo. apply ltb_key in Hhi.
  destruct Hlo as (_ & Nt & Hlo). destruct Hhi as (_ & _ & Hhi).
  unfold finite_below.
  change 90 with (Zpos (SpecFloat.digits2_pos 7275957614183426) + 37).
  apply key_below; [apply Prim2SF_valid|reflexivity|exact Nt|].
  change (fkey (-1e27)) with (- key (SpecFloat.S754_finite false 7275957614183426 37))
    in Hlo.
  assert (fkey 1 <= key (SpecFloat.S754_finite false 7275957614183426 37)) as H1
      by (vm_compute; discriminate).
  unfold fkey in *. lia.
Qed.

(** One step of an envelope follower keeps the envelope non-negative and
    finite. *)
Lemma follow_bounds (d : logic.SQDecoder float) (env x : float) :
  in_range 0 1 (logic.attackCoeff d) = true ->
  in_range 0 1 (logic.releaseCoeff d) = true ->
  nonneg_below 997 env -> finite_below 399 x ->
  nonneg_below 1001 (follow d env (x * x)%float).
Proof.
  intros Ha Hr He Hx.
  assert (nonneg_below 799 (x * x)%float) as Hen
      by (apply (square_nonneg 399); [exact Hx|lia..]).
  assert (forall c, in_range 0 1 c = true ->
            nonneg_below 1001 (c * env + (1 - c) * (x * x))%float) as Hstep.
  { intros c Hc.
    pose proof (coefficient_nonneg c Hc) as Hc0.
    apply andb_prop in Hc. destruct Hc as [_ Hc1].
    assert (nonneg_below 3 (1 - c)%float) as H1
        by (apply (sub_nonneg 1 1);
            [apply nonneg_finite; exact Hc0|exact one_pos|exact Hc1|lia..]).
    assert (nonneg_below 999 (c * env)%float) as H2
        by (apply (mul_nonneg 1 997); [exact Hc0|exact He|lia..]).
    assert (nonneg_below 803 ((1 - c) * (x * x))%float) as H3
        by (apply (mul_nonneg 3 799); [exact H1|exact Hen|lia..]).
    apply (add_nonneg 999 803); [exact H2|exact H3|lia..]. }
  unfold follow. cbn [add sub mul ltb one float64_arith].
  destruct (PrimFloat.ltb env (x * x)); apply Hstep; assumption.
Qed.


Lemma followed_bounds (d : logic.SQDecoder float) (lf rf lb rb : float) :
  bounded_state d = true ->
  bounded_sample lf = true -> bounded_sample rf = true ->
  bounded_sample lb = true -> bounded_sample rb = true ->
  let env := logic.logicEnv (followed d lf rf lb rb) in
  nonneg_below 1001 (logic.at0 env) /\ nonneg_below 1001 (logic.at1 env) /\
  nonneg_below 1001 (logic.at2 env) /\ nonneg_below 1001 (logic.at3 env).
Proof.
  unfold bounded_state. rewrite !andb_true_iff.
  intros (((((He0 & He1) & He2) & He3) & Ha) & Hr) H0 H1 H2 H3.
  cbv zeta. unfold followed.
  cbn [logic.logicEnv logic.setLogicEnv logic.at0 logic.at1 logic.at2 logic.at3
       mul float64_arith].
  repeat split; apply follow_bounds;
    auto using envelope_nonneg, sample_finite.
Qed.

Lemma maxEnv_bounds (k : Z) (env : logic.array4 float) :
  nonneg_below k (logic.at0 env) -> nonneg_below k (logic.at1 env) ->
  nonneg_below k (logic.at2 env) -> nonneg_below k (logic.at3 env) ->
  nonneg_below k (maxEnv env).
Proof.
  intros H0 H1 H2 H3. unfold maxEnv. cbn [ltb float64_arith].
  repeat match goal with
         | |- context [if ?c then _ else _] => destruct c
         end; assumption.
Qed.

Lemma envSum_pos (env : logic.array4 float) :
  nonneg_below 1001 (logic.at0 env) -> nonneg_below 1001 (logic.at1 env) ->
  nonneg_below 1001 (logic.at2 env) -> nonneg_below 1001 (logic.at3 env) ->
  pos_below 1009
    (logic.at0 env + logic.at1 env + logic.at2 env + logic.at3 env + 1e-12)%float.
Proof.
  intros H0 H1 H2 H3.
  assert (nonneg_below 1003 (logic.at0 env + logic.at1 env)%float) as S1
      by (apply (add_nonneg 1001 1001); [assumption..|lia|lia|lia]).
  assert (nonneg_below 1005 (logic.at0 env + logic.at1 env + logic.at2 env)%float) as S2
      by (apply (add_nonneg 1003 1001); [assumption..|lia|lia|lia]).
  assert (nonneg_below 1007
            (logic.at0 env + logic.at1 env + logic.at2 env + logic.at3 env)%float) as S3
      by (apply (add_nonneg 1005 1001); [assumption..|lia|lia|lia]).
  apply (add_pos 1007 (-39)); [exact S3|exact epsilon_pos|lia..].
Qed.

Lemma dominance_number (env : logic.array4 float) :
  nonneg_below 1001 (logic.at0 env) -> nonneg_below 1001 (logic.at1 env) ->
  nonneg_below 1001 (logic.at2 env) -> nonneg_below 1001 (logic.at3 env) ->
  is_number (dominanceRatio env).
Proof.
  intros H0 H1 H2 H3. unfold dominanceRatio.
  cbn [add div logicEpsilon float64_arith].
  apply (div_number 1009).
  - eapply finite_number, nonneg_finite, maxEnv_bounds; eassumption.
  - apply envSum_pos; assumption.
Qed.

(** The clamped intensity lies in [[0, 1]] whenever its argument is a
    number. *)
Lemma clampIntensity_bounds (x : float) :
  is_number x -> nonneg_below 1 (logic.clampIntensity x).
Proof.
  intros Hx. unfold logic.clampIntensity. cbn [ltb zero one float64_arith].
  destruct (PrimFloat.ltb x 0) eqn:H0; [exact zero_nonneg|].
  destruct (PrimFloat.ltb 1 x) eqn:H1; [exact (pos_nonneg _ _ one_pos)|].
  apply coefficient_nonneg. unfold in_range.
  apply ltb_false_key in H0; [|exact Hx|exact I].
  apply ltb_false_key in H1; [|exact I|exact Hx].
  apply andb_true_intro. split; apply leb_key; repeat split; try exact Hx; assumption.
Qed.

Lemma gains_bounds (d : logic.SQDecoder float) (dominance : float) (maxIdx : Z) :
  bounded_config (logic.logicConfig d) = true ->
  is_number dominance ->
  let g := gainsOf d dominance maxIdx in
  finite_below 96 (logic.at0 g) /\ finite_below 96 (logic.at1 g) /\
  finite_below 96 (logic.at2 g) /\ finite_below 96 (logic.at3 g).
Proof.
  unfold bounded_config. rewrite !andb_true_iff.
  intros (((Hlo & Hhi) & Hboost') & Hgain') Hdom.
  pose proof (threshold_finite _ Hlo Hhi) as Ht.
  pose proof (setting_finite _ Hboost') as Hmax.
  pose proof (setting_finite _ Hgain') as Hmin.
  unfold gainsOf. cbv zeta. cbn [add sub mul div one float64_arith].
  set (threshold := logic.DominanceThreshold (logic.logicConfig d)) in *.
  assert (nonneg_below 1
            (logic.clampIntensity ((dominance - threshold) / (1 - threshold))%float))
    as Hi.
  { apply clampIntensity_bounds. apply (div_number 92).
    - eapply sub_number; eassumption.
    - apply (sub_pos 90 1); [exact Ht|exact one_pos|assumption|lia..]. }
  set (intensity := logic.clampIntensity _) in *.
  pose proof (nonneg_finite _ _ Hi) as Hi'.
  pose proof (nonneg_finite _ _ (pos_nonneg _ _ one_pos)) as Hone.
  assert (finite_below 96
            (1 + (logic.MaxBoost (logic.logicConfig d) - 1) * intensity)%float) as Hboost.
  { apply (add_finite 1 94); [exact Hone| |lia..].
    apply (mul_finite 92 1); [|exact Hi'|lia..].
    apply (sub_finite 90 1); [exact Hmax|exact Hone|lia..]. }
  assert (finite_below 96
            (1 - (1 - logic.MinGain (logic.logicConfig d)) * intensity)%float) as Hcut.
  { apply (sub_finite 1 94); [exact Hone| |lia..].
    apply (mul_finite 92 1); [|exact Hi'|lia..].
    apply (sub_finite 1 90); [exact Hone|exact Hmin|lia..]. }
  unfold logic.set4.
  destruct (maxIdx =? 0); [|destruct (maxIdx =? 1); [|destruct (maxIdx =? 2)]];
    cbn [logic.at0 logic.at1 logic.at2 logic.at3]; repeat split; assumption.
Qed.

Lemma finite_is_finite (k : Z) (x : float) : finite_below k x -> is_finite x = true.
Proof.
  intros H. unfold is_finite.
  rewrite (finite_not_nan _ _ H), (finite_not_infinity _ _ H). reflexivity.
Qed.

(** The sum of four squares, as [preEnergy] and [postEnergy] are formed. *)
Lemma energy_bounds (a b c : Z) (x0 x1 x2 x3 : float) :
  finite_below a x0 -> finite_below a x1 -> finite_below a x2 -> finite_below a x3 ->
  a + a + 1 <= b -> b + 6 <= c -> -1068 < c <= 1023 ->
  nonneg_below c (x0 * x0 + x1 * x1 + x2 * x2 + x3 * x3)%float.
Proof.
  intros H0 H1 H2 H3 Hb Hc Hmax.
  assert (forall x, finite_below a x -> nonneg_below (Z.max b (-1073)) (x * x)%float) as Hsq
      by (intros x Hx; apply (square_nonneg a); [exact Hx|lia..]).
  apply Hsq in H0, H1, H2, H3.
  assert (nonneg_below (Z.max b (-1073) + 2) (x0 * x0 + x1 * x1)%float) as S1
      by (apply (add_nonneg (Z.max b (-1073)) (Z.max b (-1073))); [assumption..|lia|lia|lia]).
  assert (nonneg_below (Z.max b (-1073) + 4) (x0 * x0 + x1 * x1 + x2 * x2)%float) as S2
      by (apply (add_nonneg (Z.max b (-1073) + 2) (Z.max b (-1073)));
          [assumption..|lia|lia|lia]).
  apply (add_nonneg (Z.max b (-1073) + 4) (Z.max b (-1073))); [assumption..|lia|lia|].
  lia.
Qed.

(** The renormalization scale behind its guards. *)
Lemma scale_bounds (pre post : float) :
  nonneg_below 805 pre -> nonneg_below 999 post ->
  PrimFloat.ltb 1e-12 post = true ->
  nonneg_below 424 (PrimFloat.sqrt (pre / post)).
Proof.
  intros Hpre Hpost Hg.
  destruct (ltb_above post 1e-12 _ _ 999 eq_refl (nonneg_finite _ _ Hpost) Hg)
    as [Ppost Apost].
  apply (sqrt_nonneg 846); [|lia|vm_compute; reflexivity|lia].
  apply (div_nonneg 805 (-39)); [exact Hpre|exact Ppost|exact Apost|lia..].
Qed.

End SteeringBounds.

Definition all_finite (r : float * float * float * float) : bool :=
  let '(r0, r1, r2, r3) := r in
  is_finite r0 && is_finite r1 && is_finite r2 && is_finite r3.

(** Finite inputs outside the ranges of [bounded_state] and
    [bounded_config] that give NaN: a coefficient above 1 makes an
    envelope negative and the dominance denominator zero; a threshold of
    [-Inf] is below 1 and makes the intensity [Inf/Inf]; with [MaxBoost]
    at [1e308] a gained sample overflows and is then scaled by zero. *)
Lemma steering_bounds_are_needed :
  let config := logic.logicConfig (steering_state (logic.Array4 0 0 0 0)%float) in
  let with_config (c : logic.LogicSteeringConfig float) :=
    {| logic.logicEnv := logic.Array4 0 0 0 0;
       logic.attackCoeff := 0.5;
       logic.releaseCoeff := 0.5;
       logic.logicConfig := c |}%float in
  (let d := {| logic.logicEnv := logic.Array4 0 0 0 0;
               logic.attackCoeff := 2;
               logic.releaseCoeff := 2;
               logic.logicConfig := config |}%float in
   snd (logic.applyLogicSteering d 1e-6 0 0 0)%float = (nan, nan, nan, nan)) /\
  (let d := with_config
              {| logic.Enabled := true;
                 logic.AttackTime := logic.AttackTime config;
                 logic.ReleaseTime := logic.ReleaseTime config;
                 logic.DominanceThreshold := neg_infinity;
                 logic.MaxBoost := logic.MaxBoost config;
                 logic.MinGain := logic.MinGain config |} in
   PrimFloat.ltb (logic.DominanceThreshold (logic.logicConfig d)) 1 = true /\
   snd (logic.applyLogicSteering d 0.5 0.1 0.1 0.1)%float = (nan, nan, nan, nan)) /\
  (let d := with_config
              {| logic.Enabled := true;
                 logic.AttackTime := logic.AttackTime config;
                 logic.ReleaseTime := logic.ReleaseTime config;
                 logic.DominanceThreshold := logic.DominanceThreshold config;
                 logic.MaxBoost := 1e308;
                 logic.MinGain := logic.MinGain config |}%float in
   is_finite 1e308 = true /\
   all_finite (snd (logic.applyLogicSteering d 10 0 0 0)%float) = false).
Proof. vm_compute. repeat split; reflexivity. Qed.

(** C5 (amended).  In binary64, for samples, state and configuration in
    the ranges of [bounded_sample], [bounded_state] and
    [bounded_config] (finite samples up to [1e120] in magnitude,
    envelopes in [[0, 1e300]], attack and release coefficients in
    [[0, 1]], a threshold in [[-1e27, 1)], [MaxBoost] and [MinGain] up to
    [1e27] in magnitude), [applyLogicSteering] returns four finite
    values, neither NaN nor an infinity; the dominance denominator
    [sum(env) + epsilon] over the updated envelopes is positive; and the
    result is the input (bypass), or the gained samples unscaled when
    [preEnergy] or [postEnergy] does not exceed [epsilon = 1e-12], or the
    gained samples times [sqrt(preEnergy/postEnergy)] when both exceed
    it, and that scale is then finite. *)
Theorem steering_renormalization_guarded (d : logic.SQDecoder float)
    (lf rf lb rb : float) :
  bounded_sample lf = true -> bounded_sample rf = true ->
  bounded_sample lb = true -> bounded_sample rb = true ->
  bounded_state d = true -> bounded_config (logic.logicConfig d) = true ->
  let run := logic.applyLogicSteering d lf rf lb rb in
  let env := logic.logicEnv (fst run) in
  let g := gainsOf d (dominanceRatio env) (snd (logic.findMax (fst run))) in
  let o0 := (lf * logic.at0 g)%float in
  let o1 := (rf * logic.at1 g)%float in
  let o2 := (lb * logic.at2 g)%float in
  let o3 := (rb * logic.at3 g)%float in
  let pre := (lf * lf + rf * rf + lb * lb + rb * rb)%float in
  let post := (o0 * o0 + o1 * o1 + o2 * o2 + o3 * o3)%float in
  let scale := PrimFloat.sqrt (pre / post) in
  all_finite (snd run) = true /\
  PrimFloat.ltb 0 (logic.at0 env + logic.at1 env + logic.at2 env + logic.at3 env
                   + 1e-12) = true /\
  (snd run = (lf, rf, lb, rb) \/
   (PrimFloat.ltb 1e-12 pre && PrimFloat.ltb 1e-12 post = false /\
    snd run = (o0, o1, o2, o3)) \/
   (PrimFloat.ltb 1e-12 pre = true /\ PrimFloat.ltb 1e-12 post = true /\
    is_finite scale = true /\
    snd run = (o0 * scale, o1 * scale, o2 * scale, o3 * scale)%float)).
Proof.
  intros Hlf Hrf Hlb Hrb Hd Hc. cbv zeta.
  rewrite applyLogicSteering_cases. cbv zeta.
  pose proof (followed_bounds d lf rf lb rb Hd Hlf Hrf Hlb Hrb) as (E0 & E1 & E2 & E3).
  cbv zeta in E0, E1, E2, E3.
  set (d' := followed d lf rf lb rb) in *.
  pose proof (dominance_number _ E0 E1 E2 E3) as Hdom.
  pose proof (Binary64.pos_ltb _ _ (envSum_pos _ E0 E1 E2 E3)) as Hsum.
  assert (forall b (x y : float * float * float * float),
            fst (if b : bool then (d', x) else (d', y)) = d') as Hfst
      by (intros []; reflexivity).
  rewrite !Hfst.
  pose proof (sample_finite _ Hlf) as Flf. pose proof (sample_finite _ Hrf) as Frf.
  pose proof (sample_finite _ Hlb) as Flb. pose proof (sample_finite _ Hrb) as Frb.
  split; [|split; [exact Hsum|]].
  all: destruct (leb (dominanceRatio (logic.logicEnv d'))
                     (logic.DominanceThreshold (logic.logicConfig d))); cbn [snd].
  1: { unfold all_finite.
       rewrite (finite_is_finite _ _ Flf), (finite_is_finite _ _ Frf),
         (finite_is_finite _ _ Flb), (finite_is_finite _ _ Frb). reflexivity. }
  2: { left. reflexivity. }
  all: rewrite steer_cases; cbv zeta;
    cbn [add sub mul div sqrt ltb logicEpsilon float64_arith];
    change (gainsOf d' (dominanceRatio (logic.logicEnv d')) (snd (logic.findMax d')))
      with (gainsOf d (dominanceRatio (logic.logicEnv d')) (snd (logic.findMax d')));
    pose proof (gains_bounds d (dominanceRatio (logic.logicEnv d'))
                  (snd (logic.findMax d')) Hc Hdom) as (G0 & G1 & G2 & G3);
    cbv zeta in G0, G1, G2, G3;
    set (g := gainsOf d (dominanceRatio (logic.logicEnv d')) (snd (logic.findMax d')))
      in *;
    assert (Binary64.finite_below 496 (lf * logic.at0 g)%float) as O0
        by (apply (Binary64.mul_finite 399 96); [assumption..|lia|lia|lia]);
    assert (Binary64.finite_below 496 (rf * logic.at1 g)%float) as O1
        by (apply (Binary64.mul_finite 399 96); [assumption..|lia|lia|lia]);
    assert (Binary64.finite_below 496 (lb * logic.at2 g)%float) as O2
        by (apply (Binary64.mul_finite 399 96); [assumption..|lia|lia|lia]);
    assert (Binary64.finite_below 496 (rb * logic.at3 g)%float) as O3
        by (apply (Binary64.mul_finite 399 96); [assumption..|lia|lia|lia]);
    set (o0 := (lf * logic.at0 g)%float) in *;
    set (o1 := (rf * logic.at1 g)%float) in *;
    set (o2 := (lb * logic.at2 g)%float) in *;
    set (o3 := (rb * logic.at3 g)%float) in *;
    pose proof (energy_bounds 399 799 805 lf rf lb rb Flf Frf Flb Frb
                  ltac:(lia) ltac:(lia) ltac:(lia)) as Hpre;
    pose proof (energy_bounds 496 993 999 o0 o1 o2 o3 O0 O1 O2 O3
                  ltac:(lia) ltac:(lia) ltac:(lia)) as Hpost;
    set (pre := (lf * lf + rf * rf + lb * lb + rb * rb)%float) in *;
    set (post := (o0 * o0 + o1 * o1 + o2 * o2 + o3 * o3)%float) in *;
    destruct (PrimFloat.ltb 1e-12 pre) eqn:Gpre;
    destruct (PrimFloat.ltb 1e-12 post) eqn:Gpost;
    cbn [andb logic.at0 logic.at1 logic.at2 logic.at3].
  all: try (right; left; split; reflexivity).
  all: try (unfold all_finite;
            rewrite (finite_is_finite _ _ O0), (finite_is_finite _ _ O1),
              (finite_is_finite _ _ O2), (finite_is_finite _ _ O3); reflexivity).
  all: pose proof (scale_bounds pre post Hpre Hpost Gpost) as Hscale.
  - unfold all_finite.
    rewrite (finite_is_finite 921 (o0 * PrimFloat.sqrt (pre / post)))
      by (apply (Binary64.mul_finite 496 424);
          [assumption|apply Binary64.nonneg_finite; exact Hscale|lia..]).
    rewrite (finite_is_finite 921 (o1 * PrimFloat.sqrt (pre / post)))
      by (apply (Binary64.mul_finite 496 424);
          [assumption|apply Binary64.nonneg_finite; exact Hscale|lia..]).
    rewrite (finite_is_finite 921 (o2 * PrimFloat.sqrt (pre / post)))
      by (apply (Binary64.mul_finite 496 424);
          [assumption|apply Binary64.nonneg_finite; exact Hscale|lia..]).
    rewrite (finite_is_finite 921 (o3 * PrimFloat.sqrt (pre / post)))
      by (apply (Binary64.mul_finite 496 424);
          [assumption|apply Binary64.nonneg_finite; exact Hscale|lia..]).
    reflexivity.
  - right. right. split; [reflexivity|]. split; [reflexivity|].
    split; [|reflexivity].
    apply (finite_is_finite 424), Binary64.nonneg_finite. exact Hscale.
Qed.

(** A sample that is steered and renormalized: the default configuration
    at rest, the left front channel dominant. *)
Lemma steering_renormalization_guarded_witness :
  let d := steering_state (logic.Array4 0 0 0 0)%float in
  let run := (logic.applyLogicSteering d 0.5 0.1 0.1 0.1)%float in
  let env := logic.logicEnv (fst run) in
  all_finite (snd run) = true /\
  PrimFloat.ltb 0 (logic.at0 env + logic.at1 env + logic.at2 env + logic.at3 env
                   + 1e-12) = true /\
  PrimFloat.eqb (fst (fst (fst (snd run)))) 0.5 = false.
Proof.
  intros d run env.
  destruct (steering_renormalization_guarded d 0.5 0.1 0.1 0.1)%float as (H1 & H2 & _);
    try (vm_compute; reflexivity).
  split; [exact H1|]. split; [exact H2|]. vm_compute. reflexivity.
Defined.

(** ** Channel separation *)

Lemma SFcompare_antisym (x y : SpecFloat.spec_float) :
  SpecFloat.SFcompare y x = option_map CompOpp (SpecFloat.SFcompare x y).
Proof.
  destruct x as [sx|sx| |sx mx ex], y as [sy|sy| |sy my ey]; simpl;
    try reflexivity;
    try (destruct sx; reflexivity); try (destruct sy; reflexivity);
    try (destruct sx, sy; reflexivity).
  rewrite (Z.compare_antisym ey ex).
  change (Pos.compare_cont Eq mx my) with (Pos.compare mx my).
  change (Pos.compare_cont Eq my mx) with (Pos.compare my mx).
  rewrite (Pos.compare_antisym my mx).
  destruct sx, sy; try reflexivity;
    destruct (ey ?= ex); simpl; try reflexivity;
    destruct (my ?= mx)%positive; reflexivity.
Qed.

(** [x <= y] rules out [y < x], also when NaNs are about. *)
Lemma leb_not_ltb (x y : float) :
  PrimFloat.leb x y = true -> PrimFloat.ltb y x = false.
Proof.
  rewrite leb_spec, ltb_spec. unfold SpecFloat.SFleb, SpecFloat.SFltb.
  rewrite (SFcompare_antisym (Prim2SF x) (Prim2SF y)).
  destruct (SpecFloat.SFcompare (Prim2SF x) (Prim2SF y)) as [[| |]|];
    simpl; congruence.
Qed.

(** C9. [separationDB] is [20*log10(target/leak)] when both RMS values
    exceed [separationEpsilon = 1e-12], [+Inf] when the target exceeds
    it and the leak is at or below it, and [0] when both are at or below
    it; [ChannelSeparation] reports it for the RMS values it returns;
    and for channel 0 = {1, -1}, channel 1 = {0.1, -0.1} and target 0 it
    returns target RMS 1, leak RMS 0.1 and, given that the library's
    [log10(10)] is exactly 1, separation 20. *)
Theorem separation_in_decibels {libm : Libm} {Plan : Type} {fft : AlgoFFT Plan} :
  Log10 10%float = 1%float ->
  (forall t l,
     PrimFloat.ltb metrics.separationEpsilon t = true ->
     PrimFloat.ltb metrics.separationEpsilon l = true ->
     metrics.separationDB t l = (20 * Log10 (t / l))%float) /\
  (forall t l,
     PrimFloat.ltb metrics.separationEpsilon t = true ->
     PrimFloat.leb l metrics.separationEpsilon = true ->
     metrics.separationDB t l = infinity) /\
  (forall t l,
     PrimFloat.leb t metrics.separationEpsilon = true ->
     PrimFloat.leb l metrics.separationEpsilon = true ->
     metrics.separationDB t l = 0%float) /\
  (forall decoded target options r,
     0 <= target < len decoded ->
     metrics.ChannelSeparation decoded target options = Returned r ->
     metrics.SeparationDB r = metrics.separationDB (metrics.TargetRMS r) (metrics.LeakRMS r)) /\
  metrics.ChannelSeparation [[1; -1]; [0.1; -0.1]]%float 0
    {| metrics.leakMode := EmptyString; metrics.SampleRate := 0;
       metrics.FMin := 0; metrics.FMax := 0 |}
  = Returned {| metrics.TargetRMS := 1; metrics.LeakRMS := 0.1;
                metrics.SeparationDB := 20 |}.
Proof.
  intros Hlog. split; [|split; [|split; [|split]]].
  - intros t l Ht Hl. unfold metrics.separationDB. now rewrite Ht, Hl.
  - intros t l Ht Hl. unfold metrics.separationDB.
    rewrite (leb_not_ltb _ _ Hl), Ht, Hl. reflexivity.
  - intros t l Ht Hl. unfold metrics.separationDB.
    rewrite (leb_not_ltb _ _ Hl), (leb_not_ltb _ _ Ht). reflexivity.
  - intros decoded target options r Htarget. unfold metrics.ChannelSeparation.
    destruct (Z.ltb_spec target 0) as [Hneg|_]; [lia|].
    rewrite geb_ltb. destruct (Z.ltb_spec target (len decoded)) as [_|Hpast]; [|lia].
    simpl. intros H. unbind H as samples Hsamples. unbind H as targetRMS HtargetRMS.
    unbind H as st Hst. injection H as <-. reflexivity.
  - assert (metrics.ChannelSeparation [[1; -1]; [0.1; -0.1]]%float 0
              {| metrics.leakMode := EmptyString; metrics.SampleRate := 0;
                 metrics.FMin := 0; metrics.FMax := 0 |}
            = Returned {| metrics.TargetRMS := 1; metrics.LeakRMS := 0.1;
                          metrics.SeparationDB := (20 * Log10 10)%float |}) as ->
        by (vm_compute; reflexivity).
    rewrite Hlog. reflexivity.
Qed.

Lemma separation_in_decibels_witness :
  metrics.ChannelSeparation (libm := standin.libm) (fft := standin.fft)
    [[1; -1]; [0.1; -0.1]]%float 0
    {| metrics.leakMode := EmptyString; metrics.SampleRate := 0;
       metrics.FMin := 0; metrics.FMax := 0 |}
  = Returned {| metrics.TargetRMS := 1; metrics.LeakRMS := 0.1;
                metrics.SeparationDB := 20 |}.
Proof.
  apply (separation_in_decibels (libm := standin.libm) (fft := standin.fft)).
  vm_compute. reflexivity.
Defined.

(** * Further properties *)

(** ** Slices and loops, continued *)

(** Decide the index tests of a goal about an updated slice. *)
Ltac split_tests :=
  repeat match goal with
         | |- context [Z.eqb ?a ?b] =>
             destruct (Z.eqb_spec a b) as [?|?]; [try subst a|]
         | |- context [Z.ltb ?a ?b] => destruct (Z.ltb_spec a b)
         end;
  try lia; try reflexivity.

Lemma holds1_modify {A : Type} (s : list A) n f i (g : A -> A) :
  holds1 s n f -> 0 <= i < n ->
  exists s', modify s i g = Returned s' /\ holds1 s' n (upd f i (g (f i))).
Proof.
  intros Hs Hi. unfold modify.
  rewrite (holds1_index s n f i Hs Hi). cbn [bind].
  now apply holds1_store.
Qed.

(** A slice that holds [g] of each element of [l] is [map g l]. *)
Lemma holds1_map_list {A B : Type} (d : A) (g : A -> B) (s : list B) (l : list A) :
  holds1 s (len l) (fun k => g (default d (l !! Z.to_nat k))) -> s = map g l.
Proof.
  intros [Hlen Hs]. apply list_eq. intros k. rewrite list_lookup_fmap.
  destruct (l !! k) as [a|] eqn:Ha.
  - pose proof (lookup_lt_Some _ _ _ Ha) as Hk.
    specialize (Hs (Z.of_nat k)). rewrite Nat2Z.id, Ha in Hs.
    apply Hs. unfold len. lia.
  - apply lookup_ge_None in Ha. cbn. apply lookup_ge_None.
    unfold len in Hlen. lia.
Qed.

Lemma holds1_zip_with {A B C : Type} (da : A) (db : B) (g : A -> B -> C)
    (s : list C) (a : list A) (b : list B) :
  len b = len a ->
  holds1 s (len a)
    (fun k => g (default da (a !! Z.to_nat k)) (default db (b !! Z.to_nat k))) ->
  s = zip_with g a b.
Proof.
  intros Hab [Hlen Hs]. apply list_eq. intros k. rewrite lookup_zip_with.
  destruct (a !! k) as [x|] eqn:Ha.
  - pose proof (lookup_lt_Some _ _ _ Ha) as Hk.
    destruct (b !! k) as [y|] eqn:Hb.
    + specialize (Hs (Z.of_nat k)). rewrite Nat2Z.id, Ha, Hb in Hs.
      apply Hs. unfold len. lia.
    + apply lookup_ge_None in Hb. unfold len in Hab. lia.
  - apply lookup_ge_None in Ha. cbn. apply lookup_ge_None.
    unfold len in Hlen. lia.
Qed.

Lemma store_loop_map {A : Type} (n : Z) (v : Z -> A) (s : list A) :
  len s = n ->
  for_range 0 n (always (fun i w => store w i (v i))) s
  = Returned (map v (seqZ 0 n)).
Proof.
  intros Hs. pose proof (len_nonneg s) as Hn. rewrite Hs in Hn.
  destruct (for_range_always
              (fun i w => holds1 w n
                 (fun k => if k <? i then v k else default (v 0) (s !! Z.to_nat k)))
              0 n (fun i w => store w i (v i)) s) as (w & Hrun & Hw).
  - assumption.
  - rewrite <- Hs. eapply holds1_ext; [|apply (holds1_self (v 0))].
    intros k Hk. destruct (Z.ltb_spec k 0); [lia|reflexivity].
  - intros i t Hi Ht.
    destruct (holds1_store t n _ i (v i) Ht Hi) as (t' & Hstore & Ht').
    exists t'. split; [exact Hstore|].
    eapply holds1_ext; [|exact Ht']. intros k Hk. unfold upd. split_tests.
  - rewrite Hrun. f_equal. rewrite (holds1_eq w n _ Hw).
    apply map_ext_in. intros k Hk. apply list_elem_of_In, elem_of_seqZ in Hk.
    destruct (Z.ltb_spec k n); [reflexivity|lia].
Qed.

Lemma for_range_ext {S : Type} (lo hi : Z) (body body' : Z -> S -> outcome (ctl S))
    (s : S) :
  (forall i s, body i s = body' i s) ->
  for_range lo hi body s = for_range lo hi body' s.
Proof.
  intros Hext. unfold for_range. generalize (seqZ lo (hi - lo)) as idxs.
  intros idxs. revert s. induction idxs as [|i rest IH]; intros s; simpl.
  - reflexivity.
  - rewrite Hext. destruct (body' i s) as [[s'|s']|]; auto.
Qed.

Lemma len_app {A : Type} (a b : list A) : len (a ++ b) = len a + len b.
Proof. unfold len. rewrite length_app. lia. Qed.

Lemma holds_channels_len {A : Type} (s : list (list A)) nch n f (ch : list A) :
  holds s nch n f -> ch ∈ s -> len ch = n.
Proof.
  intros [Hs Hf] Hin. apply list_elem_of_lookup in Hin as [i Hi].
  pose proof (lookup_lt_Some _ _ _ Hi) as Hlt.
  apply holds1_len in Hs. unfold len in Hs.
  specialize (Hf (Z.of_nat i) ltac:(lia)). rewrite Nat2Z.id, Hi in Hf.
  now apply holds1_len in Hf.
Qed.

(** ** Comparisons of binary64 numbers *)

Lemma is_nan_Prim2SF (x : float) :
  PrimFloat.is_nan x = true <-> Prim2SF x = SpecFloat.S754_nan.
Proof.
  unfold PrimFloat.is_nan. rewrite FloatAxioms.eqb_spec.
  unfold SpecFloat.SFeqb.
  destruct (Prim2SF x) as [s|s| |s m e]; simpl.
  - split; [discriminate|discriminate].
  - destruct s; (split; [discriminate|discriminate]).
  - split; reflexivity.
  - rewrite Z.compare_refl.
    change (Pos.compare_cont Eq m m) with (Pos.compare m m).
    rewrite Pos.compare_refl.
    destruct s; (split; [discriminate|discriminate]).
Qed.

Lemma SFcompare_None (x y : SpecFloat.spec_float) :
  SpecFloat.SFcompare x y = None ->
  x = SpecFloat.S754_nan \/ y = SpecFloat.S754_nan.
Proof.
  destruct x as [sx|sx| |sx mx ex], y as [sy|sy| |sy my ey]; simpl;
    try (intros _; now left); try (intros _; now right);
    try discriminate;
    try (destruct sx; discriminate); try (destruct sy; discriminate);
    try (destruct sx, sy; discriminate).
Qed.

(** Among numbers, [not (y < x)] is [x <= y]. *)
Lemma ltb_false_leb (x y : float) :
  PrimFloat.is_nan x = false -> PrimFloat.is_nan y = false ->
  PrimFloat.ltb y x = false -> PrimFloat.leb x y = true.
Proof.
  intros Hx Hy. rewrite leb_spec, ltb_spec.
  unfold SpecFloat.SFleb, SpecFloat.SFltb.
  rewrite (SFcompare_antisym (Prim2SF x) (Prim2SF y)).
  destruct (SpecFloat.SFcompare (Prim2SF x) (Prim2SF y)) as [[| |]|] eqn:Hc;
    simpl; try congruence.
  apply SFcompare_None in Hc. rewrite <- !is_nan_Prim2SF in Hc.
  destruct Hc; congruence.
Qed.

(** A comparison that holds has numbers on both sides. *)
Lemma leb_not_nan (x y : float) :
  PrimFloat.leb x y = true -> PrimFloat.is_nan x = false /\ PrimFloat.is_nan y = false.
Proof.
  rewrite leb_spec. unfold SpecFloat.SFleb. intros H.
  split; destruct (PrimFloat.is_nan _) eqn:Hn; try reflexivity;
    apply is_nan_Prim2SF in Hn; rewrite Hn in H;
    [|destruct (Prim2SF x) as [| | |]]; simpl in H; discriminate.
Qed.

Lemma ltb_not_nan (x y : float) :
  PrimFloat.ltb x y = true -> PrimFloat.is_nan x = false /\ PrimFloat.is_nan y = false.
Proof.
  rewrite ltb_spec. unfold SpecFloat.SFltb. intros H.
  split; destruct (PrimFloat.is_nan _) eqn:Hn; try reflexivity;
    apply is_nan_Prim2SF in Hn; rewrite Hn in H;
    [|destruct (Prim2SF x) as [| | |]]; simpl in H; discriminate.
Qed.

(** An infinity is above 1 or below -1. *)
Lemma infinity_outside_unit (x : float) :
  PrimFloat.is_infinity x = true ->
  PrimFloat.ltb 1 x = true \/ PrimFloat.ltb x (-1) = true.
Proof.
  unfold PrimFloat.is_infinity. rewrite FloatAxioms.eqb_spec, abs_spec, !ltb_spec.
  change (Prim2SF infinity) with (SpecFloat.S754_infinity false).
  destruct (Prim2SF x) as [s|s| |s m e]; simpl; try discriminate.
  destruct s; intros _; [right|left]; vm_compute; reflexivity.
Qed.

(** ** Windows *)

Lemma makeWindow_returned {libm : Libm} (w : sqmath.WindowType) (size : Z)
    (window : list float) :
  sqmath.makeWindow w size = Returned window ->
  0 <= size /\ (forall name, w <> sqmath.WindowUnknown name) /\ len window = size.
Proof.
  intros H.
  destruct w; cbv beta iota delta [sqmath.makeWindow] in H; try discriminate;
    unfold sqmath.hannWindow, sqmath.hammingWindow, sqmath.blackmanWindow,
           sqmath.rectangularWindow in H;
    (unbind H as w0 Hw0; apply make_inv in Hw0 as [Hs ->];
     try (destruct (size <=? 1));
     unfold sqmath.fillOnes in H;
     (apply modify_loop_len in H; [|intros i t t'; apply store_len]);
     rewrite len_replicate in H by assumption;
     (split; [assumption|(split; [intros name; discriminate|assumption])])).
Qed.

Lemma fillOnes_ones (n : Z) :
  0 <= n ->
  sqmath.fillOnes (replicate (Z.to_nat n) 0%float)
  = Returned (replicate (Z.to_nat n) 1%float).
Proof.
  intros Hn. unfold sqmath.fillOnes. rewrite len_replicate by assumption.
  destruct (for_range_always
              (fun i w => holds1 w n (fun k => if k <? i then 1%float else 0%float))
              0 n (fun i w => store w i 1%float) (replicate (Z.to_nat n) 0%float))
    as (w & Hrun & Hw).
  - assumption.
  - eapply holds1_ext; [|now apply holds1_replicate].
    intros k Hk. destruct (Z.ltb_spec k 0); [lia|reflexivity].
  - intros i s Hi Hs.
    destruct (holds1_store s n _ i 1%float Hs Hi) as (s' & -> & Hs').
    exists s'. split; [reflexivity|].
    eapply holds1_ext; [|exact Hs']. intros k Hk. unfold upd.
    destruct (Z.eqb_spec k i); destruct (Z.ltb_spec k i);
      destruct (Z.ltb_spec k (i + 1)); try lia; reflexivity.
  - rewrite Hrun. f_equal.
    rewrite (holds1_eq w n _ Hw).
    rewrite (holds1_eq (replicate (Z.to_nat n) 1%float) n (fun _ => 1%float))
      by now apply holds1_replicate.
    apply map_ext_in. intros k Hk. apply list_elem_of_In, elem_of_seqZ in Hk.
    destruct (Z.ltb_spec k n); [reflexivity|lia].
Qed.

(** X1.  [makeWindow] returns a window exactly when the size is not negative
    and the window type is one of the five it knows, and the window then
    has [size] samples; an unknown type panics with "unknown window
    type", a negative size in the allocation. *)
Theorem makeWindow_returns_size_samples {libm : Libm}
    (w : sqmath.WindowType) (size : Z) :
  ((exists window, sqmath.makeWindow w size = Returned window) <->
   (0 <= size /\ forall name, w <> sqmath.WindowUnknown name)) /\
  (forall window, sqmath.makeWindow w size = Returned window -> len window = size) /\
  (forall name, sqmath.makeWindow (sqmath.WindowUnknown name) size
                = Panicked (PanicString "unknown window type")) /\
  ((forall name, w <> sqmath.WindowUnknown name) -> size < 0 ->
   sqmath.makeWindow w size = Panicked MakeSliceLenOutOfRange).
Proof.
  split; [|split; [|split]].
  - split.
    + intros [window H]. apply makeWindow_returned in H. tauto.
    + intros [Hs Hknown]. destruct (makeWindow_ok w size Hs Hknown) as (window & H & _).
      eauto.
  - intros window H. now apply makeWindow_returned in H.
  - reflexivity.
  - intros Hknown Hs.
    destruct w; cbv beta iota delta [sqmath.makeWindow];
      try (exfalso; now apply (Hknown name));
      unfold sqmath.hannWindow, sqmath.hammingWindow, sqmath.blackmanWindow,
             sqmath.rectangularWindow, make;
      (destruct (Z.ltb_spec size 0); [reflexivity|lia]).
Qed.

(** X2.  A window of at most one sample is all ones whatever its type (the
    formulas divide by [size - 1]), and the rectangular window is all
    ones at every size. *)
Theorem short_and_rectangular_windows_are_ones {libm : Libm}
    (w : sqmath.WindowType) (size : Z) :
  (forall name, w <> sqmath.WindowUnknown name) -> 0 <= size ->
  size <= 1 \/ w = sqmath.WindowRectangular ->
  sqmath.makeWindow w size = Returned (replicate (Z.to_nat size) 1%float).
Proof.
  intros Hknown Hs Hcase.
  destruct w; cbv beta iota delta [sqmath.makeWindow];
    try (exfalso; now apply (Hknown name));
    unfold sqmath.hannWindow, sqmath.hammingWindow, sqmath.blackmanWindow,
           sqmath.rectangularWindow;
    rewrite make_ok by assumption; cbn [bind];
    try (now apply fillOnes_ones);
    (destruct (Z.leb_spec size 1) as [Hle|Hgt];
     [now apply fillOnes_ones|destruct Hcase as [Hle|Heq]; [lia|discriminate]]).
Qed.

Lemma short_and_rectangular_windows_are_ones_witness :
  sqmath.makeWindow (libm := standin.libm) sqmath.WindowBlackman 1 = Returned [1%float] /\
  sqmath.makeWindow (libm := standin.libm) sqmath.WindowRectangular 3
  = Returned [1; 1; 1]%float.
Proof.
  split.
  - apply (short_and_rectangular_windows_are_ones (libm := standin.libm)
             sqmath.WindowBlackman 1); [discriminate|lia|left; lia].
  - apply (short_and_rectangular_windows_are_ones (libm := standin.libm)
             sqmath.WindowRectangular 3); [discriminate|lia|now right].
Defined.

(** X3.  For more than one sample, sample [i] of a window of [size] samples,
    with [x = 2*pi*i / (size-1)]: Hann (and its alias "hanning")
    [0.5*(1 - cos x)], Hamming [0.54 - 0.46*cos x], Blackman
    [0.42 - 0.5*cos x + 0.08*cos(2x)], for every [i] from 0 to
    [size - 1]. *)
Theorem cosine_window_samples {libm : Libm} (size : Z) :
  1 < size ->
  let x := fun i => (2 * Pi * float64_of_int i / float64_of_int (size - 1))%float in
  sqmath.makeWindow sqmath.WindowHann size
    = Returned (map (fun i => 0.5 * (1 - Cos (x i)))%float (seqZ 0 size)) /\
  sqmath.makeWindow sqmath.WindowHanning size
    = sqmath.makeWindow sqmath.WindowHann size /\
  sqmath.makeWindow sqmath.WindowHamming size
    = Returned (map (fun i => 0.54 - 0.46 * Cos (x i))%float (seqZ 0 size)) /\
  sqmath.makeWindow sqmath.WindowBlackman size
    = Returned (map (fun i => 0.42 - 0.5 * Cos (x i) + 0.08 * Cos (2 * x i))%float
                    (seqZ 0 size)).
Proof.
  intros Hsize x.
  assert ((size <=? 1) = false) as Hbig by (apply Z.leb_gt; lia).
  cbv beta iota delta [sqmath.makeWindow].
  unfold sqmath.hannWindow, sqmath.hammingWindow, sqmath.blackmanWindow.
  rewrite make_ok by lia. cbn [bind]. rewrite Hbig.
  split; [|split; [|split]]; try reflexivity;
    apply store_loop_map; apply len_replicate; lia.
Qed.

Lemma cosine_window_samples_witness :
  sqmath.makeWindow (libm := standin.libm) sqmath.WindowHamming 3
  = Returned
      (map (fun i => 0.54 - 0.46 * standin.cos (2 * Pi * float64_of_int i
                                                / float64_of_int (3 - 1)))%float
           (seqZ 0 3)).
Proof.
  apply (cosine_window_samples (libm := standin.libm) 3). lia.
Defined.

(** ** The kernel, the filter and the block transform *)

(** X4.  With an overlap below 4 the first loop of [makeFilter] stores
    nothing ([center = overlap/2] is at most 1, and the only offsets it
    visits are the odd ones below [center]): the impulse response is
    identically zero, for every block size. *)
Theorem small_overlap_gives_null_kernel (B V : Z) :
  0 <= B -> V < 4 ->
  sqmath.makeImpulse B V = Returned (replicate (Z.to_nat B) 0%float).
Proof.
  intros HB HV. unfold sqmath.makeImpulse. rewrite make_ok by assumption. cbn [bind].
  assert (V `quot` 2 <= 1) as Hc.
  { destruct (Z.le_gt_cases 0 V).
    - rewrite Z.quot_div_nonneg by lia.
      assert (V / 2 < 2) by (apply Z.div_lt_upper_bound; lia). lia.
    - assert (V `quot` 2 <= 0) by (apply Z.quot_le_upper_bound; lia). lia. }
  destruct (Z.le_gt_cases (V `quot` 2) 0) as [Hle|Hgt].
  - apply for_range_nil. assumption.
  - assert (V `quot` 2 = 1) as -> by lia. reflexivity.
Qed.

Lemma small_overlap_gives_null_kernel_witness :
  sqmath.makeImpulse 8 3 = Returned (replicate 8 0%float).
Proof.
  apply (small_overlap_gives_null_kernel 8 3); lia.
Defined.

Section FilterSpec.
Context {libm : Libm} {Plan : Type} {fft : AlgoFFT Plan}.

(** [toComplex] over the whole source. *)
Lemma toComplex_map (n : Z) (src : list float) :
  len src = n ->
  sqmath.toComplex n src (replicate (Z.to_nat n) czero)
  = Returned (map (fun v => complex v 0%float) src).
Proof.
  intros <-. pose proof (len_nonneg src) as Hn. unfold sqmath.toComplex.
  set (at_ := fun k => default 0%float (src !! Z.to_nat k)).
  destruct (for_range_always
              (fun i (d : list complex128) =>
                 holds1 d (len src)
                   (fun k => if k <? i then complex (at_ k) 0%float else czero))
              0 (len src)
              (fun i d => x <- index src i ;; store d i (complex x 0%float))
              (replicate (Z.to_nat (len src)) czero)) as (d & Hrun & Hd).
  - assumption.
  - eapply holds1_ext; [|now apply holds1_replicate].
    intros k Hk. destruct (Z.ltb_spec k 0); [lia|reflexivity].
  - intros i d Hi Hd. rewrite (index_len 0%float src i Hi). cbn [bind].
    destruct (holds1_store d (len src) _ i (complex (at_ i) 0%float) Hd Hi)
      as (d' & Hstore & Hd').
    exists d'. split; [exact Hstore|].
    eapply holds1_ext; [|exact Hd']. intros k Hk. unfold upd. split_tests.
  - rewrite Hrun. f_equal.
    apply (holds1_map_list 0%float (fun v => complex v 0%float)).
    eapply holds1_ext; [|exact Hd]. intros k Hk. cbv beta.
    destruct (Z.ltb_spec k (len src)); [reflexivity|lia].
Qed.

(** The impulse response as [makeFilter] hands it to the transform:
    windowed and scaled by 1.8 below the overlap, untouched from there. *)
Definition windowedKernel (V : Z) (h window : list float) (k : Z) : float :=
  let hk := default 0%float (h !! Z.to_nat k) in
  if k <? V then (hk * default 0%float (window !! Z.to_nat k) * 1.8)%float else hk.

Lemma window_and_gain (B V : Z) (h window : list float) :
  0 <= V <= B -> len h = B -> len window = V ->
  exists imp1 imp2,
    sqmath.applyWindow V window h = Returned imp1 /\
    sqmath.applyGain V imp1 = Returned imp2 /\
    imp2 = map (windowedKernel V h window) (seqZ 0 B).
Proof.
  intros HV Hh Hw.
  set (hf := fun k => default 0%float (h !! Z.to_nat k)).
  set (wf := fun k => default 0%float (window !! Z.to_nat k)).
  destruct (for_range_always
              (fun i imp => holds1 imp B
                 (fun k => if k <? i then (hf k * wf k)%float else hf k))
              0 V
              (fun i imp => w <- index window i ;; modify imp i (fun x => x * w)%float)
              h) as (imp1 & Hrun1 & H1).
  - lia.
  - rewrite <- Hh. eapply holds1_ext; [|apply (holds1_self 0%float)].
    intros k Hk. destruct (Z.ltb_spec k 0); [lia|reflexivity].
  - intros i imp Hi Himp. rewrite (index_len 0%float window i) by lia. cbn [bind].
    destruct (holds1_modify imp B _ i (fun x => (x * wf i)%float) Himp ltac:(lia))
      as (imp' & Hmodify & Himp').
    exists imp'. split; [exact Hmodify|].
    eapply holds1_ext; [|exact Himp']. intros k Hk. unfold upd. split_tests.
  - destruct (for_range_always
                (fun i imp => holds1 imp B
                   (fun k => if k <? i then (hf k * wf k * 1.8)%float
                             else if k <? V then (hf k * wf k)%float else hf k))
                0 V
                (fun i imp => modify imp i (fun x => x * 1.8)%float)
                imp1) as (imp2 & Hrun2 & H2).
    + lia.
    + eapply holds1_ext; [|exact H1].
      intros k Hk. destruct (Z.ltb_spec k 0); [lia|reflexivity].
    + intros i imp Hi Himp.
      destruct (holds1_modify imp B _ i (fun x => (x * 1.8)%float) Himp ltac:(lia))
        as (imp' & -> & Himp').
      exists imp'. split; [reflexivity|].
      eapply holds1_ext; [|exact Himp']. intros k Hk. unfold upd. split_tests.
    + exists imp1, imp2. split; [exact Hrun1|]. split; [exact Hrun2|].
      rewrite (holds1_eq imp2 B _ H2). apply map_ext_in. intros k Hk.
      apply list_elem_of_In, elem_of_seqZ in Hk. unfold windowedKernel. cbv zeta.
      fold (hf k) (wf k). destruct (Z.ltb_spec k V); reflexivity.
Qed.

End FilterSpec.

(** X5.  [makeFilter], for [0 <= overlap <= blockSize]: the transfer function
    is the forward transform of the impulse response of the first loop,
    multiplied sample by sample with the window and then by 1.8 below
    the overlap, with imaginary part zero; from the overlap on the
    impulse response is zero.  The window it stores is the one
    [makeWindow] returned. *)
Theorem makeFilter_transforms_windowed_kernel {libm : Libm} {Plan : Type}
    {fft : AlgoFFT Plan} {total : AlgoFFT_total fft}
    (B V : Z) (plan : Plan) (w : sqmath.WindowType) :
  0 <= V <= B -> (forall name, w <> sqmath.WindowUnknown name) ->
  NewPlan64 B = Some plan ->
  exists h window tf,
    sqmath.makeImpulse B V = Returned h /\
    sqmath.makeWindow w V = Returned window /\
    sqmath.makeFilter B V B plan w = Returned (window, tf) /\
    Forward plan
      (map (fun k =>
              complex (if k <? V
                       then (default 0%float (h !! Z.to_nat k)
                             * default 0%float (window !! Z.to_nat k) * 1.8)%float
                       else 0%float) 0%float)
           (seqZ 0 B)) = Some tf /\
    len tf = B.
Proof.
  intros HV Hknown Hplan.
  destruct (makeImpulse_spec B V HV) as (h & Hh & Hkernel).
  destruct (makeWindow_ok w V) as (window & Hwindow & Hwlen); [lia|assumption|].
  pose proof (holds1_len _ _ _ Hkernel) as Hhlen.
  destruct (window_and_gain B V h window HV Hhlen Hwlen)
    as (imp1 & imp2 & Hrun1 & Hrun2 & Himp2).
  assert (len imp2 = B) as Hlen2.
  { rewrite Himp2. unfold len. rewrite length_map, length_seqZ. lia. }
  assert (map (fun v => complex v 0%float) imp2
          = map (fun k =>
                   complex (if k <? V
                            then (default 0%float (h !! Z.to_nat k)
                                  * default 0%float (window !! Z.to_nat k) * 1.8)%float
                            else 0%float) 0%float)
                (seqZ 0 B)) as Hcomplex.
  { rewrite Himp2, map_map. apply map_ext_in. intros k Hk.
    apply list_elem_of_In, elem_of_seqZ in Hk. unfold windowedKernel. cbv zeta.
    destruct (Z.ltb_spec k V) as [Hlt|Hge]; [reflexivity|].
    rewrite (holds1_lookup h B _ k Hkernel) by lia. cbn [default].
    assert (0 <= V `quot` 2 /\ 2 * (V `quot` 2) <= V) as [Hc0 Hc2].
    { rewrite Z.quot_div_nonneg by lia. split; [apply Z.div_pos; lia|].
      apply Z.mul_div_le. lia. }
    unfold impulseAt. cbv zeta.
    destruct (Z.ltb_spec (k - V `quot` 2) (V `quot` 2)); [lia|].
    destruct (Z.ltb_spec 0 (- (k - V `quot` 2))); [lia|].
    rewrite andb_false_r. reflexivity. }
  assert (len (map (fun v => complex v 0%float) imp2) = B) as Hclen.
  { unfold len. rewrite length_map. exact Hlen2. }
  destruct (Forward_total B plan _ Hplan Hclen) as (tf & Htf & Htflen).
  exists h, window, tf.
  split; [exact Hh|]. split; [exact Hwindow|]. split; [|split].
  - unfold sqmath.makeFilter. rewrite Hh. cbn [bind]. rewrite Hwindow. cbn [bind].
    rewrite Hrun1. cbn [bind]. rewrite Hrun2. cbn [bind].
    rewrite make_ok by lia. cbn [bind].
    rewrite <- Hlen2. rewrite toComplex_map by reflexivity. cbn [bind].
    rewrite Htf. reflexivity.
  - rewrite <- Hcomplex. exact Htf.
  - exact Htflen.
Qed.

Lemma makeFilter_transforms_windowed_kernel_witness :
  exists h window tf,
    sqmath.makeImpulse 8 4 = Returned h /\
    sqmath.makeWindow (libm := standin.libm) sqmath.WindowHamming 4 = Returned window /\
    sqmath.makeFilter (libm := standin.libm) (fft := standin.fft)
      8 4 8 8 sqmath.WindowHamming = Returned (window, tf) /\
    len tf = 8.
Proof.
  destruct (makeFilter_transforms_windowed_kernel
              (libm := standin.libm) (fft := standin.fft) 8 4 8 sqmath.WindowHamming)
    as (h & window & tf & Hh & Hwindow & Hrun & _ & Hlen);
    [lia|discriminate|reflexivity|].
  exists h, window, tf. auto.
Defined.

(** X6.  [ProcessBlock], for a transformer that construction returned and a
    block of its size: the result is the real part of the inverse
    transform of the bin-by-bin product of the forward transform of the
    block (imaginary parts zero) with the transfer function, each sample
    multiplied by [1 / blockSize]. *)
Theorem ProcessBlock_filters_by_transfer_function {libm : Libm} {Plan : Type}
    {fft : AlgoFFT Plan} {total : AlgoFFT_total fft}
    (B V : Z) (w : sqmath.WindowType) (ht : sqmath.HilbertTransformer Plan)
    (x : list float) :
  sqmath.NewHilbertTransformerWithWindow B V w = Returned ht ->
  len x = B ->
  exists freq timeDomain,
    Forward (sqmath.fftPlan ht) (map (fun v => complex v 0%float) x) = Some freq /\
    Inverse (sqmath.fftPlan ht) (zip_with cmul freq (sqmath.transferFn ht))
      = Some timeDomain /\
    sqmath.ProcessBlock ht x
    = Returned (map (fun t => (real t * (1 / float64_of_int B))%float) timeDomain).
Proof.
  intros Hnew Hx.
  apply NewHilbertTransformerWithWindow_constructed in Hnew
    as ((HB & Hfft & Hplan & Htf) & HBht & _).
  rewrite HBht in *.
  assert (len (map (fun v => complex v 0%float) x) = B) as Hclen.
  { unfold len. rewrite length_map. exact Hx. }
  destruct (Forward_total B _ _ Hplan Hclen) as (freq & Hfreq & Hfreqlen).
  set (tf := sqmath.transferFn ht) in *.
  assert (len (zip_with cmul freq tf) = B) as Hzlen.
  { unfold len in *. rewrite length_zip_with. lia. }
  destruct (Inverse_total B _ _ Hplan Hzlen) as (td & Htd & Htdlen).
  exists freq, td. split; [exact Hfreq|]. split; [exact Htd|].
  unfold sqmath.ProcessBlock. rewrite HBht, Hfft, Hx, Z.eqb_refl. cbn [negb].
  rewrite !make_ok by assumption. cbn [bind].
  rewrite (toComplex_map B x Hx). cbn [bind].
  rewrite Hfreq. cbn [must bind]. fold tf.
  destruct (for_range_always
              (fun i (fd : list complex128) =>
                 holds1 fd B
                   (fun k => if k <? i
                             then cmul (default czero (freq !! Z.to_nat k))
                                       (default czero (tf !! Z.to_nat k))
                             else default czero (freq !! Z.to_nat k)))
              0 B
              (fun i fd => t <- index tf i ;; modify fd i (fun y => cmul y t))
              freq) as (fd & -> & Hfd).
  { assumption. }
  { rewrite <- Hfreqlen. eapply holds1_ext; [|apply (holds1_self czero)].
    intros k Hk. destruct (Z.ltb_spec k 0); [lia|reflexivity]. }
  { intros i fd Hi Hfd. rewrite (index_len czero tf i) by lia. cbn [bind].
    destruct (holds1_modify fd B _ i
                (fun y => cmul y (default czero (tf !! Z.to_nat i))) Hfd Hi)
      as (fd' & -> & Hfd').
    exists fd'. split; [reflexivity|].
    eapply holds1_ext; [|exact Hfd']. intros k Hk. unfold upd. split_tests. }
  cbn [bind].
  assert (fd = zip_with cmul freq tf) as ->.
  { apply (holds1_zip_with czero czero); [congruence|].
    rewrite Hfreqlen. eapply holds1_ext; [|exact Hfd]. intros k Hk. cbv beta.
    destruct (Z.ltb_spec k B); [reflexivity|lia]. }
  rewrite Htd. cbn [must bind].
  set (scale := (1 / float64_of_int B)%float).
  destruct (for_range_always
              (fun i (out : list float) =>
                 holds1 out B
                   (fun k => if k <? i
                             then (real (default czero (td !! Z.to_nat k)) * scale)%float
                             else 0%float))
              0 B
              (fun i out => t <- index td i ;; store out i (real t * scale)%float)
              (replicate (Z.to_nat B) 0%float)) as (out & -> & Hout).
  { assumption. }
  { eapply holds1_ext; [|now apply holds1_replicate].
    intros k Hk. destruct (Z.ltb_spec k 0); [lia|reflexivity]. }
  { intros i out Hi Hout. rewrite (index_len czero td i) by lia. cbn [bind].
    destruct (holds1_store out B _ i
                (real (default czero (td !! Z.to_nat i)) * scale)%float Hout Hi)
      as (out' & -> & Hout').
    exists out'. split; [reflexivity|].
    eapply holds1_ext; [|exact Hout']. intros k Hk. unfold upd. split_tests. }
  f_equal.
  apply (holds1_map_list czero (fun t => (real t * scale)%float)).
  rewrite Htdlen. eapply holds1_ext; [|exact Hout]. intros k Hk. cbv beta.
  destruct (Z.ltb_spec k B); [reflexivity|lia].
Qed.

Lemma ProcessBlock_filters_by_transfer_function_witness :
  exists ht freq timeDomain,
    sqmath.NewHilbertTransformerWithWindow (libm := standin.libm) (fft := standin.fft)
      8 4 sqmath.WindowHann = Returned ht /\
    Forward (AlgoFFT := standin.fft) (sqmath.fftPlan ht)
      (map (fun v => complex v 0%float) [1; 2; 3; 4; 5; 6; 7; 8]%float) = Some freq /\
    sqmath.ProcessBlock (fft := standin.fft) ht [1; 2; 3; 4; 5; 6; 7; 8]%float
    = Returned (map (fun t => (real t * (1 / float64_of_int 8))%float) timeDomain).
Proof.
  pose proof standin_ht8_eq as Hnew. unfold standin_ht8 in Hnew.
  destruct (ProcessBlock_filters_by_transfer_function
              (libm := standin.libm) (fft := standin.fft) 8 4 _ _
              [1; 2; 3; 4; 5; 6; 7; 8]%float Hnew eq_refl)
    as (freq & td & Hfreq & _ & Hrun).
  eexists. exists freq, td. split; [exact Hnew|]. split; [exact Hfreq|exact Hrun].
Defined.

(** ** Construction, both ways *)

Section ConstructionInv.
Context {libm : Libm} {Plan : Type} {fft : AlgoFFT Plan}.

(** The window loop reads [impulse[i]] for every [i] below the overlap. *)
Lemma applyWindow_returned (V : Z) (window imp imp' : list float) :
  0 <= V -> sqmath.applyWindow V window imp = Returned imp' -> V <= len imp.
Proof.
  intros HV H. unfold sqmath.applyWindow in H.
  apply (for_range_returned (fun i s => len s = len imp /\ i <= len imp)) in H.
  - lia.
  - assumption.
  - pose proof (len_nonneg imp). auto.
  - intros i s s' Hi [Hs _] Hb. unbind Hb as x Hx.
    pose proof (modify_len _ _ _ _ Hb) as Hlen.
    unfold modify in Hb. unbind Hb as y Hy. apply index_inv in Hy as [Hy _].
    lia.
Qed.

(** What a transformer that construction returned was built from. *)
Lemma NewHilbertTransformerWithWindow_inv (B V : Z) (w : sqmath.WindowType)
    (ht : sqmath.HilbertTransformer Plan) :
  sqmath.NewHilbertTransformerWithWindow B V w = Returned ht ->
  NewPlan64 B = Some (sqmath.fftPlan ht) /\ 0 <= V <= B /\
  (forall name, w <> sqmath.WindowUnknown name) /\
  sqmath.blockSize ht = B /\ sqmath.overlap ht = V /\ sqmath.fftSize ht = B /\
  sqmath.windowType ht = w /\ len (sqmath.window ht) = V /\
  len (sqmath.inputBuffer ht) = B /\ sqmath.initialized ht = true.
Proof.
  unfold sqmath.NewHilbertTransformerWithWindow. intros H.
  unbind H as plan Hplan. apply must_inv in Hplan.
  unbind H as buf Hbuf. apply make_inv in Hbuf as [HB ->].
  unbind H as filter Hfilter. destruct filter as [window tf].
  injection H as <-. cbn.
  unfold sqmath.makeFilter in Hfilter.
  unbind Hfilter as h Hh. apply makeImpulse_len in Hh.
  unbind Hfilter as win Hwin. apply makeWindow_returned in Hwin as (HV & Hknown & Hlen).
  unbind Hfilter as imp1 Himp1. apply applyWindow_returned in Himp1; [|assumption].
  unbind Hfilter as imp2 Himp2. unbind Hfilter as ic0 Hic0.
  unbind Hfilter as ic Hic. unbind Hfilter as scratch Hscratch.
  unbind Hfilter as tf' Htf. injection Hfilter as <- <-.
  rewrite len_replicate by assumption.
  repeat split; try assumption; lia.
Qed.

End ConstructionInv.

(** X7.  [NewHilbertTransformerWithWindow] returns a transformer exactly when
    the FFT library has a plan for the block size, the overlap lies in
    [[0, blockSize]] and the window type is known (otherwise it
    panics).  A transformer it returns holds the block size, the
    overlap and the window type it was given, a window of [overlap]
    samples, a transfer function and an input buffer of [blockSize]
    samples, and is marked initialized. *)
Theorem NewHilbertTransformerWithWindow_returns_iff {libm : Libm} {Plan : Type}
    {fft : AlgoFFT Plan} {total : AlgoFFT_total fft}
    (B V : Z) (w : sqmath.WindowType) :
  ((exists ht, sqmath.NewHilbertTransformerWithWindow B V w = Returned ht) <->
   (NewPlan64 B <> None /\ 0 <= V <= B /\
    forall name, w <> sqmath.WindowUnknown name)) /\
  forall ht, sqmath.NewHilbertTransformerWithWindow B V w = Returned ht ->
    sqmath.blockSize ht = B /\ sqmath.overlap ht = V /\ sqmath.fftSize ht = B /\
    sqmath.windowType ht = w /\ NewPlan64 B = Some (sqmath.fftPlan ht) /\
    len (sqmath.window ht) = V /\ len (sqmath.transferFn ht) = B /\
    len (sqmath.inputBuffer ht) = B /\ sqmath.initialized ht = true.
Proof.
  split.
  - split.
    + intros [ht H]. apply NewHilbertTransformerWithWindow_inv in H.
      destruct H as (Hplan & HV & Hknown & _).
      split; [congruence|]. split; assumption.
    + intros (Hplan & HV & Hknown).
      now apply NewHilbertTransformerWithWindow_returns.
  - intros ht H.
    pose proof (NewHilbertTransformerWithWindow_constructed B V w ht H)
      as ((_ & _ & _ & Htf) & HB & _).
    apply NewHilbertTransformerWithWindow_inv in H.
    destruct H as (Hplan & HV & Hknown & H1 & H2 & H3 & H4 & H5 & H6 & H7).
    repeat split; try assumption; congruence.
Qed.

Lemma NewHilbertTransformerWithWindow_returns_iff_witness :
  (exists ht,
     sqmath.NewHilbertTransformerWithWindow (libm := standin.libm) (fft := standin.fft)
       8 4 sqmath.WindowHamming = Returned ht) /\
  ~ (exists ht,
       sqmath.NewHilbertTransformerWithWindow (libm := standin.libm) (fft := standin.fft)
         8 9 sqmath.WindowHamming = Returned ht).
Proof.
  split.
  - apply (NewHilbertTransformerWithWindow_returns_iff
             (libm := standin.libm) (fft := standin.fft) 8 4 sqmath.WindowHamming).
    split; [discriminate|]. split; [lia|discriminate].
  - intros H.
    apply (NewHilbertTransformerWithWindow_returns_iff
             (libm := standin.libm) (fft := standin.fft) 8 9 sqmath.WindowHamming) in H.
    lia.
Defined.

Lemma outputBuffers_made (B : Z) :
  0 <= B ->
  for_range 0 4 (always (fun i (o : list (list float)) =>
                           b <- make 0%float B ;; store o i b))
    (replicate 4 [])
  = Returned (replicate 4 (replicate (Z.to_nat B) 0%float)).
Proof.
  intros HB. unfold for_range, always, make.
  destruct (Z.ltb_spec B 0); [lia|]. reflexivity.
Qed.

(** X8.  [NewSQDecoderWithParams] and [NewSQEncoderWithParams] return exactly
    when the FFT library has a plan for the block size and the overlap
    lies in [[0, blockSize]] (otherwise they panic).  What they return
    holds the block size and overlap given, [sqrt(2)/2], two Hann-window
    transformers for that block size and overlap and, in the decoder,
    zeroed buffers of [blockSize] samples; [GetLatency] is
    [overlap + overlap/2]. *)
Theorem codec_constructors_return_iff {libm : Libm} {Plan : Type}
    {fft : AlgoFFT Plan} {total : AlgoFFT_total fft} (B V : Z) :
  ((exists d, decoder.NewSQDecoderWithParams B V = Returned d) <->
   (NewPlan64 B <> None /\ 0 <= V <= B)) /\
  ((exists e, encoder.NewSQEncoderWithParams B V = Returned e) <->
   (NewPlan64 B <> None /\ 0 <= V <= B)) /\
  (forall d, decoder.NewSQDecoderWithParams B V = Returned d ->
     decoder.blockSize d = B /\ decoder.overlap d = V /\
     decoder.GetLatency d = V + V `quot` 2 /\
     decoder.sqrt2 d = (PrimFloat.sqrt 2 / 2)%float /\
     sqmath.NewHilbertTransformerWithWindow B V sqmath.WindowHann
       = Returned (decoder.hilbertLeft d) /\
     sqmath.NewHilbertTransformerWithWindow B V sqmath.WindowHann
       = Returned (decoder.hilbertRight d) /\
     decoder.inputBufferL d = replicate (Z.to_nat B) 0%float /\
     decoder.inputBufferR d = replicate (Z.to_nat B) 0%float /\
     decoder.outputBuffers d = replicate 4 (replicate (Z.to_nat B) 0%float) /\
     decoder.bufferPos d = 0) /\
  (forall e, encoder.NewSQEncoderWithParams B V = Returned e ->
     encoder.blockSize e = B /\ encoder.overlap e = V /\
     encoder.GetLatency e = V + V `quot` 2 /\
     encoder.sqrt2 e = (PrimFloat.sqrt 2 / 2)%float /\
     sqmath.NewHilbertTransformerWithWindow B V sqmath.WindowHann
       = Returned (encoder.hilbertLB e) /\
     sqmath.NewHilbertTransformerWithWindow B V sqmath.WindowHann
       = Returned (encoder.hilbertRB e)).
Proof.
  split; [|split; [|split]].
  - split.
    + intros [d H]. unfold decoder.NewSQDecoderWithParams, sqmath.NewHilbertTransformer in H.
      unbind H as hl Hhl. apply NewHilbertTransformerWithWindow_inv in Hhl.
      destruct Hhl as (Hplan & HV & _). split; [congruence|assumption].
    + intros [Hplan HV]. now apply NewSQDecoderWithParams_returns.
  - split.
    + intros [e H]. unfold encoder.NewSQEncoderWithParams, sqmath.NewHilbertTransformer in H.
      unbind H as hl Hhl. apply NewHilbertTransformerWithWindow_inv in Hhl.
      destruct Hhl as (Hplan & HV & _). split; [congruence|assumption].
    + intros [Hplan HV]. now apply NewSQEncoderWithParams_returns.
  - intros d H. unfold decoder.NewSQDecoderWithParams, sqmath.NewHilbertTransformer in H.
    unbind H as hl Hhl. unbind H as hr Hhr.
    unbind H as bl Hbl. apply make_inv in Hbl as [HB ->].
    unbind H as br Hbr. apply make_inv in Hbr as [_ ->].
    rewrite outputBuffers_made in H by assumption. cbn [bind] in H.
    injection H as <-. cbn. repeat split; assumption.
  - intros e H. unfold encoder.NewSQEncoderWithParams, sqmath.NewHilbertTransformer in H.
    unbind H as hl Hhl. unbind H as hr Hhr.
    injection H as <-. cbn. repeat split; assumption.
Qed.

Lemma codec_constructors_return_iff_witness :
  (exists d, decoder.NewSQDecoderWithParams (libm := standin.libm) (fft := standin.fft)
               8 4 = Returned d) /\
  ~ (exists e, encoder.NewSQEncoderWithParams (libm := standin.libm) (fft := standin.fft)
                 8 (-1) = Returned e).
Proof.
  split.
  - apply (codec_constructors_return_iff (libm := standin.libm) (fft := standin.fft) 8 4).
    split; [discriminate|lia].
  - intros H.
    apply (codec_constructors_return_iff (libm := standin.libm) (fft := standin.fft)
             8 (-1)) in H.
    lia.
Defined.

(** ** What [Process] reports, and when it panics *)

(** X9.  [Process] validates before it does anything else, so the reports do
    not depend on how the decoder or encoder was built: a wrong number of
    channels is reported with the expected and the actual count, and,
    for the right number of channels, unequal lengths are reported as
    such. *)
Theorem Process_reports_what_is_wrong {libm : Libm} {Plan : Type} {fft : AlgoFFT Plan}
    (d : decoder.SQDecoder Plan) (e : encoder.SQEncoder Plan)
    (input : list (list float)) :
  (len input <> 2 ->
   decoder.Process d input = Returned (None, Some (ErrChannelCount 2 (len input)))) /\
  (len input = 2 -> ~ same_length input ->
   decoder.Process d input = Returned (None, Some ErrChannelLength)) /\
  (len input <> 4 ->
   encoder.Process e input = Returned (None, Some (ErrChannelCount 4 (len input)))) /\
  (len input = 4 -> ~ same_length input ->
   encoder.Process e input = Returned (None, Some ErrChannelLength)).
Proof.
  split; [|split; [|split]].
  - intros H2. unfold decoder.Process.
    destruct (Z.eqb_spec (len input) 2); [contradiction|reflexivity].
  - intros H2 Hbad. destruct (len2_inv input H2) as (a & b & ->).
    rewrite same_length_two in Hbad. unfold decoder.Process. simpl.
    destruct (Z.eqb_spec (len b) (len a)); [contradiction|reflexivity].
  - intros H4. unfold encoder.Process.
    destruct (Z.eqb_spec (len input) 4); [contradiction|reflexivity].
  - intros H4 Hbad. destruct (len4_inv input H4) as (a & b & c & x & ->).
    rewrite same_length_four in Hbad. unfold encoder.Process. simpl.
    rewrite sameLengths_four.
    destruct ((len b =? len a) && (len c =? len a) && (len x =? len a));
      [contradiction|reflexivity].
Qed.

(** X10.  An overlap of zero passes construction, and [Process] then panics
    with an integer division by zero on every well-formed input, the
    empty one included: the number of blocks is
    [(numSamples + overlap - 1) / overlap]. *)
Theorem Process_divides_by_overlap {libm : Libm} {Plan : Type}
    {fft : AlgoFFT Plan} {total : AlgoFFT_total fft} (B : Z) :
  NewPlan64 B <> None -> 0 <= B ->
  (exists d, decoder.NewSQDecoderWithParams B 0 = Returned d /\
     forall input, len input = 2 -> same_length input ->
       decoder.Process d input = Panicked IntegerDivideByZero) /\
  (exists e, encoder.NewSQEncoderWithParams B 0 = Returned e /\
     forall input, len input = 4 -> same_length input ->
       encoder.Process e input = Panicked IntegerDivideByZero).
Proof.
  intros Hplan HB. split.
  - destruct (NewSQDecoderWithParams_returns B 0) as (d & Hd); [lia|assumption|].
    exists d. split; [exact Hd|].
    apply NewSQDecoderWithParams_ok in Hd as (_ & _ & HV).
    intros input H2 Hsame. destruct (len2_inv input H2) as (a & b & ->).
    apply same_length_two in Hsame.
    unfold decoder.Process. simpl. rewrite Hsame, Z.eqb_refl. simpl.
    unfold int_div. rewrite HV. reflexivity.
  - destruct (NewSQEncoderWithParams_returns B 0) as (e & He); [lia|assumption|].
    exists e. split; [exact He|].
    apply NewSQEncoderWithParams_ok in He as (_ & _ & HV).
    intros input H4 Hsame. destruct (len4_inv input H4) as (a & b & c & x & ->).
    apply same_length_four in Hsame.
    unfold encoder.Process. simpl. rewrite sameLengths_four, Hsame. simpl.
    unfold int_div. rewrite HV. reflexivity.
Qed.

Lemma Process_divides_by_overlap_witness :
  exists d, decoder.NewSQDecoderWithParams (libm := standin.libm) (fft := standin.fft)
              8 0 = Returned d /\
    decoder.Process (fft := standin.fft) d [[]; []] = Panicked IntegerDivideByZero /\
    decoder.Process (fft := standin.fft) d [[1; 2; 3]; [4; 5; 6]]%float
      = Panicked IntegerDivideByZero.
Proof.
  destruct (Process_divides_by_overlap (libm := standin.libm) (fft := standin.fft) 8)
    as ((d & Hd & Hrun) & _); [discriminate|lia|].
  exists d. split; [exact Hd|].
  split; apply Hrun; try reflexivity; apply same_length_two; reflexivity.
Defined.

(** ** The output of [Process] *)

Lemma paddedBlock_ext (ch ch' : list float) (B start : Z) :
  (forall k, start <= k < start + B -> ch !! Z.to_nat k = ch' !! Z.to_nat k) ->
  paddedBlock ch B start = paddedBlock ch' B start.
Proof.
  intros H. unfold paddedBlock. apply map_ext_in. intros i Hi.
  apply list_elem_of_In, elem_of_seqZ in Hi. rewrite H by lia. reflexivity.
Qed.

(** X11.  For a decoder (an encoder) that construction returned with a
    positive overlap, [Process] on a well-formed input of [N] samples
    returns exactly 4 (2) channels of [N] samples each, whatever the
    block size and overlap; an empty input gives empty channels. *)
Theorem Process_output_shape {libm : Libm} {Plan : Type} {fft : AlgoFFT Plan}
    {total : AlgoFFT_total fft} (B V : Z) :
  0 < V ->
  (forall d in0 in1,
     decoder.NewSQDecoderWithParams B V = Returned d -> len in1 = len in0 ->
     exists out, decoder.Process d [in0; in1] = Returned (Some out, None) /\
       len out = 4 /\ forall ch, ch ∈ out -> len ch = len in0) /\
  (forall e in0 in1 in2 in3,
     encoder.NewSQEncoderWithParams B V = Returned e ->
     len in1 = len in0 -> len in2 = len in0 -> len in3 = len in0 ->
     exists out, encoder.Process e [in0; in1; in2; in3] = Returned (Some out, None) /\
       len out = 2 /\ forall ch, ch ∈ out -> len ch = len in0).
Proof.
  intros HV. split.
  - intros d in0 in1 Hnew H1.
    apply NewSQDecoderWithParams_ok in Hnew as (Hok & _ & HVd).
    destruct (Process_decoder d in0 in1 (len in0) Hok) as (out & Hrun & Hout);
      [lia|reflexivity|assumption|].
    exists out. split; [exact Hrun|]. split; [now apply holds_len in Hout|].
    intros ch Hch. now apply (holds_channels_len out 4 _ _ ch Hout).
  - intros e in0 in1 in2 in3 Hnew H1 H2 H3.
    apply NewSQEncoderWithParams_ok in Hnew as (Hok & _ & HVe).
    destruct (Process_encoder e in0 in1 in2 in3 (len in0) Hok) as (out & Hrun & Hout);
      [lia|reflexivity|assumption|assumption|assumption|].
    exists out. split; [exact Hrun|]. split; [now apply holds_len in Hout|].
    intros ch Hch. now apply (holds_channels_len out 2 _ _ ch Hout).
Qed.

Lemma Process_output_shape_witness :
  exists d out,
    decoder.NewSQDecoderWithParams (libm := standin.libm) (fft := standin.fft) 4 4
      = Returned d /\
    decoder.Process (fft := standin.fft) d [[]; []] = Returned (Some out, None) /\
    len out = 4 /\ forall ch, ch ∈ out -> len ch = 0.
Proof.
  destruct (NewSQDecoderWithParams_returns (libm := standin.libm) (fft := standin.fft) 4 4)
    as (d & Hd); [lia|discriminate|].
  destruct (Process_output_shape (libm := standin.libm) (fft := standin.fft) 4 4
              ltac:(lia)) as [Hdec _].
  destruct (Hdec d [] [] Hd eq_refl) as (out & Hout).
  exists d, out. split; [exact Hd|exact Hout].
Defined.

(** X12.  The matrix loop of a hop stops at the first offset [i] whose
    quadrature index [overlap/2 + i] reaches the block size, so every
    output sample [p] with [overlap/2 + p mod overlap >= blockSize] is
    zero in every channel, whatever the input.  (This happens when
    [overlap + overlap/2] exceeds the block size.) *)
Theorem cut_hop_samples_are_zero {libm : Libm} {Plan : Type} {fft : AlgoFFT Plan}
    {total : AlgoFFT_total fft} (B V : Z) :
  0 < V ->
  (forall d in0 in1 p c,
     decoder.NewSQDecoderWithParams B V = Returned d -> len in1 = len in0 ->
     0 <= p < len in0 -> 0 <= c < 4 -> B <= V `quot` 2 + p mod V ->
     exists out, decoder.Process d [in0; in1] = Returned (Some out, None) /\
                 index2 out c p = Returned 0%float) /\
  (forall e in0 in1 in2 in3 p c,
     encoder.NewSQEncoderWithParams B V = Returned e ->
     len in1 = len in0 -> len in2 = len in0 -> len in3 = len in0 ->
     0 <= p < len in0 -> 0 <= c < 2 -> B <= V `quot` 2 + p mod V ->
     exists out, encoder.Process e [in0; in1; in2; in3] = Returned (Some out, None) /\
                 index2 out c p = Returned 0%float).
Proof.
  intros HV.
  assert (forall N start i, B <= V `quot` 2 + i -> live B V N start i = false) as Hdead.
  { intros N start i Hi. unfold live.
    destruct (Z.ltb_spec (V `quot` 2 + i) B); [lia|]. now rewrite andb_false_r. }
  split.
  - intros d in0 in1 p c Hnew H1 Hp Hc Hcut.
    apply NewSQDecoderWithParams_ok in Hnew as (Hok & HBd & HVd).
    destruct (Process_decoder d in0 in1 (len in0) Hok) as (out & Hrun & Hout);
      [lia|reflexivity|assumption|].
    exists out. split; [exact Hrun|].
    rewrite (holds_index2 out 4 (len in0) _ c p Hout Hc Hp).
    rewrite HBd, HVd, Hdead by assumption. reflexivity.
  - intros e in0 in1 in2 in3 p c Hnew H1 H2 H3 Hp Hc Hcut.
    apply NewSQEncoderWithParams_ok in Hnew as (Hok & HBe & HVe).
    destruct (Process_encoder e in0 in1 in2 in3 (len in0) Hok) as (out & Hrun & Hout);
      [lia|reflexivity|assumption|assumption|assumption|].
    exists out. split; [exact Hrun|].
    rewrite (holds_index2 out 2 (len in0) _ c p Hout Hc Hp).
    rewrite HBe, HVe, Hdead by assumption. reflexivity.
Qed.

Lemma cut_hop_samples_are_zero_witness :
  exists d out,
    decoder.NewSQDecoderWithParams (libm := standin.libm) (fft := standin.fft) 4 4
      = Returned d /\
    decoder.Process (fft := standin.fft) d [[1; 2; 3; 4]; [5; 6; 7; 8]]%float
      = Returned (Some out, None) /\
    index2 out 3 2 = Returned 0%float.
Proof.
  destruct (NewSQDecoderWithParams_returns (libm := standin.libm) (fft := standin.fft) 4 4)
    as (d & Hd); [lia|discriminate|].
  destruct (cut_hop_samples_are_zero (libm := standin.libm) (fft := standin.fft) 4 4
              ltac:(lia)) as [Hdec _].
  destruct (Hdec d [1; 2; 3; 4]%float [5; 6; 7; 8]%float 2 3 Hd)
    as (out & Hrun & Hzero);
    [reflexivity|unfold len; simpl; lia|lia|vm_compute; discriminate|].
  exists d, out. split; [exact Hd|]. split; [exact Hrun|exact Hzero].
Defined.

(** X13.  With [overlap + overlap/2 <= blockSize] the front channels are the
    input moved forward by [overlap/4] samples: [LF[p] = LT[p + overlap/4]]
    and [RF[p] = RT[p + overlap/4]] while [p + overlap/4] is below the
    length [N], and the last [overlap/4] samples of [LF] and [RF] are
    zero. *)
Theorem front_channels_advance {libm : Libm} {Plan : Type} {fft : AlgoFFT Plan}
    {total : AlgoFFT_total fft} (B V : Z) (d : decoder.SQDecoder Plan)
    (in0 in1 : list float) :
  decoder.NewSQDecoderWithParams B V = Returned d ->
  0 < V -> V + V `quot` 2 <= B -> len in1 = len in0 ->
  exists out,
    decoder.Process d [in0; in1] = Returned (Some out, None) /\
    (forall p, 0 <= p -> p + V `quot` 4 < len in0 ->
       index2 out 0 p = index in0 (p + V `quot` 4) /\
       index2 out 1 p = index in1 (p + V `quot` 4)) /\
    (forall p, 0 <= p < len in0 -> len in0 <= p + V `quot` 4 ->
       index2 out 0 p = Returned 0%float /\ index2 out 1 p = Returned 0%float).
Proof.
  intros Hnew HV HB H1.
  apply NewSQDecoderWithParams_ok in Hnew as (Hok & HBd & HVd).
  destruct (Process_decoder d in0 in1 (len in0) Hok) as (out & Hrun & _);
    [lia|reflexivity|assumption|].
  exists out. split; [exact Hrun|].
  pose proof (quot4_le_quot2 V ltac:(lia)) as Hq.
  split.
  - intros p Hp Hin.
    destruct (decoder_front d in0 in1 out p Hok) as [HL HR];
      [lia|assumption|lia|rewrite HVd, HBd; lia|exact Hrun|].
    rewrite HVd in HL, HR. rewrite HL, HR.
    rewrite (index_len 0%float in0), (index_len 0%float in1) by lia.
    split; reflexivity.
  - intros p Hp Hpast.
    destruct (decoder_front d in0 in1 out p Hok) as [HL HR];
      [lia|assumption|lia|rewrite HVd, HBd; lia|exact Hrun|].
    rewrite HVd in HL, HR. rewrite HL, HR.
    rewrite !lookup_past by lia. split; reflexivity.
Qed.

Lemma front_channels_advance_witness :
  exists d out,
    decoder.NewSQDecoderWithParams (libm := standin.libm) (fft := standin.fft) 8 4
      = Returned d /\
    decoder.Process (fft := standin.fft) d [[1; 2; 3; 4; 5]; [5; 6; 7; 8; 9]]%float
      = Returned (Some out, None) /\
    index2 out 0 2 = Returned 4%float /\ index2 out 1 4 = Returned 0%float.
Proof.
  destruct (NewSQDecoderWithParams_returns (libm := standin.libm) (fft := standin.fft) 8 4)
    as (d & Hd); [lia|discriminate|].
  destruct (front_channels_advance (libm := standin.libm) (fft := standin.fft) 8 4 d
              [1; 2; 3; 4; 5]%float [5; 6; 7; 8; 9]%float Hd)
    as (out & Hrun & Hin & Hpast); [lia|vm_compute; discriminate|reflexivity|].
  exists d, out. split; [exact Hd|]. split; [exact Hrun|]. split.
  - destruct (Hin 2) as [HL _]; [lia|vm_compute; reflexivity|]. exact HL.
  - destruct (Hpast 4) as [_ HR]; [unfold len; simpl; lia|vm_compute; discriminate|].
    exact HR.
Defined.

(** X14.  [Process] works block by block: output sample [p] belongs to hop
    [p / overlap] and depends only on the input samples of that hop's
    block, [[hop*overlap, hop*overlap + blockSize)].  Two well-formed
    inputs of the same length that agree there give the same output at
    [p] in every channel. *)
Theorem Process_is_block_local {libm : Libm} {Plan : Type} {fft : AlgoFFT Plan}
    {total : AlgoFFT_total fft} (B V : Z) :
  0 < V ->
  (forall d in0 in1 in0' in1' p,
     decoder.NewSQDecoderWithParams B V = Returned d ->
     len in1 = len in0 -> len in0' = len in0 -> len in1' = len in0 ->
     0 <= p < len in0 ->
     (forall k, p / V * V <= k < p / V * V + B ->
        in0 !! Z.to_nat k = in0' !! Z.to_nat k /\
        in1 !! Z.to_nat k = in1' !! Z.to_nat k) ->
     exists out out',
       decoder.Process d [in0; in1] = Returned (Some out, None) /\
       decoder.Process d [in0'; in1'] = Returned (Some out', None) /\
       forall c, 0 <= c < 4 -> index2 out c p = index2 out' c p) /\
  (forall e in0 in1 in2 in3 in0' in1' in2' in3' p,
     encoder.NewSQEncoderWithParams B V = Returned e ->
     len in1 = len in0 -> len in2 = len in0 -> len in3 = len in0 ->
     len in0' = len in0 -> len in1' = len in0 ->
     len in2' = len in0 -> len in3' = len in0 ->
     0 <= p < len in0 ->
     (forall k, p / V * V <= k < p / V * V + B ->
        in0 !! Z.to_nat k = in0' !! Z.to_nat k /\
        in1 !! Z.to_nat k = in1' !! Z.to_nat k /\
        in2 !! Z.to_nat k = in2' !! Z.to_nat k /\
        in3 !! Z.to_nat k = in3' !! Z.to_nat k) ->
     exists out out',
       encoder.Process e [in0; in1; in2; in3] = Returned (Some out, None) /\
       encoder.Process e [in0'; in1'; in2'; in3'] = Returned (Some out', None) /\
       forall c, 0 <= c < 2 -> index2 out c p = index2 out' c p).
Proof.
  intros HV. split.
  - intros d in0 in1 in0' in1' p Hnew H1 H0' H1' Hp Hagree.
    apply NewSQDecoderWithParams_ok in Hnew as (Hok & HBd & HVd).
    destruct (Process_decoder d in0 in1 (len in0) Hok) as (out & Hrun & Hout);
      [lia|reflexivity|assumption|].
    destruct (Process_decoder d in0' in1' (len in0) Hok) as (out' & Hrun' & Hout');
      [lia|assumption|assumption|].
    exists out, out'. split; [exact Hrun|]. split; [exact Hrun'|].
    intros c Hc.
    rewrite (holds_index2 out 4 (len in0) _ c p Hout Hc Hp).
    rewrite (holds_index2 out' 4 (len in0) _ c p Hout' Hc Hp).
    unfold decoded. cbv zeta. rewrite HBd, HVd.
    rewrite (paddedBlock_ext in0 in0' B (p / V * V)) by (intros k Hk; apply Hagree, Hk).
    rewrite (paddedBlock_ext in1 in1' B (p / V * V)) by (intros k Hk; apply Hagree, Hk).
    reflexivity.
  - intros e in0 in1 in2 in3 in0' in1' in2' in3' p Hnew H1 H2 H3 H0' H1' H2' H3' Hp Hagree.
    apply NewSQEncoderWithParams_ok in Hnew as (Hok & HBe & HVe).
    destruct (Process_encoder e in0 in1 in2 in3 (len in0) Hok) as (out & Hrun & Hout);
      [lia|reflexivity|assumption|assumption|assumption|].
    destruct (Process_encoder e in0' in1' in2' in3' (len in0) Hok)
      as (out' & Hrun' & Hout');
      [lia|assumption|assumption|assumption|assumption|].
    exists out, out'. split; [exact Hrun|]. split; [exact Hrun'|].
    intros c Hc.
    rewrite (holds_index2 out 2 (len in0) _ c p Hout Hc Hp).
    rewrite (holds_index2 out' 2 (len in0) _ c p Hout' Hc Hp).
    unfold encoded, paddedBlocks. cbv zeta. rewrite HBe, HVe.
    rewrite (paddedBlock_ext in0 in0' B (p / V * V)) by (intros k Hk; apply Hagree, Hk).
    rewrite (paddedBlock_ext in1 in1' B (p / V * V)) by (intros k Hk; apply Hagree, Hk).
    rewrite (paddedBlock_ext in2 in2' B (p / V * V)) by (intros k Hk; apply Hagree, Hk).
    rewrite (paddedBlock_ext in3 in3' B (p / V * V)) by (intros k Hk; apply Hagree, Hk).
    reflexivity.
Qed.

Lemma Process_is_block_local_witness :
  exists d out out',
    decoder.NewSQDecoderWithParams (libm := standin.libm) (fft := standin.fft) 8 4
      = Returned d /\
    decoder.Process (fft := standin.fft) d
      [[1; 2; 3; 4; 5; 6; 7; 8; 9; 10]; [3; 1; 4; 1; 5; 9; 2; 6; 5; 3]]%float
      = Returned (Some out, None) /\
    decoder.Process (fft := standin.fft) d
      [[1; 2; 3; 4; 5; 6; 7; 8; 0; 0]; [3; 1; 4; 1; 5; 9; 2; 6; 0; 7]]%float
      = Returned (Some out', None) /\
    forall c, 0 <= c < 4 -> index2 out c 1 = index2 out' c 1.
Proof.
  destruct (NewSQDecoderWithParams_returns (libm := standin.libm) (fft := standin.fft) 8 4)
    as (d & Hd); [lia|discriminate|].
  destruct (Process_is_block_local (libm := standin.libm) (fft := standin.fft) 8 4
              ltac:(lia)) as [Hdec _].
  destruct (Hdec d [1; 2; 3; 4; 5; 6; 7; 8; 9; 10]%float
                   [3; 1; 4; 1; 5; 9; 2; 6; 5; 3]%float
                   [1; 2; 3; 4; 5; 6; 7; 8; 0; 0]%float
                   [3; 1; 4; 1; 5; 9; 2; 6; 0; 7]%float 1 Hd)
    as (out & out' & H); [reflexivity|reflexivity|reflexivity|unfold len; simpl; lia| |].
  - intros k Hk. change (1 / 4 * 4) with 0 in Hk.
    destruct (Z.to_nat k) as [|[|[|[|[|[|[|[|n]]]]]]]] eqn:E;
      try (split; reflexivity); lia.
  - exists d, out, out'. split; [exact Hd|exact H].
Defined.

(** ** Silence before and after the input *)

Lemma lookup_silence_after (ch : list float) (K : nat) (j : nat) :
  default 0%float ((ch ++ replicate K 0%float) !! j) = default 0%float (ch !! j).
Proof.
  destruct (decide (j < length ch)%nat) as [Hlt|Hge].
  - now rewrite lookup_app_l by assumption.
  - rewrite lookup_app_r by lia.
    rewrite (proj2 (lookup_ge_None ch j)) by lia. cbn.
    destruct (replicate K 0%float !! (j - length ch)%nat) as [x|] eqn:Hx;
      [|reflexivity].
    apply lookup_replicate in Hx as [-> _]. reflexivity.
Qed.

Lemma lookup_silence_before (ch : list float) (K : nat) (j : nat) :
  (replicate K 0%float ++ ch) !! (K + j)%nat = ch !! j.
Proof.
  rewrite lookup_app_r by (rewrite length_replicate; lia).
  rewrite length_replicate. f_equal. lia.
Qed.

Lemma paddedBlock_silence_after (ch : list float) (K : nat) (B start : Z) :
  paddedBlock (ch ++ replicate K 0%float) B start = paddedBlock ch B start.
Proof.
  unfold paddedBlock. apply map_ext. intros i. apply lookup_silence_after.
Qed.

Lemma paddedBlock_silence_before (ch : list float) (K B start : Z) :
  0 <= K -> 0 <= start ->
  paddedBlock (replicate (Z.to_nat K) 0%float ++ ch) B (start + K)
  = paddedBlock ch B start.
Proof.
  intros HK Hstart. unfold paddedBlock. apply map_ext_in. intros i Hi.
  apply list_elem_of_In, elem_of_seqZ in Hi.
  replace (Z.to_nat (start + K + i)) with (Z.to_nat K + Z.to_nat (start + i))%nat
    by lia.
  now rewrite lookup_silence_before.
Qed.

(** X15.  Silence after the input changes nothing before it: with [K] zero
    samples appended to every channel, [Process] returns the same value
    at every position [p] of the original length.  (The blocks are
    zero-padded past the end of the input.) *)
Theorem Process_ignores_trailing_silence {libm : Libm} {Plan : Type}
    {fft : AlgoFFT Plan} {total : AlgoFFT_total fft} (B V : Z) (K : nat) :
  0 < V ->
  let silence := replicate K 0%float in
  (forall d in0 in1 p c,
     decoder.NewSQDecoderWithParams B V = Returned d ->
     len in1 = len in0 -> 0 <= p < len in0 -> 0 <= c < 4 ->
     exists out out',
       decoder.Process d [in0; in1] = Returned (Some out, None) /\
       decoder.Process d [in0 ++ silence; in1 ++ silence] = Returned (Some out', None) /\
       index2 out' c p = index2 out c p) /\
  (forall e in0 in1 in2 in3 p c,
     encoder.NewSQEncoderWithParams B V = Returned e ->
     len in1 = len in0 -> len in2 = len in0 -> len in3 = len in0 ->
     0 <= p < len in0 -> 0 <= c < 2 ->
     exists out out',
       encoder.Process e [in0; in1; in2; in3] = Returned (Some out, None) /\
       encoder.Process e [in0 ++ silence; in1 ++ silence; in2 ++ silence; in3 ++ silence]
         = Returned (Some out', None) /\
       index2 out' c p = index2 out c p).
Proof.
  intros HV silence.
  assert (forall ch : list float, len (ch ++ silence) = len ch + Z.of_nat K) as Hlen.
  { intros ch. rewrite len_app. unfold silence, len. rewrite length_replicate. lia. }
  assert (forall N start i, start + i < N ->
            live B V (N + Z.of_nat K) start i = live B V N start i) as Hlive.
  { intros N start i Hin. unfold live.
    destruct (Z.ltb_spec (start + i) (N + Z.of_nat K));
      destruct (Z.ltb_spec (start + i) N); try lia; reflexivity. }
  split.
  - intros d in0 in1 p c Hnew H1 Hp Hc.
    apply NewSQDecoderWithParams_ok in Hnew as (Hok & HBd & HVd).
    destruct (Process_decoder d in0 in1 (len in0) Hok) as (out & Hrun & Hout);
      [lia|reflexivity|assumption|].
    destruct (Process_decoder d (in0 ++ silence) (in1 ++ silence)
                (len in0 + Z.of_nat K) Hok) as (out' & Hrun' & Hout');
      [lia|apply Hlen|rewrite Hlen; lia|].
    exists out, out'. split; [exact Hrun|]. split; [exact Hrun'|].
    rewrite (holds_index2 out 4 (len in0) _ c p Hout Hc Hp).
    rewrite (holds_index2 out' 4 _ _ c p Hout' Hc) by lia.
    rewrite HBd, HVd, Hlive by (rewrite sample_split by assumption; lia).
    unfold decoded. cbv zeta. unfold silence.
    rewrite !paddedBlock_silence_after. reflexivity.
  - intros e in0 in1 in2 in3 p c Hnew H1 H2 H3 Hp Hc.
    apply NewSQEncoderWithParams_ok in Hnew as (Hok & HBe & HVe).
    destruct (Process_encoder e in0 in1 in2 in3 (len in0) Hok) as (out & Hrun & Hout);
      [lia|reflexivity|assumption|assumption|assumption|].
    destruct (Process_encoder e (in0 ++ silence) (in1 ++ silence) (in2 ++ silence)
                (in3 ++ silence) (len in0 + Z.of_nat K) Hok) as (out' & Hrun' & Hout');
      [lia|apply Hlen|rewrite Hlen; lia|rewrite Hlen; lia|rewrite Hlen; lia|].
    exists out, out'. split; [exact Hrun|]. split; [exact Hrun'|].
    rewrite (holds_index2 out 2 (len in0) _ c p Hout Hc Hp).
    rewrite (holds_index2 out' 2 _ _ c p Hout' Hc) by lia.
    rewrite HBe, HVe, Hlive by (rewrite sample_split by assumption; lia).
    unfold encoded, paddedBlocks. cbv zeta. unfold silence.
    rewrite !paddedBlock_silence_after. reflexivity.
Qed.

Lemma Process_ignores_trailing_silence_witness :
  exists d out out',
    decoder.NewSQDecoderWithParams (libm := standin.libm) (fft := standin.fft) 8 4
      = Returned d /\
    decoder.Process (fft := standin.fft) d [[1; 2; 3; 4; 5]; [5; 6; 7; 8; 9]]%float
      = Returned (Some out, None) /\
    decoder.Process (fft := standin.fft) d
      [[1; 2; 3; 4; 5; 0; 0; 0]; [5; 6; 7; 8; 9; 0; 0; 0]]%float
      = Returned (Some out', None) /\
    index2 out' 2 4 = index2 out 2 4.
Proof.
  destruct (NewSQDecoderWithParams_returns (libm := standin.libm) (fft := standin.fft) 8 4)
    as (d & Hd); [lia|discriminate|].
  destruct (Process_ignores_trailing_silence (libm := standin.libm) (fft := standin.fft)
              8 4 3 ltac:(lia)) as [Hdec _].
  destruct (Hdec d [1; 2; 3; 4; 5]%float [5; 6; 7; 8; 9]%float 4 2 Hd)
    as (out & out' & H); [reflexivity|unfold len; simpl; lia|lia|].
  exists d, out, out'. split; [exact Hd|exact H].
Defined.

(** X16.  [Process] commutes with a delay by whole hops: with [k] hops of
    silence ([k * overlap] zero samples) put before every channel, the
    value at position [p + k * overlap] is the value that the original
    input gives at [p]. *)
Theorem Process_commutes_with_hop_delay {libm : Libm} {Plan : Type}
    {fft : AlgoFFT Plan} {total : AlgoFFT_total fft} (B V k : Z) :
  0 < V -> 0 <= k ->
  let silence := replicate (Z.to_nat (k * V)) 0%float in
  (forall d in0 in1 p c,
     decoder.NewSQDecoderWithParams B V = Returned d ->
     len in1 = len in0 -> 0 <= p < len in0 -> 0 <= c < 4 ->
     exists out out',
       decoder.Process d [in0; in1] = Returned (Some out, None) /\
       decoder.Process d [silence ++ in0; silence ++ in1] = Returned (Some out', None) /\
       index2 out' c (p + k * V) = index2 out c p) /\
  (forall e in0 in1 in2 in3 p c,
     encoder.NewSQEncoderWithParams B V = Returned e ->
     len in1 = len in0 -> len in2 = len in0 -> len in3 = len in0 ->
     0 <= p < len in0 -> 0 <= c < 2 ->
     exists out out',
       encoder.Process e [in0; in1; in2; in3] = Returned (Some out, None) /\
       encoder.Process e [silence ++ in0; silence ++ in1; silence ++ in2; silence ++ in3]
         = Returned (Some out', None) /\
       index2 out' c (p + k * V) = index2 out c p).
Proof.
  intros HV Hk silence.
  assert (0 <= k * V) as HkV by (apply Z.mul_nonneg_nonneg; lia).
  assert (forall ch : list float, len (silence ++ ch) = len ch + k * V) as Hlen.
  { intros ch. rewrite len_app. unfold silence, len. rewrite length_replicate. lia. }
  assert (forall p, (p + k * V) / V = p / V + k) as Hdiv
      by (intros p; apply Z.div_add; lia).
  assert (forall p, (p + k * V) mod V = p mod V) as Hmod
      by (intros p; apply Z.mod_add; lia).
  assert (forall N start i,
            live B V (N + k * V) (start + k * V) i = live B V N start i) as Hlive.
  { intros N start i. unfold live.
    destruct (Z.ltb_spec (start + k * V + i) (N + k * V));
      destruct (Z.ltb_spec (start + i) N); try lia; reflexivity. }
  assert (forall p, 0 <= p -> 0 <= p / V * V) as Hstart.
  { intros p Hp. apply Z.mul_nonneg_nonneg; [apply Z.div_pos|]; lia. }
  split.
  - intros d in0 in1 p c Hnew H1 Hp Hc.
    apply NewSQDecoderWithParams_ok in Hnew as (Hok & HBd & HVd).
    destruct (Process_decoder d in0 in1 (len in0) Hok) as (out & Hrun & Hout);
      [lia|reflexivity|assumption|].
    destruct (Process_decoder d (silence ++ in0) (silence ++ in1)
                (len in0 + k * V) Hok) as (out' & Hrun' & Hout');
      [lia|apply Hlen|rewrite Hlen; lia|].
    exists out, out'. split; [exact Hrun|]. split; [exact Hrun'|].
    rewrite (holds_index2 out 4 (len in0) _ c p Hout Hc Hp).
    rewrite (holds_index2 out' 4 _ _ c (p + k * V) Hout' Hc) by lia.
    rewrite HBd, HVd, Hdiv, Hmod.
    replace ((p / V + k) * V) with (p / V * V + k * V) by ring.
    rewrite Hlive. unfold decoded. cbv zeta. rewrite HBd, HVd.
    replace ((p / V + k) * V) with (p / V * V + k * V) by ring.
    unfold silence.
    rewrite !paddedBlock_silence_before by (try apply Hstart; lia).
    reflexivity.
  - intros e in0 in1 in2 in3 p c Hnew H1 H2 H3 Hp Hc.
    apply NewSQEncoderWithParams_ok in Hnew as (Hok & HBe & HVe).
    destruct (Process_encoder e in0 in1 in2 in3 (len in0) Hok) as (out & Hrun & Hout);
      [lia|reflexivity|assumption|assumption|assumption|].
    destruct (Process_encoder e (silence ++ in0) (silence ++ in1) (silence ++ in2)
                (silence ++ in3) (len in0 + k * V) Hok) as (out' & Hrun' & Hout');
      [lia|apply Hlen|rewrite Hlen; lia|rewrite Hlen; lia|rewrite Hlen; lia|].
    exists out, out'. split; [exact Hrun|]. split; [exact Hrun'|].
    rewrite (holds_index2 out 2 (len in0) _ c p Hout Hc Hp).
    rewrite (holds_index2 out' 2 _ _ c (p + k * V) Hout' Hc) by lia.
    rewrite HBe, HVe, Hdiv, Hmod.
    replace ((p / V + k) * V) with (p / V * V + k * V) by ring.
    rewrite Hlive. unfold encoded, paddedBlocks. cbv zeta. rewrite HBe, HVe.
    replace ((p / V + k) * V) with (p / V * V + k * V) by ring.
    unfold silence.
    rewrite !paddedBlock_silence_before by (try apply Hstart; lia).
    reflexivity.
Qed.

Lemma Process_commutes_with_hop_delay_witness :
  exists d out out',
    decoder.NewSQDecoderWithParams (libm := standin.libm) (fft := standin.fft) 8 4
      = Returned d /\
    decoder.Process (fft := standin.fft) d [[1; 2; 3; 4; 5]; [5; 6; 7; 8; 9]]%float
      = Returned (Some out, None) /\
    decoder.Process (fft := standin.fft) d
      [[0; 0; 0; 0; 1; 2; 3; 4; 5]; [0; 0; 0; 0; 5; 6; 7; 8; 9]]%float
      = Returned (Some out', None) /\
    index2 out' 3 (1 + 1 * 4) = index2 out 3 1.
Proof.
  destruct (NewSQDecoderWithParams_returns (libm := standin.libm) (fft := standin.fft) 8 4)
    as (d & Hd); [lia|discriminate|].
  destruct (Process_commutes_with_hop_delay (libm := standin.libm) (fft := standin.fft)
              8 4 1 ltac:(lia) ltac:(lia)) as [Hdec _].
  destruct (Hdec d [1; 2; 3; 4; 5]%float [5; 6; 7; 8; 9]%float 1 3 Hd)
    as (out & out' & H); [reflexivity|unfold len; simpl; lia|lia|].
  exists d, out, out'. split; [exact Hd|exact H].
Defined.

(** ** Logic steering in binary64 *)

Lemma findMax_index {F : Type} {arith : Arith F} (d : logic.SQDecoder F) :
  0 <= snd (logic.findMax d) < 4 /\
  logic.get4 (logic.logicEnv d) (snd (logic.findMax d)) = fst (logic.findMax d).
Proof.
  unfold logic.findMax. rewrite loop_1_4.
  destruct (logic.logicEnv d) as [e0 e1 e2 e3].
  cbv [logic.get4 Z.eqb Pos.eqb logic.at0 logic.at1 logic.at2 logic.at3].
  cbn [fst snd].
  repeat match goal with
         | |- context [if ?c then _ else _] => destruct c; cbn [fst snd]
         end; (split; [lia|reflexivity]).
Qed.



(** X18.  In binary64, for a state and samples in the ranges of
    [bounded_state] and [bounded_sample], every updated envelope is a
    finite number that is not negative: the followers never drive an
    envelope below zero, which is what keeps the dominance denominator
    away from zero. *)
Theorem envelopes_stay_nonnegative (d : logic.SQDecoder float) (lf rf lb rb : float) :
  bounded_state d = true ->
  bounded_sample lf = true -> bounded_sample rf = true ->
  bounded_sample lb = true -> bounded_sample rb = true ->
  let env := logic.logicEnv (fst (logic.applyLogicSteering d lf rf lb rb)) in
  forall i, 0 <= i < 4 ->
    PrimFloat.leb 0 (logic.get4 env i) = true /\ is_finite (logic.get4 env i) = true.
Proof.
  intros Hd Hlf Hrf Hlb Hrb. cbv zeta.
  rewrite applyLogicSteering_cases. cbv zeta.
  pose proof (followed_bounds d lf rf lb rb Hd Hlf Hrf Hlb Hrb) as (E0 & E1 & E2 & E3).
  cbv zeta in E0, E1, E2, E3.
  set (d' := followed d lf rf lb rb) in *.
  assert (forall b (x y : float * float * float * float),
            fst (if b : bool then (d', x) else (d', y)) = d') as ->
      by (intros []; reflexivity).
  intros i Hi.
  assert (i = 0 \/ i = 1 \/ i = 2 \/ i = 3) as [->|[->|[->| ->]]] by lia;
    cbv [logic.get4 Z.eqb Pos.eqb];
    (split; [eapply Binary64.nonneg_leb; eassumption
            |eapply finite_is_finite, Binary64.nonneg_finite; eassumption]).
Qed.

Lemma envelopes_stay_nonnegative_witness :
  let d := steering_state (logic.Array4 0.25 0 0 1e-3)%float in
  let env := logic.logicEnv (fst (logic.applyLogicSteering d 0.5 (-0.1) 0 0.1)%float) in
  PrimFloat.leb 0 (logic.at3 env) = true /\ is_finite (logic.at3 env) = true.
Proof.
  intros d env.
  apply (envelopes_stay_nonnegative d 0.5 (-0.1) 0 0.1 eq_refl eq_refl eq_refl eq_refl
           eq_refl 3).
  vm_compute. split; [discriminate|reflexivity].
Defined.

Section SteeringOrder.
Import Binary64.

(** The dominance denominator is at least each envelope. *)
Lemma envSum_ge (env : logic.array4 float) :
  nonneg_below 1001 (logic.at0 env) -> nonneg_below 1001 (logic.at1 env) ->
  nonneg_below 1001 (logic.at2 env) -> nonneg_below 1001 (logic.at3 env) ->
  let sum := (logic.at0 env + logic.at1 env + logic.at2 env + logic.at3 env
              + 1e-12)%float in
  PrimFloat.leb (logic.at0 env) sum = true /\ PrimFloat.leb (logic.at1 env) sum = true /\
  PrimFloat.leb (logic.at2 env) sum = true /\ PrimFloat.leb (logic.at3 env) sum = true.
Proof.
  intros H0 H1 H2 H3 sum. subst sum.
  assert (nonneg_below 1003 (logic.at0 env + logic.at1 env)%float) as S1
      by (apply (add_nonneg 1001 1001); [assumption..|lia|lia|lia]).
  assert (nonneg_below 1005 (logic.at0 env + logic.at1 env + logic.at2 env)%float) as S2
      by (apply (add_nonneg 1003 1001); [assumption..|lia|lia|lia]).
  assert (nonneg_below 1007
            (logic.at0 env + logic.at1 env + logic.at2 env + logic.at3 env)%float) as S3
      by (apply (add_nonneg 1005 1001); [assumption..|lia|lia|lia]).
  destruct (add_ge 1001 1001 _ _ H0 H1 ltac:(lia)) as [A0 A1].
  destruct (add_ge 1003 1001 _ _ S1 H2 ltac:(lia)) as [B0 B1].
  destruct (add_ge 1005 1001 _ _ S2 H3 ltac:(lia)) as [C0 C1].
  destruct (add_ge 1007 (-39) _ _ S3 (pos_nonneg _ _ epsilon_pos) ltac:(lia)) as [D0 _].
  repeat split; eauto using leb_trans.
Qed.

Lemma maxEnv_le (env : logic.array4 float) (s : float) :
  PrimFloat.leb (logic.at0 env) s = true -> PrimFloat.leb (logic.at1 env) s = true ->
  PrimFloat.leb (logic.at2 env) s = true -> PrimFloat.leb (logic.at3 env) s = true ->
  PrimFloat.leb (maxEnv env) s = true.
Proof.
  intros H0 H1 H2 H3. unfold maxEnv. cbn [ltb float64_arith].
  repeat match goal with
         | |- context [if ?c then _ else _] => destruct c
         end; assumption.
Qed.

Lemma dominance_unit (env : logic.array4 float) :
  nonneg_below 1001 (logic.at0 env) -> nonneg_below 1001 (logic.at1 env) ->
  nonneg_below 1001 (logic.at2 env) -> nonneg_below 1001 (logic.at3 env) ->
  in_range 0 1 (dominanceRatio env) = true.
Proof.
  intros H0 H1 H2 H3. unfold dominanceRatio, in_range.
  cbn [add div logicEpsilon float64_arith].
  destruct (envSum_ge env H0 H1 H2 H3) as (L0 & L1 & L2 & L3). cbv zeta in L0, L1, L2, L3.
  destruct (div_unit 1001 1009 (maxEnv env)
              (logic.at0 env + logic.at1 env + logic.at2 env + logic.at3 env + 1e-12)%float)
    as [D0 D1].
  - apply maxEnv_bounds; assumption.
  - apply envSum_pos; assumption.
  - apply maxEnv_le; assumption.
  - rewrite D0, D1. reflexivity.
Qed.

(** The clamped intensity lies in [[0, 1]]. *)
Lemma clampIntensity_range (x : float) :
  is_number x -> in_range 0 1 (logic.clampIntensity x) = true.
Proof.
  intros Hx. unfold logic.clampIntensity. cbn [ltb zero one float64_arith].
  destruct (PrimFloat.ltb x 0) eqn:H0; [reflexivity|].
  destruct (PrimFloat.ltb 1 x) eqn:H1; [reflexivity|].
  unfold in_range.
  apply ltb_false_key in H0; [|exact Hx|exact I].
  apply ltb_false_key in H1; [|exact I|exact Hx].
  apply andb_true_intro. split; apply leb_key; repeat split; try exact Hx; assumption.
Qed.

(** The gains of a configuration with [0 <= MinGain <= 1 <= MaxBoost]:
    the cut lies in [[0, 1]] and the boost is at least 1. *)
Lemma gains_ordered (d : logic.SQDecoder float) (dominance : float) (maxIdx : Z) :
  bounded_config (logic.logicConfig d) = true ->
  in_range 0 1 (logic.MinGain (logic.logicConfig d)) = true ->
  PrimFloat.leb 1 (logic.MaxBoost (logic.logicConfig d)) = true ->
  is_number dominance -> 0 <= maxIdx < 4 ->
  let g := gainsOf d dominance maxIdx in
  PrimFloat.leb 1 (logic.get4 g maxIdx) = true /\
  forall j, 0 <= j < 4 ->
    PrimFloat.leb 0 (logic.get4 g j) = true /\
    PrimFloat.leb (logic.get4 g j) (logic.get4 g maxIdx) = true.
Proof.
  unfold bounded_config, in_range. rewrite !andb_true_iff.
  intros (((Hlo & Hhi) & Hboost') & Hgain') [Hg0 Hg1] Hb1 Hdom Hidx.
  pose proof (threshold_finite _ Hlo Hhi) as Ht.
  pose proof (setting_finite _ Hboost') as Hmax.
  unfold gainsOf. cbv zeta. cbn [add sub mul div one float64_arith].
  set (threshold := logic.DominanceThreshold (logic.logicConfig d)) in *.
  assert (in_range 0 1
            (logic.clampIntensity ((dominance - threshold) / (1 - threshold))%float) = true)
    as Hi.
  { apply clampIntensity_range. apply (div_number 92).
    - eapply sub_number; eassumption.
    - apply (sub_pos 90 1); [exact Ht|exact one_pos|assumption|lia..]. }
  set (intensity := logic.clampIntensity _) in *.
  unfold in_range in Hi. apply andb_prop in Hi. destruct Hi as [Hi0 Hi1].
  destruct (unit_spec _ Hi0 Hi1) as [Ni _].
  (* the cut *)
  destruct (sub_unit _ Hg0 Hg1) as [U0 U1].
  destruct (mul_unit _ _ U0 U1 Hi0 Hi1) as [P0 P1].
  destruct (sub_unit _ P0 P1) as [C0 C1].
  (* the boost *)
  pose proof (pos_nonneg _ _ one_pos) as None.
  assert (nonneg_below 92 (logic.MaxBoost (logic.logicConfig d) - 1)%float) as Hw
      by (apply (sub_nonneg 1 90);
          [apply nonneg_finite; exact None|apply ge_one_pos; assumption|exact Hb1|lia..]).
  assert (nonneg_below 94 ((logic.MaxBoost (logic.logicConfig d) - 1) * intensity)%float)
    as Hq by (apply (mul_nonneg 92 1); [exact Hw|exact Ni|lia..]).
  destruct (add_ge 1 94 _ _ None Hq ltac:(lia)) as [B1 _].
  set (cut := (1 - (1 - logic.MinGain (logic.logicConfig d)) * intensity)%float) in *.
  set (boost := (1 + (logic.MaxBoost (logic.logicConfig d) - 1) * intensity)%float) in *.
  assert (PrimFloat.leb cut boost = true) as Hcb by (eapply leb_trans; eassumption).
  assert (PrimFloat.leb 0 boost = true) as Hb0
      by (eapply leb_trans; [|exact B1]; reflexivity).
  assert (PrimFloat.leb boost boost = true) as Hbb.
  { apply leb_key in B1. destruct B1 as (_ & N & _). apply leb_key.
    split; [exact N|]. split; [exact N|]. lia. }
  assert (maxIdx = 0 \/ maxIdx = 1 \/ maxIdx = 2 \/ maxIdx = 3) as [->|[->|[->| ->]]] by lia;
    cbv [logic.set4 logic.get4 Z.eqb Pos.eqb logic.at0 logic.at1 logic.at2 logic.at3];
    (split; [exact B1|]); intros j Hj;
    assert (j = 0 \/ j = 1 \/ j = 2 \/ j = 3) as [->|[->|[->| ->]]] by lia;
    cbv [Z.eqb Pos.eqb]; split; assumption.
Qed.

End SteeringOrder.

(** X19.  In binary64, for a state and samples in the ranges of
    [bounded_state] and [bounded_sample], the dominance ratio over the
    updated envelopes lies in [[0, 1]] (the value 1 is reached); so a
    threshold of 1 or more switches steering off, every sample is
    returned unchanged. *)
Theorem dominance_is_at_most_one (d : logic.SQDecoder float) (lf rf lb rb : float) :
  bounded_state d = true ->
  bounded_sample lf = true -> bounded_sample rf = true ->
  bounded_sample lb = true -> bounded_sample rb = true ->
  let run := logic.applyLogicSteering d lf rf lb rb in
  let dominance := dominanceRatio (logic.logicEnv (fst run)) in
  PrimFloat.leb 0 dominance = true /\ PrimFloat.leb dominance 1 = true /\
  (PrimFloat.leb 1 (logic.DominanceThreshold (logic.logicConfig d)) = true ->
   snd run = (lf, rf, lb, rb)).
Proof.
  intros Hd Hlf Hrf Hlb Hrb. cbv zeta.
  rewrite applyLogicSteering_cases. cbv zeta.
  pose proof (followed_bounds d lf rf lb rb Hd Hlf Hrf Hlb Hrb) as (E0 & E1 & E2 & E3).
  cbv zeta in E0, E1, E2, E3.
  set (d' := followed d lf rf lb rb) in *.
  assert (forall b (x y : float * float * float * float),
            fst (if b : bool then (d', x) else (d', y)) = d') as ->
      by (intros []; reflexivity).
  pose proof (dominance_unit _ E0 E1 E2 E3) as Hu.
  unfold in_range in Hu. apply andb_prop in Hu. destruct Hu as [H0 H1].
  split; [exact H0|]. split; [exact H1|].
  intros Ht. cbn [leb float64_arith].
  rewrite (Binary64.leb_trans _ _ _ H1 Ht). reflexivity.
Qed.

Lemma dominance_is_at_most_one_witness :
  let d := {| logic.logicEnv := logic.Array4 0 0 0 0;
              logic.attackCoeff := 0.5;
              logic.releaseCoeff := 0.75;
              logic.logicConfig :=
                {| logic.Enabled := true;
                   logic.AttackTime := 0.01;
                   logic.ReleaseTime := 0.2;
                   logic.DominanceThreshold := 1;
                   logic.MaxBoost := 1.6;
                   logic.MinGain := 0.4 |} |}%float in
  snd (logic.applyLogicSteering d 1e5 0 0 0)%float = (1e5, 0, 0, 0)%float /\
  dominanceRatio (logic.logicEnv (fst (logic.applyLogicSteering d 1e5 0 0 0)%float))
  = 1%float.
Proof.
  intros d.
  destruct (dominance_is_at_most_one d 1e5 0 0 0)%float as (_ & _ & H);
    try reflexivity.
  split; [apply H; reflexivity|vm_compute; reflexivity].
Defined.

(** X20.  In binary64, in the ranges of [bounded_state], [bounded_sample] and
    [bounded_config] and with [0 <= MinGain <= 1 <= MaxBoost]: every
    gain is at least 0, the gain of the channel with the largest
    envelope is at least 1 and no other gain exceeds it, and each result
    is its input times its gain, times the renormalization scale where
    that is applied, which is not negative either.  So steering never
    inverts a sample.  (A gain of exactly 0 is possible, see
    [steering_can_silence].) *)
Theorem steering_gains_are_ordered (d : logic.SQDecoder float) (lf rf lb rb : float) :
  bounded_state d = true ->
  bounded_sample lf = true -> bounded_sample rf = true ->
  bounded_sample lb = true -> bounded_sample rb = true ->
  bounded_config (logic.logicConfig d) = true ->
  in_range 0 1 (logic.MinGain (logic.logicConfig d)) = true ->
  PrimFloat.leb 1 (logic.MaxBoost (logic.logicConfig d)) = true ->
  let run := logic.applyLogicSteering d lf rf lb rb in
  let maxIdx := snd (logic.findMax (fst run)) in
  let g := gainsOf d (dominanceRatio (logic.logicEnv (fst run))) maxIdx in
  let o0 := (lf * logic.at0 g)%float in
  let o1 := (rf * logic.at1 g)%float in
  let o2 := (lb * logic.at2 g)%float in
  let o3 := (rb * logic.at3 g)%float in
  let pre := (lf * lf + rf * rf + lb * lb + rb * rb)%float in
  let post := (o0 * o0 + o1 * o1 + o2 * o2 + o3 * o3)%float in
  let scale := PrimFloat.sqrt (pre / post) in
  PrimFloat.leb 1 (logic.get4 g maxIdx) = true /\
  (forall j, 0 <= j < 4 ->
     PrimFloat.leb 0 (logic.get4 g j) = true /\
     PrimFloat.leb (logic.get4 g j) (logic.get4 g maxIdx) = true) /\
  (snd run = (lf, rf, lb, rb) \/
   snd run = (o0, o1, o2, o3) \/
   (PrimFloat.leb 0 scale = true /\
    snd run = (o0 * scale, o1 * scale, o2 * scale, o3 * scale)%float)).
Proof.
  intros Hd Hlf Hrf Hlb Hrb Hc Hmin Hmax. cbv zeta.
  rewrite applyLogicSteering_cases. cbv zeta.
  pose proof (followed_bounds d lf rf lb rb Hd Hlf Hrf Hlb Hrb) as (E0 & E1 & E2 & E3).
  cbv zeta in E0, E1, E2, E3.
  set (d' := followed d lf rf lb rb) in *.
  pose proof (dominance_number _ E0 E1 E2 E3) as Hdom.
  assert (forall b (x y : float * float * float * float),
            fst (if b : bool then (d', x) else (d', y)) = d') as Hfst
      by (intros []; reflexivity).
  rewrite !Hfst.
  destruct (findMax_index d') as [Hidx _].
  destruct (gains_ordered d (dominanceRatio (logic.logicEnv d')) (snd (logic.findMax d'))
              Hc Hmin Hmax Hdom Hidx) as [G1 Gall].
  cbv zeta in G1, Gall.
  split; [exact G1|]. split; [exact Gall|].
  destruct (leb (dominanceRatio (logic.logicEnv d'))
                (logic.DominanceThreshold (logic.logicConfig d))); cbn [snd];
    [left; reflexivity|right].
  rewrite steer_cases. cbv zeta.
  cbn [add sub mul div sqrt ltb logicEpsilon float64_arith].
  change (gainsOf d' (dominanceRatio (logic.logicEnv d')) (snd (logic.findMax d')))
    with (gainsOf d (dominanceRatio (logic.logicEnv d')) (snd (logic.findMax d'))).
  pose proof (gains_bounds d (dominanceRatio (logic.logicEnv d'))
                (snd (logic.findMax d')) Hc Hdom) as (G0' & G1' & G2' & G3').
  cbv zeta in G0', G1', G2', G3'.
  set (g := gainsOf d (dominanceRatio (logic.logicEnv d')) (snd (logic.findMax d'))) in *.
  pose proof (sample_finite _ Hlf) as Flf. pose proof (sample_finite _ Hrf) as Frf.
  pose proof (sample_finite _ Hlb) as Flb. pose proof (sample_finite _ Hrb) as Frb.
  assert (Binary64.finite_below 496 (lf * logic.at0 g)%float) as O0
      by (apply (Binary64.mul_finite 399 96); [assumption..|lia|lia|lia]).
  assert (Binary64.finite_below 496 (rf * logic.at1 g)%float) as O1
      by (apply (Binary64.mul_finite 399 96); [assumption..|lia|lia|lia]).
  assert (Binary64.finite_below 496 (lb * logic.at2 g)%float) as O2
      by (apply (Binary64.mul_finite 399 96); [assumption..|lia|lia|lia]).
  assert (Binary64.finite_below 496 (rb * logic.at3 g)%float) as O3
      by (apply (Binary64.mul_finite 399 96); [assumption..|lia|lia|lia]).
  set (o0 := (lf * logic.at0 g)%float) in *.
  set (o1 := (rf * logic.at1 g)%float) in *.
  set (o2 := (lb * logic.at2 g)%float) in *.
  set (o3 := (rb * logic.at3 g)%float) in *.
  pose proof (energy_bounds 399 799 805 lf rf lb rb Flf Frf Flb Frb
                ltac:(lia) ltac:(lia) ltac:(lia)) as Hpre.
  pose proof (energy_bounds 496 993 999 o0 o1 o2 o3 O0 O1 O2 O3
                ltac:(lia) ltac:(lia) ltac:(lia)) as Hpost.
  set (pre := (lf * lf + rf * rf + lb * lb + rb * rb)%float) in *.
  set (post := (o0 * o0 + o1 * o1 + o2 * o2 + o3 * o3)%float) in *.
  destruct (PrimFloat.ltb 1e-12 pre) eqn:Gpre;
    destruct (PrimFloat.ltb 1e-12 post) eqn:Gpost;
    cbn [andb logic.at0 logic.at1 logic.at2 logic.at3];
    try (left; reflexivity).
  right. split; [|reflexivity].
  eapply Binary64.nonneg_leb. exact (scale_bounds pre post Hpre Hpost Gpost).
Qed.

(** With [MinGain = 1e-20] the cut [1 - (1 - MinGain) * 1] rounds to 0: at
    full intensity the samples of the other channels come back as 0. *)
Lemma steering_can_silence :
  let d := {| logic.logicEnv := logic.Array4 0 0 0 0;
              logic.attackCoeff := 0.5;
              logic.releaseCoeff := 0.75;
              logic.logicConfig :=
                {| logic.Enabled := true;
                   logic.AttackTime := 0.01;
                   logic.ReleaseTime := 0.2;
                   logic.DominanceThreshold := 0.55;
                   logic.MaxBoost := 1.6;
                   logic.MinGain := 1e-20 |} |}%float in
  let run := (logic.applyLogicSteering d 1e5 1e-4 0 0)%float in
  logic.at1 (gainsOf d (dominanceRatio (logic.logicEnv (fst run)))
               (snd (logic.findMax (fst run)))) = 0%float /\
  snd (fst (fst (snd run))) = 0%float.
Proof. vm_compute. split; reflexivity. Qed.

Lemma steering_gains_are_ordered_witness :
  let d := steering_state (logic.Array4 0 0 0 0)%float in
  let run := (logic.applyLogicSteering d 0.5 (-0.1) 0.1 0.1)%float in
  let g := gainsOf d (dominanceRatio (logic.logicEnv (fst run)))
             (snd (logic.findMax (fst run))) in
  snd (logic.findMax (fst run)) = 0 /\
  PrimFloat.leb 1 (logic.at0 g) = true /\
  PrimFloat.leb 0 (logic.at1 g) = true /\
  PrimFloat.leb (logic.at1 g) (logic.at0 g) = true /\
  PrimFloat.ltb (snd (fst (fst (snd run)))) 0 = true.
Proof.
  intros d run g.
  destruct (steering_gains_are_ordered d 0.5 (-0.1) 0.1 0.1)%float as (H1 & H2 & _);
    try reflexivity.
  split; [vm_compute; reflexivity|].
  split; [exact H1|].
  destruct (H2 1 ltac:(vm_compute; split; [discriminate|reflexivity])) as [H3 H4].
  split; [exact H3|]. split; [exact H4|]. vm_compute. reflexivity.
Defined.

(** ** The separation metrics *)

Section Metrics.
Context {libm : Libm} {Plan : Type} {fft : AlgoFFT Plan}.

Lemma in_range_tests (target n : Z) :
  0 <= target < n -> (target <? 0) || (target >=? n) = false.
Proof.
  intros H. rewrite geb_ltb.
  destruct (Z.ltb_spec target 0); destruct (Z.ltb_spec target n); try lia; reflexivity.
Qed.

Lemma out_of_range_tests (target n : Z) :
  target < 0 \/ n <= target -> (target <? 0) || (target >=? n) = true.
Proof.
  intros H. rewrite geb_ltb.
  destruct (Z.ltb_spec target 0); destruct (Z.ltb_spec target n); try lia; reflexivity.
Qed.

(** The band-limited RMS returns when the plans of the FFT library are
    total: the bins it reads, [0 .. n/2], exist. *)
Lemma bandRMS_returns {total : AlgoFFT_total fft}
    (samples : list float) (sampleRate : Z) (fmin fmax : float) :
  exists r, metrics.bandRMS samples sampleRate fmin fmax = Returned r.
Proof.
  unfold metrics.bandRMS. cbv zeta.
  destruct ((len samples =? 0) || (sampleRate <=? 0)) eqn:Hdegenerate; [eauto|].
  apply orb_false_iff in Hdegenerate as [Hn _]. apply Z.eqb_neq in Hn.
  pose proof (len_nonneg samples) as Hlen.
  match goal with
  | |- context [if PrimFloat.ltb ?a ?b then Returned 0%float else _] =>
      destruct (PrimFloat.ltb a b); [eauto|]
  end.
  destruct (NewPlan64 (len samples)) as [plan|] eqn:Hplan; [|eauto].
  rewrite make_ok by assumption. cbn [bind].
  destruct (toComplex_ok (len samples) samples
              (replicate (Z.to_nat (len samples)) czero)) as (input & -> & Hinput).
  { lia. } { rewrite len_replicate; lia. }
  rewrite len_replicate in Hinput by assumption. cbn [bind].
  destruct (Forward_total (len samples) plan input Hplan Hinput) as (freq & -> & Hfreq).
  match goal with
  | |- context [for_range 0 ?hi (always ?body) ?s] =>
      destruct (for_range_always (fun _ _ => True) 0 hi body s) as (sumPow & -> & _)
  end.
  - pose proof (Z.quot_pos (len samples) 2 ltac:(lia) ltac:(lia)). lia.
  - exact I.
  - intros k sumPow Hk _. unfold metrics.bandPower. cbv zeta.
    destruct (_ || _); [eauto|].
    assert (len samples `quot` 2 < len samples) as Hhalf
        by (apply Z.quot_lt; lia).
    rewrite (index_len czero freq k) by lia. cbn [bind].
    destruct (_ || _); eauto.
  - cbn [bind]. eauto.
Qed.

Lemma rmsWithOptions_returns {total : AlgoFFT_total fft}
    (samples : list float) (options : metrics.SeparationOptions) :
  exists r, metrics.rmsWithOptions samples options = Returned r.
Proof.
  unfold metrics.rmsWithOptions.
  destruct (_ && _); [eauto|]. destruct (_ <=? _); [eauto|]. apply bandRMS_returns.
Qed.

End Metrics.

(** X22.  With an FFT library whose plans are total, [ChannelSeparation] and
    [ChannelPairSeparation] return for every argument: ragged or empty
    channels, any target, any options.  A target outside the decoded
    channels gives the all-zero result. *)
Theorem separation_metrics_never_panic {libm : Libm} {Plan : Type}
    {fft : AlgoFFT Plan} {total : AlgoFFT_total fft}
    (decoded : list (list float)) (target leak : Z)
    (options : metrics.SeparationOptions) :
  (exists r, metrics.ChannelSeparation decoded target options = Returned r) /\
  (exists r, metrics.ChannelPairSeparation decoded target leak options = Returned r) /\
  (target < 0 \/ len decoded <= target ->
   metrics.ChannelSeparation decoded target options
   = Returned {| metrics.TargetRMS := 0; metrics.LeakRMS := 0;
                 metrics.SeparationDB := 0 |}).
Proof.
  split; [|split].
  - unfold metrics.ChannelSeparation.
    destruct ((target <? 0) || (target >=? len decoded)) eqn:Hrange; [eauto|].
    apply orb_false_iff in Hrange as [Hlo Hhi]. rewrite geb_ltb in Hhi.
    apply Z.ltb_ge in Hlo. apply negb_false_iff, Z.ltb_lt in Hhi.
    rewrite (index_len [] decoded target) by lia. cbn [bind].
    destruct (rmsWithOptions_returns (default [] (decoded !! Z.to_nat target)) options)
      as (t & ->). cbn [bind].
    destruct (for_range_always (fun _ _ => True) 0 (len decoded)
                (metrics.leakStep decoded target options) (0%float, 0))
      as (st & -> & _); [apply len_nonneg|exact I| |cbn [bind]; eauto].
    intros ch st Hch _. unfold metrics.leakStep.
    destruct (ch =? target); [eauto|].
    rewrite (index_len [] decoded ch) by lia. cbn [bind].
    destruct (rmsWithOptions_returns (default [] (decoded !! Z.to_nat ch)) options)
      as (r & ->). cbn [bind].
    destruct (String.eqb _ _); [eauto|]. destruct (PrimFloat.ltb _ _); eauto.
  - unfold metrics.ChannelPairSeparation.
    destruct ((target <? 0) || (target >=? len decoded)) eqn:Ht; [eauto|].
    destruct ((leak <? 0) || (leak >=? len decoded)) eqn:Hl; [eauto|].
    apply orb_false_iff in Ht as [Htlo Hthi]. rewrite geb_ltb in Hthi.
    apply Z.ltb_ge in Htlo. apply negb_false_iff, Z.ltb_lt in Hthi.
    apply orb_false_iff in Hl as [Hllo Hlhi]. rewrite geb_ltb in Hlhi.
    apply Z.ltb_ge in Hllo. apply negb_false_iff, Z.ltb_lt in Hlhi.
    rewrite (index_len [] decoded target) by lia. cbn [bind].
    destruct (rmsWithOptions_returns (default [] (decoded !! Z.to_nat target)) options)
      as (t & ->). cbn [bind].
    rewrite (index_len [] decoded leak) by lia. cbn [bind].
    destruct (rmsWithOptions_returns (default [] (decoded !! Z.to_nat leak)) options)
      as (l & ->). cbn [bind]. eauto.
  - intros Hout. unfold metrics.ChannelSeparation.
    rewrite out_of_range_tests by assumption. reflexivity.
Qed.

Lemma separation_metrics_never_panic_witness :
  exists r,
    metrics.ChannelSeparation (libm := standin.libm) (fft := standin.fft)
      [[1; -1; 1]; []; [0.5]]%float 0
      {| metrics.leakMode := metrics.LeakModeAvg; metrics.SampleRate := 8;
         metrics.FMin := 1; metrics.FMax := 3 |}
    = Returned r.
Proof.
  apply (separation_metrics_never_panic (libm := standin.libm) (fft := standin.fft)
           _ 0 0).
Defined.

(** X23.  [ChannelPairSeparation] returns the all-zero result when the target
    or the leak index is outside the decoded channels; with both inside
    and no band limits it reports the RMS of the two channels and their
    separation; and exchanging target and leak exchanges the two RMS
    values. *)
Theorem ChannelPairSeparation_cases {libm : Libm} {Plan : Type} {fft : AlgoFFT Plan}
    (decoded : list (list float)) (target leak : Z)
    (options : metrics.SeparationOptions) :
  (target < 0 \/ len decoded <= target \/ leak < 0 \/ len decoded <= leak ->
   metrics.ChannelPairSeparation decoded target leak options
   = Returned {| metrics.TargetRMS := 0; metrics.LeakRMS := 0;
                 metrics.SeparationDB := 0 |}) /\
  (0 <= target < len decoded -> 0 <= leak < len decoded ->
   PrimFloat.leb (metrics.FMin options) 0 = true ->
   PrimFloat.leb (metrics.FMax options) 0 = true ->
   let t := metrics.rms (default [] (decoded !! Z.to_nat target)) in
   let l := metrics.rms (default [] (decoded !! Z.to_nat leak)) in
   metrics.ChannelPairSeparation decoded target leak options
   = Returned {| metrics.TargetRMS := t; metrics.LeakRMS := l;
                 metrics.SeparationDB := metrics.separationDB t l |}) /\
  (forall r r',
     metrics.ChannelPairSeparation decoded target leak options = Returned r ->
     metrics.ChannelPairSeparation decoded leak target options = Returned r' ->
     metrics.TargetRMS r = metrics.LeakRMS r' /\
     metrics.LeakRMS r = metrics.TargetRMS r').
Proof.
  split; [|split].
  - intros Hout. unfold metrics.ChannelPairSeparation.
    destruct (Z.lt_ge_cases target 0) as [Ht|Ht];
      [rewrite out_of_range_tests by lia; reflexivity|].
    destruct (Z.lt_ge_cases target (len decoded)) as [Ht'|Ht'];
      [|rewrite out_of_range_tests by lia; reflexivity].
    rewrite in_range_tests by lia.
    rewrite out_of_range_tests by lia. reflexivity.
  - intros Ht Hl Hmin Hmax t l. unfold metrics.ChannelPairSeparation.
    rewrite !in_range_tests by assumption.
    rewrite (index_len [] decoded target), (index_len [] decoded leak) by assumption.
    unfold metrics.rmsWithOptions. rewrite Hmin, Hmax. reflexivity.
  - intros r r'. unfold metrics.ChannelPairSeparation.
    destruct ((target <? 0) || (target >=? len decoded));
      destruct ((leak <? 0) || (leak >=? len decoded));
      try (intros [= <-] [= <-]; split; reflexivity).
    intros H H'.
    unbind H as st Hst. unbind H as t Ht. unbind H as sl Hsl. unbind H as l Hl.
    unbind H' as sl' Hsl'. unbind H' as l' Hl'.
    unbind H' as st' Hst'. unbind H' as t' Ht'.
    injection H as <-. injection H' as <-. cbn.
    assert (st' = st) as -> by congruence. assert (sl' = sl) as -> by congruence.
    split; congruence.
Qed.

(** X24.  Every leak mode other than "avg" is treated as "max": the result is
    the one for [LeakModeMax]. *)
Theorem other_leak_modes_mean_max {libm : Libm} {Plan : Type} {fft : AlgoFFT Plan}
    (decoded : list (list float)) (target : Z) (options : metrics.SeparationOptions) :
  metrics.leakMode options <> metrics.LeakModeAvg ->
  metrics.ChannelSeparation decoded target options
  = metrics.ChannelSeparation decoded target
      {| metrics.leakMode := metrics.LeakModeMax;
         metrics.SampleRate := metrics.SampleRate options;
         metrics.FMin := metrics.FMin options;
         metrics.FMax := metrics.FMax options |}.
Proof.
  intros Hmode. apply String.eqb_neq in Hmode.
  unfold metrics.ChannelSeparation.
  destruct ((target <? 0) || (target >=? len decoded)); [reflexivity|].
  destruct (index decoded target) as [samples|]; [|reflexivity]. cbn [bind].
  change (metrics.rmsWithOptions samples
            {| metrics.leakMode := metrics.LeakModeMax;
               metrics.SampleRate := metrics.SampleRate options;
               metrics.FMin := metrics.FMin options;
               metrics.FMax := metrics.FMax options |})
    with (metrics.rmsWithOptions samples options).
  destruct (metrics.rmsWithOptions samples options) as [t|]; [|reflexivity].
  cbn [bind].
  rewrite (for_range_ext 0 (len decoded)
             (always (metrics.leakStep decoded target options))
             (always (metrics.leakStep decoded target
                        {| metrics.leakMode := metrics.LeakModeMax;
                           metrics.SampleRate := metrics.SampleRate options;
                           metrics.FMin := metrics.FMin options;
                           metrics.FMax := metrics.FMax options |}))).
  - cbn [metrics.leakMode]. rewrite Hmode. reflexivity.
  - intros ch st. unfold always, metrics.leakStep.
    destruct (ch =? target); [reflexivity|].
    destruct (index decoded ch) as [s|]; [|reflexivity]. cbn [bind].
    change (metrics.rmsWithOptions s
              {| metrics.leakMode := metrics.LeakModeMax;
                 metrics.SampleRate := metrics.SampleRate options;
                 metrics.FMin := metrics.FMin options;
                 metrics.FMax := metrics.FMax options |})
      with (metrics.rmsWithOptions s options).
    cbn [metrics.leakMode]. rewrite Hmode. reflexivity.
Qed.

Lemma other_leak_modes_mean_max_witness :
  metrics.ChannelSeparation (libm := standin.libm) (fft := standin.fft)
    [[1; -1]; [0.1; -0.1]; [0.2; 0.2]]%float 0
    {| metrics.leakMode := "peak"%string; metrics.SampleRate := 0;
       metrics.FMin := 0; metrics.FMax := 0 |}
  = metrics.ChannelSeparation (libm := standin.libm) (fft := standin.fft)
      [[1; -1]; [0.1; -0.1]; [0.2; 0.2]]%float 0
      {| metrics.leakMode := metrics.LeakModeMax; metrics.SampleRate := 0;
         metrics.FMin := 0; metrics.FMax := 0 |}.
Proof.
  apply (other_leak_modes_mean_max (libm := standin.libm) (fft := standin.fft)
           [[1; -1]; [0.1; -0.1]; [0.2; 0.2]]%float 0
           {| metrics.leakMode := "peak"%string; metrics.SampleRate := 0;
              metrics.FMin := 0; metrics.FMax := 0 |}).
  discriminate.
Defined.

(** X25.  In every leak mode but "avg" the leak RMS that [ChannelSeparation]
    returns is never NaN, whatever the samples: it starts at 0 and is
    replaced only by an RMS that compares greater. *)
Theorem max_leak_is_never_nan {libm : Libm} {Plan : Type} {fft : AlgoFFT Plan}
    (decoded : list (list float)) (target : Z) (options : metrics.SeparationOptions)
    (r : metrics.SeparationResult) :
  metrics.leakMode options <> metrics.LeakModeAvg ->
  metrics.ChannelSeparation decoded target options = Returned r ->
  PrimFloat.is_nan (metrics.LeakRMS r) = false.
Proof.
  intros Hmode. apply String.eqb_neq in Hmode. unfold metrics.ChannelSeparation.
  destruct ((target <? 0) || (target >=? len decoded)).
  { intros [= <-]. reflexivity. }
  intros H. unbind H as samples Hsamples. unbind H as t Ht. unbind H as st Hst.
  injection H as <-. cbn. rewrite Hmode. cbn [andb].
  apply (for_range_returned (fun _ (s : float * Z) => PrimFloat.is_nan (fst s) = false))
    in Hst; [exact Hst|apply len_nonneg|reflexivity|].
  intros ch s s' _ Hs Hstep. unfold metrics.leakStep in Hstep.
  destruct (ch =? target); [now injection Hstep as <-|].
  unbind Hstep as smp Hsmp. unbind Hstep as x Hx. rewrite Hmode in Hstep.
  destruct (PrimFloat.ltb (fst s) x) eqn:Hlt; injection Hstep as <-; [|exact Hs].
  cbn [fst]. now apply ltb_not_nan in Hlt.
Qed.

Lemma max_leak_is_never_nan_witness :
  exists r,
    metrics.ChannelSeparation (libm := standin.libm) (fft := standin.fft)
      [[1; -1]; [nan; 0.5]; [0.25; 0.25]]%float 0
      {| metrics.leakMode := metrics.LeakModeMax; metrics.SampleRate := 0;
         metrics.FMin := 0; metrics.FMax := 0 |} = Returned r /\
    PrimFloat.is_nan (metrics.LeakRMS r) = false.
Proof.
  eexists. split; [vm_compute; reflexivity|].
  apply (max_leak_is_never_nan (libm := standin.libm) (fft := standin.fft)
           [[1; -1]; [nan; 0.5]; [0.25; 0.25]]%float 0
           {| metrics.leakMode := metrics.LeakModeMax; metrics.SampleRate := 0;
              metrics.FMin := 0; metrics.FMax := 0 |});
    [discriminate|vm_compute; reflexivity].
Defined.

(** X26.  A target that is the only channel has no leak: in either leak mode
    the leak RMS is 0 (the average is not divided by a count of zero),
    and the separation is [+Inf] when the target RMS exceeds the epsilon
    and 0 otherwise. *)
Theorem lone_channel_has_no_leak {libm : Libm} {Plan : Type} {fft : AlgoFFT Plan}
    (samples : list float) (options : metrics.SeparationOptions)
    (r : metrics.SeparationResult) :
  metrics.ChannelSeparation [samples] 0 options = Returned r ->
  metrics.rmsWithOptions samples options = Returned (metrics.TargetRMS r) /\
  metrics.LeakRMS r = 0%float /\
  metrics.SeparationDB r =
    if PrimFloat.ltb metrics.separationEpsilon (metrics.TargetRMS r)
    then infinity else 0%float.
Proof.
  unfold metrics.ChannelSeparation.
  change ((0 <? 0) || (0 >=? len [samples])) with false.
  change (index [samples] 0) with (Returned samples). cbn [bind].
  intros H. unbind H as t Ht.
  assert (for_range 0 (len [samples])
            (always (metrics.leakStep [samples] 0 options)) (0%float, 0)
          = Returned (0%float, 0)) as Hloop by reflexivity.
  rewrite Hloop in H. cbn [bind fst snd] in H.
  change (0 >? 0) with false in H. rewrite andb_false_r in H.
  injection H as <-. cbn.
  split; [exact Ht|]. split; [reflexivity|].
  unfold metrics.separationDB.
  change (PrimFloat.ltb metrics.separationEpsilon 0) with false.
  change (PrimFloat.leb 0 metrics.separationEpsilon) with true.
  cbn [andb]. rewrite andb_true_r. reflexivity.
Qed.

Lemma lone_channel_has_no_leak_witness :
  exists r,
    metrics.ChannelSeparation (libm := standin.libm) (fft := standin.fft)
      [[1; -1]]%float 0
      {| metrics.leakMode := metrics.LeakModeAvg; metrics.SampleRate := 0;
         metrics.FMin := 0; metrics.FMax := 0 |} = Returned r /\
    metrics.LeakRMS r = 0%float /\ metrics.SeparationDB r = infinity.
Proof.
  assert (metrics.ChannelSeparation (libm := standin.libm) (fft := standin.fft)
            [[1; -1]]%float 0
            {| metrics.leakMode := metrics.LeakModeAvg; metrics.SampleRate := 0;
               metrics.FMin := 0; metrics.FMax := 0 |}
          = Returned {| metrics.TargetRMS := 1; metrics.LeakRMS := 0;
                        metrics.SeparationDB := infinity |}) as Hrun
      by (vm_compute; reflexivity).
  eexists. split; [exact Hrun|].
  destruct (lone_channel_has_no_leak (libm := standin.libm) (fft := standin.fft)
              _ _ _ Hrun) as (_ & Hleak & Hdb).
  split; [exact Hleak|exact Hdb].
Defined.

(** X27.  A band limit without a sample rate: when the test
    [FMin <= 0 && FMax <= 0] fails ([FMin] or [FMax] is positive, or
    NaN) and [SampleRate] is not positive, every RMS is reported as 0,
    so for a target among the decoded channels the target RMS and the
    separation are 0 whatever the samples. *)
Theorem band_limit_needs_sample_rate {libm : Libm} {Plan : Type} {fft : AlgoFFT Plan}
    (decoded : list (list float)) (target : Z) (options : metrics.SeparationOptions)
    (r : metrics.SeparationResult) :
  PrimFloat.leb (metrics.FMin options) 0 && PrimFloat.leb (metrics.FMax options) 0
    = false ->
  metrics.SampleRate options <= 0 ->
  0 <= target < len decoded ->
  metrics.ChannelSeparation decoded target options = Returned r ->
  metrics.TargetRMS r = 0%float /\ metrics.SeparationDB r = 0%float.
Proof.
  intros Hband Hrate Htarget. unfold metrics.ChannelSeparation.
  rewrite in_range_tests by assumption.
  intros H. unbind H as samples Hsamples. unbind H as t Ht. unbind H as st Hst.
  unfold metrics.rmsWithOptions in Ht. rewrite Hband in Ht.
  destruct (Z.leb_spec (metrics.SampleRate options) 0); [|lia].
  injection Ht as <-. injection H as <-. cbn.
  split; [reflexivity|].
  unfold metrics.separationDB.
  change (PrimFloat.ltb metrics.separationEpsilon 0) with false.
  rewrite andb_false_r. reflexivity.
Qed.

Lemma band_limit_needs_sample_rate_witness :
  exists r,
    metrics.ChannelSeparation (libm := standin.libm) (fft := standin.fft)
      [[1; -1]; [0.1; -0.1]]%float 0
      {| metrics.leakMode := metrics.LeakModeMax; metrics.SampleRate := 0;
         metrics.FMin := 100; metrics.FMax := 0 |} = Returned r /\
    metrics.TargetRMS r = 0%float /\ metrics.SeparationDB r = 0%float.
Proof.
  eexists. split; [vm_compute; reflexivity|].
  apply (band_limit_needs_sample_rate (libm := standin.libm) (fft := standin.fft)
           [[1; -1]; [0.1; -0.1]]%float 0
           {| metrics.leakMode := metrics.LeakModeMax; metrics.SampleRate := 0;
              metrics.FMin := 100; metrics.FMax := 0 |});
    [vm_compute; reflexivity|simpl; lia|unfold len; simpl; lia|vm_compute; reflexivity].
Defined.

(** ** The sample clamps of the WAV writers *)

(** X28.  What the writers put in the file.  The float32 writer's clamp gives a
    number in [[-1, 1]] for every input: values above 1 (with [+Inf])
    become 1, values below -1 (with [-Inf]) become -1, NaN becomes 0,
    and a value in [[-1, 1]] is kept.  The 16-bit writer's clamp does
    the same on numbers, but hands a NaN on to the integer conversion. *)
Theorem written_samples_are_clamped (val : float) :
  PrimFloat.is_nan (wav.clampFloat32 val) = false /\
  PrimFloat.is_infinity (wav.clampFloat32 val) = false /\
  PrimFloat.leb (-1) (wav.clampFloat32 val) = true /\
  PrimFloat.leb (wav.clampFloat32 val) 1 = true /\
  (PrimFloat.leb (-1) val = true -> PrimFloat.leb val 1 = true ->
   wav.clampFloat32 val = val) /\
  (PrimFloat.is_nan val = false -> wav.clampPCM16 val = wav.clampFloat32 val) /\
  (PrimFloat.is_nan val = true ->
   wav.clampFloat32 val = 0%float /\ PrimFloat.is_nan (wav.clampPCM16 val) = true).
Proof.
  unfold wav.clampFloat32, wav.clampPCM16. cbv zeta.
  assert (PrimFloat.is_nan val = true ->
          PrimFloat.ltb 1 val = false /\ PrimFloat.ltb val (-1) = false) as Hnancmp.
  { intros Hn. apply is_nan_Prim2SF in Hn. rewrite !ltb_spec, Hn.
    split; [reflexivity|]. unfold SpecFloat.SFltb.
    destruct (Prim2SF (-1)) as [| | |]; reflexivity. }
  destruct (PrimFloat.ltb 1 val) eqn:Habove.
  { change (PrimFloat.ltb 1 (-1)) with false. cbv iota.
    split; [|split; [|split; [|split; [|split; [|split]]]]]; try reflexivity.
    - intros _ Hle. apply leb_not_ltb in Hle. congruence.
    - intros Hn. destruct (Hnancmp Hn). congruence. }
  destruct (PrimFloat.ltb val (-1)) eqn:Hbelow.
  { split; [|split; [|split; [|split; [|split; [|split]]]]]; try reflexivity.
    - intros Hle _. apply leb_not_ltb in Hle. congruence.
    - intros Hn. destruct (Hnancmp Hn). congruence. }
  destruct (PrimFloat.is_nan val) eqn:Hnan; cbn [orb].
  { split; [|split; [|split; [|split; [|split; [|split]]]]];
      try reflexivity; try discriminate.
    - intros Hle _. apply leb_not_nan in Hle as [_ Hle]. congruence.
    - intros _. split; reflexivity. }
  destruct (PrimFloat.is_infinity val) eqn:Hinf.
  { apply infinity_outside_unit in Hinf. destruct Hinf; congruence. }
  split; [|split; [|split; [|split; [|split; [|split]]]]];
    try assumption; try reflexivity; try discriminate.
  - apply ltb_false_leb; [reflexivity|assumption|assumption].
  - apply ltb_false_leb; [assumption|reflexivity|assumption].
Qed.
